(** * LSB steganography transport of the D-IBAN repository

    Shallow embedding of the bit queue, the pixel writer [encodeLSB], the
    pixel reader [PixelBitReader] and the frame layer of
    [encodeAddressInImage] / [decodeAddressFromImage] (steganography
    module, version 2.0), followed by the properties of the framing
    protocol.

    Conventions.
    - A JavaScript number that is only ever an integer is a [Z]; the bit
      operators [<<], [>>], [&], [|] coerce their operands with ToInt32
      and the wrap-around is written out in [toInt32].
    - A typed array is a [list Z]; reading past the end gives [undefined]
      (coerced to 0 by the bit operators) and writing past the end is
      ignored, which is what stdpp's list insert does.
    - Array indices, lengths and loop counters are [nat].
    - Loops whose termination is not structural take a fuel argument and
      yield [OutOfFuel] when it is used up; the entry points pass enough
      fuel and this is proved.
    - A string is a [list ascii] and a [BigInt] is a [Z] (modules [DIBAN]
      and [StegCodec], further down); the text that [TextDecoder] makes
      of payload bytes is a list of code points (module [V2]). *)

From Stdlib Require Import ZArith Lia List Bool Ascii.
From stdpp Require Import base numbers list strings.

(** ** JavaScript integer operators *)

Module JS.

Local Open Scope Z_scope.

(** ToInt32: reduction modulo 2^32 into the signed range. *)
Definition toInt32 (z : Z) : Z := (z + 2147483648) mod 4294967296 - 2147483648.

(** [a << k] *)
Definition shl (a k : Z) : Z := toInt32 (Z.shiftl (toInt32 a) (k mod 32)).

(** [a >> k] (sign-propagating) *)
Definition sar (a k : Z) : Z := Z.shiftr (toInt32 a) (k mod 32).

(** [a & b] *)
Definition and (a b : Z) : Z := Z.land (toInt32 a) (toInt32 b).

(** [a | b] *)
Definition or (a b : Z) : Z := Z.lor (toInt32 a) (toInt32 b).

(** Store conversion of a [Uint8ClampedArray] (the type of
    [ImageData.data]) for an integer value. *)
Definition toUint8Clamp (v : Z) : Z := Z.max 0 (Z.min 255 v).

(** Store conversion of a [Uint8Array] for an integer value. *)
Definition toUint8 (v : Z) : Z := v mod 256.

(** [a[i]], for an index in range or for a value that a bit operator
    consumes ([undefined] counts as 0 there). *)
Definition get (a : list Z) (i : nat) : Z := default 0 (a !! i).

End JS.

(** ** Outcomes *)

(** The errors thrown by the steganography module, named after their
    messages. *)
Inductive Error : Type :=
  | ImageTooSmallForData   (* "Image too small for data" (encodeLSB) *)
  | ImageTooSmall          (* "Image too small. Need ... pixels but have ..." *)
  | NotEnoughData          (* "Not enough data in image while reading bytes" *)
  | MagicMarkerNotFound    (* "Magic marker not found" *)
  | InvalidDataLength      (* "Invalid data length" *)
  | UnexpectedDecodePath.  (* "Unexpected decode path" *)

Inductive Res (A : Type) : Type :=
  | Ret (a : A)
  | Throw (e : Error)
  | OutOfFuel.

Arguments Ret {A} a.
Arguments Throw {A} e.
Arguments OutOfFuel {A}.

Definition bind {A B : Type} (m : Res A) (k : A -> Res B) : Res B :=
  match m with
  | Ret a => k a
  | Throw e => Throw e
  | OutOfFuel => OutOfFuel
  end.

Notation "'do' p <- m ; k" := (bind m (fun p => k))
  (at level 10, p pattern, m at level 100, k at level 200).

(** ** BitQueue *)

Record BitQueue : Type := mkBitQueue { bits : list Z }.

Definition newBitQueue : BitQueue := mkBitQueue [].

(** [for (let i = count - 1; i >= 0; i--) this.bits.push((value >> i) & 1)] *)
Fixpoint pushLoop (bs : list Z) (value : Z) (count : nat) : list Z :=
  match count with
  | O => bs
  | S i => pushLoop (bs ++ [JS.and (JS.sar value (Z.of_nat i)) 1%Z]) value i
  end.

Definition pushByte (q : BitQueue) (byte : Z) : BitQueue :=
  mkBitQueue (pushLoop (bits q) byte 8).

Definition pushBitsFromValue (q : BitQueue) (value : Z) (count : nat) : BitQueue :=
  mkBitQueue (pushLoop (bits q) value count).

Definition size (q : BitQueue) : nat := length (bits q).

(** [for (let i = 0; i < n; i++) out = (out << 1) | this.bits.shift()];
    [shift()] on an empty array gives [undefined]. *)
Fixpoint popLoop (n : nat) (out : Z) (bs : list Z) : Z * list Z :=
  match n with
  | O => (out, bs)
  | S n' =>
      match bs with
      | b :: rest => popLoop n' (JS.or (JS.shl out 1%Z) b) rest
      | [] => popLoop n' (JS.or (JS.shl out 1%Z) 0%Z) []
      end
  end.

(** [popBits(n)]: [None] is JavaScript's [null]. *)
Definition popBits (q : BitQueue) (n : nat) : option Z * BitQueue :=
  if size q <? n then (None, q)
  else let '(out, rest) := popLoop n 0%Z (bits q) in (Some out, mkBitQueue rest).

Definition popByte (q : BitQueue) : option Z * BitQueue := popBits q 8.

(** ** PixelBitWriter: [encodeLSB] *)

(** The [else] branch of the 3-bit gather:
    [for (let i = 0; i < 3; i++) { const b = q.popBits(1);
       bits = (bits << 1) | (b === null ? 0 : b); }] *)
Fixpoint popPadded (i : nat) (acc : Z) (q : BitQueue) : Z * BitQueue :=
  match i with
  | O => (acc, q)
  | S i' =>
      let '(b, q') := popBits q 1 in
      popPadded i' (JS.or (JS.shl acc 1%Z) (match b with None => 0%Z | Some v => v end)) q'
  end.

(** "get up to 3 bits": [q.popBits(3)] when at least three bits remain
    (a [null] there would count as 0 in the bit operators that consume
    [bits]), the padded gather otherwise. *)
Definition gather3 (q : BitQueue) : Z * BitQueue :=
  if 3 <=? size q then
    let '(v, q') := popBits q 3 in (default 0%Z v, q')
  else popPadded 3 0%Z q.

(** The four channel stores of one loop iteration
    ([pixels[base] = (pixels[base] & 0xFE) | ((bits >> 2) & 1)] ...
     [pixels[base + 3] = 255]) on a [Uint8ClampedArray]. *)
Definition writePixel (pixels : list Z) (pixelIndex : nat) (v : Z) : list Z :=
  let base := pixelIndex * 4 in
  let pixels :=
    <[base := JS.toUint8Clamp
                (JS.or (JS.and (JS.get pixels base) 254%Z)
                       (JS.and (JS.sar v 2%Z) 1%Z))]> pixels in
  let pixels :=
    <[base + 1 := JS.toUint8Clamp
                    (JS.or (JS.and (JS.get pixels (base + 1)) 254%Z)
                           (JS.and (JS.sar v 1%Z) 1%Z))]> pixels in
  let pixels :=
    <[base + 2 := JS.toUint8Clamp
                    (JS.or (JS.and (JS.get pixels (base + 2)) 254%Z)
                           (JS.and v 1%Z))]> pixels in
  <[base + 3 := JS.toUint8Clamp 255%Z]> pixels.

(** The [while (q.size() > 0)] loop.  [totalPixels] is [pixels.length / 4]
    without rounding, so [pixelIndex >= totalPixels] is
    [pixels.length <= 4 * pixelIndex].  The result is the pixel array as
    the loop leaves it, together with how the loop ended. *)
Fixpoint encodeLSB_loop (fuel : nat) (q : BitQueue) (pixels : list Z)
    (pixelIndex : nat) : list Z * Res unit :=
  match fuel with
  | O => (pixels, OutOfFuel)
  | S fuel' =>
      if 0 <? size q then
        if length pixels <=? 4 * pixelIndex then (pixels, Throw ImageTooSmallForData)
        else
          let '(v, q') := gather3 q in
          encodeLSB_loop fuel' q' (writePixel pixels pixelIndex v) (S pixelIndex)
      else (pixels, Ret tt)
  end.

(** [for (let i = 0; i < dataBytes.length; i++) q.pushByte(dataBytes[i])] *)
Definition pushBytes (q : BitQueue) (dataBytes : list Z) : BitQueue :=
  fold_left pushByte dataBytes q.

Definition encodeLSB (pixels dataBytes : list Z) : list Z * Res unit :=
  let q := pushBytes newBitQueue dataBytes in
  encodeLSB_loop (S (size q)) q pixels 0.

(** ** PixelBitReader *)

Record PixelBitReader : Type := mkReader {
  pixels : list Z;
  pixelIndex : nat;
  q : BitQueue;
  totalPixels : nat
}.

(** [constructor(pixels)]: [totalPixels = Math.floor(pixels.length / 4)]. *)
Definition newReader (px : list Z) : PixelBitReader :=
  mkReader px 0 newBitQueue (length px / 4).

(** The [while (this.q.size() < n)] loop of [_fillBits]. *)
Fixpoint fillBits_loop (fuel : nat) (r : PixelBitReader) (n : nat)
    : Res (bool * PixelBitReader) :=
  if size (q r) <? n then
    if totalPixels r <=? pixelIndex r then Ret (false, r)
    else
      match fuel with
      | O => OutOfFuel
      | S fuel' =>
          let base := pixelIndex r * 4 in
          let b0 := JS.and (JS.get (pixels r) base) 1%Z in
          let b1 := JS.and (JS.get (pixels r) (base + 1)) 1%Z in
          let b2 := JS.and (JS.get (pixels r) (base + 2)) 1%Z in
          let v := JS.or (JS.or (JS.shl b0 2%Z) (JS.shl b1 1%Z)) b2 in
          fillBits_loop fuel'
            (mkReader (pixels r) (S (pixelIndex r))
                      (pushBitsFromValue (q r) v 3) (totalPixels r)) n
      end
  else Ret (true, r).

Definition _fillBits (r : PixelBitReader) (n : nat) : Res (bool * PixelBitReader) :=
  fillBits_loop n r n.

Definition readerPopBits (r : PixelBitReader) (n : nat)
    : Res (option Z * PixelBitReader) :=
  do (ok, r') <- _fillBits r n;
  if ok then
    let '(v, q') := popBits (q r') n in
    Ret (v, mkReader (pixels r') (pixelIndex r') q' (totalPixels r'))
  else Ret (None, r').

Definition readerPopByte (r : PixelBitReader) : Res (option Z * PixelBitReader) :=
  readerPopBits r 8.

(** [readBytes(count)]: [out] is a zero-filled [Uint8Array(count)] that
    the loop fills by index. *)
Fixpoint readBytes_loop (todo i : nat) (out : list Z) (r : PixelBitReader)
    : Res (list Z * PixelBitReader) :=
  match todo with
  | O => Ret (out, r)
  | S todo' =>
      do (b, r') <- readerPopByte r;
      match b with
      | None => Throw NotEnoughData
      | Some v => readBytes_loop todo' (S i) (<[i := JS.toUint8 v]> out) r'
      end
  end.

Definition readBytes (r : PixelBitReader) (count : nat)
    : Res (list Z * PixelBitReader) :=
  readBytes_loop count 0 (replicate count 0%Z) r.

(** ** Frame layer *)

(** [const MAGIC_MARKER = [0x44, 0x4F, 0x47, 0x45]], "DOGE". *)
Definition MAGIC_MARKER : list Z := [68; 79; 71; 69]%Z.

(** [Math.ceil(a / b)] for a natural [a] and a positive [b]. *)
Definition ceil_div (a b : nat) : nat := (a + (b - 1)) / b.

(** [target.set(source, offset)] on a [Uint8Array], for a source that
    fits ([offset + source.length <= target.length]; the other case is a
    RangeError and does not arise in this module). *)
Definition arraySet (target source : list Z) (offset : nat) : list Z :=
  take offset target ++ map JS.toUint8 source ++ drop (offset + length source) target.

(** The frame bytes [full] of [encodeAddressInImage]:
    [MAGIC (4)] + [TYPE (1)] + [LENGTH (2)] + [DATA]. *)
Definition buildFrame (dataTypeByte : Z) (dataBytes : list Z) : list Z :=
  let len := Z.of_nat (length dataBytes) in
  let lengthBytes :=
    [JS.toUint8 (JS.and (JS.sar len 8%Z) 255%Z); JS.toUint8 (JS.and len 255%Z)] in
  let full := replicate (4 + 1 + 2 + length dataBytes) 0%Z in
  let full := arraySet full MAGIC_MARKER 0 in
  let full := <[4 := JS.toUint8 dataTypeByte]> full in
  let full := <[5 := JS.toUint8 (JS.get lengthBytes 0)]> full in
  let full := <[6 := JS.toUint8 (JS.get lengthBytes 1)]> full in
  arraySet full dataBytes 7.

(** The frame bytes [dataToEncode] of the version 1.0 encoder:
    [MAGIC_MARKER (4 bytes)] + [LENGTH (2 bytes)] + [ADDRESS_BYTES]. *)
Definition legacyFrame (addressBytes : list Z) : list Z :=
  let len := Z.of_nat (length addressBytes) in
  let lengthBytes := replicate 2 0%Z in
  let lengthBytes := <[0 := JS.toUint8 (JS.and (JS.sar len 8%Z) 255%Z)]> lengthBytes in
  let lengthBytes := <[1 := JS.toUint8 (JS.and len 255%Z)]> lengthBytes in
  let dataToEncode := replicate (4 + 2 + length addressBytes) 0%Z in
  let dataToEncode := arraySet dataToEncode MAGIC_MARKER 0 in
  let dataToEncode := arraySet dataToEncode lengthBytes 4 in
  arraySet dataToEncode addressBytes 6.

(** [encodeAddressInImage] from the point where the canvas pixels, the
    type byte ([0x01] private key, [0x00] address) and the payload bytes
    are known: frame assembly, capacity check, [encodeLSB].
    [pixelsNeeded > totalPixels] with [totalPixels = pixels.length / 4]
    is [pixels.length < 4 * pixelsNeeded]. *)
Definition encodeAddressInImage (pixels : list Z) (dataTypeByte : Z)
    (dataBytes : list Z) : list Z * Res unit :=
  let full := buildFrame dataTypeByte dataBytes in
  let totalBits := length full * 8 in
  let pixelsNeeded := ceil_div totalBits 3 in
  if length pixels <? 4 * pixelsNeeded then (pixels, Throw ImageTooSmall)
  else encodeLSB pixels full.

(** What frame parsing hands to the payload codecs (UTF-8 / Base58). *)
Record Frame : Type := mkFrame {
  isNewFormat : bool;
  dataTypeByte : Z;
  dataLength : Z;
  dataBytes : list Z
}.

(** [for (let i = 0; i < 4; i++) if (magic[i] !== MAGIC_MARKER[i]) throw ...] *)
Definition magicMatches (magic : list Z) : bool :=
  forallb (fun i => (JS.get magic i =? JS.get MAGIC_MARKER i)%Z) (seq 0 4).

(** [decodeAddressFromImage] from the canvas pixels up to the point where
    the payload bytes are handed to the UTF-8 / Base58 codecs; the codec
    step follows in [V2.decodeAddressFromImage]. *)
Definition decodeAddressFromImage (px : list Z) : Res Frame :=
  let reader := newReader px in
  do (magic, reader) <- readBytes reader 4;
  if negb (magicMatches magic) then Throw MagicMarkerNotFound
  else
    let reader2 := newReader px in
    do (_, reader2) <- readBytes reader2 4;
    do (peek, reader2) <- readBytes reader2 3;
    let firstByte := JS.get peek 0 in
    let lenHi := JS.get peek 1 in
    let lenLo := JS.get peek 2 in
    let possibleLen := JS.or (JS.shl lenHi 8%Z) lenLo in
    if ((firstByte =? 0)%Z || (firstByte =? 1)%Z)
       && (1 <=? possibleLen)%Z && (possibleLen <=? 2000)%Z
    then
      let isNewFormat := true in
      let dataTypeByte := firstByte in
      let dataLength := possibleLen in
      if isNewFormat then
        if (dataLength <? 1)%Z || (2000 <? dataLength)%Z then Throw InvalidDataLength
        else
          do (dataBytes, reader2) <- readBytes reader2 (Z.to_nat dataLength);
          Ret (mkFrame true dataTypeByte dataLength dataBytes)
      else Throw UnexpectedDecodePath
    else
      let dataTypeByte := 0%Z in
      let dataLength := JS.or (JS.shl (JS.get peek 0) 8%Z) (JS.get peek 1) in
      let reader3 := newReader px in
      do (_, reader3) <- readBytes reader3 4;
      do (_, reader3) <- readBytes reader3 2;
      do (dataBytesOld, reader3) <- readBytes reader3 (Z.to_nat dataLength);
      Ret (mkFrame false dataTypeByte dataLength dataBytesOld).

(** ** Vocabulary of the statements *)

Definition bit_ok (b : Z) : Prop := b = 0%Z \/ b = 1%Z.

Definition byte_ok (b : Z) : Prop := (0 <= b < 256)%Z.

(** The unsigned integer written by a bit sequence, first bit most
    significant. *)
Definition bitsValue (bs : list Z) : Z :=
  fold_left (fun acc b => (2 * acc + b)%Z) bs 0%Z.

(** The eight bits of a byte, most significant first. *)
Definition byteBits (b : Z) : list Z :=
  map (fun i => ((b / 2 ^ Z.of_nat i) mod 2)%Z) [7; 6; 5; 4; 3; 2; 1; 0].

Definition bytesBits (l : list Z) : list Z := concat (map byteBits l).

(** [count] bytes cut from the front of a bit sequence. *)
Fixpoint bytesOfBits (count : nat) (bs : list Z) : list Z :=
  match count with
  | O => []
  | S c => bitsValue (take 8 bs) :: bytesOfBits c (drop 8 bs)
  end.

(** The R, G, B low bits of pixel [i]. *)
Definition lsb3 (px : list Z) (i : nat) : list Z :=
  [ JS.and (JS.get px (i * 4)) 1%Z;
    JS.and (JS.get px (i * 4 + 1)) 1%Z;
    JS.and (JS.get px (i * 4 + 2)) 1%Z ].

(** The low bits of the [n] pixels from pixel [a] on, in reading order. *)
Definition lsbStream (px : list Z) (a n : nat) : list Z :=
  concat (map (lsb3 px) (seq a n)).

(** The bits a reader has still to deliver: its queue, then the pixels it
    has not consumed. *)
Definition remaining (r : PixelBitReader) : list Z :=
  bits (q r) ++ lsbStream (pixels r) (pixelIndex r) (totalPixels r - pixelIndex r).

(** CapacityPlanner: [ceil((4 + 1 + 2 + payloadByteLength) * 8 / 3)]. *)
Definition pixelsNeeded (payloadByteLength : nat) : nat :=
  ceil_div ((4 + 1 + 2 + payloadByteLength) * 8) 3.

(** A bit sequence filled up with 0 bits to whole pixels (three bits
    each), as [encodeLSB] writes it. *)
Definition padded3 (bs : list Z) : list Z :=
  bs ++ replicate (ceil_div (length bs) 3 * 3 - length bs) 0%Z.

(** Class invariant of a reader: its queue holds bits. *)
Definition readerOk (r : PixelBitReader) : Prop := Forall bit_ok (bits (q r)).

(** ** Sample carriers *)

(** The reader a read leaves behind ([d] when the read throws). *)
Definition readerAfter (m : Res (list Z * PixelBitReader)) (d : PixelBitReader)
    : PixelBitReader :=
  match m with
  | Ret (_, r) => r
  | _ => d
  end.

(** A 27-pixel carrier holding the private-key payload [1A 2B 3C]. *)
Definition modernCarrier : list Z :=
  fst (encodeAddressInImage (replicate 108 7%Z) 1%Z [26; 43; 60]%Z).

Definition legacyPayload : list Z := [1; 2; 3; 4; 5; 6; 7; 8]%Z.

(** A 40-pixel carrier holding the legacy frame [MAGIC | 00 08 | payload]. *)
Definition legacyBlank : list Z := replicate 160 6%Z.

Abbreviation legacyCarrier := (fst (encodeLSB legacyBlank (legacyFrame legacyPayload))).

(** A 19-pixel carrier holding the legacy frame [MAGIC | 00 00] with no
    payload, followed by zero bits. *)
Definition emptyLegacyCarrier : list Z :=
  fst (encodeLSB (replicate 76 0%Z) (MAGIC_MARKER ++ [0; 0]%Z)).

(** A 19-pixel carrier holding the legacy header [MAGIC | FF FF]: it
    announces 65535 payload bytes and has none. *)
Definition truncatedLegacyCarrier : list Z :=
  fst (encodeLSB (replicate 76 0%Z) (MAGIC_MARKER ++ [255; 255]%Z)).

(** ** Version 1.0 of the steganography module

    The first version of the module packs the same bit stream (three bits
    per pixel, R, G, B low bits, most significant bit first) with integer
    bit buffers instead of a bit queue, does not touch alpha and writes
    the frame [legacyFrame].  [totalPixels] is
    [canvas.width * canvas.height]; the buffer of [getImageData] has four
    elements per pixel.  The promise is rejected where version 2.0
    throws. *)

Module V1.

Inductive Error : Type :=
  | ImageTooSmall          (* "Image too small. Need at least ... pixels, ..." *)
  | MagicMarkerNotFound    (* "Image does not contain encoded Dogecoin address
                               (magic marker not found)" *)
  | InvalidAddressLength.  (* "Invalid address length detected" *)

Inductive Outcome (A : Type) : Type :=
  | Resolved (a : A)
  | Rejected (e : Error)
  | OutOfFuel.

Arguments Resolved {A} a.
Arguments Rejected {A} e.
Arguments OutOfFuel {A}.

(** [encodeBitsIntoPixel(pixelData, pixelIndex, bits, bitCount)] *)
Definition encodeBitsIntoPixel (pixelData : list Z) (pixelIndex : nat)
    (bits : Z) (bitCount : nat) : list Z :=
  let baseIndex := pixelIndex * 4 in
  let pixelData :=
    if 0 <? bitCount then
      let bit0 := JS.and (JS.sar bits 2%Z) 1%Z in
      <[baseIndex := JS.toUint8Clamp
                       (JS.or (JS.and (JS.get pixelData baseIndex) 254%Z) bit0)]> pixelData
    else pixelData in
  let pixelData :=
    if 1 <? bitCount then
      let bit1 := JS.and (JS.sar bits 1%Z) 1%Z in
      <[baseIndex + 1 := JS.toUint8Clamp
                           (JS.or (JS.and (JS.get pixelData (baseIndex + 1)) 254%Z) bit1)]>
        pixelData
    else pixelData in
  if 2 <? bitCount then
    let bit2 := JS.and bits 1%Z in
    <[baseIndex + 2 := JS.toUint8Clamp
                         (JS.or (JS.and (JS.get pixelData (baseIndex + 2)) 254%Z) bit2)]>
      pixelData
  else pixelData.

(** [decodeBitsFromPixel(pixelData, pixelIndex, bitCount)] *)
Definition decodeBitsFromPixel (pixelData : list Z) (pixelIndex : nat)
    (bitCount : nat) : Z :=
  let baseIndex := pixelIndex * 4 in
  let bits := 0%Z in
  let bits :=
    if 0 <? bitCount then
      let bit0 := JS.and (JS.get pixelData baseIndex) 1%Z in
      JS.or bits (JS.shl bit0 2%Z)
    else bits in
  let bits :=
    if 1 <? bitCount then
      let bit1 := JS.and (JS.get pixelData (baseIndex + 1)) 1%Z in
      JS.or bits (JS.shl bit1 1%Z)
    else bits in
  if 2 <? bitCount then
    let bit2 := JS.and (JS.get pixelData (baseIndex + 2)) 1%Z in
    JS.or bits bit2
  else bits.

(** [calculatePixelsNeeded(dataLength)] *)
Definition calculatePixelsNeeded (dataLength : nat) : nat :=
  let totalBytes := 4 + 2 + dataLength in
  let totalBits := totalBytes * 8 in
  ceil_div totalBits 3.

(** The embedding loop
    [while (dataIndex < dataToEncode.length || bitsInBuffer >= 3)]. *)
Fixpoint encodeLoop (fuel : nat) (dataToEncode : list Z) (totalPixels : nat)
    (bitBuffer : Z) (bitsInBuffer dataIndex pixelIndex : nat) (pixelData : list Z)
    : Outcome (list Z) :=
  match fuel with
  | O => OutOfFuel
  | S fuel' =>
      if (dataIndex <? length dataToEncode) || (3 <=? bitsInBuffer) then
        let '(bitBuffer, bitsInBuffer, dataIndex) :=
          if (bitsInBuffer <? 3) && (dataIndex <? length dataToEncode) then
            (JS.or (JS.shl bitBuffer 8%Z) (JS.get dataToEncode dataIndex),
             bitsInBuffer + 8, S dataIndex)
          else (bitBuffer, bitsInBuffer, dataIndex) in
        let '(bitBuffer, bitsInBuffer, pixelIndex, pixelData) :=
          if 3 <=? bitsInBuffer then
            let bitsToEncode :=
              JS.and (JS.sar bitBuffer (Z.of_nat bitsInBuffer - 3)%Z) 7%Z in
            let pixelData := encodeBitsIntoPixel pixelData pixelIndex bitsToEncode 3 in
            let mask :=
              if 3 <? bitsInBuffer
              then (JS.shl 1%Z (Z.of_nat bitsInBuffer - 3) - 1)%Z else 0%Z in
            (JS.and bitBuffer mask, bitsInBuffer - 3, S pixelIndex, pixelData)
          else (bitBuffer, bitsInBuffer, pixelIndex, pixelData) in
        if totalPixels <=? pixelIndex then Resolved pixelData
        else encodeLoop fuel' dataToEncode totalPixels
               bitBuffer bitsInBuffer dataIndex pixelIndex pixelData
      else Resolved pixelData
  end.

(** [encodeAddressInImage] from the point where the canvas pixels and the
    address bytes are known, up to the pixels handed to [putImageData]. *)
Definition encodeAddressInImage (pixelData : list Z) (totalPixels : nat)
    (addressBytes : list Z) : Outcome (list Z) :=
  let dataToEncode := legacyFrame addressBytes in
  let pixelsNeeded := calculatePixelsNeeded (length addressBytes) in
  if totalPixels <? pixelsNeeded then Rejected ImageTooSmall
  else encodeLoop (S (length dataToEncode * 8)) dataToEncode totalPixels
         0%Z 0 0 0 pixelData.

(** The cursor the three reading loops share. *)
Record Cursor : Type := mkCursor {
  bitBuffer : Z;
  bitsInBuffer : nat;
  pixelIndex : nat
}.

(** The inner loop [while (bitsInBuffer >= 8 && byteIndex < count)], which
    moves complete bytes from the bit buffer to [out]. *)
Fixpoint extractLoop (fuel count byteIndex : nat) (bitBuffer : Z)
    (bitsInBuffer : nat) (out : list Z) : Outcome (nat * Z * nat * list Z) :=
  if (8 <=? bitsInBuffer) && (byteIndex <? count) then
    match fuel with
    | O => OutOfFuel
    | S fuel' =>
        let out :=
          <[byteIndex := JS.toUint8
                           (JS.and (JS.sar bitBuffer (Z.of_nat bitsInBuffer - 8)%Z) 255%Z)]>
            out in
        let mask :=
          if 8 <? bitsInBuffer
          then (JS.shl 1%Z (Z.of_nat bitsInBuffer - 8) - 1)%Z else 0%Z in
        extractLoop fuel' count (S byteIndex) (JS.and bitBuffer mask)
          (bitsInBuffer - 8) out
    end
  else Resolved (byteIndex, bitBuffer, bitsInBuffer, out).

(** The reading loop
    [while (byteIndex < count && pixelIndex < canvas.width * canvas.height)],
    written three times in the source (for the magic, the length and the
    address bytes) with [count] 4, 2 and [addressLength]. *)
Fixpoint readLoop (fuel : nat) (pixelData : list Z) (totalPixels count byteIndex : nat)
    (c : Cursor) (out : list Z) : Outcome (Cursor * list Z) :=
  if (byteIndex <? count) && (pixelIndex c <? totalPixels) then
    match fuel with
    | O => OutOfFuel
    | S fuel' =>
        let bits := decodeBitsFromPixel pixelData (pixelIndex c) 3 in
        let bitBuffer := JS.or (JS.shl (bitBuffer c) 3%Z) bits in
        let bitsInBuffer := bitsInBuffer c + 3 in
        let pixelIndex := S (pixelIndex c) in
        match extractLoop bitsInBuffer count byteIndex bitBuffer bitsInBuffer out with
        | Resolved (byteIndex, bitBuffer, bitsInBuffer, out) =>
            readLoop fuel' pixelData totalPixels count byteIndex
              (mkCursor bitBuffer bitsInBuffer pixelIndex) out
        | Rejected e => Rejected e
        | OutOfFuel => OutOfFuel
        end
    end
  else Resolved (c, out).

(** [decodeAddressFromImage] from the canvas pixels up to the address
    bytes handed to the Base58 / UTF-8 codecs. *)
Definition decodeAddressFromImage (pixelData : list Z) (totalPixels : nat)
    : Outcome (list Z) :=
  let magicBytes := replicate 4 0%Z in
  match readLoop (S totalPixels) pixelData totalPixels 4 0 (mkCursor 0%Z 0 0) magicBytes with
  | Resolved (c, magicBytes) =>
      if negb (magicMatches magicBytes) then Rejected MagicMarkerNotFound
      else
        let lengthBytes := replicate 2 0%Z in
        match readLoop (S totalPixels) pixelData totalPixels 2 0 c lengthBytes with
        | Resolved (c, lengthBytes) =>
            let addressLength :=
              JS.or (JS.shl (JS.get lengthBytes 0) 8%Z) (JS.get lengthBytes 1) in
            if (1000 <? addressLength)%Z || (addressLength <? 1)%Z
            then Rejected InvalidAddressLength
            else
              let addressBytes := replicate (Z.to_nat addressLength) 0%Z in
              match readLoop (S totalPixels) pixelData totalPixels
                      (Z.to_nat addressLength) 0 c addressBytes with
              | Resolved (_, addressBytes) => Resolved addressBytes
              | Rejected e => Rejected e
              | OutOfFuel => OutOfFuel
              end
        | Rejected e => Rejected e
        | OutOfFuel => OutOfFuel
        end
  | Rejected e => Rejected e
  | OutOfFuel => OutOfFuel
  end.

End V1.

(** ** The D-IBAN codecs ([diban.js])

    Strings are lists of characters ([list ascii]): the addresses and
    D-IBANs the module handles are ASCII, and [for (const c of str)] then
    visits one character at a time.  A [BigInt] is a [Z]; the module only
    builds non-negative ones, on which [/] and [%] are [Z.quot] and
    [Z.rem].  A [Uint8Array] is a [list Z], as above. *)

Module DIBAN.

Local Open Scope Z_scope.

Definition str (s : string) : list ascii := String.list_ascii_of_string s.

Definition charCode (c : ascii) : Z := Z.of_N (N_of_ascii c).

Definition BASE58 : list ascii :=
  str "123456789ABCDEFGHJKLMNPQRSTUVWXYZabcdefghijkmnopqrstuvwxyz".

Definition BASE36 : list ascii := str "0123456789ABCDEFGHIJKLMNOPQRSTUVWXYZ".

Inductive Error : Type :=
  | InvalidBase58Character
  | InvalidBase36Character
  | SyntaxError              (* thrown by [BigInt(string)] *)
  | InvalidDIBANChecksum.

Inductive Result (A : Type) : Type :=
  | Ok (a : A)
  | Err (e : Error)
  | OutOfFuel.

Arguments Ok {A} a.
Arguments Err {A} e.
Arguments OutOfFuel {A}.

(** *** Built-in functions *)

(** [alphabet.indexOf(c)] for a one-character [c]: the first position of
    [c], or -1. *)
Fixpoint indexOfFrom (i : Z) (alphabet : list ascii) (c : ascii) : Z :=
  match alphabet with
  | [] => -1
  | a :: rest => if Ascii.eqb a c then i else indexOfFrom (i + 1) rest c
  end.

Definition indexOf (alphabet : list ascii) (c : ascii) : Z := indexOfFrom 0 alphabet c.

(** [alphabet[i]] as used in [alphabet[i] + out]: the one-character string
    at position [i]; out of range it is [undefined], which [+] prints. *)
Definition charAt (alphabet : list ascii) (i : Z) : list ascii :=
  match alphabet !! Z.to_nat i with
  | Some c => [c]
  | None => str "undefined"
  end.

(** The digits of a positive [n] in [radix], most significant first, in
    front of [acc]. *)
Fixpoint digitsOf (fuel : nat) (radix n : Z) (acc : list Z) : list Z :=
  match fuel with
  | O => acc
  | S fuel' =>
      if 0 <? n then digitsOf fuel' radix (Z.quot n radix) (Z.rem n radix :: acc)
      else acc
  end.

Definition DIGITS : list ascii := str "0123456789abcdefghijklmnopqrstuvwxyz".

Definition digitChar (d : Z) : ascii := default "0"%char (DIGITS !! Z.to_nat d).

(** [n.toString(radix)] for an integer [n] (a [Number] or a [BigInt]):
    ["0"] for zero, a minus sign for a negative number, no leading zero. *)
Definition toStringRadix (radix n : Z) : list ascii :=
  if n =? 0 then str "0"
  else
    let digits := map digitChar (digitsOf (S (Z.to_nat (Z.log2 (Z.abs n)))) radix (Z.abs n) []) in
    if n <? 0 then "-"%char :: digits else digits.

(** [s.padStart(n, c)] for a one-character [c]. *)
Definition padStart (n : nat) (c : ascii) (s : list ascii) : list ascii :=
  replicate (n - length s) c ++ s.

(** The value of a hexadecimal digit, upper or lower case. *)
Definition hexDigitValue (c : ascii) : option Z :=
  let n := charCode c in
  if (48 <=? n) && (n <=? 57) then Some (n - 48)
  else if (97 <=? n) && (n <=? 102) then Some (n - 87)
  else if (65 <=? n) && (n <=? 70) then Some (n - 55)
  else None.

(** White space and line terminators among the 8-bit characters. *)
Definition isWhiteSpace (c : ascii) : bool :=
  let n := charCode c in
  ((9 <=? n) && (n <=? 13)) || (n =? 32) || (n =? 160).

(** [parseInt(s, 16)] for a string of at most two characters, as
    [hex.substr(i, 2)] is ([None] is [NaN]): leading white space is
    skipped, a sign is read, a [0x] prefix is dropped, and the longest
    prefix of hexadecimal digits is the value. *)
Definition parseInt16 (s : list ascii) : option Z :=
  match s with
  | [] => None
  | [c] => hexDigitValue c
  | c1 :: c2 :: _ =>
      if isWhiteSpace c1 then hexDigitValue c2
      else if Ascii.eqb c1 "+" then hexDigitValue c2
      else if Ascii.eqb c1 "-" then option_map Z.opp (hexDigitValue c2)
      else if Ascii.eqb c1 "0" && (Ascii.eqb c2 "x" || Ascii.eqb c2 "X") then None
      else
        match hexDigitValue c1 with
        | None => None
        | Some d1 =>
            match hexDigitValue c2 with
            | Some d2 => Some (16 * d1 + d2)
            | None => Some d1
            end
        end
  end.

(** Storing a number into a [Uint8Array]: [NaN] becomes 0 and an integer
    is reduced modulo 256. *)
Definition storeUint8 (v : option Z) : Z :=
  match v with
  | None => 0
  | Some n => n mod 256
  end.

(** [BigInt("0x" + hex)]: a [SyntaxError] unless [hex] is one or more
    hexadecimal digits, which white space may follow. *)
Fixpoint parseHexFrom (hex : list ascii) (num : Z) : Result Z :=
  match hex with
  | [] => Ok num
  | c :: rest =>
      match hexDigitValue c with
      | Some d => parseHexFrom rest (num * 16 + d)
      | None => if forallb isWhiteSpace hex then Ok num else Err SyntaxError
      end
  end.

Definition bigIntOfHex (hex : list ascii) : Result Z :=
  match hex with
  | [] => Err SyntaxError
  | c :: _ =>
      match hexDigitValue c with
      | Some _ => parseHexFrom hex 0
      | None => Err SyntaxError
      end
  end.

(** *** Utility functions *)

(** The pairs [hex.substr(i, 2)] for [i = 0, 2, 4, ...], each through
    [parseInt(_, 16)] and the store into the byte array. *)
Fixpoint hexPairs (hex : list ascii) : list Z :=
  match hex with
  | [] => []
  | [c] => [storeUint8 (parseInt16 [c])]
  | c1 :: c2 :: rest => storeUint8 (parseInt16 [c1; c2]) :: hexPairs rest
  end.

(** [hexToBytes]: the array has [floor(hex.length / 2)] elements, so the
    store for the last character of an odd-length string falls outside
    it and is ignored. *)
Definition hexToBytes (hex : list ascii) : list Z :=
  take (length hex / 2)%nat (hexPairs hex).

(** [bytesToHex]: [b.toString(16).padStart(2, '0')] for each byte,
    joined. *)
Definition bytesToHex (bytes : list Z) : list ascii :=
  concat (map (fun b => padStart 2 "0" (toStringRadix 16 b)) bytes).

(** *** Base58 and Base36 *)

(** [for (const c of str) { val = ALPHABET.indexOf(c); if (val < 0) throw
    ...; num = num * base + BigInt(val); }] *)
Fixpoint parseDigits (alphabet : list ascii) (base : Z) (e : Error)
    (s : list ascii) (num : Z) : Result Z :=
  match s with
  | [] => Ok num
  | c :: rest =>
      let val := indexOf alphabet c in
      if val <? 0 then Err e
      else parseDigits alphabet base e rest (num * base + val)
  end.

(** [if (hex.length % 2) hex = "0" + hex] *)
Definition evenPad (hex : list ascii) : list ascii :=
  if (length hex mod 2 =? 0)%nat then hex else "0"%char :: hex.

(** [for (const c of str) { if (c === "1") zeroCount++; else break; }] *)
Fixpoint leadingOnes (s : list ascii) : nat :=
  match s with
  | c :: rest => if Ascii.eqb c "1" then S (leadingOnes rest) else O
  | [] => O
  end.

Definition base58ToBytes (s : list ascii) : Result (list Z) :=
  match parseDigits BASE58 58 InvalidBase58Character s 0 with
  | Ok num =>
      let hex := evenPad (toStringRadix 16 num) in
      let bytes := hexToBytes hex in
      let zeroCount := leadingOnes s in
      Ok (replicate zeroCount 0 ++ bytes)
  | Err e => Err e
  | OutOfFuel => OutOfFuel
  end.

(** [while (num > 0) { r = num % base; num = num / base;
    out = ALPHABET[Number(r)] + out; }] *)
Fixpoint digitLoop (fuel : nat) (alphabet : list ascii) (base num : Z)
    (out : list ascii) : Result (list ascii) :=
  if 0 <? num then
    match fuel with
    | O => OutOfFuel
    | S fuel' =>
        let r := Z.rem num base in
        let num := Z.quot num base in
        let out := charAt alphabet r ++ out in
        digitLoop fuel' alphabet base num out
    end
  else Ok out.

(** [for (const b of bytes) { if (b === 0) out = "1" + out; else break; }] *)
Fixpoint leadingZeros (bytes : list Z) : nat :=
  match bytes with
  | b :: rest => if b =? 0 then S (leadingZeros rest) else O
  | [] => O
  end.

(** The loop divides [num] by 58 until it is zero, which takes no more
    steps than [num] has binary digits: that many are given as fuel. *)
Definition bytesToBase58 (bytes : list Z) : Result (list ascii) :=
  match bigIntOfHex (bytesToHex bytes) with
  | Ok num =>
      match digitLoop (S (Z.to_nat (Z.log2 num))) BASE58 58 num [] with
      | Ok out =>
          let out := replicate (leadingZeros bytes) "1"%char ++ out in
          Ok (match out with [] => str "1" | _ => out end)
      | Err e => Err e
      | OutOfFuel => OutOfFuel
      end
  | Err e => Err e
  | OutOfFuel => OutOfFuel
  end.

Definition bytesToBase36 (bytes : list Z) : Result (list ascii) :=
  match bigIntOfHex (bytesToHex bytes) with
  | Ok num =>
      if num =? 0 then Ok (str "0")
      else digitLoop (S (Z.to_nat (Z.log2 num))) BASE36 36 num []
  | Err e => Err e
  | OutOfFuel => OutOfFuel
  end.

Definition base36ToBytes (s : list ascii) (byteLen : nat) : Result (list Z) :=
  match parseDigits BASE36 36 InvalidBase36Character s 0 with
  | Ok num =>
      let hex := evenPad (toStringRadix 16 num) in
      let bytes := hexToBytes hex in
      Ok (if (length bytes <? byteLen)%nat
          then replicate (byteLen - length bytes) 0 ++ bytes
          else bytes)
  | Err e => Err e
  | OutOfFuel => OutOfFuel
  end.

(** *** More built-in functions *)

(** [s.trim()]: white space and line terminators are removed at both
    ends. *)
Fixpoint trimStart (s : list ascii) : list ascii :=
  match s with
  | c :: rest => if isWhiteSpace c then trimStart rest else s
  | [] => []
  end.

Definition trim (s : list ascii) : list ascii := rev (trimStart (rev (trimStart s))).

(** [s.toLowerCase()] on 8-bit characters: the letters [A-Z] and the
    accented capitals [U+00C0 .. U+00DE] (but the multiplication sign
    [U+00D7]) move by 32. *)
Definition toLowerChar (c : ascii) : ascii :=
  let n := charCode c in
  if ((65 <=? n) && (n <=? 90)) || ((192 <=? n) && (n <=? 222) && negb (n =? 215))
  then ascii_of_N (Z.to_N (n + 32))
  else c.

Definition toLowerCase (s : list ascii) : list ascii := map toLowerChar s.

(** [s.startsWith(p)] *)
Fixpoint startsWith (s p : list ascii) : bool :=
  match p, s with
  | [], _ => true
  | a :: p', c :: s' => Ascii.eqb a c && startsWith s' p'
  | _ :: _, [] => false
  end.

(** [new TextEncoder().encode(s)]: UTF-8; an 8-bit character above 127
    takes two bytes. *)
Definition utf8Encode (s : list ascii) : list Z :=
  concat (map (fun c =>
                 let n := charCode c in
                 if n <? 128 then [n]
                 else [Z.lor 192 (Z.shiftr n 6); Z.lor 128 (Z.land n 63)]) s).

(** [/[0-9]/.test(c)] *)
Definition isDigit (c : ascii) : bool :=
  let n := charCode c in (48 <=? n) && (n <=? 57).

(** [/[A-Z0-9]/i.test(c)] *)
Definition isAlnum (c : ascii) : bool :=
  let n := charCode c in
  isDigit c || ((65 <=? n) && (n <=? 90)) || ((97 <=? n) && (n <=? 122)).

(** [BigInt(d)] for a one-character string: a digit is its value, white
    space is [0n] and anything else is a [SyntaxError]. *)
Definition bigIntOfChar (d : ascii) : Result Z :=
  if isDigit d then Ok (charCode d - 48)
  else if isWhiteSpace d then Ok 0
  else Err SyntaxError.

(** [s.replace(/\s+/g, "")] *)
Definition removeWhiteSpace (s : list ascii) : list ascii :=
  filter (fun c => negb (isWhiteSpace c)) s.

(** [s.match(/.{1,4}/g).join(' ')] for a non-empty [s] without line
    terminators, which [.] does not match: groups of four characters
    with a space between them.  [k] counts the characters of the current
    group. *)
Fixpoint joinGroups (k : nat) (s : list ascii) : list ascii :=
  match s with
  | [] => []
  | c :: rest =>
      if (k =? 4)%nat then " "%char :: c :: joinGroups 1 rest
      else c :: joinGroups (S k) rest
  end.

(** *** IBAN mod-97 checksum *)

(** The first loop of [ibanMod97]: digits are kept, any other character
    becomes the decimal form of its code minus 55 ([A] = 10). *)
Fixpoint convertLoop (s : list ascii) (converted : list ascii) : list ascii :=
  match s with
  | [] => converted
  | c :: rest =>
      convertLoop rest
        (converted ++ (if isDigit c then [c] else toStringRadix 10 (charCode c - 55)))
  end.

(** The second loop: [remainder = (remainder * 10n + BigInt(d)) % 97n]. *)
Fixpoint remainderLoop (converted : list ascii) (remainder : Z) : Result Z :=
  match converted with
  | [] => Ok remainder
  | d :: rest =>
      match bigIntOfChar d with
      | Ok v => remainderLoop rest (Z.rem (remainder * 10 + v) 97)
      | Err e => Err e
      | OutOfFuel => OutOfFuel
      end
  end.

Definition ibanMod97 (s : list ascii) : Result Z :=
  remainderLoop (convertLoop s []) 0.

(** *** Address types *)

Record AddressType : Type := mkAddressType {
  code : list ascii;
  name : list ascii;
  description : list ascii
}.

Definition detectAddressType (dogeAddress : list ascii) : AddressType :=
  let clean := trim dogeAddress in
  if startsWith (toLowerCase clean) (str "doge1") then
    mkAddressType (str "02") (str "P2WPKH")
      (str "Pay-to-Witness-Public-Key-Hash (Bech32)")
  else if startsWith clean (str "9") || startsWith clean (str "A") then
    mkAddressType (str "01") (str "P2SH")
      (str "Pay-to-Script-Hash (Multisig, Time-locked, etc.)")
  else if startsWith clean (str "D") then
    mkAddressType (str "00") (str "P2PKH") (str "Pay-to-Public-Key-Hash")
  else
    mkAddressType (str "00") (str "P2PKH") (str "Pay-to-Public-Key-Hash (detected)").

Definition strEq (a b : list ascii) : bool := bool_decide (a = b).

(** [ADDRESS_TYPES[typeCode] || { name: "Unknown", ... }], as name and
    description. *)
Definition ADDRESS_TYPES (typeCode : list ascii) : list ascii * list ascii :=
  if strEq typeCode (str "00") then (str "P2PKH", str "Pay-to-Public-Key-Hash")
  else if strEq typeCode (str "01")
  then (str "P2SH", str "Pay-to-Script-Hash (Multisig, Time-locked, etc.)")
  else if strEq typeCode (str "02")
  then (str "P2WPKH", str "Pay-to-Witness-Public-Key-Hash (Bech32)")
  else if strEq typeCode (str "03")
  then (str "P2SH-CLTV", str "Pay-to-Script-Hash with CheckLockTimeVerify (Time-locked)")
  else (str "Unknown", str "Unknown address type").

(** *** Encoding, verification, decoding *)

Definition bindR {A B : Type} (m : Result A) (k : A -> Result B) : Result B :=
  match m with
  | Ok a => k a
  | Err e => Err e
  | OutOfFuel => OutOfFuel
  end.

(** The payload of [encodeDIBAN]: for a Bech32 address its UTF-8 bytes,
    padded on the left or cut to 25 bytes; otherwise the Base58 bytes. *)
Definition encodePayload (addressType : AddressType) (dogeAddress : list ascii)
    : Result (list Z) :=
  if strEq (code addressType) (str "02") then
    let payload := utf8Encode dogeAddress in
    if (length payload <? 25)%nat then
      let padded := replicate 25 0 in
      Ok (arraySet padded payload (25 - length payload))
    else if (25 <? length payload)%nat then Ok (take 25 payload)
    else Ok payload
  else base58ToBytes dogeAddress.

(** [encodeDIBAN]: the formatted D-IBAN and the detected type. *)
Definition encodeDIBAN (dogeAddress : list ascii) : Result (list ascii * AddressType) :=
  let addressType := detectAddressType dogeAddress in
  bindR (encodePayload addressType dogeAddress) (fun payload =>
  bindR (bytesToBase36 payload) (fun payload36 =>
  let payload36 := padStart 39 "0" payload36 in
  let type := code addressType in
  let temp := str "DO00" ++ type ++ payload36 in
  let rearr := drop 4 temp ++ take 4 temp in
  bindR (ibanMod97 rearr) (fun mod97 =>
  let checksum := 98 - mod97 in
  let checksum :=
    if checksum <? 10 then "0"%char :: toStringRadix 10 checksum
    else toStringRadix 10 checksum in
  let final := str "DO" ++ checksum ++ type ++ payload36 in
  let formatted := joinGroups 0 final in
  Ok (formatted, addressType)))).

(** [/^DO[0-9]{2}[0-9]{2}[A-Z0-9]{39}$/i.test(clean)] *)
Definition matchesDIBAN (clean : list ascii) : bool :=
  (length clean =? 45)%nat
  && startsWith (map toLowerChar (take 2 clean)) (str "do")
  && forallb isDigit (take 4 (drop 2 clean))
  && forallb isAlnum (drop 6 clean).

Definition verifyDIBAN (diban : list ascii) : Result bool :=
  let clean := removeWhiteSpace diban in
  if negb (matchesDIBAN clean) then Ok false
  else
    let rearr := drop 4 clean ++ take 4 clean in
    bindR (ibanMod97 rearr) (fun r => Ok (r =? 1)).

(** What [decodeDIBAN] returns: for a Base58 type the address, for the
    Bech32 type ["02"] the payload bytes it hands to [TextDecoder]; in
    both cases with the type code, name and description. *)
Inductive Decoded : Type :=
  | Base58Address (address : list ascii) (typeCode typeName typeDescription : list ascii)
  | Bech32Payload (payloadBytes : list Z) (typeCode typeName typeDescription : list ascii).

Definition decodeDIBAN (diban : list ascii) : Result Decoded :=
  bindR (verifyDIBAN diban) (fun valid =>
  if negb valid then Err InvalidDIBANChecksum
  else
    let clean := removeWhiteSpace diban in
    let typeCode := take 2 (drop 4 clean) in
    let payload36 := drop 6 clean in
    bindR (base36ToBytes payload36 25) (fun payloadBytes =>
    let addressType := ADDRESS_TYPES typeCode in
    if strEq typeCode (str "02")
    then Ok (Bech32Payload payloadBytes typeCode (fst addressType) (snd addressType))
    else
      bindR (bytesToBase58 payloadBytes) (fun doge =>
      Ok (Base58Address doge typeCode (fst addressType) (snd addressType))))).

End DIBAN.

(** ** The Base58 helpers of the steganography modules

    [base58ToBytesSteg] and [bytesToBase58Steg] call [diban.js]'s
    functions when that script is loaded ([typeof base58ToBytes !==
    'undefined']) and run a local copy otherwise; [dibanLoaded] is that
    test. *)

Module StegCodec.

Local Open Scope Z_scope.

Import DIBAN.

Definition BASE58_LOCAL : list ascii :=
  str "123456789ABCDEFGHJKLMNPQRSTUVWXYZabcdefghijkmnopqrstuvwxyz".

(** The module's own [hexToBytes]: an empty string gives an empty array
    and a string of odd length is padded first. *)
Definition hexToBytes (hex : list ascii) : list Z :=
  match hex with
  | [] => []
  | _ =>
      let hex := if (length hex mod 2 =? 0)%nat then hex else "0"%char :: hex in
      take (length hex / 2)%nat (hexPairs hex)
  end.

Definition base58ToBytesSteg (dibanLoaded : bool) (s : list ascii) : Result (list Z) :=
  if dibanLoaded then base58ToBytes s
  else
    match s with
    | [] => Ok []
    | _ =>
        match parseDigits BASE58_LOCAL 58 InvalidBase58Character s 0 with
        | Ok num =>
            let hex := evenPad (toStringRadix 16 num) in
            let bytes := hexToBytes hex in
            let zeroCount := leadingOnes s in
            match bytes with
            | [] => Ok (replicate zeroCount 0)
            | _ =>
                let out := replicate (zeroCount + length bytes) 0 in
                Ok (arraySet out bytes zeroCount)
            end
        | Err e => Err e
        | OutOfFuel => OutOfFuel
        end
    end.

(** The local copy shared by both versions of the module. *)
Definition bytesToBase58Local (bytes : list Z) : Result (list ascii) :=
  match bigIntOfHex (bytesToHex bytes) with
  | Ok num =>
      match digitLoop (S (Z.to_nat (Z.log2 num))) BASE58_LOCAL 58 num [] with
      | Ok out =>
          let out := replicate (leadingZeros bytes) "1"%char ++ out in
          Ok (match out with [] => str "1" | _ => out end)
      | Err e => Err e
      | OutOfFuel => OutOfFuel
      end
  | Err e => Err e
  | OutOfFuel => OutOfFuel
  end.

(** Version 1.0. *)
Definition bytesToBase58Steg_v1 (dibanLoaded : bool) (bytes : list Z)
    : Result (list ascii) :=
  if dibanLoaded then bytesToBase58 bytes else bytesToBase58Local bytes.

(** Version 2.0: the local copy returns the empty string for no bytes. *)
Definition bytesToBase58Steg (dibanLoaded : bool) (bytes : list Z)
    : Result (list ascii) :=
  if dibanLoaded then bytesToBase58 bytes
  else
    match bytes with
    | [] => Ok []
    | _ => bytesToBase58Local bytes
    end.

(** *** Input detection and the codec ends of version 2.0 *)

Definition detectAddressType (dogeAddress : list ascii) : AddressType :=
  let clean := trim dogeAddress in
  if startsWith (toLowerCase clean) (str "doge1") then
    mkAddressType (str "02") (str "P2WPKH") (str "Bech32")
  else if startsWith clean (str "9") || startsWith clean (str "A") then
    mkAddressType (str "01") (str "P2SH") (str "P2SH")
  else if startsWith clean (str "D") then
    mkAddressType (str "00") (str "P2PKH") (str "P2PKH")
  else
    mkAddressType (str "00") (str "P2PKH") (str "P2PKH (detected)").

(** [/^[123456789ABCDEFGHJKLMNPQRSTUVWXYZabcdefghijkmnopqrstuvwxyz]+$/.test(s)] *)
Definition isBase58String (s : list ascii) : bool :=
  match s with
  | [] => false
  | _ => forallb (fun c => bool_decide (c ∈ BASE58_LOCAL)) s
  end.

(** [detectPrivateKeyType]: the WIF description, or [None] for [null]. *)
Definition detectPrivateKeyType (dibanLoaded : bool) (privateKey : list ascii)
    : option AddressType :=
  let clean := trim privateKey in
  if (51 <=? length clean)%nat && (length clean <=? 52)%nat then
    if isBase58String clean then
      match base58ToBytesSteg dibanLoaded clean with
      | Ok _ => Some (mkAddressType (str "WIF") (str "WIF") (str "WIF (Base58)"))
      | _ => None
      end
    else None
  else None.

Inductive DataKind : Type := PrivateKeyData | AddressData.

Record DataInfo : Type := mkDataInfo {
  kind : DataKind;
  data : list ascii;
  info : AddressType
}.

Definition detectDataType (dibanLoaded : bool) (input : list ascii) : DataInfo :=
  let clean := trim input in
  match detectPrivateKeyType dibanLoaded clean with
  | Some privateKeyType => mkDataInfo PrivateKeyData clean privateKeyType
  | None => mkDataInfo AddressData clean (detectAddressType clean)
  end.

(** The type byte and the payload bytes [encodeAddressInImage] derives
    from its input. *)
Definition inputBytes (dibanLoaded : bool) (input : list ascii) : Result (Z * list Z) :=
  let dataInfo := detectDataType dibanLoaded input in
  match kind dataInfo with
  | PrivateKeyData =>
      bindR (base58ToBytesSteg dibanLoaded (data dataInfo)) (fun dataBytes =>
      Ok (1, dataBytes))
  | AddressData =>
      if strEq (code (info dataInfo)) (str "02")
      then Ok (0, utf8Encode (data dataInfo))
      else
        bindR (base58ToBytesSteg dibanLoaded (data dataInfo)) (fun dataBytes =>
        Ok (0, dataBytes))
  end.

(** [encodeAddressInImage] from the canvas pixels and the input string to
    the pixels handed to [putImageData]: an error of the codecs comes
    before any pixel is touched. *)
Definition encodeAddressInImage (dibanLoaded : bool) (pixels : list Z)
    (input : list ascii) : Result (list Z * Res unit) :=
  bindR (inputBytes dibanLoaded input) (fun '(dataTypeByte, dataBytes) =>
  Ok (encodeAddressInImage pixels dataTypeByte dataBytes)).

(** What [decodeAddressFromImage] does with a parsed frame: a new-format
    frame with type byte 1 is a private key and goes through
    [bytesToBase58Steg]; every other frame is an address, whose bytes go
    to [TextDecoder] first and are left as they are here. *)
Inductive DecodedData : Type :=
  | PrivateKey (privateKey : Result (list ascii))
  | AddressPayload (dataBytes : list Z).

Definition decodeFrame (dibanLoaded : bool) (f : Frame) : DecodedData :=
  if isNewFormat f && (dataTypeByte f =? 1)
  then PrivateKey (bytesToBase58Steg dibanLoaded (dataBytes f))
  else AddressPayload (dataBytes f).

End StegCodec.

(** ** The whole of [decodeAddressFromImage] (version 2.0)

    After frame parsing the payload bytes go to the codecs: a private key
    through [bytesToBase58Steg]; an address through [TextDecoder] first
    and, unless the text starts with "doge1", through [bytesToBase58Steg].
    [TextDecoder] can yield characters beyond the 8-bit ones, so its text
    is a list of code points here; none of the characters [trim] and
    [startsWith("doge1")] look at lies outside the basic plane, so they
    see code points as they would see UTF-16 units. *)

Module V2.

Local Open Scope Z_scope.

(** *** [TextDecoder] *)

(** State of the UTF-8 decoder of the Encoding standard: the code point
    under construction, the continuation bytes still expected and the
    range allowed for the next byte. *)
Record Utf8State : Type := mkUtf8State {
  codePoint : Z;
  bytesNeeded : nat;
  lowerBoundary : Z;
  upperBoundary : Z
}.

Definition utf8Initial : Utf8State := mkUtf8State 0 0 128 191.

(** A byte that arrives when no continuation byte is expected: what it
    emits and the next state.  [0x00-0x7F] is a character; [0xC2-0xDF],
    [0xE0-0xEF] and [0xF0-0xF4] open a sequence of two, three and four
    bytes ([0xE0], [0xED], [0xF0] and [0xF4] narrow the range of the
    second byte); any other byte is an error, emitted as U+FFFD. *)
Definition utf8Lead (byte : Z) : list Z * Utf8State :=
  if (0 <=? byte) && (byte <=? 127) then ([byte], utf8Initial)
  else if (194 <=? byte) && (byte <=? 223) then
    ([], mkUtf8State (Z.land byte 31) 1 128 191)
  else if (224 <=? byte) && (byte <=? 239) then
    ([], mkUtf8State (Z.land byte 15) 2
           (if byte =? 224 then 160 else 128) (if byte =? 237 then 159 else 191))
  else if (240 <=? byte) && (byte <=? 244) then
    ([], mkUtf8State (Z.land byte 7) 3
           (if byte =? 240 then 144 else 128) (if byte =? 244 then 143 else 191))
  else ([65533], utf8Initial).

(** The decoder run over the bytes.  A byte outside the expected range
    ends the sequence with U+FFFD and is then read again as a first
    byte; a sequence cut off by the end of the input gives U+FFFD. *)
Fixpoint utf8Decode (st : Utf8State) (bytes : list Z) : list Z :=
  match bytes with
  | [] => match bytesNeeded st with O => [] | S _ => [65533] end
  | byte :: rest =>
      match bytesNeeded st with
      | O => let '(out, st') := utf8Lead byte in out ++ utf8Decode st' rest
      | S n =>
          if (lowerBoundary st <=? byte) && (byte <=? upperBoundary st) then
            let cp := Z.lor (Z.shiftl (codePoint st) 6) (Z.land byte 63) in
            match n with
            | O => cp :: utf8Decode utf8Initial rest
            | S _ => utf8Decode (mkUtf8State cp n 128 191) rest
            end
          else
            let '(out, st') := utf8Lead byte in
            65533 :: out ++ utf8Decode st' rest
      end
  end.

(** [new TextDecoder().decode(bytes)]: UTF-8, errors replaced, and a
    byte order mark at the start dropped. *)
Definition textDecode (bytes : list Z) : list Z :=
  match utf8Decode utf8Initial bytes with
  | 65279 :: text => text
  | text => text
  end.

(** White space and line terminators: TAB, LF, VT, FF, CR, the space
    separators of Unicode, LS, PS and U+FEFF. *)
Definition isWhiteSpace (c : Z) : bool :=
  ((9 <=? c) && (c <=? 13)) || (c =? 32) || (c =? 160) || (c =? 5760)
  || ((8192 <=? c) && (c <=? 8202)) || (c =? 8232) || (c =? 8233)
  || (c =? 8239) || (c =? 8287) || (c =? 12288) || (c =? 65279).

(** [text.trim()] *)
Fixpoint trimStart (text : list Z) : list Z :=
  match text with
  | c :: rest => if isWhiteSpace c then trimStart rest else text
  | [] => []
  end.

Definition trim (text : list Z) : list Z := rev (trimStart (rev (trimStart text))).

(** [text.startsWith(p)] *)
Fixpoint startsWith (text p : list Z) : bool :=
  match p, text with
  | [], _ => true
  | a :: p', c :: text' => (a =? c) && startsWith text' p'
  | _ :: _, [] => false
  end.

(** The text as a string of 8-bit characters, when it has no other. *)
Definition toString8 (text : list Z) : option (list ascii) :=
  if forallb (fun c => (0 <=? c) && (c <? 256)) text
  then Some (map (fun c => ascii_of_N (Z.to_N c)) text)
  else None.

(** *** Outcomes *)

(** What the promise is rejected with: an error of the module itself or
    one thrown inside the Base58 codec. *)
Inductive Failure : Type :=
  | Steg (e : Error)
  | Codec (e : DIBAN.Error).

Inductive Outcome (A : Type) : Type :=
  | Resolved (a : A)
  | Rejected (e : Failure)
  | OutOfFuel.

Arguments Resolved {A} a.
Arguments Rejected {A} e.
Arguments OutOfFuel {A}.

(** What the promise resolves to: [privateKey] or [address] with its
    [type] ([dataType] tells the two apart).  A "doge1" text with a
    character beyond U+00FF is given by its code points, and its [type],
    [detectAddressType] of that text, is not computed. *)
Inductive Decoded : Type :=
  | DecodedPrivateKey (privateKey : list ascii) (type : option DIBAN.AddressType)
  | DecodedAddress (address : list ascii) (type : DIBAN.AddressType)
  | DecodedText (address : list Z).

(** *** The codec step *)

Definition doge1 : list Z := map DIBAN.charCode (DIBAN.str "doge1").

(** The address statements, the same in the old-format and in the
    new-format branch: "try UTF-8 first (Bech32) then Base58". *)
Definition decodeAddress (dibanLoaded : bool) (dataBytes : list Z) : Outcome Decoded :=
  let addrUTF8 := trim (textDecode dataBytes) in
  if startsWith addrUTF8 doge1 then
    match toString8 addrUTF8 with
    | Some address =>
        Resolved (DecodedAddress address (StegCodec.detectAddressType address))
    | None => Resolved (DecodedText addrUTF8)
    end
  else
    match StegCodec.bytesToBase58Steg dibanLoaded dataBytes with
    | DIBAN.Ok base58 =>
        Resolved (DecodedAddress base58 (StegCodec.detectAddressType base58))
    | DIBAN.Err e => Rejected (Codec e)
    | DIBAN.OutOfFuel => OutOfFuel
    end.

(** The private-key statements of the new-format branch. *)
Definition decodePrivateKey (dibanLoaded : bool) (dataBytes : list Z) : Outcome Decoded :=
  match StegCodec.bytesToBase58Steg dibanLoaded dataBytes with
  | DIBAN.Ok privateKey =>
      Resolved (DecodedPrivateKey privateKey
                  (StegCodec.detectPrivateKeyType dibanLoaded privateKey))
  | DIBAN.Err e => Rejected (Codec e)
  | DIBAN.OutOfFuel => OutOfFuel
  end.

(** [decodeAddressFromImage] from the canvas pixels to the settled
    promise: frame parsing as above, then the codec step on the payload
    it read.  An old-format frame is always an address. *)
Definition decodeAddressFromImage (dibanLoaded : bool) (pixels : list Z)
    : Outcome Decoded :=
  match decodeAddressFromImage pixels with
  | Ret frame =>
      if isNewFormat frame && (dataTypeByte frame =? 1)
      then decodePrivateKey dibanLoaded (dataBytes frame)
      else decodeAddress dibanLoaded (dataBytes frame)
  | Throw e => Rejected (Steg e)
  | _ => OutOfFuel
  end.

End V2.

(** ** Vocabulary of the codec statements *)

(** The number written by a digit sequence in [base], first digit most
    significant. *)
Definition digitsValue (base : Z) (ds : list Z) : Z :=
  fold_left (fun acc d => (acc * base + d)%Z) ds 0%Z.

Definition digit_ok (base d : Z) : Prop := (0 <= d < base)%Z.

(** No leading zero digit. *)
Definition no_leading_zero (ds : list Z) : Prop := head ds <> Some 0%Z.

(** The character that stands for digit [d] in an alphabet. *)
Definition alphaChar (alphabet : list ascii) (d : Z) : ascii :=
  default "0"%char (alphabet !! Z.to_nat d).

(** The characters [ibanMod97] turns into decimal digits: the digits
    themselves and every character above them, whose code minus 55 is
    positive. *)
Definition iban_char (c : ascii) : Prop := (48 <= DIBAN.charCode c)%Z.

(** The number written by a string of decimal digits. *)
Definition decimalValue (cs : list ascii) : Z :=
  digitsValue 10 (map (fun c => (DIBAN.charCode c - 48)%Z) cs).

(** * Properties *)

(** [Forall byte_ok] / [Forall bit_ok] on a list written out. *)
Ltac forall_literal :=
  repeat (apply List.Forall_cons; [unfold byte_ok, bit_ok; lia|]);
  apply List.Forall_nil.

(** The decoder's format test as a proposition. *)
Ltac format_test_prop H :=
  rewrite !andb_true_iff, orb_true_iff, !Z.eqb_eq, !Z.leb_le in H.

(** ** Integer operators on small values *)

Section JSFacts.

Local Open Scope Z_scope.

Lemma toInt32_small z : -2147483648 <= z < 2147483648 -> JS.toInt32 z = z.
Proof.
  intros H. unfold JS.toInt32. rewrite Z.mod_small by lia. lia.
Qed.

Lemma lor_disjoint a b : Z.land a b = 0 -> Z.lor a b = a + b.
Proof.
  intros H. rewrite (Z.add_nocarry_lxor a b H). symmetry. now apply Z.lxor_lor.
Qed.

Lemma land_1 a : Z.land a 1 = a mod 2.
Proof. change 1 with (Z.ones 1) at 1. now rewrite Z.land_ones by lia. Qed.

Lemma and_1_mod x : JS.and x 1 = JS.toInt32 x mod 2.
Proof. unfold JS.and. rewrite (toInt32_small 1) by lia. apply land_1. Qed.

Lemma and_1_bit x : bit_ok (JS.and x 1).
Proof.
  rewrite and_1_mod. unfold bit_ok.
  pose proof (Z.mod_pos_bound (JS.toInt32 x) 2). lia.
Qed.

Lemma and_1_small x : 0 <= x < 2147483648 -> JS.and x 1 = x mod 2.
Proof. intros H. rewrite and_1_mod, toInt32_small by lia. reflexivity. Qed.

Lemma sar_small x k :
  0 <= x < 2147483648 -> 0 <= k < 32 -> JS.sar x k = x / 2 ^ k.
Proof.
  intros Hx Hk. unfold JS.sar. rewrite toInt32_small by lia.
  rewrite Z.mod_small by lia. apply Z.shiftr_div_pow2. lia.
Qed.

Lemma shl1_or out b :
  0 <= out < 1073741824 -> bit_ok b -> JS.or (JS.shl out 1) b = 2 * out + b.
Proof.
  intros Hout Hb. unfold JS.or, JS.shl.
  change (1 mod 32) with 1.
  rewrite (toInt32_small out) by lia.
  rewrite Z.shiftl_mul_pow2 by lia. change (2 ^ 1) with 2.
  rewrite (toInt32_small (out * 2)) by lia.
  rewrite (toInt32_small (out * 2)) by lia.
  rewrite (toInt32_small b) by (destruct Hb; lia).
  rewrite lor_disjoint; [lia|].
  destruct Hb as [-> | ->]; [apply Z.land_0_r|].
  rewrite land_1. apply Z.mod_mul. lia.
Qed.

End JSFacts.

(** ** BitQueue *)

Section BitQueueFacts.

Local Open Scope Z_scope.

Lemma fold_bits_acc bs acc :
  fold_left (fun a b => 2 * a + b) bs acc
  = acc * 2 ^ Z.of_nat (length bs) + bitsValue bs.
Proof.
  unfold bitsValue. revert acc. induction bs as [|b bs IH]; intros acc.
  - simpl. lia.
  - cbn [fold_left length]. rewrite IH. rewrite (IH (2 * 0 + b)).
    rewrite Nat2Z.inj_succ, Z.pow_succ_r by lia. lia.
Qed.

Lemma bitsValue_cons b bs :
  bitsValue (b :: bs) = b * 2 ^ Z.of_nat (length bs) + bitsValue bs.
Proof.
  unfold bitsValue at 1. cbn [fold_left]. rewrite fold_bits_acc. lia.
Qed.


Lemma bitsValue_bound bs :
  Forall bit_ok bs -> 0 <= bitsValue bs < 2 ^ Z.of_nat (length bs).
Proof.
  induction 1 as [|b bs Hb _ IH].
  - cbn. lia.
  - rewrite bitsValue_cons. cbn [length].
    rewrite Nat2Z.inj_succ, Z.pow_succ_r by lia.
    destruct Hb as [-> | ->]; lia.
Qed.

Lemma popLoop_spec n : forall (k : nat) out bs,
  Forall bit_ok bs -> (n <= length bs)%nat ->
  0 <= out < 2 ^ Z.of_nat k -> (k + n <= 31)%nat ->
  popLoop n out bs
  = (out * 2 ^ Z.of_nat n + bitsValue (take n bs), drop n bs).
Proof.
  induction n as [|n IH]; intros k out bs Hbs Hlen Hout Hk.
  - cbn [popLoop]. rewrite take_0, drop_0.
    change (bitsValue []) with 0. change (2 ^ Z.of_nat 0) with 1.
    f_equal. lia.
  - destruct bs as [|b rest]; [cbn in Hlen; lia|].
    inversion Hbs as [|? ? Hb Hrest]; subst.
    cbn [popLoop take drop].
    assert (2 ^ Z.of_nat k <= 2 ^ 30) by (apply Z.pow_le_mono_r; lia).
    rewrite shl1_or by (trivial; lia).
    rewrite (IH (S k)); trivial.
    + f_equal. rewrite bitsValue_cons.
      rewrite length_take, Nat.min_l by (cbn in Hlen; lia).
      rewrite Nat2Z.inj_succ, Z.pow_succ_r by lia. lia.
    + cbn in Hlen. lia.
    + rewrite Nat2Z.inj_succ, Z.pow_succ_r by lia.
      destruct Hb as [-> | ->]; lia.
    + lia.
Qed.

Lemma popBits_enough (qu : BitQueue) (n : nat) :
  Forall bit_ok (bits qu) -> (n <= size qu)%nat -> (n <= 31)%nat ->
  popBits qu n
  = (Some (bitsValue (take n (bits qu))), mkBitQueue (drop n (bits qu))).
Proof.
  intros Hwf Hn H31. unfold popBits.
  destruct (Nat.ltb_spec (size qu) n) as [Hlt|_]; [lia|].
  rewrite (popLoop_spec n 0 0 (bits qu)); trivial; try (cbn; lia).
Qed.

Lemma popBits_short (qu : BitQueue) (n : nat) :
  (size qu < n)%nat -> popBits qu n = (None, qu).
Proof.
  intros Hn. unfold popBits.
  destruct (Nat.ltb_spec (size qu) n) as [_|Hge]; [reflexivity|lia].
Qed.

Lemma pushLoop_spec count : forall bs value,
  0 <= value < 2147483648 -> (count <= 31)%nat ->
  pushLoop bs value count
  = bs ++ map (fun i => (value / 2 ^ Z.of_nat i) mod 2) (rev (seq 0 count)).
Proof.
  induction count as [|i IH]; intros bs value Hv Hc.
  - cbn. now rewrite app_nil_r.
  - cbn [pushLoop]. rewrite IH by lia.
    rewrite seq_S, rev_app_distr. cbn [rev app map Nat.add].
    rewrite <- app_assoc. cbn [app]. do 3 f_equal.
    rewrite sar_small by lia.
    apply and_1_small.
    split; [apply Z.div_pos; lia|].
    apply Z.le_lt_trans with value; [|lia].
    apply Z.div_le_upper_bound; [lia|].
    assert (1 <= 2 ^ Z.of_nat i) by (apply (Z.pow_le_mono_r 2 0); lia).
    nia.
Qed.

Lemma pushByte_spec (qu : BitQueue) (b : Z) :
  byte_ok b -> bits (pushByte qu b) = bits qu ++ byteBits b.
Proof.
  intros Hb. unfold pushByte. cbn [bits].
  rewrite pushLoop_spec by (unfold byte_ok in Hb; lia). reflexivity.
Qed.

Lemma byteBits_length b : length (byteBits b) = 8%nat.
Proof. reflexivity. Qed.

Lemma byteBits_ok b : Forall bit_ok (byteBits b).
Proof.
  unfold byteBits. apply Forall_map, Forall_forall. intros i _.
  unfold bit_ok. pose proof (Z.mod_pos_bound (b / 2 ^ Z.of_nat i) 2). lia.
Qed.

Lemma byteBits_value b : byte_ok b -> bitsValue (byteBits b) = b.
Proof.
  unfold byte_ok, byteBits, bitsValue. intros Hb.
  cbn [map fold_left].
  change (2 ^ Z.of_nat 7) with 128. change (2 ^ Z.of_nat 6) with 64.
  change (2 ^ Z.of_nat 5) with 32. change (2 ^ Z.of_nat 4) with 16.
  change (2 ^ Z.of_nat 3) with 8. change (2 ^ Z.of_nat 2) with 4.
  change (2 ^ Z.of_nat 1) with 2. change (2 ^ Z.of_nat 0) with 1.
  Z.div_mod_to_equations. lia.
Qed.

End BitQueueFacts.

(** ** The pixel writer *)

Section WriterFacts.

Lemma ceil3_step a : 0 < a -> ceil_div a 3 = S (ceil_div (a - 3) 3).
Proof.
  intros Ha. unfold ceil_div. cbn [Nat.sub].
  destruct (Nat.le_gt_cases 3 a) as [H3|H3].
  - replace (a + 2) with ((a - 3 + 2) + 1 * 3) by lia.
    rewrite Nat.div_add by lia. lia.
  - replace (a - 3) with 0 by lia. cbn [Nat.add].
    assert (Ha' : a = 1 \/ a = 2) by lia. destruct Ha' as [-> | ->]; reflexivity.
Qed.

Lemma ceil3_0 : ceil_div 0 3 = 0.
Proof. reflexivity. Qed.

Lemma popLoop_rest n : forall out bs, snd (popLoop n out bs) = drop n bs.
Proof.
  induction n as [|n IH]; intros out bs; [now rewrite drop_0|].
  destruct bs as [|b rest]; cbn [popLoop]; rewrite IH; [apply drop_nil|reflexivity].
Qed.

Lemma popBits_rest (qu : BitQueue) n :
  bits (snd (popBits qu n)) = if size qu <? n then bits qu else drop n (bits qu).
Proof.
  unfold popBits. destruct (size qu <? n); [reflexivity|].
  pose proof (popLoop_rest n 0%Z (bits qu)) as H.
  destruct (popLoop n 0%Z (bits qu)) as [out rest]. exact H.
Qed.

Lemma popPadded_rest i : forall acc (qu : BitQueue),
  bits (snd (popPadded i acc qu)) = drop i (bits qu).
Proof.
  induction i as [|i IH]; intros acc qu; [now rewrite drop_0|].
  cbn [popPadded].
  pose proof (popBits_rest qu 1) as H.
  destruct (popBits qu 1) as [b q'] eqn:E. cbn [snd] in H.
  rewrite IH, H. unfold size.
  destruct (bits qu) as [|b0 rest]; [cbn; now rewrite ?drop_nil|].
  cbn. now rewrite drop_0.
Qed.

Lemma gather3_rest (qu : BitQueue) :
  bits (snd (gather3 qu)) = drop 3 (bits qu).
Proof.
  unfold gather3. destruct (Nat.leb_spec 3 (size qu)) as [H|H].
  - pose proof (popBits_rest qu 3) as Hr.
    destruct (popBits qu 3) as [v q']. cbn [snd] in *. rewrite Hr.
    destruct (Nat.ltb_spec (size qu) 3); [lia|reflexivity].
  - apply popPadded_rest.
Qed.

(** The value gathered for one pixel: the next three bits, missing ones
    read as 0. *)
Lemma gather3_value (qu : BitQueue) :
  Forall bit_ok (bits qu) -> 0 < size qu ->
  fst (gather3 qu) = bitsValue (take 3 (bits qu ++ [0; 0]%Z)).
Proof.
  intros Hwf Hpos. unfold gather3.
  destruct (Nat.leb_spec 3 (size qu)) as [H|H].
  - rewrite popBits_enough by (trivial; lia). cbn [fst default].
    unfold size in H. now rewrite take_app_le by lia.
  - unfold size in *. destruct qu as [bs]. cbn [bits] in *.
    destruct bs as [|b0 [|b1 [|b2 bs]]]; cbn [length] in *; try lia.
    + inversion Hwf as [|? ? H0 _]; subst.
      destruct H0 as [-> | ->]; reflexivity.
    + inversion Hwf as [|? ? H0 Hwf']; subst.
      inversion Hwf' as [|? ? H1 _]; subst.
      destruct H0 as [-> | ->], H1 as [-> | ->]; reflexivity.
Qed.

End WriterFacts.

Section PixelStoreFacts.

Local Open Scope Z_scope.

Lemma land_254_low l : 0 <= l < 256 -> Z.land l 254 = l - l mod 2.
Proof.
  intros Hl.
  assert (Hall : forallb (fun n => Z.land (Z.of_nat n) 254 =? Z.of_nat n - Z.of_nat n mod 2)
                   (seq 0 256) = true) by (vm_compute; reflexivity).
  rewrite forallb_forall in Hall.
  specialize (Hall (Z.to_nat l)).
  rewrite Z2Nat.id in Hall by lia.
  apply Z.eqb_eq, Hall, in_seq. lia.
Qed.

Lemma and_254 x :
  exists m, JS.and x 254 = 2 * m /\ 0 <= m <= 127.
Proof.
  unfold JS.and. rewrite (toInt32_small 254) by lia.
  set (y := JS.toInt32 x).
  assert (E : Z.land y 254 = Z.land (y mod 256) 254).
  { change 256 with (2 ^ 8). rewrite <- Z.land_ones by lia.
    rewrite <- Z.land_assoc. reflexivity. }
  rewrite E. pose proof (Z.mod_pos_bound y 256 ltac:(lia)) as Hb.
  rewrite land_254_low by lia.
  exists (y mod 256 / 2). Z.div_mod_to_equations. lia.
Qed.

(** What a channel holds after [p = (p & 0xFE) | bit]: a byte whose low
    bit is [bit]; the clamping store leaves the value as computed. *)
Lemma stored_channel x bit :
  bit_ok bit ->
  let v := JS.toUint8Clamp (JS.or (JS.and x 254) bit) in
  v = JS.or (JS.and x 254) bit /\ byte_ok v /\ JS.and v 1 = bit.
Proof.
  intros Hbit. destruct (and_254 x) as (m & Em & Hm). rewrite Em.
  assert (Eor : JS.or (2 * m) bit = 2 * m + bit).
  { unfold JS.or. rewrite (toInt32_small (2 * m)) by lia.
    rewrite (toInt32_small bit) by (destruct Hbit; lia).
    apply lor_disjoint. destruct Hbit as [-> | ->]; [apply Z.land_0_r|].
    rewrite land_1, Z.mul_comm. apply Z.mod_mul. lia. }
  rewrite Eor. cbv zeta. unfold JS.toUint8Clamp, byte_ok.
  assert (0 <= bit <= 1) by (destruct Hbit; lia).
  rewrite Z.min_r, Z.max_r by lia.
  repeat split; try lia.
  rewrite and_1_small by lia. Z.div_mod_to_equations. lia.
Qed.

Lemma gathered_bits b0 b1 b2 :
  bit_ok b0 -> bit_ok b1 -> bit_ok b2 ->
  let v := bitsValue [b0; b1; b2] in
  JS.and (JS.sar v 2) 1 = b0 /\ JS.and (JS.sar v 1) 1 = b1 /\ JS.and v 1 = b2.
Proof.
  intros [-> | ->] [-> | ->] [-> | ->]; repeat split; reflexivity.
Qed.

End PixelStoreFacts.

Section WritePixelFacts.

Lemma get_insert_eq (l : list Z) i v : i < length l -> JS.get (<[i := v]> l) i = v.
Proof. intros H. unfold JS.get. now rewrite list_lookup_insert_eq. Qed.

Lemma get_insert_ne (l : list Z) i j v : i <> j -> JS.get (<[i := v]> l) j = JS.get l j.
Proof. intros H. unfold JS.get. now rewrite list_lookup_insert_ne. Qed.

Lemma writePixel_length px k v : length (writePixel px k v) = length px.
Proof. unfold writePixel. now rewrite !length_insert. Qed.

Lemma writePixel_other px k v j :
  j < k * 4 \/ k * 4 + 4 <= j -> writePixel px k v !! j = px !! j.
Proof.
  intros H. unfold writePixel. cbv zeta.
  rewrite !list_lookup_insert_ne by lia. reflexivity.
Qed.

Lemma writePixel_alpha px k v :
  k * 4 + 3 < length px -> writePixel px k v !! (k * 4 + 3) = Some 255%Z.
Proof.
  intros H. unfold writePixel. cbv zeta.
  rewrite list_lookup_insert_eq by (rewrite !length_insert; lia). reflexivity.
Qed.

Lemma writePixel_lsb px k b0 b1 b2 :
  bit_ok b0 -> bit_ok b1 -> bit_ok b2 -> k * 4 + 2 < length px ->
  lsb3 (writePixel px k (bitsValue [b0; b1; b2])) k = [b0; b1; b2].
Proof.
  intros H0 H1 H2 Hk.
  destruct (gathered_bits b0 b1 b2 H0 H1 H2) as (E0 & E1 & E2).
  unfold lsb3, writePixel. cbv zeta.
  rewrite !(get_insert_ne _ (k * 4 + 3)) by lia.
  rewrite !(get_insert_ne _ (k * 4 + 2) (k * 4)) by lia.
  rewrite !(get_insert_ne _ (k * 4 + 2) (k * 4 + 1)) by lia.
  rewrite !(get_insert_ne _ (k * 4 + 1) (k * 4)) by lia.
  rewrite !get_insert_eq by (rewrite ?length_insert; lia).
  rewrite E0, E1, E2.
  f_equal; [|f_equal; [|f_equal]]; now apply stored_channel.
Qed.

End WritePixelFacts.

(** ** The writing loop *)

Section EncodeLoopFacts.

Lemma gather3_size (qu : BitQueue) : size (snd (gather3 qu)) = size qu - 3.
Proof. unfold size. now rewrite gather3_rest, length_drop. Qed.

(** Which pixels the loop touches, how it ends, and what it leaves in the
    alpha channel, for any queue content. *)
Lemma encodeLSB_loop_frame fuel : forall (qu : BitQueue) px k,
  size qu < fuel ->
  let n := ceil_div (size qu) 3 in
  let res := encodeLSB_loop fuel qu px k in
  length (fst res) = length px /\
  (forall j, j < k * 4 \/ (k + n) * 4 <= j -> fst res !! j = px !! j) /\
  (forall i, k <= i < k + n -> i * 4 + 3 < length px -> snd res = Ret tt ->
             fst res !! (i * 4 + 3) = Some 255%Z) /\
  snd res = (if decide (n = 0 \/ (k + n - 1) * 4 < length px)
             then Ret tt else Throw ImageTooSmallForData).
Proof.
  induction fuel as [|fuel IH]; intros qu px k Hfuel; [lia|].
  cbv zeta. cbn [encodeLSB_loop].
  destruct (Nat.ltb_spec 0 (size qu)) as [Hpos|Hzero].
  2:{ replace (size qu) with 0 by lia. rewrite ceil3_0. cbn [fst snd].
      split; [reflexivity|]. split; [reflexivity|]. split; [intros; lia|].
      destruct (decide _) as [_|Hn]; [reflexivity|]. exfalso. apply Hn. now left. }
  rewrite (ceil3_step (size qu)) by trivial.
  destruct (Nat.leb_spec (length px) (4 * k)) as [Hfull|Hroom].
  { cbn [fst snd]. repeat split; trivial.
    - intros i _ _ Habs. discriminate Habs.
    - destruct (decide _) as [Hy|_]; [lia|reflexivity]. }
  pose proof (gather3_size qu) as Hsz.
  destruct (gather3 qu) as [v q'] eqn:Eg. cbn [snd] in Hsz.
  specialize (IH q' (writePixel px k v) (S k) ltac:(lia)).
  cbv zeta in IH. rewrite Hsz in IH. rewrite writePixel_length in IH.
  set (n' := ceil_div (size qu - 3) 3) in *.
  destruct IH as (Hlen & Hfr & Hal & Hres).
  split; [exact Hlen|]. split; [|split].
  - intros j Hj. rewrite Hfr by lia. apply writePixel_other. lia.
  - intros i Hi Hin Hok.
    destruct (decide (i = k)) as [->|Hne].
    + rewrite Hfr by lia. now apply writePixel_alpha.
    + apply Hal; trivial. lia.
  - rewrite Hres.
    destruct (decide (n' = 0 \/ _)) as [H1|H1], (decide (S n' = 0 \/ _)) as [H2|H2];
      trivial; exfalso.
    + apply H2. right. destruct H1 as [H1|H1]; [rewrite H1; lia|].
      replace (k + S n' - 1) with (S k + n' - 1) by lia. exact H1.
    + apply H1. destruct H2 as [H2|H2]; [lia|].
      destruct (decide (n' = 0)); [now left|right].
      replace (S k + n' - 1) with (k + S n' - 1) by lia. exact H2.
Qed.

Lemma lsb3_agree px px' i :
  (forall j, i * 4 <= j < i * 4 + 3 -> px' !! j = px !! j) ->
  lsb3 px' i = lsb3 px i.
Proof.
  intros H. unfold lsb3, JS.get. now rewrite !H by lia.
Qed.


Lemma lsbStream_S px a n :
  lsbStream px a (S n) = lsb3 px a ++ lsbStream px (S a) n.
Proof. reflexivity. Qed.

Lemma lsbStream_add px a n m :
  lsbStream px a (n + m) = lsbStream px a n ++ lsbStream px (a + n) m.
Proof.
  unfold lsbStream. now rewrite seq_app, map_app, concat_app.
Qed.

Lemma lsbStream_length px a n : length (lsbStream px a n) = n * 3.
Proof.
  revert a. induction n as [|n IH]; intros a; [reflexivity|].
  rewrite lsbStream_S, length_app, IH. cbn. lia.
Qed.

Lemma lsbStream_ok px a n : Forall bit_ok (lsbStream px a n).
Proof.
  revert a. induction n as [|n IH]; intros a; [constructor|].
  rewrite lsbStream_S. apply Forall_app. split; [|apply IH].
  unfold lsb3. do 3 (constructor; [apply and_1_bit|]). constructor.
Qed.

Lemma first3 bs :
  Forall bit_ok bs -> 0 < length bs ->
  exists b0 b1 b2, take 3 (bs ++ [0; 0]%Z) = [b0; b1; b2] /\
    bit_ok b0 /\ bit_ok b1 /\ bit_ok b2 /\
    [b0; b1; b2] ++ padded3 (drop 3 bs) = padded3 bs.
Proof.
  intros Hbs Hpos.
  assert (Hz : bit_ok 0%Z) by now left.
  destruct bs as [|b0 [|b1 [|b2 bs]]]; cbn [length] in Hpos; [lia|..].
  - inversion Hbs; subst. exists b0, 0%Z, 0%Z. repeat split; trivial.
  - inversion Hbs as [|? ? ? Hbs']; subst. inversion Hbs'; subst.
    exists b0, b1, 0%Z. repeat split; trivial.
  - inversion Hbs as [|? ? ? Hbs']; subst. inversion Hbs' as [|? ? ? Hbs'']; subst.
    inversion Hbs''; subst.
    exists b0, b1, b2. repeat split; trivial.
    unfold padded3. cbn [drop length app].
    rewrite (ceil3_step (S (S (S (length bs))))) by lia.
    cbn [Nat.sub]. rewrite Nat.sub_0_r, drop_0.
    do 5 f_equal; lia.
Qed.

(** The low bits of the written pixels spell the queue content, padded
    to whole pixels. *)
Lemma encodeLSB_loop_stream fuel : forall (qu : BitQueue) px k,
  Forall bit_ok (bits qu) -> size qu < fuel ->
  (k + ceil_div (size qu) 3) * 4 <= length px ->
  lsbStream (fst (encodeLSB_loop fuel qu px k)) k (ceil_div (size qu) 3)
  = padded3 (bits qu).
Proof.
  induction fuel as [|fuel IH]; intros qu px k Hwf Hfuel Hcap; [lia|].
  cbn [encodeLSB_loop].
  destruct (Nat.ltb_spec 0 (size qu)) as [Hpos|Hzero].
  2:{ unfold size in *. destruct (bits qu); [reflexivity|cbn in Hzero; lia]. }
  rewrite (ceil3_step (size qu)) in * by trivial.
  destruct (Nat.leb_spec (length px) (4 * k)) as [Hfull|Hroom]; [lia|].
  pose proof (gather3_size qu) as Hsz.
  pose proof (gather3_rest qu) as Hrest.
  pose proof (gather3_value qu Hwf Hpos) as Hval.
  destruct (gather3 qu) as [v q'] eqn:Eg. cbn [fst snd] in *.
  destruct (first3 (bits qu) Hwf Hpos) as (b0 & b1 & b2 & E3 & H0 & H1 & H2 & Epad).
  rewrite E3 in Hval. subst v.
  assert (Hwf' : Forall bit_ok (bits q')) by (rewrite Hrest; now apply Forall_drop).
  pose proof (encodeLSB_loop_frame fuel q' (writePixel px k (bitsValue [b0; b1; b2]))
                (S k) ltac:(lia)) as Hframe.
  cbv zeta in Hframe. destruct Hframe as (_ & Hfr & _).
  rewrite lsbStream_S. rewrite <- Hsz.
  rewrite IH; trivial; try lia.
  2:{ rewrite writePixel_length, Hsz. lia. }
  rewrite (lsb3_agree (writePixel px k (bitsValue [b0; b1; b2]))).
  2:{ intros j Hj. apply Hfr. lia. }
  rewrite writePixel_lsb by (trivial; lia).
  rewrite Hrest. exact Epad.
Qed.

End EncodeLoopFacts.

(** ** The pixel reader *)

Section ReaderFacts.

Lemma push3_bits (qu : BitQueue) b0 b1 b2 :
  bit_ok b0 -> bit_ok b1 -> bit_ok b2 ->
  bits (pushBitsFromValue qu (JS.or (JS.or (JS.shl b0 2%Z) (JS.shl b1 1%Z)) b2) 3)
  = bits qu ++ [b0; b1; b2].
Proof.
  intros [-> | ->] [-> | ->] [-> | ->];
    unfold pushBitsFromValue; cbn [bits pushLoop];
    rewrite <- !app_assoc; reflexivity.
Qed.

Lemma newReader_remaining px :
  remaining (newReader px) = lsbStream px 0 (length px / 4).
Proof. unfold remaining, newReader. cbn. now rewrite Nat.sub_0_r. Qed.

Lemma newReader_ok px : readerOk (newReader px).
Proof. constructor. Qed.

Lemma remaining_ok r : readerOk r -> Forall bit_ok (remaining r).
Proof.
  intros H. unfold remaining. apply Forall_app. split; [exact H|apply lsbStream_ok].
Qed.

Lemma fillBits_loop_spec fuel : forall r n,
  readerOk r -> n <= size (q r) + 3 * fuel ->
  exists ok r',
    fillBits_loop fuel r n = Ret (ok, r') /\ readerOk r' /\
    remaining r' = remaining r /\
    (if ok then n <= size (q r') else length (remaining r) < n).
Proof.
  induction fuel as [|fuel IH]; intros r n Hok Hfuel.
  - cbn [fillBits_loop].
    destruct (Nat.ltb_spec (size (q r)) n) as [Hlt|Hge]; [lia|].
    exists true, r. auto.
  - cbn [fillBits_loop].
    destruct (Nat.ltb_spec (size (q r)) n) as [Hlt|Hge].
    2:{ exists true, r. auto. }
    destruct (Nat.leb_spec (totalPixels r) (pixelIndex r)) as [Hend|Hmore].
    { exists false, r. repeat split; trivial.
      unfold remaining. replace (totalPixels r - pixelIndex r) with 0 by lia.
      cbn. rewrite app_nil_r. exact Hlt. }
    cbv zeta.
    set (b0 := JS.and (JS.get (pixels r) (pixelIndex r * 4)) 1%Z).
    set (b1 := JS.and (JS.get (pixels r) (pixelIndex r * 4 + 1)) 1%Z).
    set (b2 := JS.and (JS.get (pixels r) (pixelIndex r * 4 + 2)) 1%Z).
    assert (Hb0 : bit_ok b0) by apply and_1_bit.
    assert (Hb1 : bit_ok b1) by apply and_1_bit.
    assert (Hb2 : bit_ok b2) by apply and_1_bit.
    pose proof (push3_bits (q r) b0 b1 b2 Hb0 Hb1 Hb2) as Hpush.
    set (r1 := mkReader _ _ _ _).
    assert (Hok1 : readerOk r1).
    { unfold readerOk, r1. cbn [q]. rewrite Hpush. apply Forall_app. split; [exact Hok|].
      repeat (constructor; trivial). }
    assert (Hrem1 : remaining r1 = remaining r).
    { unfold remaining, r1. cbn [q pixels pixelIndex totalPixels]. rewrite Hpush.
      replace (totalPixels r - pixelIndex r) with (S (totalPixels r - S (pixelIndex r))) by lia.
      rewrite lsbStream_S, <- app_assoc. reflexivity. }
    destruct (IH r1 n Hok1) as (ok & r' & E & Hok' & Hrem' & Hcase).
    { unfold r1, size. cbn [q]. rewrite Hpush, length_app. unfold size in Hfuel.
      cbn [length]. lia. }
    exists ok, r'. rewrite E, Hrem', Hrem1. repeat split; trivial.
    now rewrite <- Hrem1.
Qed.

Lemma readerPopBits_spec r n :
  readerOk r -> n <= 31 ->
  if n <=? length (remaining r) then
    exists r', readerPopBits r n = Ret (Some (bitsValue (take n (remaining r))), r') /\
      readerOk r' /\ remaining r' = drop n (remaining r)
  else exists r', readerPopBits r n = Ret (None, r').
Proof.
  intros Hok Hn. unfold readerPopBits, _fillBits.
  destruct (fillBits_loop_spec n r n Hok ltac:(lia)) as (ok & r1 & E & Hok1 & Hrem1 & Hcase).
  rewrite E. cbn [bind].
  destruct (Nat.leb_spec n (length (remaining r))) as [Hle|Hgt].
  - destruct ok.
    2:{ lia. }
    rewrite popBits_enough by trivial.
    rewrite <- Hrem1. unfold size in Hcase.
    assert (Et : take n (remaining r1) = take n (bits (q r1)))
      by (unfold remaining; now rewrite take_app_le).
    rewrite Et.
    eexists. split; [reflexivity|].
    split; [apply Forall_drop, Hok1|].
    unfold remaining. cbn [q pixels pixelIndex totalPixels bits].
    now rewrite drop_app_le.
  - destruct ok.
    + exfalso. rewrite <- Hrem1 in Hgt. unfold remaining, size in *.
      rewrite length_app in Hgt. lia.
    + eexists. reflexivity.
Qed.

End ReaderFacts.

Section ReadBytesFacts.

Lemma byte_of_bits bs :
  Forall bit_ok bs -> 8 <= length bs ->
  byte_ok (bitsValue (take 8 bs)) /\ JS.toUint8 (bitsValue (take 8 bs)) = bitsValue (take 8 bs).
Proof.
  intros Hbs Hlen.
  pose proof (bitsValue_bound (take 8 bs) ltac:(now apply Forall_take)) as Hb.
  rewrite length_take_le in Hb by lia. change (2 ^ Z.of_nat 8)%Z with 256%Z in Hb.
  split; [exact Hb|]. unfold JS.toUint8. now apply Z.mod_small.
Qed.

Lemma readBytes_loop_spec todo : forall i out r,
  readerOk r -> i + todo <= length out ->
  if todo * 8 <=? length (remaining r) then
    exists r',
      readBytes_loop todo i out r
      = Ret (take i out ++ bytesOfBits todo (remaining r) ++ drop (i + todo) out, r') /\
      readerOk r' /\ remaining r' = drop (todo * 8) (remaining r)
  else readBytes_loop todo i out r = Throw NotEnoughData.
Proof.
  induction todo as [|t IH]; intros i out r Hok Hout.
  - cbn [Nat.mul Nat.leb readBytes_loop bytesOfBits app].
    exists r. rewrite Nat.add_0_r, take_drop, drop_0. auto.
  - cbn [readBytes_loop]. unfold readerPopByte.
    pose proof (readerPopBits_spec r 8 Hok ltac:(lia)) as Hpop.
    destruct (Nat.leb_spec 8 (length (remaining r))) as [H8|H8].
    2:{ destruct Hpop as (r1 & ->). cbn [bind].
        destruct (Nat.leb_spec (S t * 8) (length (remaining r))); [lia|reflexivity]. }
    destruct Hpop as (r1 & -> & Hok1 & Hrem1). cbn [bind].
    destruct (byte_of_bits (remaining r) (remaining_ok r Hok) H8) as [_ ->].
    specialize (IH (S i) (<[i := bitsValue (take 8 (remaining r))]> out) r1 Hok1).
    rewrite length_insert, Hrem1, length_drop in IH. specialize (IH ltac:(lia)).
    destruct (Nat.leb_spec (S t * 8) (length (remaining r))) as [Hall|Hshort];
      destruct (Nat.leb_spec (t * 8) (length (remaining r) - 8)) as [Hall'|Hshort'];
      try lia; [|exact IH].
    destruct IH as (r' & -> & Hok' & Hrem').
    exists r'. split; [|split; [exact Hok'|]].
    + f_equal. f_equal.
      rewrite (take_S_r _ i (bitsValue (take 8 (remaining r))))
        by (apply list_lookup_insert_eq; lia).
      rewrite take_insert_ge by lia. rewrite drop_insert_lt by lia.
      cbn [bytesOfBits]. rewrite <- app_assoc. cbn [app].
      now replace (S i + t) with (i + S t) by lia.
    + rewrite Hrem', drop_drop. f_equal; lia.
Qed.

Lemma readBytes_spec r count :
  readerOk r ->
  if count * 8 <=? length (remaining r) then
    exists r',
      readBytes r count = Ret (bytesOfBits count (remaining r), r') /\
      readerOk r' /\ remaining r' = drop (count * 8) (remaining r)
  else readBytes r count = Throw NotEnoughData.
Proof.
  intros Hok. unfold readBytes.
  pose proof (readBytes_loop_spec count 0 (replicate count 0%Z) r Hok) as H.
  rewrite length_replicate in H. specialize (H ltac:(lia)).
  destruct (count * 8 <=? length (remaining r)); [|exact H].
  destruct H as (r' & E & H). exists r'. split; [|exact H].
  rewrite E. f_equal. f_equal. cbn [take app Nat.add].
  rewrite drop_ge by (rewrite length_replicate; lia). apply app_nil_r.
Qed.

Lemma bytesOfBits_length count bs : length (bytesOfBits count bs) = count.
Proof.
  revert bs. induction count as [|c IH]; intros bs; [reflexivity|].
  cbn [bytesOfBits length]. now rewrite IH.
Qed.

Lemma bytesOfBits_add a b bs :
  bytesOfBits (a + b) bs = bytesOfBits a bs ++ bytesOfBits b (drop (a * 8) bs).
Proof.
  revert bs. induction a as [|a IH]; intros bs.
  - cbn. now rewrite drop_0.
  - cbn [Nat.add bytesOfBits app]. rewrite IH, drop_drop. reflexivity.
Qed.

Lemma bytesBits_length l : length (bytesBits l) = length l * 8.
Proof.
  unfold bytesBits. induction l as [|b l IH]; [reflexivity|].
  cbn [map concat length]. rewrite length_app, IH, byteBits_length. lia.
Qed.

Lemma bytesBits_ok l : Forall bit_ok (bytesBits l).
Proof.
  unfold bytesBits. induction l as [|b l IH]; [constructor|].
  cbn [map concat]. apply Forall_app. split; [apply byteBits_ok|exact IH].
Qed.

Lemma bytesBits_app l1 l2 : bytesBits (l1 ++ l2) = bytesBits l1 ++ bytesBits l2.
Proof. unfold bytesBits. now rewrite map_app, concat_app. Qed.

(** Cutting bytes from the bits of a byte sequence gives the sequence
    back, whatever follows. *)
Lemma bytesOfBits_bytesBits l rest :
  Forall byte_ok l -> bytesOfBits (length l) (bytesBits l ++ rest) = l.
Proof.
  induction 1 as [|b l Hb _ IH]; [reflexivity|].
  unfold bytesBits. cbn [map concat length bytesOfBits].
  rewrite <- app_assoc.
  rewrite (take_app_length' (byteBits b)) by reflexivity.
  rewrite (drop_app_length' (byteBits b)) by reflexivity.
  rewrite byteBits_value by exact Hb. f_equal. exact IH.
Qed.

Lemma bytesOfBits_ok count bs :
  Forall bit_ok bs -> count * 8 <= length bs -> Forall byte_ok (bytesOfBits count bs).
Proof.
  revert bs. induction count as [|c IH]; intros bs Hbs Hlen; [constructor|].
  cbn [bytesOfBits]. constructor.
  - apply byte_of_bits; trivial. lia.
  - apply IH; [now apply Forall_drop|]. rewrite length_drop. lia.
Qed.

End ReadBytesFacts.

(** ** [encodeLSB] as a whole *)

Section EncodeFacts.

Lemma pushLoop_length count : forall bs value,
  length (pushLoop bs value count) = length bs + count.
Proof.
  induction count as [|i IH]; intros bs value; cbn [pushLoop]; [lia|].
  rewrite IH, length_app. cbn [length]. lia.
Qed.

Lemma pushBytes_size data : forall qu,
  size (pushBytes qu data) = size qu + length data * 8.
Proof.
  unfold pushBytes.
  induction data as [|b data IH]; intros qu; cbn [fold_left length]; [lia|].
  rewrite IH. unfold size, pushByte. cbn [bits]. rewrite pushLoop_length. lia.
Qed.

Lemma pushBytes_bits data : forall qu,
  Forall byte_ok data -> bits (pushBytes qu data) = bits qu ++ bytesBits data.
Proof.
  unfold pushBytes.
  induction data as [|b data IH]; intros qu Hd; cbn [fold_left].
  - cbn. now rewrite app_nil_r.
  - inversion Hd as [|? ? Hb Hd']; subst.
    rewrite IH by exact Hd'. rewrite pushByte_spec by exact Hb.
    unfold bytesBits. cbn [map concat]. now rewrite app_assoc.
Qed.

(** Fuel: [encodeLSB] never runs out of it.  Frame: only the first
    [ceil(8 * len / 3)] pixels can change.  Outcome: decided by the room
    for the last data pixel. *)
Lemma encodeLSB_frame px data :
  let n := ceil_div (length data * 8) 3 in
  let res := encodeLSB px data in
  length (fst res) = length px /\
  (forall j, n * 4 <= j -> fst res !! j = px !! j) /\
  (forall i, i < n -> i * 4 + 3 < length px -> snd res = Ret tt ->
             fst res !! (i * 4 + 3) = Some 255%Z) /\
  snd res = (if decide (n = 0 \/ (n - 1) * 4 < length px)
             then Ret tt else Throw ImageTooSmallForData).
Proof.
  cbv zeta. unfold encodeLSB.
  pose proof (encodeLSB_loop_frame (S (size (pushBytes newBitQueue data)))
                (pushBytes newBitQueue data) px 0 ltac:(lia)) as H.
  cbv zeta in H. rewrite pushBytes_size in H. cbn [size newBitQueue bits length Nat.add] in H.
  rewrite pushBytes_size. cbn [size newBitQueue bits length Nat.add].
  destruct H as (Hlen & Hfr & Hal & Hres).
  split; [exact Hlen|]. split; [|split].
  - intros j Hj. apply Hfr. right. lia.
  - intros i Hi. apply Hal. lia.
  - exact Hres.
Qed.

Lemma encodeLSB_stream px data :
  Forall byte_ok data ->
  ceil_div (length data * 8) 3 * 4 <= length px ->
  lsbStream (fst (encodeLSB px data)) 0 (ceil_div (length data * 8) 3)
  = padded3 (bytesBits data).
Proof.
  intros Hd Hcap. unfold encodeLSB.
  pose proof (encodeLSB_loop_stream (S (size (pushBytes newBitQueue data)))
                (pushBytes newBitQueue data) px 0) as H.
  rewrite pushBytes_size in *. cbn [size newBitQueue bits length Nat.add] in *.
  rewrite pushBytes_bits in H by exact Hd. cbn [newBitQueue bits app] in H.
  apply H; [apply bytesBits_ok|lia|exact Hcap].
Qed.

(** The bits a fresh reader will deliver from a buffer into which
    [encodeLSB] has written [data]. *)
Lemma encoded_remaining px data :
  Forall byte_ok data ->
  ceil_div (length data * 8) 3 * 4 <= length px ->
  exists tail,
    remaining (newReader (fst (encodeLSB px data))) = bytesBits data ++ tail.
Proof.
  intros Hd Hcap.
  destruct (encodeLSB_frame px data) as (Hlen & _).
  rewrite newReader_remaining, Hlen.
  set (n := ceil_div (length data * 8) 3) in *.
  assert (Hn : n <= length px / 4) by (apply Nat.div_le_lower_bound; lia).
  replace (length px / 4) with (n + (length px / 4 - n)) by lia.
  rewrite lsbStream_add. unfold n at 1. rewrite encodeLSB_stream by trivial.
  unfold padded3. rewrite <- app_assoc. eexists. reflexivity.
Qed.

End EncodeFacts.

(** ** The frame layer *)

Section FrameFacts.

Local Open Scope Z_scope.

Lemma and_255_small x : 0 <= x < 2147483648 -> JS.and x 255 = x mod 256.
Proof.
  intros Hx. unfold JS.and. rewrite !toInt32_small by lia.
  change 255 with (Z.ones 8). now rewrite Z.land_ones by lia.
Qed.

(** [(hi << 8) | lo] on two bytes is the big-endian 16-bit value. *)
Lemma be16 hi lo : byte_ok hi -> byte_ok lo -> JS.or (JS.shl hi 8) lo = 256 * hi + lo.
Proof.
  unfold byte_ok. intros Hhi Hlo. unfold JS.or, JS.shl.
  change (8 mod 32) with 8.
  rewrite (toInt32_small hi) by lia.
  rewrite Z.shiftl_mul_pow2 by lia. change (2 ^ 8) with 256.
  rewrite !(toInt32_small (hi * 256)) by lia.
  rewrite (toInt32_small lo) by lia.
  rewrite lor_disjoint; [lia|].
  replace lo with (Z.land lo (Z.ones 8)) at 1
    by (rewrite Z.land_ones by lia; apply Z.mod_small; exact Hlo).
  rewrite (Z.land_comm lo), Z.land_assoc, Z.land_ones by lia.
  change (2 ^ 8) with 256. rewrite Z.mod_mul by lia. apply Z.land_0_l.
Qed.

Lemma toUint8_byte b : byte_ok b -> JS.toUint8 b = b.
Proof. intros H. unfold JS.toUint8. now apply Z.mod_small. Qed.

Lemma map_toUint8_bytes l : Forall byte_ok l -> map JS.toUint8 l = l.
Proof.
  induction 1 as [|b l Hb _ IH]; [reflexivity|].
  cbn [map]. now rewrite toUint8_byte, IH.
Qed.

Lemma buildFrame_length t data : length (buildFrame t data) = (7 + length data)%nat.
Proof.
  unfold buildFrame, arraySet. cbv zeta.
  rewrite !length_app, length_take, !length_map, length_drop, !length_insert.
  rewrite !length_app, length_take, !length_map, length_drop, length_replicate.
  cbn [MAGIC_MARKER length]. lia.
Qed.

(** The frame is [MAGIC | TYPE | LEN (2 bytes, big-endian) | DATA]. *)
Lemma buildFrame_spec t data :
  byte_ok t -> Forall byte_ok data -> Z.of_nat (length data) < 65536 ->
  buildFrame t data
  = MAGIC_MARKER
    ++ [t; Z.of_nat (length data) / 256; Z.of_nat (length data) mod 256] ++ data.
Proof.
  intros Ht Hd Hlen. unfold buildFrame, arraySet. cbv zeta.
  set (len := Z.of_nat (length data)).
  assert (Hl : 0 <= len < 65536) by lia.
  rewrite sar_small by lia. change (2 ^ 8) with 256.
  assert (Hhi : byte_ok (len / 256)) by (unfold byte_ok; Z.div_mod_to_equations; lia).
  assert (Hlo : byte_ok (len mod 256)) by (unfold byte_ok; Z.div_mod_to_equations; lia).
  rewrite !and_255_small by (unfold byte_ok in *; lia).
  rewrite (Z.mod_small (len / 256)) by exact Hhi.
  cbv [JS.get lookup list_lookup default from_option id].
  rewrite !(toUint8_byte (len / 256)) by exact Hhi.
  rewrite !(toUint8_byte (len mod 256)) by exact Hlo.
  rewrite (toUint8_byte t) by exact Ht.
  rewrite (map_toUint8_bytes data) by exact Hd.
  change (map JS.toUint8 MAGIC_MARKER) with MAGIC_MARKER.
  cbn [Nat.add replicate MAGIC_MARKER length take drop app map list_insert insert].
  rewrite drop_ge by (rewrite length_replicate; lia). now rewrite app_nil_r.
Qed.

Lemma legacyFrame_spec data :
  Forall byte_ok data -> Z.of_nat (length data) < 65536 ->
  legacyFrame data
  = MAGIC_MARKER
    ++ [Z.of_nat (length data) / 256; Z.of_nat (length data) mod 256] ++ data.
Proof.
  intros Hd Hlen. unfold legacyFrame, arraySet. cbv zeta.
  set (len := Z.of_nat (length data)).
  assert (Hl : 0 <= len < 65536) by lia.
  rewrite sar_small by lia. change (2 ^ 8) with 256.
  assert (Hhi : byte_ok (len / 256)) by (unfold byte_ok; Z.div_mod_to_equations; lia).
  assert (Hlo : byte_ok (len mod 256)) by (unfold byte_ok; Z.div_mod_to_equations; lia).
  rewrite !and_255_small by (unfold byte_ok in *; lia).
  rewrite (Z.mod_small (len / 256)) by exact Hhi.
  rewrite !(toUint8_byte (len / 256)) by exact Hhi.
  rewrite !(toUint8_byte (len mod 256)) by exact Hlo.
  rewrite (map_toUint8_bytes data) by exact Hd.
  change (map JS.toUint8 MAGIC_MARKER) with MAGIC_MARKER.
  cbn [Nat.add replicate MAGIC_MARKER length take drop app map list_insert insert].
  rewrite ?(toUint8_byte (len / 256)) by exact Hhi.
  rewrite ?(toUint8_byte (len mod 256)) by exact Hlo.
  rewrite !drop_0, take_0, drop_ge by (rewrite length_replicate; lia).
  cbn [app]. now rewrite app_nil_r.
Qed.

Lemma magicMatches_spec magic :
  length magic = 4%nat -> (magicMatches magic = true <-> magic = MAGIC_MARKER).
Proof.
  intros H4.
  destruct magic as [|m0 [|m1 [|m2 [|m3 [|? ?]]]]]; try discriminate H4.
  unfold magicMatches, MAGIC_MARKER. cbn.
  rewrite !andb_true_r, !andb_true_iff, !Z.eqb_eq.
  split; [intros (-> & -> & -> & ->); reflexivity|].
  intros E. injection E as -> -> -> ->. auto.
Qed.

End FrameFacts.

Section DecodeFacts.

Lemma readBytes_ret r count :
  readerOk r -> count * 8 <= length (remaining r) ->
  exists r',
    readBytes r count = Ret (bytesOfBits count (remaining r), r') /\
    readerOk r' /\ remaining r' = drop (count * 8) (remaining r).
Proof.
  intros Hok Hlen. pose proof (readBytes_spec r count Hok) as H.
  destruct (Nat.leb_spec (count * 8) (length (remaining r))); [exact H|lia].
Qed.

Lemma readBytes_throw r count :
  readerOk r -> length (remaining r) < count * 8 ->
  readBytes r count = Throw NotEnoughData.
Proof.
  intros Hok Hlen. pose proof (readBytes_spec r count Hok) as H.
  destruct (Nat.leb_spec (count * 8) (length (remaining r))); [lia|exact H].
Qed.

Lemma readBytes_inv r count bytes r' :
  readerOk r -> readBytes r count = Ret (bytes, r') ->
  count * 8 <= length (remaining r) /\
  bytes = bytesOfBits count (remaining r) /\
  readerOk r' /\ remaining r' = drop (count * 8) (remaining r).
Proof.
  intros Hok E. pose proof (readBytes_spec r count Hok) as H.
  destruct (Nat.leb_spec (count * 8) (length (remaining r))) as [Hle|Hgt].
  - destruct H as (r1 & E1 & H1). rewrite E in E1. injection E1 as -> ->.
    split; [exact Hle|]. split; [reflexivity|exact H1].
  - rewrite E in H. discriminate H.
Qed.

End DecodeFacts.

Section ClassifyFacts.

Lemma readBytes_bytes_ok r count bytes r' :
  readerOk r -> readBytes r count = Ret (bytes, r') -> Forall byte_ok bytes.
Proof.
  intros Hok E. destruct (readBytes_inv r count bytes r' Hok E) as (Hlen & -> & _).
  apply bytesOfBits_ok; [now apply remaining_ok|exact Hlen].
Qed.

(** [decodeAddressFromImage] once the magic has been accepted and the
    three bytes after it have been peeked: the format decision and the
    payload read that follows it. *)
Lemma decode_peek px r4 r7 b0 b1 b2 :
  readBytes (newReader px) 4 = Ret (MAGIC_MARKER, r4) ->
  readBytes r4 3 = Ret ([b0; b1; b2], r7) ->
  (byte_ok b0 /\ byte_ok b1 /\ byte_ok b2) /\ readerOk r4 /\ readerOk r7 /\
  decodeAddressFromImage px
  = if (((b0 =? 0) || (b0 =? 1)) && (1 <=? 256 * b1 + b2) && (256 * b1 + b2 <=? 2000))%Z
    then
      do (bytes, _) <- readBytes r7 (Z.to_nat (256 * b1 + b2));
      Ret (mkFrame true b0 (256 * b1 + b2)%Z bytes)
    else
      do (_, r6) <- readBytes r4 2;
      do (bytes, _) <- readBytes r6 (Z.to_nat (256 * b0 + b1));
      Ret (mkFrame false 0%Z (256 * b0 + b1)%Z bytes).
Proof.
  intros E4 E3.
  destruct (readBytes_inv _ _ _ _ (newReader_ok px) E4) as (_ & _ & Hok4 & _).
  destruct (readBytes_inv _ _ _ _ Hok4 E3) as (_ & _ & Hok7 & _).
  pose proof (readBytes_bytes_ok _ _ _ _ Hok4 E3) as Hb.
  inversion Hb as [|? ? Hb0 Hb']; subst.
  inversion Hb' as [|? ? Hb1 Hb'']; subst.
  inversion Hb'' as [|? ? Hb2 _]; subst.
  split; [auto|]. split; [exact Hok4|]. split; [exact Hok7|].
  unfold decodeAddressFromImage. cbv zeta.
  rewrite !E4. cbn [bind].
  change (magicMatches MAGIC_MARKER) with true. cbn [negb].
  rewrite E3. cbn [bind].
  change (JS.get [b0; b1; b2] 0) with b0.
  change (JS.get [b0; b1; b2] 1) with b1.
  change (JS.get [b0; b1; b2] 2) with b2.
  rewrite !be16 by trivial.
  destruct (((b0 =? 0) || (b0 =? 1)) && (1 <=? 256 * b1 + b2)
            && (256 * b1 + b2 <=? 2000))%Z eqn:Ec; [|reflexivity].
  apply andb_prop in Ec as [Ec Hhi]. apply andb_prop in Ec as [_ Hlo].
  apply Z.leb_le in Hhi, Hlo.
  destruct (Z.ltb_spec (256 * b1 + b2) 1); [lia|].
  destruct (Z.ltb_spec 2000 (256 * b1 + b2)); [lia|].
  reflexivity.
Qed.

(** *** Enough fuel *)

Lemma encodeLSB_total px data : snd (encodeLSB px data) <> OutOfFuel.
Proof.
  destruct (encodeLSB_frame px data) as (_ & _ & _ & ->).
  destruct (decide _); discriminate.
Qed.

Lemma readBytes_total r count : readerOk r -> readBytes r count <> OutOfFuel.
Proof.
  intros Hok. pose proof (readBytes_spec r count Hok) as H.
  destruct (count * 8 <=? length (remaining r)).
  - destruct H as (r' & -> & _). discriminate.
  - rewrite H. discriminate.
Qed.

Lemma bind_frame_total (m : Res (list Z * PixelBitReader)) (k : list Z -> Frame) :
  m <> OutOfFuel -> (do (bytes, _) <- m; Ret (k bytes)) <> OutOfFuel.
Proof.
  destruct m as [[bytes r]| |]; cbn; intros H; [discriminate|discriminate|].
  now destruct H.
Qed.

Lemma decodeAddressFromImage_total px : decodeAddressFromImage px <> OutOfFuel.
Proof.
  pose proof (readBytes_spec (newReader px) 4 (newReader_ok px)) as H4.
  destruct (4 * 8 <=? length (remaining (newReader px))).
  2:{ unfold decodeAddressFromImage. cbv zeta. rewrite H4. discriminate. }
  destruct H4 as (r4 & E4 & Hok4 & _).
  destruct (magicMatches (bytesOfBits 4 (remaining (newReader px)))) eqn:Em.
  2:{ unfold decodeAddressFromImage. cbv zeta. rewrite E4. cbn [bind].
      rewrite Em. discriminate. }
  apply magicMatches_spec in Em; [|apply bytesOfBits_length]. rewrite Em in E4.
  pose proof (readBytes_spec r4 3 Hok4) as H3.
  destruct (3 * 8 <=? length (remaining r4)) eqn:El.
  2:{ unfold decodeAddressFromImage. cbv zeta. rewrite !E4. cbn [bind negb].
      change (magicMatches MAGIC_MARKER) with true. cbn [negb].
      rewrite H3. discriminate. }
  destruct H3 as (r7 & E3 & Hok7 & _).
  cbn [bytesOfBits] in E3.
  destruct (decode_peek px r4 r7 _ _ _ E4 E3) as (_ & _ & _ & ->).
  apply Nat.leb_le in El.
  destruct (readBytes_ret r4 2 Hok4 ltac:(lia)) as (r6 & E2 & Hok6 & _).
  rewrite E2. cbn [bind].
  destruct (_ && _ && _); apply bind_frame_total; now apply readBytes_total.
Qed.

End ClassifyFacts.

Section PrefixFacts.

Lemma bytesOfBits_prefix count bs rest :
  count * 8 <= length bs -> bytesOfBits count (bs ++ rest) = bytesOfBits count bs.
Proof.
  revert bs. induction count as [|c IH]; intros bs Hlen; [reflexivity|].
  cbn [bytesOfBits]. rewrite take_app_le, drop_app_le by lia.
  rewrite IH by (rewrite length_drop; lia). reflexivity.
Qed.

(** Reading as many bytes as a byte sequence has, from a reader whose
    pending bits start with the bits of that sequence. *)
Lemma read_prefix r l rest :
  readerOk r -> Forall byte_ok l -> remaining r = bytesBits l ++ rest ->
  exists r',
    readBytes r (length l) = Ret (l, r') /\ readerOk r' /\ remaining r' = rest.
Proof.
  intros Hok Hl Hrem.
  destruct (readBytes_ret r (length l) Hok) as (r' & E & Hok' & Hrem').
  { rewrite Hrem, length_app, bytesBits_length. lia. }
  exists r'. rewrite E, Hrem', Hrem. rewrite bytesOfBits_bytesBits by exact Hl.
  split; [reflexivity|]. split; [exact Hok'|].
  rewrite <- bytesBits_length. apply drop_app_length.
Qed.

Lemma pixelsNeeded_frame t data :
  ceil_div (length (buildFrame t data) * 8) 3 = pixelsNeeded (length data).
Proof. rewrite buildFrame_length. reflexivity. Qed.

Lemma pixelsNeeded_pos n : 19 <= pixelsNeeded n.
Proof.
  unfold pixelsNeeded, ceil_div. apply Nat.div_le_lower_bound; lia.
Qed.

Lemma ceil3_bounds a : a <= ceil_div a 3 * 3 /\ ceil_div a 3 * 3 <= a + 2.
Proof.
  unfold ceil_div. cbn [Nat.sub].
  pose proof (Nat.div_mod_eq (a + 2) 3) as E.
  pose proof (Nat.mod_upper_bound (a + 2) 3 ltac:(lia)) as B.
  lia.
Qed.

Lemma encodeLSB_returns px data :
  length data * 8 * 4 <= length px * 3 \/
  ceil_div (length data * 8) 3 * 4 <= length px ->
  snd (encodeLSB px data) = Ret tt.
Proof.
  intros Hcap. destruct (encodeLSB_frame px data) as (_ & _ & _ & Hres).
  rewrite Hres. destruct (decide _) as [_|Hn]; [reflexivity|].
  exfalso. apply Hn.
  pose proof (ceil3_bounds (length data * 8)) as [_ Hup].
  destruct (ceil_div (length data * 8) 3) as [|m]; [now left|right].
  destruct Hcap; lia.
Qed.

End PrefixFacts.

(** * The claims *)

(** ** C8: contract of [BitQueue.popBits] *)

(** C8 (as amended).  For every queue of bits and every [n <= 31]: when at
    least [n] bits are queued, [popBits(n)] removes the first [n] bits and
    returns the unsigned integer they write, first bit most significant;
    and for every [n], when fewer than [n] bits are queued, it returns
    [null] and leaves the queue as it is. *)
Theorem popBits_contract (qu : BitQueue) (n : nat) :
  Forall bit_ok (bits qu) ->
  (n <= size qu -> n <= 31 ->
     popBits qu n
     = (Some (bitsValue (take n (bits qu))), mkBitQueue (drop n (bits qu)))
     /\ (0 <= bitsValue (take n (bits qu)) < 2 ^ Z.of_nat n)%Z)
  /\ (size qu < n -> popBits qu n = (None, qu)).
Proof.
  intros Hwf. split.
  - intros Hn H31. split; [now apply popBits_enough|].
    pose proof (bitsValue_bound (take n (bits qu)) ltac:(now apply Forall_take)) as Hb.
    unfold size in Hn. now rewrite length_take_le in Hb.
  - apply popBits_short.
Qed.

Lemma popBits_contract_witness :
  Forall bit_ok (bits (mkBitQueue [1; 0; 1; 1]%Z))
  /\ popBits (mkBitQueue [1; 0; 1; 1]%Z) 3 = (Some 5%Z, mkBitQueue [1%Z])
  /\ popBits (mkBitQueue [1; 0; 1; 1]%Z) 5 = (None, mkBitQueue [1; 0; 1; 1]%Z).
Proof.
  assert (Hwf : Forall bit_ok (bits (mkBitQueue [1; 0; 1; 1]%Z))).
  { cbn [bits]. forall_literal. }
  destruct (popBits_contract (mkBitQueue [1; 0; 1; 1]%Z) 3 Hwf) as [H3 _].
  destruct (popBits_contract (mkBitQueue [1; 0; 1; 1]%Z) 5 Hwf) as [_ H5].
  split; [exact Hwf|]. split.
  - destruct (H3 ltac:(cbn; lia) ltac:(lia)) as [E _]. exact E.
  - apply H5. cbn. lia.
Defined.

(** C8 as stated fails for [n = 32]: the 32-bit shift wraps, and 32 queued
    one-bits come back as [-1]. *)
Lemma popBits_32_counterexample :
  ~ (forall (qu : BitQueue) (n : nat),
       Forall bit_ok (bits qu) -> n <= size qu ->
       fst (popBits qu n) = Some (bitsValue (take n (bits qu)))).
Proof.
  intros H.
  specialize (H (mkBitQueue (replicate 32 1%Z)) 32).
  assert (Hwf : Forall bit_ok (bits (mkBitQueue (replicate 32 1%Z)))).
  { cbn [bits]. apply Forall_replicate. now right. }
  assert (Hlen : 32 <= size (mkBitQueue (replicate 32 1%Z))).
  { unfold size. cbn [bits]. now rewrite length_replicate. }
  specialize (H Hwf Hlen).
  vm_compute in H. discriminate H.
Qed.

(** ** C7: frame effect of [encodeLSB] *)

(** C7.  For every [dataBytes] and every pixel buffer, [encodeLSB] keeps
    the length of the buffer and changes nothing from pixel
    [ceil(8 * len(dataBytes) / 3)] on: every channel value (R, G, B, A) of
    every later pixel is the one the buffer had before. *)
Theorem encodeLSB_frame_effect (px data : list Z) (j : nat) :
  ceil_div (length data * 8) 3 * 4 <= j ->
  length (fst (encodeLSB px data)) = length px /\
  fst (encodeLSB px data) !! j = px !! j.
Proof.
  intros Hj. destruct (encodeLSB_frame px data) as (Hlen & Hfr & _).
  split; [exact Hlen|]. now apply Hfr.
Qed.

Lemma encodeLSB_frame_effect_witness :
  ceil_div (length [255%Z] * 8) 3 * 4 <= 12 /\
  fst (encodeLSB (replicate 16 7%Z) [255%Z]) !! 12 = Some 7%Z.
Proof.
  assert (H : ceil_div (length [255%Z] * 8) 3 * 4 <= 12) by (vm_compute; lia).
  split; [exact H|].
  exact (proj2 (encodeLSB_frame_effect (replicate 16 7%Z) [255%Z] 12 H)).
Defined.

(** ** C9: the in-loop capacity error is unreachable after the check *)

(** C9.  With [totalPixels = pixels.length / 4]: whenever
    [totalPixels * 3 >= 8 * len(dataBytes)], [encodeLSB] returns normally,
    so its "Image too small for data" branch is not reached.  The same
    holds under the check of [encodeAddressInImage]
    ([pixelsNeeded <= totalPixels]). *)
Theorem capacity_error_unreachable (px data : list Z) :
  length data * 8 * 4 <= length px * 3 \/
  ceil_div (length data * 8) 3 * 4 <= length px ->
  snd (encodeLSB px data) = Ret tt.
Proof.
  apply encodeLSB_returns.
Qed.

Lemma capacity_error_unreachable_witness :
  (length [255%Z] * 8 * 4 <= length (replicate 11 7%Z) * 3 \/
   ceil_div (length [255%Z] * 8) 3 * 4 <= length (replicate 11 7%Z)) /\
  snd (encodeLSB (replicate 11 7%Z) [255%Z]) = Ret tt.
Proof.
  assert (H : length [255%Z] * 8 * 4 <= length (replicate 11 7%Z) * 3 \/
              ceil_div (length [255%Z] * 8) 3 * 4 <= length (replicate 11 7%Z))
    by (left; vm_compute; lia).
  split; [exact H|].
  exact (capacity_error_unreachable (replicate 11 7%Z) [255%Z] H).
Defined.

(** ** C5: alpha channel after a successful encode *)

(** C5.  [encodeLSB] is called on the buffer that [encodeAddressInImage]
    reads from a canvas it has painted opaque white before drawing the
    image, so every pixel of that buffer has alpha 255 on entry.  For
    such a buffer, after a successful encode every pixel of the buffer
    has alpha 255, the pixels that carry no data included.  The second
    part says what [encodeLSB] does to alpha by itself, whatever the
    buffer: the pixels that carry data (the first [ceil(8 * len / 3)])
    are set to 255 and every other pixel keeps its alpha. *)
Theorem alpha_normalization (px data px' : list Z) :
  encodeLSB px data = (px', Ret tt) ->
  ((forall i, i * 4 + 3 < length px -> px !! (i * 4 + 3) = Some 255%Z) ->
   forall i, i * 4 + 3 < length px' -> px' !! (i * 4 + 3) = Some 255%Z)
  /\ (forall i, i * 4 + 3 < length px ->
       (i < ceil_div (length data * 8) 3 -> px' !! (i * 4 + 3) = Some 255%Z) /\
       (ceil_div (length data * 8) 3 <= i -> px' !! (i * 4 + 3) = px !! (i * 4 + 3))).
Proof.
  intros E. destruct (encodeLSB_frame px data) as (Hlen & Hfr & Hal & _).
  rewrite E in *. cbn [fst snd] in *.
  assert (Hall : forall i, i * 4 + 3 < length px ->
     (i < ceil_div (length data * 8) 3 -> px' !! (i * 4 + 3) = Some 255%Z) /\
       (ceil_div (length data * 8) 3 <= i -> px' !! (i * 4 + 3) = px !! (i * 4 + 3))).
  { intros i Hi. split.
    - intros Hlt. now apply Hal.
    - intros Hge. apply Hfr. lia. }
  split; [|exact Hall].
  intros Hopaque i Hi. rewrite Hlen in Hi.
  destruct (Hall i Hi) as [Hdata Hrest].
  destruct (Nat.lt_ge_cases i (ceil_div (length data * 8) 3)) as [Hlt|Hge].
  - now apply Hdata.
  - rewrite Hrest by exact Hge. now apply Hopaque.
Qed.

Lemma alpha_normalization_witness :
  encodeLSB [10; 20; 30; 255; 40; 50; 60; 255; 70; 80; 90; 255; 100; 110; 120; 255]%Z
            [255%Z]
  = ([11; 21; 31; 255; 41; 51; 61; 255; 71; 81; 90; 255; 100; 110; 120; 255]%Z, Ret tt) /\
  [11; 21; 31; 255; 41; 51; 61; 255; 71; 81; 90; 255; 100; 110; 120; 255]%Z !! (2 * 4 + 3)
  = Some 255%Z /\
  [11; 21; 31; 255; 41; 51; 61; 255; 71; 81; 90; 255; 100; 110; 120; 255]%Z !! (3 * 4 + 3)
  = Some 255%Z.
Proof.
  assert (E : encodeLSB
                [10; 20; 30; 255; 40; 50; 60; 255; 70; 80; 90; 255; 100; 110; 120; 255]%Z
                [255%Z]
              = ([11; 21; 31; 255; 41; 51; 61; 255; 71; 81; 90; 255; 100; 110; 120; 255]%Z,
                 Ret tt))
    by (vm_compute; reflexivity).
  assert (Hopaque : forall i, i * 4 + 3
              < length [10; 20; 30; 255; 40; 50; 60; 255; 70; 80; 90; 255; 100; 110; 120; 255]%Z ->
            [10; 20; 30; 255; 40; 50; 60; 255; 70; 80; 90; 255; 100; 110; 120; 255]%Z
              !! (i * 4 + 3) = Some 255%Z).
  { intros i Hi. cbn [length] in Hi. do 4 (destruct i as [|i]; [reflexivity|]). lia. }
  destruct (alpha_normalization _ _ _ E) as [H _].
  split; [exact E|].
  split; apply (H Hopaque); cbn [length]; lia.
Defined.

(** ** C3: capacity boundary *)

(** C3.  With [pixelsNeeded(L) = ceil((4 + 1 + 2 + L) * 8 / 3)]: encoding
    a payload of length [L] into a carrier of exactly
    [pixelsNeeded(L) - 1] pixels throws the capacity-check error and
    leaves the buffer as it was; into a carrier of exactly
    [pixelsNeeded(L)] pixels it succeeds. *)
Theorem capacity_boundary (px : list Z) (t : Z) (p : list Z) :
  (length px = (pixelsNeeded (length p) - 1) * 4 ->
     encodeAddressInImage px t p = (px, Throw ImageTooSmall)) /\
  (length px = pixelsNeeded (length p) * 4 ->
     snd (encodeAddressInImage px t p) = Ret tt).
Proof.
  pose proof (pixelsNeeded_pos (length p)) as Hpos.
  unfold encodeAddressInImage. cbv zeta. rewrite pixelsNeeded_frame.
  split; intros Hlen.
  - destruct (Nat.ltb_spec (length px) (4 * pixelsNeeded (length p))); [reflexivity|lia].
  - destruct (Nat.ltb_spec (length px) (4 * pixelsNeeded (length p))); [lia|].
    apply encodeLSB_returns. right. rewrite pixelsNeeded_frame. lia.
Qed.

Lemma capacity_boundary_witness :
  (length (replicate 104 7%Z) = (pixelsNeeded (length [26; 43; 60]%Z) - 1) * 4 /\
   encodeAddressInImage (replicate 104 7%Z) 1%Z [26; 43; 60]%Z
   = (replicate 104 7%Z, Throw ImageTooSmall)) /\
  (length (replicate 108 7%Z) = pixelsNeeded (length [26; 43; 60]%Z) * 4 /\
   snd (encodeAddressInImage (replicate 108 7%Z) 1%Z [26; 43; 60]%Z) = Ret tt).
Proof.
  assert (H1 : length (replicate 104 7%Z) = (pixelsNeeded (length [26; 43; 60]%Z) - 1) * 4)
    by (vm_compute; reflexivity).
  assert (H2 : length (replicate 108 7%Z) = pixelsNeeded (length [26; 43; 60]%Z) * 4)
    by (vm_compute; reflexivity).
  split; (split; [assumption|]).
  - exact (proj1 (capacity_boundary (replicate 104 7%Z) 1%Z [26; 43; 60]%Z) H1).
  - exact (proj2 (capacity_boundary (replicate 108 7%Z) 1%Z [26; 43; 60]%Z) H2).
Defined.

(** ** C6: magic rejection *)

(** C6.  For every pixel buffer whose first 12 pixels exist: the first
    four bytes [decodeAddressFromImage] reads are the bytes written by the
    R, G, B low bits of those 12 pixels, and when they are not
    [44 4F 47 45] it throws "Magic marker not found", whatever the rest of
    the buffer holds. *)
Theorem magic_rejection (px : list Z) :
  12 <= length px / 4 ->
  bytesOfBits 4 (lsbStream px 0 12) <> MAGIC_MARKER ->
  (exists r, readBytes (newReader px) 4 = Ret (bytesOfBits 4 (lsbStream px 0 12), r)) /\
  decodeAddressFromImage px = Throw MagicMarkerNotFound.
Proof.
  intros H12 Hne.
  assert (Hrem : remaining (newReader px)
                 = lsbStream px 0 12 ++ lsbStream px 12 (length px / 4 - 12)).
  { rewrite newReader_remaining.
    replace (length px / 4) with (12 + (length px / 4 - 12)) at 1 by lia.
    apply lsbStream_add. }
  destruct (readBytes_ret (newReader px) 4 (newReader_ok px)) as (r & E & _).
  { rewrite Hrem, length_app, !lsbStream_length. lia. }
  rewrite Hrem in E.
  rewrite bytesOfBits_prefix in E by (rewrite lsbStream_length; lia).
  split; [now exists r|].
  unfold decodeAddressFromImage. cbv zeta. rewrite E. cbn [bind].
  destruct (magicMatches (bytesOfBits 4 (lsbStream px 0 12))) eqn:Em; [|reflexivity].
  exfalso. apply Hne. apply magicMatches_spec; [apply bytesOfBits_length|exact Em].
Qed.

Lemma magic_rejection_witness :
  12 <= length (replicate 48 0%Z) / 4 /\
  bytesOfBits 4 (lsbStream (replicate 48 0%Z) 0 12) <> MAGIC_MARKER /\
  decodeAddressFromImage (replicate 48 0%Z) = Throw MagicMarkerNotFound.
Proof.
  assert (H1 : 12 <= length (replicate 48 0%Z) / 4) by (vm_compute; lia).
  assert (H2 : bytesOfBits 4 (lsbStream (replicate 48 0%Z) 0 12) <> MAGIC_MARKER)
    by (vm_compute; discriminate).
  split; [exact H1|]. split; [exact H2|].
  exact (proj2 (magic_rejection (replicate 48 0%Z) H1 H2)).
Defined.

(** ** C2: the dual-format classification rule *)

(** C2.  For every pixel buffer that begins with the magic bytes and from
    which a fresh cursor advanced past the magic peeks the three bytes
    [b0, b1, b2]: the stream is taken as modern exactly when [b0] is
    [0x00] or [0x01] and the big-endian value [(b1 << 8) | b2] lies in
    [1, 2000]; then the type tag is [b0], the length is [(b1 << 8) | b2]
    and the payload is read on from the peeking cursor.  In every other
    case the stream is taken as legacy with length [(b0 << 8) | b1], the
    payload being read by a cursor advanced past magic and length. *)
Theorem dual_format_classification (px : list Z) (r4 r7 : PixelBitReader) (b0 b1 b2 : Z) :
  readBytes (newReader px) 4 = Ret (MAGIC_MARKER, r4) ->
  readBytes r4 3 = Ret ([b0; b1; b2], r7) ->
  let modern := ((b0 = 0 \/ b0 = 1) /\ 1 <= 256 * b1 + b2 <= 2000)%Z in
  (JS.or (JS.shl b1 8%Z) b2 = 256 * b1 + b2 /\
   JS.or (JS.shl b0 8%Z) b1 = 256 * b0 + b1)%Z /\
  (modern ->
     decodeAddressFromImage px
     = do (bytes, _) <- readBytes r7 (Z.to_nat (256 * b1 + b2));
       Ret (mkFrame true b0 (256 * b1 + b2)%Z bytes)) /\
  (~ modern ->
     exists hdr r6,
       readBytes r4 2 = Ret (hdr, r6) /\
       decodeAddressFromImage px
       = do (bytes, _) <- readBytes r6 (Z.to_nat (256 * b0 + b1));
         Ret (mkFrame false 0%Z (256 * b0 + b1)%Z bytes)) /\
  (forall f, decodeAddressFromImage px = Ret f ->
     if isNewFormat f
     then modern /\ dataTypeByte f = b0 /\ dataLength f = (256 * b1 + b2)%Z
     else ~ modern /\ dataLength f = (256 * b0 + b1)%Z).
Proof.
  intros E4 E3 modern.
  destruct (decode_peek px r4 r7 b0 b1 b2 E4 E3)
    as ((Hb0 & Hb1 & Hb2) & Hok4 & Hok7 & Edec).
  destruct (readBytes_inv _ _ _ _ Hok4 E3) as (Hlen3 & _).
  destruct (readBytes_ret r4 2 Hok4 ltac:(lia)) as (r6 & E2 & Hok6 & _).
  rewrite E2 in Edec. cbn [bind] in Edec.
  assert (Hcond : (((b0 =? 0) || (b0 =? 1)) && (1 <=? 256 * b1 + b2)
                   && (256 * b1 + b2 <=? 2000))%Z = true <-> modern).
  { unfold modern. rewrite !andb_true_iff, orb_true_iff, !Z.eqb_eq, !Z.leb_le. tauto. }
  split; [split; now apply be16|].
  destruct (((b0 =? 0) || (b0 =? 1)) && (1 <=? 256 * b1 + b2)
            && (256 * b1 + b2 <=? 2000))%Z.
  - assert (Hm : modern) by now apply Hcond.
    split; [intros _; exact Edec|]. split; [intros Hn; now destruct Hn|].
    intros f Ef. rewrite Edec in Ef.
    destruct (readBytes r7 _) as [[bytes r']| |]; try discriminate Ef.
    cbn [bind] in Ef. injection Ef as <-. cbn. auto.
  - assert (Hm : ~ modern) by (intros Hm; apply Hcond in Hm; discriminate Hm).
    split; [intros Hy; now destruct Hm|].
    split; [intros _; now exists (bytesOfBits 2 (remaining r4)), r6|].
    intros f Ef. rewrite Edec in Ef.
    destruct (readBytes r6 _) as [[bytes r']| |]; try discriminate Ef.
    cbn [bind] in Ef. injection Ef as <-. cbn. auto.
Qed.

Lemma dual_format_classification_witness :
  let r4 := readerAfter (readBytes (newReader modernCarrier) 4) (newReader []) in
  let r7 := readerAfter (readBytes r4 3) (newReader []) in
  readBytes (newReader modernCarrier) 4 = Ret (MAGIC_MARKER, r4) /\
  readBytes r4 3 = Ret ([1; 0; 3]%Z, r7) /\
  decodeAddressFromImage modernCarrier
  = do (bytes, _) <- readBytes r7 (Z.to_nat (256 * 0 + 3));
    Ret (mkFrame true 1%Z (256 * 0 + 3)%Z bytes).
Proof.
  intros r4 r7.
  assert (E4 : readBytes (newReader modernCarrier) 4 = Ret (MAGIC_MARKER, r4))
    by (vm_compute; reflexivity).
  assert (E3 : readBytes r4 3 = Ret ([1; 0; 3]%Z, r7)) by (vm_compute; reflexivity).
  split; [exact E4|]. split; [exact E3|].
  destruct (dual_format_classification modernCarrier r4 r7 1%Z 0%Z 3%Z E4 E3)
    as (_ & Hmodern & _).
  apply Hmodern. lia.
Defined.

(** ** Frame parsing in the legacy branch *)

(** In the legacy branch frame parsing uses the length [(b0 << 8) | b1]
    as it is: it returns the payload of that length when the buffer
    holds that many bytes after magic and length, and throws "Not enough
    data" otherwise. *)
Lemma legacy_frame_outcomes (px : list Z) (r4 r7 : PixelBitReader) (b0 b1 b2 : Z) :
  readBytes (newReader px) 4 = Ret (MAGIC_MARKER, r4) ->
  readBytes r4 3 = Ret ([b0; b1; b2], r7) ->
  ~ ((b0 = 0 \/ b0 = 1) /\ 1 <= 256 * b1 + b2 <= 2000)%Z ->
  let len := (256 * b0 + b1)%Z in
  (0 <= len <= 65535)%Z /\
  (48 + Z.to_nat len * 8 <= length px / 4 * 3 ->
     exists payload,
       length payload = Z.to_nat len /\ Forall byte_ok payload /\
       decodeAddressFromImage px = Ret (mkFrame false 0%Z len payload)) /\
  (length px / 4 * 3 < 48 + Z.to_nat len * 8 ->
     decodeAddressFromImage px = Throw NotEnoughData) /\
  (len = 0%Z -> decodeAddressFromImage px = Ret (mkFrame false 0%Z 0%Z [])) /\
  decodeAddressFromImage px <> Throw InvalidDataLength.
Proof.
  intros E4 E3 Hleg len.
  destruct (decode_peek px r4 r7 b0 b1 b2 E4 E3)
    as ((Hb0 & Hb1 & Hb2) & Hok4 & Hok7 & Edec).
  destruct (readBytes_inv _ _ _ _ (newReader_ok px) E4) as (Hlen4 & _ & _ & Hrem4).
  destruct (readBytes_inv _ _ _ _ Hok4 E3) as (Hlen3 & _).
  destruct (readBytes_ret r4 2 Hok4 ltac:(lia)) as (r6 & E2 & Hok6 & Hrem6).
  assert (Hsz : length (remaining r6) = length px / 4 * 3 - 48).
  { rewrite Hrem6, Hrem4, !length_drop, newReader_remaining, lsbStream_length. lia. }
  assert (Hpeek : 56 <= length px / 4 * 3).
  { rewrite Hrem4, length_drop, newReader_remaining, lsbStream_length in Hlen3. lia. }
  destruct (((b0 =? 0) || (b0 =? 1)) && (1 <=? 256 * b1 + b2)
            && (256 * b1 + b2 <=? 2000))%Z eqn:Ec.
  { exfalso. apply Hleg. format_test_prop Ec. tauto. }
  rewrite E2 in Edec. cbn [bind] in Edec. fold len in Edec.
  assert (Hrange : (0 <= len <= 65535)%Z) by (unfold len, byte_ok in *; lia).
  assert (Hfit : 48 + Z.to_nat len * 8 <= length px / 4 * 3 ->
     exists payload,
       length payload = Z.to_nat len /\ Forall byte_ok payload /\
       decodeAddressFromImage px = Ret (mkFrame false 0%Z len payload)).
  { intros Hroom.
    destruct (readBytes_ret r6 (Z.to_nat len) Hok6 ltac:(lia)) as (r' & E & _).
    exists (bytesOfBits (Z.to_nat len) (remaining r6)).
    split; [apply bytesOfBits_length|].
    split; [apply bytesOfBits_ok; [now apply remaining_ok|lia]|].
    rewrite Edec, E. reflexivity. }
  assert (Hshort : length px / 4 * 3 < 48 + Z.to_nat len * 8 ->
     decodeAddressFromImage px = Throw NotEnoughData).
  { intros Hroom. rewrite Edec, readBytes_throw by (trivial; lia). reflexivity. }
  split; [exact Hrange|]. split; [exact Hfit|]. split; [exact Hshort|]. split.
  - intros E0. assert (Hn : Z.to_nat len = 0) by (rewrite E0; reflexivity).
    destruct Hfit as (payload & Hl & _ & E); [lia|].
    rewrite Hn in Hl. rewrite E, E0. destruct payload; [reflexivity|discriminate Hl].
  - destruct (Nat.le_gt_cases (48 + Z.to_nat len * 8) (length px / 4 * 3)) as [H|H].
    + destruct (Hfit H) as (payload & _ & _ & ->). discriminate.
    + rewrite (Hshort H). discriminate.
Qed.

(** ** C4: legacy compatibility *)

Lemma magic_bytes_ok : Forall byte_ok MAGIC_MARKER.
Proof.
  unfold MAGIC_MARKER. forall_literal.
Qed.

Lemma be16_split (n : Z) :
  (0 <= n < 65536)%Z ->
  byte_ok (n / 256) /\ byte_ok (n mod 256) /\ (256 * (n / 256) + n mod 256 = n)%Z.
Proof. intros Hn. unfold byte_ok. Z.div_mod_to_equations. lia. Qed.

(** C4.  For every legacy frame [MAGIC | LEN (2 bytes, big-endian) |
    PAYLOAD] (the frame of the version 1.0 encoder) written by [encodeLSB]
    into a carrier with room for it, if the three bytes that follow the
    magic in the carrier do not satisfy the modern-format test,
    [decodeAddressFromImage] takes the legacy branch and returns exactly
    [PAYLOAD], with length [LEN] and the address type tag. *)
Theorem legacy_compatibility (carrier payload : list Z)
    (r4 r7 : PixelBitReader) (b0 b1 b2 : Z) :
  let len := Z.of_nat (length payload) in
  let px := fst (encodeLSB carrier (legacyFrame payload)) in
  Forall byte_ok payload -> (len < 65536)%Z ->
  ceil_div (length (legacyFrame payload) * 8) 3 * 4 <= length carrier ->
  readBytes (newReader px) 4 = Ret (MAGIC_MARKER, r4) ->
  readBytes r4 3 = Ret ([b0; b1; b2], r7) ->
  ~ ((b0 = 0 \/ b0 = 1) /\ 1 <= 256 * b1 + b2 <= 2000)%Z ->
  legacyFrame payload = MAGIC_MARKER ++ [len / 256; len mod 256]%Z ++ payload /\
  snd (encodeLSB carrier (legacyFrame payload)) = Ret tt /\
  decodeAddressFromImage px = Ret (mkFrame false 0%Z len payload).
Proof.
  intros len px Hp Hlen Hcap E4 E3 Hleg.
  pose proof (legacyFrame_spec payload Hp Hlen) as Eframe. fold len in Eframe.
  split; [exact Eframe|].
  destruct (be16_split len ltac:(lia)) as (Hhi & Hlo & Hval).
  assert (Hhl : Forall byte_ok [len / 256; len mod 256]%Z).
  { apply List.Forall_cons; [exact Hhi|]. apply List.Forall_cons; [exact Hlo|].
    apply List.Forall_nil. }
  assert (Hframe : Forall byte_ok (legacyFrame payload)).
  { rewrite Eframe. apply Forall_app. split; [apply magic_bytes_ok|].
    apply Forall_app. split; [exact Hhl|exact Hp]. }
  split; [apply encodeLSB_returns; now right|].
  destruct (encoded_remaining carrier (legacyFrame payload) Hframe Hcap) as (tail & Hrem).
  fold px in Hrem. rewrite Eframe, !bytesBits_app, <- !app_assoc in Hrem.
  destruct (read_prefix _ _ _ (newReader_ok px) magic_bytes_ok Hrem)
    as (r4' & E4' & Hok4 & Hrem4).
  change (length MAGIC_MARKER) with 4 in E4'.
  rewrite E4 in E4'. injection E4' as <-.
  destruct (read_prefix _ _ _ Hok4 Hhl Hrem4) as (r6 & E2 & Hok6 & Hrem6).
  change (length [len / 256; len mod 256]%Z) with 2 in E2.
  destruct (readBytes_inv _ _ _ _ Hok4 E3) as (Hlen3 & Epeek & _).
  rewrite (bytesOfBits_add 2 1) in Epeek.
  rewrite Hrem4 in Epeek at 1.
  rewrite (bytesOfBits_bytesBits [len / 256; len mod 256]%Z) in Epeek by exact Hhl.
  cbn [app bytesOfBits] in Epeek. injection Epeek as -> -> _.
  destruct (decode_peek px r4 r7 _ _ b2 E4 E3) as (_ & _ & _ & Edec).
  destruct (((len / 256 =? 0) || (len / 256 =? 1)) && (1 <=? 256 * (len mod 256) + b2)
            && (256 * (len mod 256) + b2 <=? 2000))%Z eqn:Ec.
  { exfalso. apply Hleg. format_test_prop Ec. tauto. }
  rewrite E2 in Edec. cbn [bind] in Edec. rewrite Hval in Edec.
  unfold len in Edec at 1. rewrite Nat2Z.id in Edec.
  destruct (read_prefix _ _ _ Hok6 Hp Hrem6) as (r' & E & _).
  rewrite E in Edec. exact Edec.
Qed.

Lemma legacy_compatibility_witness :
  let r4 := readerAfter (readBytes (newReader legacyCarrier) 4) (newReader []) in
  let r7 := readerAfter (readBytes r4 3) (newReader []) in
  Forall byte_ok legacyPayload /\
  readBytes (newReader legacyCarrier) 4 = Ret (MAGIC_MARKER, r4) /\
  readBytes r4 3 = Ret ([0; 8; 1]%Z, r7) /\
  ~ ((0 = 0 \/ 0 = 1) /\ 1 <= 256 * 8 + 1 <= 2000)%Z /\
  decodeAddressFromImage legacyCarrier
  = Ret (mkFrame false 0%Z (Z.of_nat (length legacyPayload)) legacyPayload).
Proof.
  intros r4 r7.
  assert (Hp : Forall byte_ok legacyPayload).
  { unfold legacyPayload. forall_literal. }
  assert (E4 : readBytes (newReader legacyCarrier) 4 = Ret (MAGIC_MARKER, r4))
    by (vm_compute; reflexivity).
  assert (E3 : readBytes r4 3 = Ret ([0; 8; 1]%Z, r7)) by (vm_compute; reflexivity).
  assert (Hleg : ~ ((0 = 0 \/ 0 = 1) /\ 1 <= 256 * 8 + 1 <= 2000)%Z) by lia.
  assert (Hlen : (Z.of_nat (length legacyPayload) < 65536)%Z) by (vm_compute; reflexivity).
  assert (Hcap : ceil_div (length (legacyFrame legacyPayload) * 8) 3 * 4
                 <= length legacyBlank) by (vm_compute; lia).
  split; [exact Hp|]. split; [exact E4|]. split; [exact E3|]. split; [exact Hleg|].
  exact (proj2 (proj2 (legacy_compatibility legacyBlank legacyPayload r4 r7 0%Z 8%Z 1%Z
                         Hp Hlen Hcap E4 E3 Hleg))).
Defined.

(** ** C1: round trip of the modern frame *)

(** C1.  For every payload [p] of 1 to 2000 bytes, every type tag [t] in
    [{0x00, 0x01}] and every pixel buffer of at least
    [pixelsNeeded(len(p))] pixels: the frame that [encodeAddressInImage]
    assembles is [MAGIC | t | len(p) as 2 big-endian bytes | p], embedding
    it with [encodeLSB] succeeds, and the frame parsing of
    [decodeAddressFromImage] on the resulting buffer takes the stream as
    modern and returns type tag [t] and payload [p]. *)
Theorem roundtrip_modern_frame (px : list Z) (t : Z) (p : list Z) :
  let len := Z.of_nat (length p) in
  Forall byte_ok p -> 1 <= length p <= 2000 -> t = 0%Z \/ t = 1%Z ->
  pixelsNeeded (length p) * 4 <= length px ->
  buildFrame t p = MAGIC_MARKER ++ [t; len / 256; len mod 256]%Z ++ p /\
  encodeAddressInImage px t p = encodeLSB px (buildFrame t p) /\
  snd (encodeAddressInImage px t p) = Ret tt /\
  decodeAddressFromImage (fst (encodeAddressInImage px t p))
  = Ret (mkFrame true t len p).
Proof.
  intros len Hp Hlen Ht Hcap.
  assert (Htb : byte_ok t) by (unfold byte_ok; destruct Ht; lia).
  assert (Hl : (0 <= len < 65536)%Z) by lia.
  pose proof (buildFrame_spec t p Htb Hp ltac:(lia)) as Eframe. fold len in Eframe.
  destruct (be16_split len Hl) as (Hhi & Hlo & Hval).
  assert (Hhdr : Forall byte_ok [t; len / 256; len mod 256]%Z).
  { repeat (apply List.Forall_cons; [assumption|]). apply List.Forall_nil. }
  assert (Hframe : Forall byte_ok (buildFrame t p)).
  { rewrite Eframe. apply Forall_app. split; [apply magic_bytes_ok|].
    apply Forall_app. split; [exact Hhdr|exact Hp]. }
  assert (Eenc : encodeAddressInImage px t p = encodeLSB px (buildFrame t p)).
  { unfold encodeAddressInImage. cbv zeta. rewrite pixelsNeeded_frame.
    destruct (Nat.ltb_spec (length px) (4 * pixelsNeeded (length p))); [lia|reflexivity]. }
  assert (Hcap' : ceil_div (length (buildFrame t p) * 8) 3 * 4 <= length px)
    by (rewrite pixelsNeeded_frame; exact Hcap).
  split; [exact Eframe|]. split; [exact Eenc|]. rewrite Eenc.
  split; [apply encodeLSB_returns; now right|].
  set (px' := fst (encodeLSB px (buildFrame t p))).
  destruct (encoded_remaining px (buildFrame t p) Hframe Hcap') as (tail & Hrem).
  fold px' in Hrem. rewrite Eframe, !bytesBits_app, <- !app_assoc in Hrem.
  destruct (read_prefix _ _ _ (newReader_ok px') magic_bytes_ok Hrem)
    as (r4 & E4 & Hok4 & Hrem4).
  change (length MAGIC_MARKER) with 4 in E4.
  destruct (read_prefix _ _ _ Hok4 Hhdr Hrem4) as (r7 & E3 & Hok7 & Hrem7).
  change (length [t; len / 256; len mod 256]%Z) with 3 in E3.
  destruct (decode_peek px' r4 r7 _ _ _ E4 E3) as (_ & _ & _ & Edec).
  rewrite Hval in Edec.
  assert (Ec : (((t =? 0) || (t =? 1)) && (1 <=? len) && (len <=? 2000))%Z = true).
  { rewrite !andb_true_iff, orb_true_iff, !Z.eqb_eq, !Z.leb_le. lia. }
  rewrite Ec in Edec.
  unfold len in Edec at 1. rewrite Nat2Z.id in Edec.
  destruct (read_prefix _ _ _ Hok7 Hp Hrem7) as (r' & E & _).
  rewrite E in Edec. exact Edec.
Qed.

Lemma roundtrip_modern_frame_witness :
  Forall byte_ok [26; 43; 60]%Z /\
  pixelsNeeded (length [26; 43; 60]%Z) * 4 <= length (replicate 108 7%Z) /\
  decodeAddressFromImage
    (fst (encodeAddressInImage (replicate 108 7%Z) 1%Z [26; 43; 60]%Z))
  = Ret (mkFrame true 1%Z (Z.of_nat (length [26; 43; 60]%Z)) [26; 43; 60]%Z).
Proof.
  assert (Hp : Forall byte_ok [26; 43; 60]%Z).
  { forall_literal. }
  assert (Hlen : 1 <= length [26; 43; 60]%Z <= 2000) by (cbn [length]; lia).
  assert (Hcap : pixelsNeeded (length [26; 43; 60]%Z) * 4 <= length (replicate 108 7%Z))
    by (vm_compute; lia).
  split; [exact Hp|]. split; [exact Hcap|].
  exact (proj2 (proj2 (proj2
    (roundtrip_modern_frame (replicate 108 7%Z) 1%Z [26; 43; 60]%Z
       Hp Hlen (or_intror eq_refl) Hcap)))).
Defined.

(** * Further properties of the bit transport *)

(** ** What [encodeLSB] leaves in the buffer *)

Section ChannelFacts.

Local Open Scope Z_scope.

Lemma and_254_byte x : byte_ok x -> JS.and x 254 = 2 * (x / 2).
Proof.
  unfold byte_ok. intros Hx. unfold JS.and.
  rewrite !toInt32_small by lia. rewrite land_254_low by lia.
  Z.div_mod_to_equations. lia.
Qed.

(** The value a colour channel holds after one store of the loop: the old
    byte with its low bit replaced. *)
Lemma stored_channel_byte x bit :
  byte_ok x -> bit_ok bit ->
  JS.toUint8Clamp (JS.or (JS.and x 254) bit) = 2 * (x / 2) + bit.
Proof.
  intros Hx Hbit. destruct (stored_channel x bit Hbit) as (-> & _ & _).
  rewrite and_254_byte by exact Hx.
  unfold byte_ok in Hx. unfold JS.or.
  assert (0 <= x / 2 <= 127) by (Z.div_mod_to_equations; lia).
  rewrite (toInt32_small (2 * (x / 2))) by lia.
  rewrite (toInt32_small bit) by (destruct Hbit; lia).
  apply lor_disjoint. destruct Hbit as [-> | ->]; [apply Z.land_0_r|].
  rewrite land_1, Z.mul_comm. apply Z.mod_mul. lia.
Qed.

End ChannelFacts.

Section HighBitsFacts.

Lemma writePixel_high_bits px k v j x :
  px !! j = Some x -> byte_ok x -> j mod 4 <> 3 ->
  exists y, writePixel px k v !! j = Some y /\ byte_ok y /\ (y / 2 = x / 2)%Z.
Proof.
  intros Hj Hx Hmod.
  assert (Hlt : j < length px) by (apply lookup_lt_is_Some; eauto).
  assert (Hsame : byte_ok x /\ (x / 2 = x / 2)%Z) by auto.
  assert (Hnew : forall bit, bit_ok bit ->
            byte_ok (2 * (x / 2) + bit) /\ ((2 * (x / 2) + bit) / 2 = x / 2)%Z).
  { intros bit Hb. unfold byte_ok in *. destruct Hb as [-> | ->];
      split; Z.div_mod_to_equations; lia. }
  destruct (decide (j < k * 4 \/ k * 4 + 4 <= j)) as [Hout|Hin].
  { exists x. rewrite writePixel_other by exact Hout. auto. }
  assert (Hc : j = k * 4 \/ j = k * 4 + 1 \/ j = k * 4 + 2).
  { assert (j <> k * 4 + 3); [|lia].
    intros ->. apply Hmod. rewrite Nat.add_comm, Nat.Div0.mod_add. reflexivity. }
  unfold writePixel. cbv zeta.
  destruct Hc as [-> | [-> | ->]].
  - rewrite !list_lookup_insert_ne by lia.
    rewrite list_lookup_insert_eq by lia.
    unfold JS.get. rewrite Hj. cbn [default from_option id].
    eexists. split; [reflexivity|].
    rewrite stored_channel_byte by (trivial; apply and_1_bit).
    apply Hnew, and_1_bit.
  - rewrite !list_lookup_insert_ne by lia.
    rewrite list_lookup_insert_eq by (rewrite ?length_insert; lia).
    unfold JS.get at 1. rewrite list_lookup_insert_ne by lia. rewrite Hj.
    cbn [default from_option id].
    eexists. split; [reflexivity|].
    rewrite stored_channel_byte by (trivial; apply and_1_bit).
    apply Hnew, and_1_bit.
  - rewrite !list_lookup_insert_ne by lia.
    rewrite list_lookup_insert_eq by (rewrite ?length_insert; lia).
    unfold JS.get at 1. rewrite !list_lookup_insert_ne by lia. rewrite Hj.
    cbn [default from_option id].
    eexists. split; [reflexivity|].
    rewrite stored_channel_byte by (trivial; apply and_1_bit).
    apply Hnew, and_1_bit.
Qed.

Lemma encodeLSB_loop_high_bits fuel : forall (qu : BitQueue) px k j x,
  px !! j = Some x -> byte_ok x -> j mod 4 <> 3 ->
  exists y, fst (encodeLSB_loop fuel qu px k) !! j = Some y /\
            byte_ok y /\ (y / 2 = x / 2)%Z.
Proof.
  induction fuel as [|fuel IH]; intros qu px k j x Hj Hx Hmod.
  - exists x. cbn. auto.
  - cbn [encodeLSB_loop].
    destruct (0 <? size qu); [|exists x; cbn; auto].
    destruct (length px <=? 4 * k); [exists x; cbn; auto|].
    destruct (gather3 qu) as [v q'].
    destruct (writePixel_high_bits px k v j x Hj Hx Hmod) as (y & Hy & Hby & Ey).
    destruct (IH q' (writePixel px k v) (S k) j y Hy Hby Hmod) as (z & Hz & Hbz & Ez).
    exists z. split; [exact Hz|]. split; [exact Hbz|]. congruence.
Qed.

(** Alpha of every whole pixel the loop reaches, however the loop ends. *)
Lemma encodeLSB_loop_alpha fuel : forall (qu : BitQueue) px k i,
  size qu < fuel ->
  k <= i < k + ceil_div (size qu) 3 -> i * 4 + 3 < length px ->
  fst (encodeLSB_loop fuel qu px k) !! (i * 4 + 3) = Some 255%Z.
Proof.
  induction fuel as [|fuel IH]; intros qu px k i Hfuel Hi Hin; [lia|].
  cbn [encodeLSB_loop].
  destruct (Nat.ltb_spec 0 (size qu)) as [Hpos|Hzero].
  2:{ replace (size qu) with 0 in Hi by lia. rewrite ceil3_0 in Hi. lia. }
  rewrite (ceil3_step (size qu)) in Hi by trivial.
  destruct (Nat.leb_spec (length px) (4 * k)) as [Hfull|Hroom]; [lia|].
  pose proof (gather3_size qu) as Hsz.
  destruct (gather3 qu) as [v q'] eqn:Eg. cbn [snd] in Hsz.
  destruct (decide (i = k)) as [->|Hne].
  - destruct (encodeLSB_loop_frame fuel q' (writePixel px k v) (S k) ltac:(lia))
      as (_ & Hfr & _).
    rewrite Hfr by lia. now apply writePixel_alpha.
  - apply IH; [lia| |now rewrite writePixel_length].
    rewrite Hsz. lia.
Qed.

End HighBitsFacts.

(** X1.  Transport round trip without framing: whatever bytes [encodeLSB]
    writes into a buffer with room for them ([ceil(8 * len / 3)] whole
    pixels), a fresh [PixelBitReader] reads back with [readBytes(len)]. *)
Theorem transport_roundtrip (px data : list Z) :
  Forall byte_ok data ->
  ceil_div (length data * 8) 3 * 4 <= length px ->
  snd (encodeLSB px data) = Ret tt /\
  exists r, readBytes (newReader (fst (encodeLSB px data))) (length data) = Ret (data, r).
Proof.
  intros Hd Hcap. split; [apply encodeLSB_returns; now right|].
  destruct (encoded_remaining px data Hd Hcap) as (tail & Hrem).
  destruct (read_prefix _ _ _ (newReader_ok _) Hd Hrem) as (r & E & _).
  now exists r.
Qed.

Lemma transport_roundtrip_witness :
  Forall byte_ok [200; 17]%Z /\
  ceil_div (length [200; 17]%Z * 8) 3 * 4 <= length (replicate 24 9%Z) /\
  exists r,
    readBytes (newReader (fst (encodeLSB (replicate 24 9%Z) [200; 17]%Z)))
      (length [200; 17]%Z) = Ret ([200; 17]%Z, r).
Proof.
  assert (Hd : Forall byte_ok [200; 17]%Z) by forall_literal.
  assert (Hcap : ceil_div (length [200; 17]%Z * 8) 3 * 4 <= length (replicate 24 9%Z))
    by (vm_compute; lia).
  split; [exact Hd|]. split; [exact Hcap|].
  exact (proj2 (transport_roundtrip (replicate 24 9%Z) [200; 17]%Z Hd Hcap)).
Defined.

(** X2.  [encodeLSB] touches a colour channel only in its lowest bit:
    every R, G or B byte of the buffer keeps its upper seven bits and
    stays a byte, so it moves by at most 1, whatever the data and whether
    or not the call succeeds. *)
Theorem encodeLSB_low_bit_only (px data : list Z) (j : nat) (x : Z) :
  px !! j = Some x -> byte_ok x -> j mod 4 <> 3 ->
  exists y, fst (encodeLSB px data) !! j = Some y /\ byte_ok y /\
            (y / 2 = x / 2)%Z /\ (-1 <= y - x <= 1)%Z.
Proof.
  intros Hj Hx Hmod. unfold encodeLSB.
  destruct (encodeLSB_loop_high_bits (S (size (pushBytes newBitQueue data)))
              (pushBytes newBitQueue data) px 0 j x Hj Hx Hmod) as (y & Hy & Hby & Ey).
  exists y. split; [exact Hy|]. split; [exact Hby|]. split; [exact Ey|].
  unfold byte_ok in *. Z.div_mod_to_equations. lia.
Qed.

Lemma encodeLSB_low_bit_only_witness :
  replicate 16 6%Z !! 1 = Some 6%Z /\ byte_ok 6 /\ 1 mod 4 <> 3 /\
  fst (encodeLSB (replicate 16 6%Z) [255%Z]) !! 1 = Some 7%Z.
Proof.
  assert (H1 : replicate 16 6%Z !! 1 = Some 6%Z) by reflexivity.
  assert (H2 : byte_ok 6) by (unfold byte_ok; lia).
  assert (H3 : 1 mod 4 <> 3) by (vm_compute; lia).
  split; [exact H1|]. split; [exact H2|]. split; [exact H3|].
  destruct (encodeLSB_low_bit_only (replicate 16 6%Z) [255%Z] 1 6%Z H1 H2 H3)
    as (y & Hy & _).
  rewrite Hy. vm_compute in Hy. symmetry. exact Hy.
Defined.

(** X3.  [encodeLSB] throws "Image too small for data" exactly when there
    is data and the buffer ends at or before the start of the last pixel
    the data needs; by then it has written every whole pixel of the
    buffer (alpha 255 everywhere): the failure is detected only after
    the buffer is used up, not before the first write. *)
Theorem encodeLSB_fails_after_writing (px data : list Z) :
  let n := ceil_div (length data * 8) 3 in
  (snd (encodeLSB px data) = Throw ImageTooSmallForData <->
     0 < n /\ length px <= (n - 1) * 4) /\
  (snd (encodeLSB px data) = Throw ImageTooSmallForData ->
     forall i, i * 4 + 3 < length px ->
       fst (encodeLSB px data) !! (i * 4 + 3) = Some 255%Z).
Proof.
  intros n.
  destruct (encodeLSB_frame px data) as (_ & _ & _ & Hres). fold n in Hres.
  assert (Hiff : snd (encodeLSB px data) = Throw ImageTooSmallForData <->
                 0 < n /\ length px <= (n - 1) * 4).
  { rewrite Hres. destruct (decide _) as [Hy|Hn]; split; intros H;
      try discriminate H; try reflexivity; lia. }
  split; [exact Hiff|].
  intros Hthrow i Hi. apply Hiff in Hthrow as [Hpos Hsmall].
  unfold encodeLSB.
  apply encodeLSB_loop_alpha; [lia| |exact Hi].
  rewrite pushBytes_size. cbn [size newBitQueue bits length Nat.add]. fold n. lia.
Qed.

Lemma encodeLSB_fails_after_writing_witness :
  snd (encodeLSB (replicate 8 7%Z) [255%Z]) = Throw ImageTooSmallForData /\
  fst (encodeLSB (replicate 8 7%Z) [255%Z]) !! (1 * 4 + 3) = Some 255%Z.
Proof.
  destruct (encodeLSB_fails_after_writing (replicate 8 7%Z) [255%Z]) as [Hiff Hall].
  assert (Hthrow : snd (encodeLSB (replicate 8 7%Z) [255%Z]) = Throw ImageTooSmallForData).
  { apply Hiff. vm_compute. lia. }
  split; [exact Hthrow|]. apply (Hall Hthrow). vm_compute. lia.
Defined.

(** ** The bit queue as a FIFO *)

Section FifoFacts.

Local Open Scope Z_scope.

Lemma bitsValue_of_value (v : Z) (n : nat) :
  bitsValue (map (fun i => (v / 2 ^ Z.of_nat i) mod 2) (rev (seq 0 n)))
  = v mod 2 ^ Z.of_nat n.
Proof.
  induction n as [|n IH].
  - cbn. now rewrite Z.mod_1_r.
  - rewrite seq_S, rev_app_distr. cbn [rev app map Nat.add].
    rewrite bitsValue_cons, IH.
    rewrite length_map, length_rev, length_seq.
    rewrite Nat2Z.inj_succ, Z.pow_succ_r by lia.
    rewrite (Z.mul_comm 2), Z.rem_mul_r by lia. lia.
Qed.

Lemma pushLoop_app count : forall bs value,
  pushLoop bs value count = bs ++ pushLoop [] value count.
Proof.
  induction count as [|i IH]; intros bs value; cbn [pushLoop].
  - now rewrite app_nil_r.
  - rewrite IH, (IH ([] ++ _)). now rewrite <- app_assoc.
Qed.

Lemma pushLoop_ok count : forall value, Forall bit_ok (pushLoop [] value count).
Proof.
  induction count as [|i IH]; intros value; cbn [pushLoop]; [constructor|].
  rewrite pushLoop_app. apply Forall_app. split; [|apply IH].
  apply List.Forall_cons; [apply and_1_bit|apply List.Forall_nil].
Qed.

End FifoFacts.

(** X4.  Push/pop round trip of the bit queue: the [n] low bits of a value
    pushed with [pushBitsFromValue] on an empty queue come back from
    [popBits(n)] as the value modulo [2^n], and the queue is empty again
    (for [n <= 31] and a value below [2^31]); in particular a byte pushed
    with [pushByte] comes back from [popByte]. *)
Theorem push_pop_roundtrip (v : Z) (n : nat) :
  (0 <= v < 2147483648)%Z -> n <= 31 ->
  popBits (pushBitsFromValue newBitQueue v n) n
  = (Some (v mod 2 ^ Z.of_nat n)%Z, newBitQueue)
  /\ (byte_ok v -> popByte (pushByte newBitQueue v) = (Some v, newBitQueue)).
Proof.
  intros Hv Hn.
  assert (Hgen : forall m, m <= 31 ->
            popBits (pushBitsFromValue newBitQueue v m) m
            = (Some (v mod 2 ^ Z.of_nat m)%Z, newBitQueue)).
  { intros m Hm.
    assert (Ebits : bits (pushBitsFromValue newBitQueue v m)
                    = map (fun i => (v / 2 ^ Z.of_nat i) mod 2)%Z (rev (seq 0 m))).
    { unfold pushBitsFromValue. cbn [bits newBitQueue].
      now rewrite pushLoop_spec by (trivial; lia). }
    assert (Elen : length (bits (pushBitsFromValue newBitQueue v m)) = m).
    { rewrite Ebits. now rewrite length_map, length_rev, length_seq. }
    rewrite popBits_enough; unfold size; rewrite ?Elen; try lia.
    - rewrite take_ge, drop_ge by lia. rewrite Ebits, bitsValue_of_value. reflexivity.
    - unfold pushBitsFromValue. cbn [bits newBitQueue]. apply pushLoop_ok. }
  split; [now apply Hgen|].
  intros Hb. unfold popByte, pushByte.
  change (mkBitQueue (pushLoop (bits newBitQueue) v 8)) with (pushBitsFromValue newBitQueue v 8).
  rewrite Hgen by lia. do 2 f_equal. apply Z.mod_small. exact Hb.
Qed.

Lemma push_pop_roundtrip_witness :
  (0 <= 300 < 2147483648)%Z /\ 5 <= 31 /\
  popBits (pushBitsFromValue newBitQueue 300%Z 5) 5 = (Some 12%Z, newBitQueue).
Proof.
  assert (H1 : (0 <= 300 < 2147483648)%Z) by lia.
  assert (H2 : 5 <= 31) by lia.
  split; [exact H1|]. split; [exact H2|].
  exact (proj1 (push_pop_roundtrip 300%Z 5 H1 H2)).
Defined.

(** X5.  FIFO order: pushing a byte behind the queued bits does not
    disturb what [popBits] takes from the front; popping [n] of the bits
    that were already queued gives the same value whether the byte is
    pushed before or after the pop, and the same queue. *)
Theorem push_behind_pop_front (qu : BitQueue) (b : Z) (n : nat) :
  Forall bit_ok (bits qu) -> n <= size qu -> n <= 31 ->
  popBits (pushByte qu b) n
  = (fst (popBits qu n), pushByte (snd (popBits qu n)) b).
Proof.
  intros Hwf Hn H31.
  assert (Hwf' : Forall bit_ok (bits (pushByte qu b))).
  { unfold pushByte. cbn [bits]. rewrite pushLoop_app.
    apply Forall_app. split; [exact Hwf|apply pushLoop_ok]. }
  rewrite (popBits_enough qu n) by trivial.
  rewrite popBits_enough; trivial.
  2:{ unfold size, pushByte in *. cbn [bits]. rewrite pushLoop_length. lia. }
  cbn [fst snd]. unfold pushByte. cbn [bits].
  rewrite (pushLoop_app 8 (bits qu)), (pushLoop_app 8 (drop n (bits qu))).
  unfold size in Hn. now rewrite take_app_le, drop_app_le by lia.
Qed.

Lemma push_behind_pop_front_witness :
  Forall bit_ok (bits (mkBitQueue [1; 0; 1]%Z)) /\
  popBits (pushByte (mkBitQueue [1; 0; 1]%Z) 255%Z) 2
  = (Some 2%Z, pushByte (mkBitQueue [1%Z]) 255%Z).
Proof.
  assert (Hwf : Forall bit_ok (bits (mkBitQueue [1; 0; 1]%Z))).
  { cbn [bits]. forall_literal. }
  split; [exact Hwf|].
  exact (push_behind_pop_front (mkBitQueue [1; 0; 1]%Z) 255%Z 2 Hwf
           ltac:(cbn; lia) ltac:(lia)).
Defined.

(** ** Reading bytes *)

Section ReadFacts.

Lemma newReader_room px : length (remaining (newReader px)) = length px / 4 * 3.
Proof. now rewrite newReader_remaining, lsbStream_length. Qed.

End ReadFacts.

(** X6.  [readBytes] on a fresh reader succeeds exactly when the whole
    pixels of the buffer hold enough bits, three per pixel (a trailing
    partial pixel does not count): with [8 * count <= 3 *
    floor(length / 4)] it returns [count] bytes, otherwise it throws "Not
    enough data".  Reading zero bytes always succeeds. *)
Theorem readBytes_threshold (px : list Z) (count : nat) :
  (count * 8 <= length px / 4 * 3 ->
     exists bytes r, readBytes (newReader px) count = Ret (bytes, r) /\
                     length bytes = count /\ Forall byte_ok bytes) /\
  (length px / 4 * 3 < count * 8 ->
     readBytes (newReader px) count = Throw NotEnoughData).
Proof.
  split; intros H.
  - destruct (readBytes_ret (newReader px) count (newReader_ok px)) as (r & E & _).
    { now rewrite newReader_room. }
    exists (bytesOfBits count (remaining (newReader px))), r.
    split; [exact E|]. split; [apply bytesOfBits_length|].
    apply (readBytes_bytes_ok _ _ _ _ (newReader_ok px) E).
  - apply readBytes_throw; [apply newReader_ok|now rewrite newReader_room].
Qed.

Lemma readBytes_threshold_witness :
  (2 * 8 <= length (replicate 24 1%Z) / 4 * 3 /\
   exists r, readBytes (newReader (replicate 24 1%Z)) 2 = Ret ([255; 255]%Z, r)) /\
  (length (replicate 24 1%Z) / 4 * 3 < 3 * 8 /\
   readBytes (newReader (replicate 24 1%Z)) 3 = Throw NotEnoughData).
Proof.
  assert (H1 : 2 * 8 <= length (replicate 24 1%Z) / 4 * 3) by (vm_compute; lia).
  assert (H2 : length (replicate 24 1%Z) / 4 * 3 < 3 * 8) by (vm_compute; lia).
  split; (split; [assumption|]).
  - destruct (proj1 (readBytes_threshold (replicate 24 1%Z) 2) H1) as (bytes & r & E & _).
    exists r. rewrite E. vm_compute in E. injection E as <- _. reflexivity.
  - exact (proj2 (readBytes_threshold (replicate 24 1%Z) 3) H2).
Defined.

(** X7.  Reads add up: if a fresh reader yields [x] for [readBytes(a)]
    and the reader it leaves yields [y] for [readBytes(b)], then a fresh
    reader yields [x ++ y] for [readBytes(a + b)]; and if the first read
    throws, so does the combined one.  (This is what lets
    [decodeAddressFromImage] re-read from fresh cursors.) *)
Theorem readBytes_additive (px : list Z) (a b : nat) :
  (forall x y r1 r2,
     readBytes (newReader px) a = Ret (x, r1) -> readBytes r1 b = Ret (y, r2) ->
     exists r, readBytes (newReader px) (a + b) = Ret (x ++ y, r)) /\
  (readBytes (newReader px) a = Throw NotEnoughData ->
   readBytes (newReader px) (a + b) = Throw NotEnoughData).
Proof.
  split.
  - intros x y r1 r2 Ea Eb.
    destruct (readBytes_inv _ _ _ _ (newReader_ok px) Ea) as (Hla & -> & Hok1 & Hrem1).
    destruct (readBytes_inv _ _ _ _ Hok1 Eb) as (Hlb & -> & _ & _).
    rewrite Hrem1, length_drop in Hlb.
    destruct (readBytes_ret (newReader px) (a + b) (newReader_ok px) ltac:(lia))
      as (r & E & _).
    exists r. rewrite E, bytesOfBits_add, Hrem1. reflexivity.
  - intros Ea.
    pose proof (readBytes_spec (newReader px) a (newReader_ok px)) as Ha.
    destruct (Nat.leb_spec (a * 8) (length (remaining (newReader px)))) as [Hle|Hgt].
    + destruct Ha as (r & E & _). rewrite E in Ea. discriminate Ea.
    + apply readBytes_throw; [apply newReader_ok|lia].
Qed.

Lemma readBytes_additive_witness :
  let r1 := readerAfter (readBytes (newReader modernCarrier) 4) (newReader []) in
  let r2 := readerAfter (readBytes r1 3) (newReader []) in
  readBytes (newReader modernCarrier) 4 = Ret (MAGIC_MARKER, r1) /\
  readBytes r1 3 = Ret ([1; 0; 3]%Z, r2) /\
  exists r, readBytes (newReader modernCarrier) (4 + 3)
            = Ret (MAGIC_MARKER ++ [1; 0; 3]%Z, r).
Proof.
  intros r1 r2.
  assert (E4 : readBytes (newReader modernCarrier) 4 = Ret (MAGIC_MARKER, r1))
    by (vm_compute; reflexivity).
  assert (E3 : readBytes r1 3 = Ret ([1; 0; 3]%Z, r2)) by (vm_compute; reflexivity).
  split; [exact E4|]. split; [exact E3|].
  exact (proj1 (readBytes_additive modernCarrier 4 3) _ _ _ _ E4 E3).
Defined.

(** ** Outcomes of [decodeAddressFromImage] *)

(** X8.  Frame parsing ends in one of three ways only: "Not enough data",
    "Magic marker not found", or a frame.  A frame always carries
    [dataLength] bytes, each in [0, 255]; a modern frame has type tag 0 or
    1 and a length in [1, 2000], a legacy frame has type tag 0 and a
    length in [0, 65535].  "Invalid data length" and "Unexpected decode
    path" are never thrown. *)
Theorem decode_outcomes (px : list Z) :
  decodeAddressFromImage px = Throw NotEnoughData \/
  decodeAddressFromImage px = Throw MagicMarkerNotFound \/
  exists f,
    decodeAddressFromImage px = Ret f /\
    length (dataBytes f) = Z.to_nat (dataLength f) /\
    Forall byte_ok (dataBytes f) /\
    (if isNewFormat f
     then (dataTypeByte f = 0 \/ dataTypeByte f = 1) /\ 1 <= dataLength f <= 2000
     else dataTypeByte f = 0 /\ 0 <= dataLength f <= 65535)%Z.
Proof.
  pose proof (readBytes_spec (newReader px) 4 (newReader_ok px)) as H4.
  destruct (4 * 8 <=? length (remaining (newReader px))).
  2:{ left. unfold decodeAddressFromImage. cbv zeta. now rewrite H4. }
  destruct H4 as (r4 & E4 & Hok4 & _).
  destruct (magicMatches (bytesOfBits 4 (remaining (newReader px)))) eqn:Em.
  2:{ right; left. unfold decodeAddressFromImage. cbv zeta. rewrite E4. cbn [bind].
      now rewrite Em. }
  apply magicMatches_spec in Em; [|apply bytesOfBits_length]. rewrite Em in E4.
  pose proof (readBytes_spec r4 3 Hok4) as H3.
  destruct (3 * 8 <=? length (remaining r4)) eqn:El.
  2:{ left. unfold decodeAddressFromImage. cbv zeta. rewrite !E4. cbn [bind negb].
      change (magicMatches MAGIC_MARKER) with true. cbn [negb]. now rewrite H3. }
  destruct H3 as (r7 & E3 & Hok7 & _).
  cbn [bytesOfBits] in E3.
  destruct (decode_peek px r4 r7 _ _ _ E4 E3) as ((Hb0 & Hb1 & Hb2) & _ & _ & ->).
  set (b0 := bitsValue (take 8 (remaining r4))) in *.
  set (b1 := bitsValue (take 8 (drop 8 (remaining r4)))) in *.
  set (b2 := bitsValue (take 8 (drop 8 (drop 8 (remaining r4))))) in *.
  apply Nat.leb_le in El.
  destruct (readBytes_ret r4 2 Hok4 ltac:(lia)) as (r6 & E2 & Hok6 & _).
  rewrite E2. cbn [bind].
  destruct (((b0 =? 0) || (b0 =? 1)) && (1 <=? 256 * b1 + b2)
            && (256 * b1 + b2 <=? 2000))%Z eqn:Ec.
  - format_test_prop Ec.
    pose proof (readBytes_spec r7 (Z.to_nat (256 * b1 + b2)) Hok7) as Hr.
    destruct (_ <=? _).
    2:{ left. now rewrite Hr. }
    destruct Hr as (r' & E & _). right; right. eexists. rewrite E. cbn [bind].
    split; [reflexivity|]. cbn [dataBytes dataLength isNewFormat dataTypeByte].
    split; [apply bytesOfBits_length|].
    split; [apply (readBytes_bytes_ok _ _ _ _ Hok7 E)|]. lia.
  - pose proof (readBytes_spec r6 (Z.to_nat (256 * b0 + b1)) Hok6) as Hr.
    destruct (_ <=? _).
    2:{ left. now rewrite Hr. }
    destruct Hr as (r' & E & _). right; right. eexists. rewrite E. cbn [bind].
    split; [reflexivity|]. cbn [dataBytes dataLength isNewFormat dataTypeByte].
    split; [apply bytesOfBits_length|].
    split; [apply (readBytes_bytes_ok _ _ _ _ Hok6 E)|].
    unfold byte_ok in *. lia.
Qed.

(** X9.  A buffer with fewer than 19 whole pixels never yields a frame:
    with fewer than 11 the four magic bytes cannot be read ("Not enough
    data", not "Magic marker not found"), and with 11 to 18 the three
    peeked bytes cannot, even when the magic is there. *)
Theorem decode_needs_19_pixels (px : list Z) :
  (length px / 4 < 11 -> decodeAddressFromImage px = Throw NotEnoughData) /\
  (length px / 4 < 19 ->
     decodeAddressFromImage px = Throw NotEnoughData \/
     decodeAddressFromImage px = Throw MagicMarkerNotFound).
Proof.
  assert (Hsmall : length px / 4 < 11 -> decodeAddressFromImage px = Throw NotEnoughData).
  { intros H. unfold decodeAddressFromImage. cbv zeta.
    rewrite readBytes_throw; [reflexivity|apply newReader_ok|].
    rewrite newReader_room. lia. }
  split; [exact Hsmall|]. intros H19.
  destruct (Nat.lt_ge_cases (length px / 4) 11) as [H11|H11]; [left; auto|].
  destruct (readBytes_ret (newReader px) 4 (newReader_ok px)) as (r4 & E4 & Hok4 & Hrem4).
  { rewrite newReader_room. lia. }
  unfold decodeAddressFromImage. cbv zeta. rewrite !E4. cbn [bind].
  destruct (magicMatches _); cbn [negb]; [left|now right].
  rewrite (readBytes_throw r4 3); [reflexivity|exact Hok4|].
  rewrite Hrem4, length_drop, newReader_room. lia.
Qed.

Lemma decode_needs_19_pixels_witness :
  (length (replicate 40 0%Z) / 4 < 11 /\
   decodeAddressFromImage (replicate 40 0%Z) = Throw NotEnoughData) /\
  (length (take 72 emptyLegacyCarrier) / 4 < 19 /\
   decodeAddressFromImage (take 72 emptyLegacyCarrier) = Throw NotEnoughData).
Proof.
  assert (H1 : length (replicate 40 0%Z) / 4 < 11) by (vm_compute; lia).
  assert (H2 : length (take 72 emptyLegacyCarrier) / 4 < 19) by (vm_compute; lia).
  split; (split; [assumption|]).
  - exact (proj1 (decode_needs_19_pixels (replicate 40 0%Z)) H1).
  - destruct (proj2 (decode_needs_19_pixels (take 72 emptyLegacyCarrier)) H2) as [E|E];
      [exact E|].
    vm_compute in E. discriminate E.
Defined.

(** ** Where the two formats collide *)

Section CollisionFacts.

Lemma frame_bytes_ok (hdr payload : list Z) :
  Forall byte_ok hdr -> Forall byte_ok payload ->
  Forall byte_ok (MAGIC_MARKER ++ hdr ++ payload).
Proof.
  intros Hh Hp. apply Forall_app. split; [apply magic_bytes_ok|].
  apply Forall_app. now split.
Qed.

(** Reading the magic and the three bytes after it from a buffer into
    which [encodeLSB] has written [MAGIC ++ [h0; h1; h2] ++ rest]. *)
Lemma read_header carrier h0 h1 h2 rest :
  Forall byte_ok [h0; h1; h2] -> Forall byte_ok rest ->
  ceil_div (length (MAGIC_MARKER ++ [h0; h1; h2] ++ rest) * 8) 3 * 4 <= length carrier ->
  let px := fst (encodeLSB carrier (MAGIC_MARKER ++ [h0; h1; h2] ++ rest)) in
  exists r4 r7,
    readBytes (newReader px) 4 = Ret (MAGIC_MARKER, r4) /\
    readBytes r4 3 = Ret ([h0; h1; h2], r7).
Proof.
  intros Hh Hr Hcap px.
  destruct (encoded_remaining carrier _ (frame_bytes_ok _ _ Hh Hr) Hcap) as (tail & Hrem).
  fold px in Hrem. rewrite !bytesBits_app, <- !app_assoc in Hrem.
  destruct (read_prefix _ _ _ (newReader_ok px) magic_bytes_ok Hrem)
    as (r4 & E4 & Hok4 & Hrem4).
  destruct (read_prefix _ _ _ Hok4 Hh Hrem4) as (r7 & E3 & _).
  now exists r4, r7.
Qed.

End CollisionFacts.

(** X10.  Short legacy frames are not read as legacy.  A version 1.0 frame
    [MAGIC | LEN | PAYLOAD] whose payload has 1 to 7 bytes, with
    [256 * LEN + PAYLOAD[0] <= 2000], passes the modern-format test once
    embedded: whenever [decodeAddressFromImage] returns a frame for it,
    the frame is a modern one with type tag 0 and length
    [256 * LEN + PAYLOAD[0]], never the legacy payload. *)
Theorem short_legacy_read_as_modern (carrier : list Z) (p0 : Z) (rest : list Z) :
  let payload := p0 :: rest in
  let len := Z.of_nat (length payload) in
  let px := fst (encodeLSB carrier (legacyFrame payload)) in
  Forall byte_ok payload -> (256 * len + p0 <= 2000)%Z ->
  ceil_div (length (legacyFrame payload) * 8) 3 * 4 <= length carrier ->
  forall f, decodeAddressFromImage px = Ret f ->
    isNewFormat f = true /\ dataTypeByte f = 0%Z /\
    dataLength f = (256 * len + p0)%Z /\
    f <> mkFrame false 0%Z len payload.
Proof.
  intros payload len px Hp Hsmall Hcap f Ef.
  assert (Hp0 : byte_ok p0) by (inversion Hp; assumption).
  assert (Hrest : Forall byte_ok rest) by (inversion Hp; assumption).
  assert (Hlen : (1 <= len <= 7)%Z).
  { unfold len, payload, byte_ok in *. cbn [length] in *. lia. }
  assert (Eframe : legacyFrame payload = MAGIC_MARKER ++ [0; len; p0]%Z ++ rest).
  { rewrite legacyFrame_spec by (trivial; fold len; lia). fold len.
    rewrite (Z.div_small len 256), (Z.mod_small len 256) by lia. reflexivity. }
  assert (Hh : Forall byte_ok [0; len; p0]%Z).
  { repeat (apply List.Forall_cons; [unfold byte_ok in *; lia|]). apply List.Forall_nil. }
  unfold px in Ef. rewrite Eframe in Ef, Hcap.
  destruct (read_header carrier _ _ _ rest Hh Hrest Hcap) as (r4 & r7 & E4 & E3).
  destruct (decode_peek _ r4 r7 _ _ _ E4 E3) as (_ & _ & _ & Edec).
  assert (Ec : (((0 =? 0) || (0 =? 1)) && (1 <=? 256 * len + p0)
                && (256 * len + p0 <=? 2000))%Z = true).
  { rewrite !andb_true_iff, !Z.leb_le. unfold byte_ok in Hp0. cbn. lia. }
  rewrite Ec in Edec. rewrite Edec in Ef.
  destruct (readBytes r7 _) as [[bytes r']| |]; try discriminate Ef.
  cbn [bind] in Ef. injection Ef as <-. cbn. repeat split; trivial. discriminate.
Qed.

Lemma short_legacy_read_as_modern_witness :
  let px := fst (encodeLSB (replicate (80 * 100) 0%Z) (legacyFrame [65; 66]%Z)) in
  let f := mkFrame true 0%Z 577%Z (66%Z :: replicate 576 0%Z) in
  Forall byte_ok [65; 66]%Z /\
  (256 * Z.of_nat (length [65; 66]%Z) + 65 <= 2000)%Z /\
  decodeAddressFromImage px = Ret f /\
  dataLength f = (256 * Z.of_nat (length [65; 66]%Z) + 65)%Z /\
  f <> mkFrame false 0%Z (Z.of_nat (length [65; 66]%Z)) [65; 66]%Z.
Proof.
  intros px f.
  assert (Hp : Forall byte_ok [65; 66]%Z) by forall_literal.
  assert (Hs : (256 * Z.of_nat (length [65; 66]%Z) + 65 <= 2000)%Z) by (cbn; lia).
  assert (Hcap : ceil_div (length (legacyFrame [65; 66]%Z) * 8) 3 * 4
                 <= length (replicate (80 * 100) 0%Z)) by (vm_compute; lia).
  assert (E : decodeAddressFromImage px = Ret f) by (vm_compute; reflexivity).
  split; [exact Hp|]. split; [exact Hs|]. split; [exact E|].
  destruct (short_legacy_read_as_modern (replicate (80 * 100) 0%Z) 65%Z [66%Z]
              Hp Hs Hcap f E) as (_ & _ & Hl & Hne).
  split; [exact Hl|exact Hne].
Defined.

(** X11.  [encodeAddressInImage] does not check the payload length, and
    lengths outside [1, 2000] do not come back: for an empty payload or
    one of 2001 to 65535 bytes the encode succeeds, but every frame that
    [decodeAddressFromImage] then returns is a legacy one (type tag
    lost) whose length is [256 * typeTag + floor(len / 256)]. *)
Theorem unchecked_length_not_roundtripped (px : list Z) (t : Z) (p : list Z) :
  let len := Z.of_nat (length p) in
  Forall byte_ok p -> t = 0%Z \/ t = 1%Z ->
  (len = 0 \/ 2000 < len < 65536)%Z ->
  pixelsNeeded (length p) * 4 <= length px ->
  snd (encodeAddressInImage px t p) = Ret tt /\
  forall f, decodeAddressFromImage (fst (encodeAddressInImage px t p)) = Ret f ->
    isNewFormat f = false /\ dataLength f = (256 * t + len / 256)%Z.
Proof.
  intros len Hp Ht Hlen Hcap.
  assert (Htb : byte_ok t) by (unfold byte_ok; destruct Ht; lia).
  assert (Hl : (0 <= len < 65536)%Z) by lia.
  pose proof (buildFrame_spec t p Htb Hp ltac:(lia)) as Eframe. fold len in Eframe.
  destruct (be16_split len Hl) as (Hhi & Hlo & Hval).
  assert (Hhdr : Forall byte_ok [t; len / 256; len mod 256]%Z).
  { repeat (apply List.Forall_cons; [assumption|]). apply List.Forall_nil. }
  assert (Eenc : encodeAddressInImage px t p = encodeLSB px (buildFrame t p)).
  { unfold encodeAddressInImage. cbv zeta. rewrite pixelsNeeded_frame.
    destruct (Nat.ltb_spec (length px) (4 * pixelsNeeded (length p))); [lia|reflexivity]. }
  assert (Hcap' : ceil_div (length (buildFrame t p) * 8) 3 * 4 <= length px)
    by (rewrite pixelsNeeded_frame; exact Hcap).
  rewrite Eenc. split; [apply encodeLSB_returns; now right|].
  intros f Ef. rewrite Eframe in Ef, Hcap'.
  destruct (read_header px _ _ _ p Hhdr Hp Hcap') as (r4 & r7 & E4 & E3).
  destruct (decode_peek _ r4 r7 _ _ _ E4 E3) as (_ & Hok4 & _ & Edec).
  rewrite Hval in Edec.
  assert (Ec : (((t =? 0) || (t =? 1)) && (1 <=? len) && (len <=? 2000))%Z = false).
  { apply not_true_is_false. intros Ec. format_test_prop Ec. lia. }
  rewrite Ec in Edec. rewrite Edec in Ef.
  destruct (readBytes r4 2) as [[hdr r6]| |]; try discriminate Ef. cbn [bind] in Ef.
  destruct (readBytes r6 _) as [[bytes r']| |]; try discriminate Ef.
  cbn [bind] in Ef. injection Ef as <-. cbn. auto.
Qed.

Lemma unchecked_length_not_roundtripped_witness :
  let px := fst (encodeAddressInImage (replicate 76 0%Z) 0%Z []) in
  let f := mkFrame false 0%Z 0%Z [] in
  Forall byte_ok (@nil Z) /\
  pixelsNeeded (length (@nil Z)) * 4 <= length (replicate 76 0%Z) /\
  snd (encodeAddressInImage (replicate 76 0%Z) 0%Z []) = Ret tt /\
  decodeAddressFromImage px = Ret f /\
  isNewFormat f = false.
Proof.
  intros px f.
  assert (Hp : Forall byte_ok (@nil Z)) by apply List.Forall_nil.
  assert (Hcap : pixelsNeeded (length (@nil Z)) * 4 <= length (replicate 76 0%Z))
    by (vm_compute; lia).
  assert (E : decodeAddressFromImage px = Ret f) by (vm_compute; reflexivity).
  destruct (unchecked_length_not_roundtripped (replicate 76 0%Z) 0%Z []
              Hp (or_introl eq_refl) (or_introl eq_refl) Hcap) as (Hret & Hall).
  split; [exact Hp|]. split; [exact Hcap|]. split; [exact Hret|]. split; [exact E|].
  exact (proj1 (Hall f E)).
Defined.

(** * Version 1.0 of the steganography module *)

(** ** Integer bit buffers *)

Section BitBufferFacts.

Local Open Scope Z_scope.

Lemma bitsValue_append xs ys :
  bitsValue (xs ++ ys) = bitsValue xs * 2 ^ Z.of_nat (length ys) + bitsValue ys.
Proof.
  unfold bitsValue at 1. rewrite fold_left_app, fold_bits_acc. reflexivity.
Qed.

Lemma pow2_le_30 (k : nat) : (k <= 30)%nat -> 1 <= 2 ^ Z.of_nat k <= 1073741824.
Proof.
  intros Hk. split.
  - apply (Z.pow_le_mono_r 2 0); lia.
  - change 1073741824 with (2 ^ 30). apply Z.pow_le_mono_r; lia.
Qed.

Lemma shl1_pow (k : nat) : (k <= 30)%nat -> JS.shl 1 (Z.of_nat k) = 2 ^ Z.of_nat k.
Proof.
  intros Hk. pose proof (pow2_le_30 k Hk). unfold JS.shl.
  rewrite (toInt32_small 1) by lia. rewrite Z.mod_small by lia.
  rewrite Z.shiftl_mul_pow2, Z.mul_1_l by lia. apply toInt32_small. lia.
Qed.

Lemma and_ones_small x (k : nat) :
  0 <= x < 2147483648 -> (k <= 30)%nat ->
  JS.and x (2 ^ Z.of_nat k - 1) = x mod 2 ^ Z.of_nat k.
Proof.
  intros Hx Hk. pose proof (pow2_le_30 k Hk). unfold JS.and.
  rewrite !toInt32_small by lia.
  replace (2 ^ Z.of_nat k - 1) with (Z.ones (Z.of_nat k))
    by (rewrite Z.ones_equiv; lia).
  apply Z.land_ones. lia.
Qed.

(** [(buffer << w) | v] appends [w] bits to a small buffer. *)
Lemma shl_or_append x v (w : nat) :
  0 <= x < 1024 -> (w <= 8)%nat -> 0 <= v < 2 ^ Z.of_nat w ->
  JS.or (JS.shl x (Z.of_nat w)) v = x * 2 ^ Z.of_nat w + v.
Proof.
  intros Hx Hw Hv.
  assert (Hp : 1 <= 2 ^ Z.of_nat w <= 256).
  { split; [apply (Z.pow_le_mono_r 2 0); lia|].
    change 256 with (2 ^ 8). apply Z.pow_le_mono_r; lia. }
  unfold JS.or, JS.shl.
  rewrite (Z.mod_small (Z.of_nat w)) by lia.
  rewrite (toInt32_small x) by lia.
  rewrite Z.shiftl_mul_pow2 by lia.
  rewrite !(toInt32_small (x * 2 ^ Z.of_nat w)) by nia.
  rewrite (toInt32_small v) by lia.
  apply lor_disjoint.
  replace v with (Z.land v (Z.ones (Z.of_nat w))) at 1
    by (rewrite Z.land_ones by lia; apply Z.mod_small; exact Hv).
  rewrite (Z.land_comm v), Z.land_assoc, Z.land_ones by lia.
  rewrite Z.mod_mul by lia. apply Z.land_0_l.
Qed.

(** Taking the [w] oldest bits out of a bit buffer of [n] bits:
    [(buffer >> (n - w)) & (2^w - 1)] is their value and
    [buffer & mask], with
    [mask = n > w ? ((1 << (n - w)) - 1) : 0], is the value of the rest. *)
Lemma split_top (pend : list Z) (w : nat) :
  Forall bit_ok pend -> (w <= length pend)%nat -> (length pend <= 30)%nat ->
  let n := length pend in
  let buffer := bitsValue pend in
  JS.and (JS.sar buffer (Z.of_nat n - Z.of_nat w)) (2 ^ Z.of_nat w - 1)
  = bitsValue (take w pend) /\
  JS.and buffer (if (w <? n)%nat
                 then JS.shl 1 (Z.of_nat n - Z.of_nat w) - 1 else 0)
  = bitsValue (drop w pend).
Proof.
  intros Hok Hw Hn n buffer.
  assert (Esplit : buffer = bitsValue (take w pend) * 2 ^ Z.of_nat (n - w)
                            + bitsValue (drop w pend)).
  { unfold buffer. rewrite <- (take_drop w pend) at 1.
    rewrite bitsValue_append, length_drop. reflexivity. }
  pose proof (bitsValue_bound (take w pend) ltac:(now apply Forall_take)) as Hhi.
  pose proof (bitsValue_bound (drop w pend) ltac:(now apply Forall_drop)) as Hlo.
  pose proof (bitsValue_bound pend Hok) as Hb. fold buffer in Hb. fold n in Hb.
  rewrite length_take_le in Hhi by lia. rewrite length_drop in Hlo. fold n in Hlo.
  pose proof (pow2_le_30 n Hn) as Hpn.
  pose proof (pow2_le_30 (n - w) ltac:(lia)) as Hpd.
  pose proof (pow2_le_30 w ltac:(lia)) as Hpw.
  replace (Z.of_nat n - Z.of_nat w) with (Z.of_nat (n - w)) by lia.
  assert (Ediv : buffer / 2 ^ Z.of_nat (n - w) = bitsValue (take w pend)).
  { rewrite Esplit. rewrite Z.div_add_l by lia. rewrite Z.div_small by lia. lia. }
  assert (Emod : buffer mod 2 ^ Z.of_nat (n - w) = bitsValue (drop w pend)).
  { rewrite Esplit. rewrite Z.add_comm, Z.mod_add by lia. apply Z.mod_small. lia. }
  split.
  - rewrite sar_small by lia. rewrite Ediv.
    rewrite and_ones_small by lia. apply Z.mod_small. lia.
  - destruct (Nat.ltb_spec w n) as [Hlt|Hge].
    + rewrite shl1_pow by lia. rewrite and_ones_small by lia. exact Emod.
    + replace (n - w)%nat with 0%nat in * by lia.
      change (2 ^ Z.of_nat 0) with 1 in *.
      unfold JS.and. rewrite (toInt32_small 0) by lia. rewrite Z.land_0_r. lia.
Qed.

End BitBufferFacts.

(** ** One pixel *)

Section V1PixelFacts.

(** Version 2.0 writes a pixel like version 1.0 and then sets alpha. *)
Lemma writePixel_as_v1 px k v :
  writePixel px k v
  = <[k * 4 + 3 := JS.toUint8Clamp 255%Z]> (V1.encodeBitsIntoPixel px k v 3).
Proof. reflexivity. Qed.

Lemma encodeBits3_length px k v : length (V1.encodeBitsIntoPixel px k v 3) = length px.
Proof.
  rewrite <- (writePixel_length px k v), writePixel_as_v1. now rewrite length_insert.
Qed.

Lemma encodeBits3_other px k v j :
  j < k * 4 \/ k * 4 + 3 <= j -> V1.encodeBitsIntoPixel px k v 3 !! j = px !! j.
Proof.
  intros Hj. unfold V1.encodeBitsIntoPixel. cbn [Nat.ltb Nat.leb]. cbv zeta.
  rewrite !list_lookup_insert_ne by lia. reflexivity.
Qed.

Lemma encodeBits3_lsb px k b0 b1 b2 :
  bit_ok b0 -> bit_ok b1 -> bit_ok b2 -> k * 4 + 2 < length px ->
  lsb3 (V1.encodeBitsIntoPixel px k (bitsValue [b0; b1; b2]) 3) k = [b0; b1; b2].
Proof.
  intros H0 H1 H2 Hk.
  transitivity (lsb3 (writePixel px k (bitsValue [b0; b1; b2])) k);
    [|now apply writePixel_lsb].
  symmetry. apply lsb3_agree. intros j Hj.
  rewrite writePixel_as_v1. apply list_lookup_insert_ne. lia.
Qed.

Lemma decodeBits3_value px k :
  V1.decodeBitsFromPixel px k 3 = bitsValue (lsb3 px k).
Proof.
  unfold V1.decodeBitsFromPixel, lsb3. cbn [Nat.ltb Nat.leb]. cbv zeta.
  destruct (and_1_bit (JS.get px (k * 4))) as [-> | ->],
           (and_1_bit (JS.get px (k * 4 + 1))) as [-> | ->],
           (and_1_bit (JS.get px (k * 4 + 2))) as [-> | ->]; reflexivity.
Qed.

Lemma lsb3_ok px k : Forall bit_ok (lsb3 px k).
Proof. unfold lsb3. do 3 (constructor; [apply and_1_bit|]). constructor. Qed.

Lemma three_bits (v : Z) :
  (0 <= v < 8)%Z ->
  exists b0 b1 b2, bit_ok b0 /\ bit_ok b1 /\ bit_ok b2 /\ v = bitsValue [b0; b1; b2].
Proof.
  intros Hv.
  assert (Hc : (v = 0 \/ v = 1 \/ v = 2 \/ v = 3 \/ v = 4 \/ v = 5 \/ v = 6 \/ v = 7)%Z)
    by lia.
  assert (B0 : bit_ok 0) by now left. assert (B1 : bit_ok 1) by now right.
  destruct Hc as [-> | [-> | [-> | [-> | [-> | [-> | [-> | ->]]]]]]].
  - exists 0%Z, 0%Z, 0%Z. auto.
  - exists 0%Z, 0%Z, 1%Z. auto.
  - exists 0%Z, 1%Z, 0%Z. auto.
  - exists 0%Z, 1%Z, 1%Z. auto.
  - exists 1%Z, 0%Z, 0%Z. auto.
  - exists 1%Z, 0%Z, 1%Z. auto.
  - exists 1%Z, 1%Z, 0%Z. auto.
  - exists 1%Z, 1%Z, 1%Z. auto.
Qed.

End V1PixelFacts.

(** X12.  One pixel of version 1.0: three bits written with
    [encodeBitsIntoPixel] come back from [decodeBitsFromPixel], the write
    keeps the buffer length and changes nothing outside the R, G, B
    elements of that pixel (alpha included). *)
Theorem v1_pixel_roundtrip (px : list Z) (k : nat) (v : Z) :
  (0 <= v < 8)%Z -> k * 4 + 2 < length px ->
  V1.decodeBitsFromPixel (V1.encodeBitsIntoPixel px k v 3) k 3 = v /\
  length (V1.encodeBitsIntoPixel px k v 3) = length px /\
  forall j, j < k * 4 \/ k * 4 + 3 <= j ->
            V1.encodeBitsIntoPixel px k v 3 !! j = px !! j.
Proof.
  intros Hv Hk.
  destruct (three_bits v Hv) as (b0 & b1 & b2 & H0 & H1 & H2 & ->).
  split; [|split; [apply encodeBits3_length|apply encodeBits3_other]].
  rewrite decodeBits3_value. now rewrite encodeBits3_lsb.
Qed.

Lemma v1_pixel_roundtrip_witness :
  (0 <= 5 < 8)%Z /\ 1 * 4 + 2 < length (replicate 8 200%Z) /\
  V1.decodeBitsFromPixel (V1.encodeBitsIntoPixel (replicate 8 200%Z) 1 5%Z 3) 1 3 = 5%Z.
Proof.
  assert (H1 : (0 <= 5 < 8)%Z) by lia.
  assert (H2 : 1 * 4 + 2 < length (replicate 8 200%Z)) by (vm_compute; lia).
  split; [exact H1|]. split; [exact H2|].
  exact (proj1 (v1_pixel_roundtrip (replicate 8 200%Z) 1 5%Z H1 H2)).
Defined.

(** ** The embedding loop of version 1.0 *)

Section V1EncodeFacts.

Lemma take3_bits (l : list Z) :
  Forall bit_ok l -> 3 <= length l ->
  exists b0 b1 b2, take 3 l = [b0; b1; b2] /\ bit_ok b0 /\ bit_ok b1 /\ bit_ok b2.
Proof.
  intros Hl Hlen. destruct l as [|b0 [|b1 [|b2 l]]]; cbn [length] in Hlen; try lia.
  inversion Hl as [|? ? H0 Hl1]; subst. inversion Hl1 as [|? ? H1 Hl2]; subst.
  inversion Hl2 as [|? ? H2 _]; subst.
  exists b0, b1, b2. auto.
Qed.

Lemma pending_bits_idle (data pend : list Z) (d : nat) :
  length (pend ++ bytesBits (drop d data)) < 3 ->
  length pend < 3 /\ length data <= d.
Proof.
  rewrite length_app, bytesBits_length, length_drop. lia.
Qed.

(** With fewer than three bits left the loop is over. *)
Lemma v1_encodeLoop_idle fuel data T pend d k px :
  length (pend ++ bytesBits (drop d data)) < 3 ->
  V1.encodeLoop (S fuel) data T (bitsValue pend) (length pend) d k px = V1.Resolved px.
Proof.
  intros H. apply pending_bits_idle in H as [Hp Hd]. cbn [V1.encodeLoop].
  destruct (Nat.ltb_spec d (length data)); [lia|].
  destruct (Nat.leb_spec 3 (length pend)); [lia|]. reflexivity.
Qed.

(** One iteration with at least three bits left: the three oldest bits go
    into pixel [pixelIndex], and the bit buffer and data index stand for
    the rest of the stream. *)
Lemma v1_encodeLoop_step data pend d :
  Forall byte_ok data -> Forall bit_ok pend -> length pend <= 7 ->
  3 <= length (pend ++ bytesBits (drop d data)) ->
  exists b0 b1 b2 pend2 d2,
    take 3 (pend ++ bytesBits (drop d data)) = [b0; b1; b2] /\
    bit_ok b0 /\ bit_ok b1 /\ bit_ok b2 /\
    pend2 ++ bytesBits (drop d2 data) = drop 3 (pend ++ bytesBits (drop d data)) /\
    Forall bit_ok pend2 /\ length pend2 <= 7 /\
    forall fuel T k px,
      V1.encodeLoop (S fuel) data T (bitsValue pend) (length pend) d k px
      = if T <=? S k
        then V1.Resolved (V1.encodeBitsIntoPixel px k (bitsValue [b0; b1; b2]) 3)
        else V1.encodeLoop fuel data T (bitsValue pend2) (length pend2) d2 (S k)
               (V1.encodeBitsIntoPixel px k (bitsValue [b0; b1; b2]) 3).
Proof.
  intros Hdata Hpend H7 H3.
  (* the buffer after the optional refill *)
  assert (Hfill : exists pend1 d1,
    pend1 ++ bytesBits (drop d1 data) = pend ++ bytesBits (drop d data) /\
    Forall bit_ok pend1 /\ 3 <= length pend1 <= 10 /\
    (if (length pend <? 3) && (d <? length data)
     then (JS.or (JS.shl (bitsValue pend) 8%Z) (JS.get data d), length pend + 8, S d)
     else (bitsValue pend, length pend, d))
    = (bitsValue pend1, length pend1, d1) /\
    ((d <? length data) || (3 <=? length pend) = true)).
  { destruct (Nat.ltb_spec (length pend) 3) as [Hshort|Hlong].
    - destruct (Nat.ltb_spec d (length data)) as [Hd|Hd].
      2:{ rewrite length_app, bytesBits_length, length_drop in H3. lia. }
      destruct (lookup_lt_is_Some_2 data d Hd) as [byte Hbyte].
      assert (Hb : byte_ok byte).
      { rewrite Forall_forall in Hdata. apply Hdata.
        eapply list_elem_of_lookup_2. exact Hbyte. }
      exists (pend ++ byteBits byte), (S d).
      split; [|split; [|split; [|split]]].
      + rewrite (drop_S data byte d Hbyte). unfold bytesBits. cbn [map concat].
        now rewrite <- app_assoc.
      + apply Forall_app. split; [exact Hpend|apply byteBits_ok].
      + rewrite length_app, byteBits_length. lia.
      + cbn [andb]. unfold JS.get. rewrite Hbyte. cbn [default from_option id].
        pose proof (bitsValue_bound pend Hpend) as Hbv.
        assert (2 ^ Z.of_nat (length pend) <= 2 ^ 3)%Z by (apply Z.pow_le_mono_r; lia).
        assert (E8 := shl_or_append (bitsValue pend) byte 8).
        change (Z.of_nat 8) with 8%Z in E8.
        rewrite E8 by (unfold byte_ok in Hb; lia).
        rewrite bitsValue_append, byteBits_value, byteBits_length by exact Hb.
        rewrite length_app, byteBits_length. reflexivity.
      + reflexivity.
    - exists pend, d. cbn [andb].
      split; [reflexivity|]. split; [exact Hpend|]. split; [lia|]. split; [reflexivity|].
      destruct (Nat.leb_spec 3 (length pend)); [apply orb_true_r|lia]. }
  destruct Hfill as (pend1 & d1 & ES & Hok1 & Hlen1 & Efill & Econd).
  destruct (take3_bits pend1 Hok1 ltac:(lia)) as (b0 & b1 & b2 & E3 & H0 & H1 & H2).
  destruct (split_top pend1 3 Hok1 ltac:(lia) ltac:(lia)) as [Etop Erest].
  cbv zeta in Etop, Erest. rewrite E3 in Etop.
  exists b0, b1, b2, (drop 3 pend1), d1.
  split; [rewrite <- ES; rewrite take_app_le by lia; exact E3|].
  split; [exact H0|]. split; [exact H1|]. split; [exact H2|].
  split; [rewrite <- ES; now rewrite drop_app_le by lia|].
  split; [now apply Forall_drop|]. split; [rewrite length_drop; lia|].
  intros fuel T k px. cbn [V1.encodeLoop]. rewrite Econd, Efill.
  destruct (Nat.leb_spec 3 (length pend1)) as [_|Hbad]; [|lia].
  change (Z.of_nat 3) with 3%Z in Etop, Erest.
  change (2 ^ 3 - 1)%Z with 7%Z in Etop.
  rewrite Etop, Erest, length_drop. reflexivity.
Qed.

Lemma mod4_alpha_outside j k : j mod 4 = 3 -> j < k * 4 \/ k * 4 + 3 <= j.
Proof.
  intros Hm. pose proof (Nat.div_mod_eq j 4). lia.
Qed.

(** What the loop does to the buffer: the R, G, B low bits of the next
    [floor(bits / 3)] pixels take the stream, three bits each; alpha and
    all other pixels stay. *)
Lemma v1_encodeLoop_spec fuel : forall data T pend d k px,
  Forall byte_ok data -> Forall bit_ok pend -> length pend <= 7 ->
  let stream := pend ++ bytesBits (drop d data) in
  let m := length stream / 3 in
  length stream < fuel -> k + m <= T -> (k + m) * 4 <= length px ->
  exists px',
    V1.encodeLoop fuel data T (bitsValue pend) (length pend) d k px = V1.Resolved px' /\
    length px' = length px /\
    (forall j, j < k * 4 \/ (k + m) * 4 <= j \/ j mod 4 = 3 -> px' !! j = px !! j) /\
    lsbStream px' k m = take (m * 3) stream.
Proof.
  induction fuel as [|fuel IH]; intros data T pend d k px Hdata Hpend H7 stream m
    Hfuel HT Hroom; [lia|].
  destruct (Nat.lt_ge_cases (length stream) 3) as [Hidle|Hbusy].
  { exists px. rewrite v1_encodeLoop_idle by exact Hidle.
    assert (Em : m = 0) by (unfold m; now apply Nat.div_small).
    rewrite Em. repeat split; trivial. }
  destruct (v1_encodeLoop_step data pend d Hdata Hpend H7 Hbusy)
    as (b0 & b1 & b2 & pend2 & d2 & E3 & H0 & H1 & H2 & Erest & Hok2 & Hlen2 & Estep).
  fold stream in E3, Erest.
  assert (Em : m = S (length (drop 3 stream) / 3)).
  { unfold m. rewrite length_drop.
    replace (length stream) with ((length stream - 3) + 1 * 3) at 1 by lia.
    rewrite Nat.div_add by lia. lia. }
  set (px1 := V1.encodeBitsIntoPixel px k (bitsValue [b0; b1; b2]) 3).
  assert (Hpx1 : lsb3 px1 k = [b0; b1; b2]) by (apply encodeBits3_lsb; trivial; lia).
  rewrite Estep. fold px1.
  destruct (Nat.leb_spec T (S k)) as [Hlast|Hmore].
  - assert (Em1 : m = 1) by lia.
    exists px1. split; [reflexivity|]. split; [apply encodeBits3_length|]. split.
    + intros j Hj. apply encodeBits3_other.
      destruct Hj as [Hj | [Hj | Hj]]; [lia|lia|now apply mod4_alpha_outside].
    + rewrite Em1. rewrite lsbStream_S. cbn [lsbStream seq map concat].
      rewrite app_nil_r, Hpx1. now rewrite <- E3.
  - specialize (IH data T pend2 d2 (S k) px1 Hdata Hok2 Hlen2).
    cbv zeta in IH. rewrite Erest in IH.
    destruct IH as (px' & E & Hl & Hfr & Hst).
    { rewrite length_drop. lia. }
    { lia. }
    { unfold px1. rewrite encodeBits3_length. lia. }
    exists px'. split; [exact E|].
    split; [rewrite Hl; apply encodeBits3_length|]. split.
    + intros j Hj. rewrite Hfr.
      * apply encodeBits3_other.
        destruct Hj as [Hj | [Hj | Hj]]; [lia|lia|now apply mod4_alpha_outside].
      * destruct Hj as [Hj | [Hj | Hj]]; [left; lia|right; left; lia|now right; right].
    + rewrite Em, lsbStream_S, Hst.
      rewrite (lsb3_agree px1) by (intros j Hj; apply Hfr; lia).
      rewrite Hpx1, <- E3.
      replace (S (length (drop 3 stream) `div` 3) * 3)
        with (3 + length (drop 3 stream) `div` 3 * 3) by lia.
      now rewrite take_take_drop.
Qed.

End V1EncodeFacts.

(** ** The reading loops of version 1.0 *)

Section V1ReadFacts.

Lemma v1_extractLoop_none fuel count i B n out :
  n < 8 \/ count <= i ->
  V1.extractLoop fuel count i B n out = V1.Resolved (i, B, n, out).
Proof.
  intros H.
  assert (E : (8 <=? n) && (i <? count) = false).
  { destruct (Nat.leb_spec 8 n), (Nat.ltb_spec i count); trivial; lia. }
  destruct fuel; cbn [V1.extractLoop]; now rewrite E.
Qed.

(** With eight to ten bits buffered the inner loop moves exactly one byte. *)
Lemma v1_extractLoop_one fuel count i pend out :
  Forall bit_ok pend -> 8 <= length pend <= 10 -> i < count -> 0 < fuel ->
  V1.extractLoop fuel count i (bitsValue pend) (length pend) out
  = V1.Resolved (S i, bitsValue (drop 8 pend), length (drop 8 pend),
                 <[i := bitsValue (take 8 pend)]> out).
Proof.
  intros Hok Hlen Hi Hfuel. destruct fuel as [|fuel]; [lia|]. cbn [V1.extractLoop].
  destruct (Nat.leb_spec 8 (length pend)) as [_|Hbad]; [|lia].
  destruct (Nat.ltb_spec i count) as [_|Hbad]; [|lia]. cbn [andb].
  destruct (split_top pend 8 Hok ltac:(lia) ltac:(lia)) as [Etop Erest].
  cbv zeta in Etop, Erest.
  change (Z.of_nat 8) with 8%Z in Etop, Erest.
  change (2 ^ 8 - 1)%Z with 255%Z in Etop.
  rewrite Etop, Erest.
  destruct (byte_of_bits pend Hok ltac:(lia)) as [_ ->].
  rewrite v1_extractLoop_none by lia.
  now rewrite length_drop.
Qed.

(** The reading loop on the stream of bits still to come (the bit buffer,
    then the low bits of the pixels not yet visited): it cuts as many
    bytes off the stream as are asked for and available, stores them from
    [byteIndex] on, and leaves the cursor on the rest of the stream.  It
    never fails: with too few pixels it stops early. *)
Lemma v1_readLoop_spec fuel : forall px T count i pend k out,
  Forall bit_ok pend -> length pend <= 7 -> k <= T -> i <= count ->
  count <= length out -> T - k < fuel ->
  let rem := pend ++ lsbStream px k (T - k) in
  let n := Nat.min (count - i) (length rem / 8) in
  exists pend' k',
    V1.readLoop fuel px T count i (V1.mkCursor (bitsValue pend) (length pend) k) out
    = V1.Resolved (V1.mkCursor (bitsValue pend') (length pend') k',
                   take i out ++ bytesOfBits n rem ++ drop (i + n) out) /\
    Forall bit_ok pend' /\ length pend' <= 7 /\ k <= k' <= T /\
    pend' ++ lsbStream px k' (T - k') = drop (n * 8) rem.
Proof.
  induction fuel as [|fuel IH]; intros px T count i pend k out Hok H7 HkT Hi Hout Hfuel
    rem n; [lia|].
  cbn [V1.readLoop V1.pixelIndex V1.bitBuffer V1.bitsInBuffer].
  destruct (Nat.ltb_spec i count) as [Hmore|Hdone]; cbn [andb].
  2:{ assert (En : n = 0) by (unfold n; lia).
      exists pend, k. rewrite En, Nat.add_0_r. cbn [bytesOfBits app Nat.mul].
      rewrite take_drop, drop_0. repeat split; trivial; lia. }
  destruct (Nat.ltb_spec k T) as [Hpix|Hend].
  2:{ assert (Erem : rem = pend).
      { unfold rem. replace (T - k) with 0 by lia. cbn. apply app_nil_r. }
      assert (En : n = 0).
      { unfold n. rewrite Erem, (Nat.div_small (length pend) 8) by lia. lia. }
      exists pend, k. rewrite En, Nat.add_0_r. cbn [bytesOfBits app Nat.mul].
      rewrite take_drop, drop_0. fold rem. repeat split; trivial; lia. }
  (* one more pixel *)
  set (pend1 := pend ++ lsb3 px k).
  assert (Hok1 : Forall bit_ok pend1) by (apply Forall_app; split; [trivial|apply lsb3_ok]).
  assert (Hlen1 : length pend1 = length pend + 3) by (unfold pend1; now rewrite length_app).
  assert (Erem : rem = pend1 ++ lsbStream px (S k) (T - S k)).
  { unfold rem, pend1. replace (T - k) with (S (T - S k)) by lia.
    now rewrite lsbStream_S, app_assoc. }
  assert (Ebuf : JS.or (JS.shl (bitsValue pend) 3%Z) (V1.decodeBitsFromPixel px k 3)
                 = bitsValue pend1).
  { rewrite decodeBits3_value.
    pose proof (bitsValue_bound pend Hok) as Hb.
    assert (2 ^ Z.of_nat (length pend) <= 2 ^ 7)%Z by (apply Z.pow_le_mono_r; lia).
    pose proof (bitsValue_bound (lsb3 px k) (lsb3_ok px k)) as Hb3.
    change (length (lsb3 px k)) with 3 in Hb3.
    assert (E3 := shl_or_append (bitsValue pend) (bitsValue (lsb3 px k)) 3).
    change (Z.of_nat 3) with 3%Z in E3, Hb3.
    rewrite E3 by lia.
    unfold pend1. rewrite bitsValue_append. reflexivity. }
  rewrite Ebuf, <- Hlen1.
  destruct (Nat.le_gt_cases 8 (length pend1)) as [Hbyte|Hnone].
  - (* a byte is complete *)
    rewrite v1_extractLoop_one by (trivial; lia).
    set (out1 := <[i := bitsValue (take 8 pend1)]> out).
    specialize (IH px T count (S i) (drop 8 pend1) (S k) out1).
    destruct IH as (pend' & k' & E & Hok' & H7' & Hk' & Hrest).
    { now apply Forall_drop. } { rewrite length_drop. lia. } { lia. } { lia. }
    { unfold out1. rewrite length_insert. lia. } { lia. }
    assert (Erem2 : drop 8 pend1 ++ lsbStream px (S k) (T - S k) = drop 8 rem).
    { rewrite Erem. now rewrite drop_app_le by lia. }
    rewrite Erem2 in E, Hrest.
    assert (Elen : length (drop 8 rem) = length rem - 8) by apply length_drop.
    assert (Hrem8 : 8 <= length rem).
    { rewrite Erem, length_app. lia. }
    assert (Ediv : length rem / 8 = S (length (drop 8 rem) / 8)).
    { rewrite Elen. replace (length rem) with ((length rem - 8) + 1 * 8) at 1 by lia.
      rewrite Nat.div_add by lia. lia. }
    assert (En : n = S (Nat.min (count - S i) (length (drop 8 rem) / 8))).
    { unfold n. rewrite Ediv. lia. }
    exists pend', k'. rewrite E, En.
    split; [|split; [trivial|split; [trivial|split; [lia|]]]].
    + f_equal. f_equal. cbn [bytesOfBits]. unfold out1.
      rewrite (take_S_r _ i (bitsValue (take 8 pend1)))
        by (apply list_lookup_insert_eq; lia).
      rewrite take_insert_ge by lia.
      rewrite drop_insert_lt by lia.
      rewrite <- app_assoc. cbn [app].
      assert (Etake : take 8 rem = take 8 pend1)
        by (rewrite Erem; now rewrite take_app_le by lia).
      rewrite Etake, Nat.add_succ_r. reflexivity.
    + rewrite Hrest, drop_drop. f_equal.
  - (* still short of a byte *)
    rewrite v1_extractLoop_none by (left; lia).
    specialize (IH px T count i pend1 (S k) out).
    destruct IH as (pend' & k' & E & Hok' & H7' & Hk' & Hrest);
      try trivial; try lia.
    rewrite <- Erem in E, Hrest. fold n in E, Hrest.
    exists pend', k'. rewrite E. repeat split; trivial; lia.
Qed.

End V1ReadFacts.

(** ** The decoder of version 1.0 on the stream of low bits *)

Section V1DecodeFacts.

Lemma lsbStream_agree px px' a n :
  (forall j, a * 4 <= j -> px' !! j = px !! j) ->
  lsbStream px' a n = lsbStream px a n.
Proof.
  revert a. induction n as [|n IH]; intros a H; [reflexivity|].
  rewrite !lsbStream_S. f_equal.
  - apply lsb3_agree. intros j Hj. apply H. lia.
  - apply IH. intros j Hj. apply H. lia.
Qed.

Lemma drop_all_replicate (n : nat) (x : Z) : drop n (replicate n x) = [].
Proof. apply drop_ge. now rewrite length_replicate. Qed.

(** One reading loop started on an empty output array of [count] zeros. *)
Lemma v1_readLoop_fresh px T count pend k :
  Forall bit_ok pend -> length pend <= 7 -> k <= T ->
  let rem := pend ++ lsbStream px k (T - k) in
  let n := Nat.min count (length rem / 8) in
  exists pend' k',
    V1.readLoop (S T) px T count 0 (V1.mkCursor (bitsValue pend) (length pend) k)
      (replicate count 0%Z)
    = V1.Resolved (V1.mkCursor (bitsValue pend') (length pend') k',
                   bytesOfBits n rem ++ replicate (count - n) 0%Z) /\
    Forall bit_ok pend' /\ length pend' <= 7 /\ k' <= T /\
    pend' ++ lsbStream px k' (T - k') = drop (n * 8) rem.
Proof.
  intros Hok H7 Hk rem n.
  destruct (v1_readLoop_spec (S T) px T count 0 pend k (replicate count 0%Z))
    as (pend' & k' & E & Hok' & H7' & Hk' & Hrest); trivial; try lia.
  { now rewrite length_replicate. }
  rewrite Nat.sub_0_r in E, Hrest. fold rem in E, Hrest. fold n in E, Hrest.
  exists pend', k'. rewrite E. cbn [take app Nat.add].
  rewrite drop_replicate. repeat split; trivial; lia.
Qed.

(** The decoder on an image of at least 16 pixels, in terms of the low-bit
    stream of the image. *)
Lemma v1_decode_stream px T :
  16 <= T ->
  let stream := lsbStream px 0 T in
  let len := (256 * bitsValue (take 8 (drop 32 stream))
              + bitsValue (take 8 (drop 40 stream)))%Z in
  let n := Nat.min (Z.to_nat len) ((T * 3 - 48) / 8) in
  V1.decodeAddressFromImage px T
  = if negb (magicMatches (bytesOfBits 4 stream))
    then V1.Rejected V1.MagicMarkerNotFound
    else if ((1000 <? len) || (len <? 1))%Z
         then V1.Rejected V1.InvalidAddressLength
         else V1.Resolved (bytesOfBits n (drop 48 stream)
                             ++ replicate (Z.to_nat len - n) 0%Z).
Proof.
  intros HT stream len n.
  assert (Hlen : length stream = T * 3) by apply lsbStream_length.
  assert (Hbits : Forall bit_ok stream) by apply lsbStream_ok.
  unfold V1.decodeAddressFromImage.
  (* the magic *)
  destruct (v1_readLoop_fresh px T 4 [] 0) as (p1 & k1 & E1 & Hok1 & H71 & Hk1 & R1);
    [constructor|cbn; lia|lia|].
  cbn [app] in E1, R1. rewrite Nat.sub_0_r in E1, R1. fold stream in E1, R1.
  assert (En1 : Nat.min 4 (length stream / 8) = 4).
  { apply Nat.min_l. apply Nat.div_le_lower_bound; lia. }
  rewrite En1 in E1, R1.
  change (replicate (4 - 4) 0%Z) with (@nil Z) in E1. rewrite app_nil_r in E1.
  change (bitsValue []) with 0%Z in E1. change (length (@nil Z)) with 0 in E1.
  cbv zeta. rewrite E1.
  destruct (magicMatches (bytesOfBits 4 stream)); cbn [negb]; [|reflexivity].
  (* the length *)
  destruct (v1_readLoop_fresh px T 2 p1 k1 Hok1 H71 Hk1)
    as (p2 & k2 & E2 & Hok2 & H72 & Hk2 & R2).
  rewrite R1 in E2, R2.
  assert (En2 : Nat.min 2 (length (drop (4 * 8) stream) / 8) = 2).
  { apply Nat.min_l. rewrite length_drop. apply Nat.div_le_lower_bound; lia. }
  rewrite En2 in E2, R2.
  change (replicate (2 - 2) 0%Z) with (@nil Z) in E2. rewrite app_nil_r in E2.
  rewrite drop_drop in R2.
  rewrite E2. cbn [bytesOfBits]. rewrite drop_drop.
  change (4 * 8) with 32 in *. change (32 + 8) with 40. change (32 + 2 * 8) with 48 in R2.
  unfold JS.get. cbn [lookup list_lookup default from_option id].
  destruct (byte_of_bits (drop 32 stream)) as [Hb4 _];
    [now apply Forall_drop|rewrite length_drop; lia|].
  destruct (byte_of_bits (drop 40 stream)) as [Hb5 _];
    [now apply Forall_drop|rewrite length_drop; lia|].
  rewrite be16 by trivial. fold len.
  destruct ((1000 <? len) || (len <? 1))%Z; [reflexivity|].
  (* the address bytes *)
  destruct (v1_readLoop_fresh px T (Z.to_nat len) p2 k2 Hok2 H72 Hk2)
    as (p3 & k3 & E3 & _).
  rewrite R2 in E3. rewrite length_drop, Hlen in E3. fold n in E3.
  rewrite E3. reflexivity.
Qed.

(** An image of fewer than 11 pixels cannot deliver the four magic bytes:
    the zero-initialised array keeps a zero where the marker has none. *)
Lemma v1_decode_tiny px T :
  T < 11 -> V1.decodeAddressFromImage px T = V1.Rejected V1.MagicMarkerNotFound.
Proof.
  intros HT. unfold V1.decodeAddressFromImage.
  destruct (v1_readLoop_fresh px T 4 [] 0) as (p1 & k1 & E1 & _);
    [constructor|cbn; lia|lia|].
  cbn [app] in E1. rewrite Nat.sub_0_r, lsbStream_length in E1.
  change (bitsValue []) with 0%Z in E1. change (length (@nil Z)) with 0 in E1.
  cbv zeta. rewrite E1.
  set (n := Nat.min 4 (T * 3 / 8)).
  assert (Hn : n <= 3).
  { unfold n. assert (T * 3 / 8 < 4) by (apply Nat.Div0.div_lt_upper_bound; lia). lia. }
  set (magic := bytesOfBits n (lsbStream px 0 T) ++ replicate (4 - n) 0%Z).
  assert (H4 : length magic = 4).
  { unfold magic. rewrite length_app, bytesOfBits_length, length_replicate. lia. }
  assert (H0 : magic !! 3 = Some 0%Z).
  { unfold magic. rewrite lookup_app_r by (rewrite bytesOfBits_length; lia).
    rewrite bytesOfBits_length. apply lookup_replicate_2. lia. }
  destruct (magicMatches magic) eqn:Em; [|reflexivity].
  apply magicMatches_spec in Em; [|exact H4].
  rewrite Em in H0. discriminate H0.
Qed.

End V1DecodeFacts.

(** ** The encoder of version 1.0 *)

Section V1Encoder.

Lemma legacyFrame_length (addr : list Z) :
  Forall byte_ok addr -> (Z.of_nat (length addr) < 65536)%Z ->
  length (legacyFrame addr) = 6 + length addr.
Proof.
  intros Ha Hl. rewrite legacyFrame_spec by trivial. reflexivity.
Qed.

Lemma legacyFrame_ok (addr : list Z) :
  Forall byte_ok addr -> (Z.of_nat (length addr) < 65536)%Z ->
  Forall byte_ok (legacyFrame addr).
Proof.
  intros Ha Hl. rewrite legacyFrame_spec by trivial.
  destruct (be16_split (Z.of_nat (length addr)) ltac:(lia)) as (Hhi & Hlo & _).
  apply frame_bytes_ok; [|exact Ha].
  apply List.Forall_cons; [exact Hhi|]. apply List.Forall_cons; [exact Hlo|constructor].
Qed.

Lemma floor_le_ceil3 a : a / 3 <= ceil_div a 3.
Proof.
  unfold ceil_div. cbn [Nat.sub].
  pose proof (Nat.div_mod_eq a 3). pose proof (Nat.div_mod_eq (a + 2) 3).
  pose proof (Nat.mod_upper_bound a 3 ltac:(lia)).
  pose proof (Nat.mod_upper_bound (a + 2) 3 ltac:(lia)). lia.
Qed.

(** The encoder on a buffer with room: it returns, and the low bits of the
    first [floor(bits / 3)] pixels are the frame's first bits. *)
Lemma v1_encode_ok px T addr :
  Forall byte_ok addr -> (Z.of_nat (length addr) < 65536)%Z ->
  length px = T * 4 -> V1.calculatePixelsNeeded (length addr) <= T ->
  let bits := (6 + length addr) * 8 in
  exists px',
    V1.encodeAddressInImage px T addr = V1.Resolved px' /\
    length px' = length px /\
    (forall j, (bits / 3) * 4 <= j \/ j mod 4 = 3 -> px' !! j = px !! j) /\
    lsbStream px' 0 (bits / 3) = take (bits / 3 * 3) (bytesBits (legacyFrame addr)).
Proof.
  intros Ha Hl Hpx Hroom bits.
  unfold V1.encodeAddressInImage. cbv zeta.
  destruct (Nat.ltb_spec T (V1.calculatePixelsNeeded (length addr))) as [Hbad|_]; [lia|].
  pose proof (floor_le_ceil3 bits) as Hfc.
  assert (Hneed : V1.calculatePixelsNeeded (length addr) = ceil_div bits 3) by reflexivity.
  destruct (v1_encodeLoop_spec (S (length (legacyFrame addr) * 8)) (legacyFrame addr) T
              [] 0 0 px) as (px' & E & Hlen & Hfr & Hst).
  { now apply legacyFrame_ok. } { constructor. } { cbn. lia. }
  { cbn [app]. rewrite drop_0, bytesBits_length. lia. }
  { cbn [app]. rewrite drop_0, bytesBits_length, legacyFrame_length by trivial.
    fold bits. lia. }
  { cbn [app]. rewrite drop_0, bytesBits_length, legacyFrame_length by trivial.
    fold bits. lia. }
  cbn [app] in Hfr, Hst. rewrite drop_0, bytesBits_length, legacyFrame_length in Hfr, Hst
    by trivial.
  fold bits in Hfr, Hst.
  change (bitsValue []) with 0%Z in E. change (length (@nil Z)) with 0 in E.
  exists px'. split; [exact E|]. split; [exact Hlen|]. split; [|exact Hst].
  intros j Hj. apply Hfr. cbn [Nat.add]. destruct Hj as [Hj|Hj]; [right; left; lia|now right; right].
Qed.

End V1Encoder.

(** X13.  Version 1.0's [encodeAddressInImage], from the address bytes
    on: with fewer than [ceil((6 + n) * 8 / 3)] pixels it rejects with the
    image-too-small error; otherwise it resolves, and only the red, green
    and blue low bits of the first [floor((6 + n) * 8 / 3)] pixels change:
    they hold the first [3 * floor((6 + n) * 8 / 3)] bits of
    [MAGIC | LEN (2 bytes, big-endian) | ADDRESS].  The alpha channel and
    all later pixels, the one counted by the ceiling included, keep their
    values, so the last [(8 n) mod 3] bits of the frame are not embedded. *)
Theorem v1_encode_effect (px : list Z) (T : nat) (addr : list Z) :
  Forall byte_ok addr -> (Z.of_nat (length addr) < 65536)%Z -> length px = T * 4 ->
  let bits := (6 + length addr) * 8 in
  let len := Z.of_nat (length addr) in
  (T < ceil_div bits 3 ->
   V1.encodeAddressInImage px T addr = V1.Rejected V1.ImageTooSmall) /\
  (ceil_div bits 3 <= T ->
   exists px',
     V1.encodeAddressInImage px T addr = V1.Resolved px' /\
     length px' = length px /\
     (forall j, (bits / 3) * 4 <= j \/ j mod 4 = 3 -> px' !! j = px !! j) /\
     lsbStream px' 0 (bits / 3)
     = take (bits / 3 * 3)
         (bytesBits (MAGIC_MARKER ++ [len / 256; len mod 256]%Z ++ addr))).
Proof.
  intros Ha Hl Hpx bits len. split.
  - intros Hsmall. unfold V1.encodeAddressInImage. cbv zeta.
    change (V1.calculatePixelsNeeded (length addr)) with (ceil_div bits 3).
    destruct (Nat.ltb_spec T (ceil_div bits 3)); [reflexivity|lia].
  - intros Hroom.
    destruct (v1_encode_ok px T addr Ha Hl Hpx Hroom) as (px' & E & Hlen & Hfr & Hst).
    exists px'. rewrite legacyFrame_spec in Hst by trivial. auto.
Qed.

Lemma v1_encode_effect_witness :
  V1.encodeAddressInImage (replicate (17 * 4) 255%Z) 17 [7%Z]
    = V1.Rejected V1.ImageTooSmall /\
  exists px',
    V1.encodeAddressInImage (replicate (19 * 4) 255%Z) 19 [7%Z] = V1.Resolved px' /\
    px' !! (18 * 4) = Some 255%Z.
Proof.
  split.
  - apply (v1_encode_effect (replicate (17 * 4) 255%Z) 17 [7%Z]);
      [forall_literal|reflexivity|reflexivity|vm_compute; lia].
  - destruct (v1_encode_effect (replicate (19 * 4) 255%Z) 19 [7%Z]) as [_ H];
      [forall_literal|reflexivity|reflexivity|].
    destruct H as (px' & E & _ & Hfr & _); [vm_compute; lia|].
    exists px'. split; [exact E|]. rewrite Hfr by (left; vm_compute; lia). reflexivity.
Defined.

(** ** Encoding and decoding with version 1.0 *)

Section V1RoundTrip.

Lemma take_bytesOfBits a b bs : take a (bytesOfBits (a + b) bs) = bytesOfBits a bs.
Proof.
  rewrite bytesOfBits_add. apply take_app_length'. symmetry. apply bytesOfBits_length.
Qed.

(** The low-bit stream of an image written by the version 1.0 encoder:
    the header, the address bits but for the last [(8 n) mod 3], then the
    carrier from pixel [floor(bits / 3)] on. *)
Lemma v1_encoded_stream px px' T addr :
  Forall byte_ok addr -> (Z.of_nat (length addr) < 65536)%Z ->
  let bits := (6 + length addr) * 8 in
  let len := Z.of_nat (length addr) in
  bits / 3 <= T ->
  (forall j, (bits / 3) * 4 <= j \/ j mod 4 = 3 -> px' !! j = px !! j) ->
  lsbStream px' 0 (bits / 3) = take (bits / 3 * 3) (bytesBits (legacyFrame addr)) ->
  lsbStream px' 0 T
  = bytesBits MAGIC_MARKER ++ byteBits (len / 256) ++ byteBits (len mod 256)
    ++ take (length addr * 8 - (length addr * 8) mod 3) (bytesBits addr)
    ++ lsbStream px (bits / 3) (T - bits / 3).
Proof.
  intros Ha Hl bits len HT Hfr Hst.
  replace T with (bits / 3 + (T - bits / 3)) at 1 by lia.
  rewrite lsbStream_add, Hst. cbn [Nat.add].
  rewrite (lsbStream_agree px px') by (intros j Hj; apply Hfr; now left).
  rewrite legacyFrame_spec by trivial. fold len.
  assert (Ehdr : bytesBits (MAGIC_MARKER ++ [(len / 256)%Z; (len mod 256)%Z] ++ addr)
                 = (bytesBits MAGIC_MARKER ++ byteBits (len / 256) ++ byteBits (len mod 256))
                   ++ bytesBits addr).
  { rewrite !bytesBits_app. unfold bytesBits at 2. cbn [map concat].
    rewrite app_nil_r, <- !app_assoc. reflexivity. }
  rewrite Ehdr.
  assert (H48 : length (bytesBits MAGIC_MARKER ++ byteBits (len / 256)
                        ++ byteBits (len mod 256)) = 48).
  { rewrite !length_app, !byteBits_length, bytesBits_length. reflexivity. }
  assert (Earith : bits / 3 * 3 = 48 + (length addr * 8 - (length addr * 8) mod 3)).
  { pose proof (Nat.div_mod_eq bits 3). pose proof (Nat.div_mod_eq (length addr * 8) 3).
    pose proof (Nat.mod_upper_bound bits 3 ltac:(lia)).
    pose proof (Nat.mod_upper_bound (length addr * 8) 3 ltac:(lia)).
    unfold bits in *. lia. }
  rewrite Earith, <- H48 at 1. rewrite take_app_add'  by reflexivity.
  rewrite <- !app_assoc. reflexivity.
Qed.

(** Encoding then decoding: the decoder returns the address bits, except
    that the last [(8 n) mod 3] of them are read from the pixel the
    encoder did not write. *)
Lemma v1_roundtrip_stream px T addr :
  Forall byte_ok addr -> 1 <= length addr <= 1000 ->
  length px = T * 4 -> V1.calculatePixelsNeeded (length addr) <= T ->
  let bits := (6 + length addr) * 8 in
  exists px',
    V1.encodeAddressInImage px T addr = V1.Resolved px' /\
    V1.decodeAddressFromImage px' T
    = V1.Resolved
        (bytesOfBits (length addr)
           (take (length addr * 8 - (length addr * 8) mod 3) (bytesBits addr)
            ++ lsb3 px (bits / 3))).
Proof.
  intros Ha HL Hpx Hroom bits.
  assert (Hl : (Z.of_nat (length addr) < 65536)%Z) by lia.
  destruct (v1_encode_ok px T addr Ha Hl Hpx Hroom) as (px' & E & Hlen & Hfr & Hst).
  fold bits in Hfr, Hst.
  exists px'. split; [exact E|].
  pose proof (floor_le_ceil3 bits) as Hfc.
  pose proof (ceil3_bounds bits) as Hcb.
  assert (Hneed : V1.calculatePixelsNeeded (length addr) = ceil_div bits 3) by reflexivity.
  pose proof (v1_encoded_stream px px' T addr Ha Hl ltac:(fold bits; lia) Hfr Hst) as ES.
  cbv zeta in ES. fold bits in ES.
  set (len := Z.of_nat (length addr)) in *.
  set (keep := length addr * 8 - (length addr * 8) mod 3) in *.
  set (tail := lsbStream px (bits / 3) (T - bits / 3)) in *.
  destruct (be16_split len ltac:(lia)) as (Hhi & Hlo & Ehl).
  rewrite v1_decode_stream by (unfold bits in *; lia). cbv zeta.
  (* the magic *)
  assert (Emagic : bytesOfBits 4 (lsbStream px' 0 T) = MAGIC_MARKER).
  { rewrite ES. apply (bytesOfBits_bytesBits MAGIC_MARKER). apply magic_bytes_ok. }
  rewrite Emagic. change (magicMatches MAGIC_MARKER) with true. cbn [negb].
  (* the length *)
  assert (E32 : drop 32 (lsbStream px' 0 T)
                = byteBits (len / 256) ++ byteBits (len mod 256)
                  ++ take keep (bytesBits addr) ++ tail).
  { rewrite ES. now rewrite (drop_app_length' (bytesBits MAGIC_MARKER)) by reflexivity. }
  assert (E40 : drop 40 (lsbStream px' 0 T)
                = byteBits (len mod 256) ++ take keep (bytesBits addr) ++ tail).
  { change 40 with (32 + 8). rewrite <- drop_drop, E32.
    now rewrite drop_app_length' by reflexivity. }
  assert (E48 : drop 48 (lsbStream px' 0 T) = take keep (bytesBits addr) ++ tail).
  { change 48 with (40 + 8). rewrite <- drop_drop, E40.
    now rewrite drop_app_length' by reflexivity. }
  rewrite E32, E40, E48.
  rewrite !take_app_length' by reflexivity.
  rewrite !byteBits_value by trivial. rewrite Ehl.
  destruct (Z.ltb_spec 1000 len); [lia|]. destruct (Z.ltb_spec len 1); [lia|].
  cbn [orb]. unfold len. rewrite Nat2Z.id.
  (* the address *)
  assert (Hkeep : keep + 3 >= length addr * 8 /\ keep <= length addr * 8
                  /\ bits / 3 * 3 = 48 + keep).
  { unfold keep.
    pose proof (Nat.div_mod_eq bits 3). pose proof (Nat.div_mod_eq (length addr * 8) 3).
    pose proof (Nat.mod_upper_bound bits 3 ltac:(lia)).
    pose proof (Nat.mod_upper_bound (length addr * 8) 3 ltac:(lia)).
    unfold bits in *. lia. }
  assert (En : Nat.min (length addr) ((T * 3 - 48) / 8) = length addr).
  { apply Nat.min_l. apply Nat.div_le_lower_bound; unfold bits in *; lia. }
  rewrite En, Nat.sub_diag. cbn [replicate]. rewrite app_nil_r. f_equal.
  assert (Hklen : length (take keep (bytesBits addr)) = keep).
  { rewrite length_take, bytesBits_length. lia. }
  destruct (Nat.eq_dec keep (length addr * 8)) as [Efull|Hpart].
  - rewrite !bytesOfBits_prefix by lia. reflexivity.
  - assert (HT : bits / 3 < T) by (unfold bits in *; lia).
    unfold tail. replace (T - bits / 3) with (S (T - S (bits / 3))) by lia.
    rewrite lsbStream_S, !app_assoc.
    rewrite (bytesOfBits_prefix _ (take keep (bytesBits addr) ++ lsb3 px (bits / 3)));
      [reflexivity|].
    rewrite length_app, Hklen. cbn [lsb3 length]. lia.
Qed.

End V1RoundTrip.

(** X14.  Version 1.0 round trip, from address bytes to address bytes: for
    an address of 1 to 1000 bytes and an image with the pixels
    [calculatePixelsNeeded] asks for, [encodeAddressInImage] resolves and
    [decodeAddressFromImage] on its result resolves with as many bytes as
    the address has.  These are the address bits, except that the last
    [(8 n) mod 3] bits are the low bits the carrier already had in pixel
    [floor((6 + n) * 8 / 3)]: all bytes but the last are always recovered,
    and the whole address is recovered when its length is a multiple of
    three. *)
Theorem v1_roundtrip (px : list Z) (T : nat) (addr : list Z) :
  Forall byte_ok addr -> 1 <= length addr <= 1000 ->
  length px = T * 4 -> V1.calculatePixelsNeeded (length addr) <= T ->
  let bits := (6 + length addr) * 8 in
  exists px' decoded,
    V1.encodeAddressInImage px T addr = V1.Resolved px' /\
    V1.decodeAddressFromImage px' T = V1.Resolved decoded /\
    decoded = bytesOfBits (length addr)
                (take (length addr * 8 - (length addr * 8) mod 3) (bytesBits addr)
                 ++ lsb3 px (bits / 3)) /\
    length decoded = length addr /\
    take (length addr - 1) decoded = take (length addr - 1) addr /\
    (length addr mod 3 = 0 -> decoded = addr).
Proof.
  intros Ha HL Hpx Hroom bits.
  destruct (v1_roundtrip_stream px T addr Ha HL Hpx Hroom) as (px' & E & D).
  fold bits in D.
  set (keep := length addr * 8 - (length addr * 8) mod 3) in *.
  exists px', (bytesOfBits (length addr) (take keep (bytesBits addr) ++ lsb3 px (bits / 3))).
  split; [exact E|]. split; [exact D|]. split; [reflexivity|].
  split; [apply bytesOfBits_length|].
  assert (Hkeep : length addr * 8 <= keep + 2 /\ keep <= length addr * 8).
  { unfold keep. pose proof (Nat.mod_upper_bound (length addr * 8) 3 ltac:(lia)). lia. }
  assert (Hklen : length (take keep (bytesBits addr)) = keep).
  { rewrite length_take, bytesBits_length. lia. }
  split.
  - replace (length addr) with ((length addr - 1) + 1) at 2 by lia.
    rewrite take_bytesOfBits.
    rewrite bytesOfBits_prefix by lia.
    rewrite <- (bytesOfBits_prefix _ (take keep (bytesBits addr)) (drop keep (bytesBits addr)))
      by lia.
    rewrite take_drop.
    rewrite <- (take_bytesOfBits (length addr - 1) 1).
    replace (length addr - 1 + 1) with (length addr) by lia.
    rewrite <- (app_nil_r (bytesBits addr)).
    now rewrite bytesOfBits_bytesBits.
  - intros H3.
    assert (Ek : keep = length addr * 8).
    { unfold keep. pose proof (Nat.div_mod_eq (length addr) 3).
      pose proof (Nat.div_mod_eq (length addr * 8) 3).
      pose proof (Nat.mod_upper_bound (length addr * 8) 3 ltac:(lia)). lia. }
    rewrite Ek, take_ge by (rewrite bytesBits_length; lia).
    now apply bytesOfBits_bytesBits.
Qed.

Lemma v1_roundtrip_witness :
  exists px',
    V1.encodeAddressInImage (replicate (24 * 4) 7%Z) 24 [30; 200; 5]%Z = V1.Resolved px' /\
    V1.decodeAddressFromImage px' 24 = V1.Resolved [30; 200; 5]%Z.
Proof.
  destruct (v1_roundtrip (replicate (24 * 4) 7%Z) 24 [30; 200; 5]%Z)
    as (px' & decoded & E & D & _ & _ & _ & Hexact);
    [forall_literal|cbn; lia|reflexivity|vm_compute; lia|].
  exists px'. split; [exact E|]. rewrite D, (Hexact eq_refl). reflexivity.
Defined.

(** X15.  Version 1.0's [decodeAddressFromImage] on an image of at least
    16 pixels, from the pixels to the address bytes: bytes 0..3 of the
    low-bit stream must be the magic marker, bytes 4..5 give the length,
    which must lie in 1..1000, and the promise then resolves with that
    many bytes.  When the image ends before the payload does, no error
    is raised: the bytes that are complete are returned and the rest of
    the array stays zero. *)
Theorem v1_decode_characterised (px : list Z) (T : nat) :
  16 <= T ->
  let stream := lsbStream px 0 T in
  let len := (256 * bitsValue (take 8 (drop 32 stream))
              + bitsValue (take 8 (drop 40 stream)))%Z in
  let n := Nat.min (Z.to_nat len) ((T * 3 - 48) / 8) in
  V1.decodeAddressFromImage px T
  = if negb (magicMatches (bytesOfBits 4 stream))
    then V1.Rejected V1.MagicMarkerNotFound
    else if ((1000 <? len) || (len <? 1))%Z
         then V1.Rejected V1.InvalidAddressLength
         else V1.Resolved (bytesOfBits n (drop 48 stream)
                             ++ replicate (Z.to_nat len - n) 0%Z).
Proof. exact (v1_decode_stream px T). Qed.

Lemma v1_decode_characterised_witness :
  V1.decodeAddressFromImage (replicate (16 * 4) 0%Z) 16
  = V1.Rejected V1.MagicMarkerNotFound.
Proof.
  rewrite (v1_decode_characterised (replicate (16 * 4) 0%Z) 16) by lia.
  reflexivity.
Defined.

(** X16.  Version 1.0's [decodeAddressFromImage] has no error for an image
    that is too small: with fewer than 11 pixels the four magic bytes
    cannot be completed, and the promise rejects with the
    magic-marker-not-found error whatever the pixels hold. *)
Theorem v1_small_image_rejected_as_unmarked (px : list Z) (T : nat) :
  T < 11 -> V1.decodeAddressFromImage px T = V1.Rejected V1.MagicMarkerNotFound.
Proof. exact (v1_decode_tiny px T). Qed.

Lemma v1_small_image_rejected_as_unmarked_witness :
  V1.decodeAddressFromImage (replicate (10 * 4) 255%Z) 10
  = V1.Rejected V1.MagicMarkerNotFound.
Proof.
  apply (v1_small_image_rejected_as_unmarked (replicate (10 * 4) 255%Z) 10). lia.
Defined.

(** ** Version 1.0 images under the version 2.0 decoder *)

Section CrossVersion.

Lemma div_mod_256 (hi lo : Z) :
  byte_ok hi -> byte_ok lo ->
  ((256 * hi + lo) / 256 = hi /\ (256 * hi + lo) mod 256 = lo)%Z.
Proof. unfold byte_ok. intros Hhi Hlo. Z.div_mod_to_equations. lia. Qed.

(** What both decoders see of an image that version 1.0 decodes in full. *)
Lemma v1_resolved_inv px bytes :
  let T := length px / 4 in
  let stream := lsbStream px 0 T in
  V1.decodeAddressFromImage px T = V1.Resolved bytes ->
  48 + length bytes * 8 <= T * 3 ->
  bytesOfBits 4 stream = MAGIC_MARKER /\
  (1 <= Z.of_nat (length bytes) <= 1000)%Z /\
  bitsValue (take 8 (drop 32 stream)) = (Z.of_nat (length bytes) / 256)%Z /\
  bitsValue (take 8 (drop 40 stream)) = (Z.of_nat (length bytes) mod 256)%Z /\
  bitsValue (take 8 (drop 48 stream)) = JS.get bytes 0 /\
  bytes = bytesOfBits (length bytes) (drop 48 stream).
Proof.
  intros T stream Hv1 Hfull.
  assert (Hlen : length stream = T * 3) by apply lsbStream_length.
  assert (Hbits : Forall bit_ok stream) by apply lsbStream_ok.
  rewrite v1_decode_stream in Hv1 by lia. cbv zeta in Hv1. fold stream in Hv1.
  destruct (byte_of_bits (drop 32 stream)) as [Hb4 _];
    [now apply Forall_drop|rewrite length_drop; lia|].
  destruct (byte_of_bits (drop 40 stream)) as [Hb5 _];
    [now apply Forall_drop|rewrite length_drop; lia|].
  set (b4 := bitsValue (take 8 (drop 32 stream))) in *.
  set (b5 := bitsValue (take 8 (drop 40 stream))) in *.
  destruct (magicMatches (bytesOfBits 4 stream)) eqn:Em; unfold negb in Hv1;
    [|discriminate Hv1].
  apply magicMatches_spec in Em; [|apply bytesOfBits_length].
  destruct (Z.ltb_spec 1000 (256 * b4 + b5)) as [|Hhi]; [discriminate Hv1|].
  destruct (Z.ltb_spec (256 * b4 + b5) 1) as [|Hlo]; [discriminate Hv1|].
  unfold orb in Hv1.
  set (L := Z.to_nat (256 * b4 + b5)) in *.
  set (n := Nat.min L ((T * 3 - 48) / 8)) in *.
  assert (Hv : bytesOfBits n (drop 48 stream) ++ replicate (L - n) 0%Z = bytes)
    by congruence.
  clear Hv1. rename Hv into Hv1.
  assert (HL : length bytes = L).
  { rewrite <- Hv1, length_app, bytesOfBits_length, length_replicate. lia. }
  assert (En : n = L).
  { unfold n. apply Nat.min_l. apply Nat.div_le_lower_bound; lia. }
  rewrite En, Nat.sub_diag in Hv1. cbn [replicate] in Hv1. rewrite app_nil_r in Hv1.
  assert (EL : Z.of_nat (length bytes) = (256 * b4 + b5)%Z) by (rewrite HL; unfold L; lia).
  destruct (div_mod_256 b4 b5 Hb4 Hb5) as [Ediv Emod].
  rewrite EL, Ediv, Emod.
  split; [exact Em|]. split; [lia|]. split; [reflexivity|]. split; [reflexivity|].
  split; [|now rewrite HL].
  rewrite <- Hv1. destruct L as [|L']; [lia|]. reflexivity.
Qed.

(** The version 2.0 decoder on the same image, up to its format test. *)
Lemma v2_on_v1_image px bytes :
  let T := length px / 4 in
  let len := Z.of_nat (length bytes) in
  V1.decodeAddressFromImage px T = V1.Resolved bytes ->
  48 + length bytes * 8 <= T * 3 ->
  exists r7 : PixelBitReader,
    decodeAddressFromImage px
    = (if (((len / 256 =? 0) || (len / 256 =? 1))
           && (1 <=? 256 * (len mod 256) + JS.get bytes 0)
           && (256 * (len mod 256) + JS.get bytes 0 <=? 2000))%Z
       then
         do (payload, _) <- readBytes r7 (Z.to_nat (256 * (len mod 256) + JS.get bytes 0));
         Ret (mkFrame true (len / 256)%Z (256 * (len mod 256) + JS.get bytes 0)%Z payload)
       else Ret (mkFrame false 0%Z len bytes)).
Proof.
  intros T len Hv1 Hfull.
  destruct (v1_resolved_inv px bytes Hv1 Hfull) as (Em & Hrange & E4 & E5 & E6 & Eb).
  fold T in Em, E4, E5, E6, Eb. fold len in Hrange, E4, E5.
  set (stream := lsbStream px 0 T) in *.
  assert (Hlen : length stream = T * 3) by apply lsbStream_length.
  destruct (readBytes_ret (newReader px) 4 (newReader_ok px)) as (r4 & R4 & Hok4 & Hrem4).
  { rewrite newReader_remaining. fold T. fold stream. lia. }
  rewrite newReader_remaining in R4, Hrem4. fold T in R4, Hrem4. fold stream in R4, Hrem4.
  rewrite Em in R4. change (4 * 8) with 32 in Hrem4.
  destruct (readBytes_ret r4 3 Hok4) as (r7 & R7 & Hok7 & Hrem7).
  { rewrite Hrem4, length_drop. lia. }
  rewrite Hrem4 in R7. cbn [bytesOfBits] in R7. rewrite !drop_drop in R7.
  change (32 + 8) with 40 in R7. change (40 + 8) with 48 in R7.
  rewrite E4, E5, E6 in R7.
  destruct (decode_peek px r4 r7 _ _ _ R4 R7) as (_ & _ & _ & D).
  exists r7. rewrite D.
  destruct (be16_split len ltac:(lia)) as (_ & _ & Ehl).
  destruct (((len / 256 =? 0) || (len / 256 =? 1))
            && (1 <=? 256 * (len mod 256) + JS.get bytes 0)
            && (256 * (len mod 256) + JS.get bytes 0 <=? 2000))%Z; [reflexivity|].
  rewrite Ehl.
  destruct (readBytes_ret r4 2 Hok4) as (r6 & R6 & Hok6 & Hrem6).
  { rewrite Hrem4, length_drop. lia. }
  rewrite R6. cbn [bind].
  rewrite Hrem4, drop_drop in Hrem6. change (32 + 2 * 8) with 48 in Hrem6.
  destruct (readBytes_ret r6 (Z.to_nat len) Hok6) as (r8 & R8 & _).
  { rewrite Hrem6, length_drop. unfold len. rewrite Nat2Z.id. lia. }
  rewrite R8. cbn [bind]. rewrite Hrem6. unfold len at 2. rewrite Nat2Z.id, <- Eb.
  reflexivity.
Qed.

End CrossVersion.

(** X17.  Backward compatibility of decoding.  Let version 1.0's
    [decodeAddressFromImage] resolve with [bytes] on an image that holds
    the whole payload.  Version 2.0's [decodeAddressFromImage] on the same
    pixels then takes its legacy branch and returns the same bytes and
    length, unless its new-format test fires on the three bytes after the
    magic -- the length's high byte is 0 or 1 and
    [256 * (length mod 256) + bytes[0]] lies in 1..2000 -- in which case
    it never returns a legacy frame. *)
Theorem v2_decodes_v1_images (px : list Z) (bytes : list Z) :
  let T := length px / 4 in
  let len := Z.of_nat (length bytes) in
  let looksModern :=
    ((len / 256 <= 1) /\ (1 <= 256 * (len mod 256) + JS.get bytes 0 <= 2000))%Z in
  V1.decodeAddressFromImage px T = V1.Resolved bytes ->
  48 + length bytes * 8 <= T * 3 ->
  (~ looksModern -> decodeAddressFromImage px = Ret (mkFrame false 0%Z len bytes)) /\
  (looksModern -> forall f, decodeAddressFromImage px = Ret f -> isNewFormat f = true).
Proof.
  intros T len looksModern Hv1 Hfull.
  destruct (v1_resolved_inv px bytes Hv1 Hfull) as (_ & Hrange & _).
  destruct (v2_on_v1_image px bytes Hv1 Hfull) as (r7 & D).
  fold len in D, Hrange.
  assert (Hhi : (0 <= len / 256)%Z) by (apply Z.div_pos; lia).
  unfold looksModern. split.
  - intros Hnot. rewrite D.
    destruct (Z.eqb_spec (len / 256) 0), (Z.eqb_spec (len / 256) 1),
      (Z.leb_spec 1 (256 * (len mod 256) + JS.get bytes 0)),
      (Z.leb_spec (256 * (len mod 256) + JS.get bytes 0) 2000);
      cbn [orb andb]; try reflexivity; exfalso; apply Hnot; lia.
  - intros [H1 H2] f Hf. rewrite D in Hf.
    destruct (Z.eqb_spec (len / 256) 0), (Z.eqb_spec (len / 256) 1),
      (Z.leb_spec 1 (256 * (len mod 256) + JS.get bytes 0)),
      (Z.leb_spec (256 * (len mod 256) + JS.get bytes 0) 2000);
      cbn [orb andb] in Hf; try lia;
      (destruct (readBytes r7 _) as [[payload r]| |]; cbn [bind] in Hf;
       [injection Hf as <-; reflexivity|discriminate Hf|discriminate Hf]).
Qed.

Lemma v2_decodes_v1_images_witness :
  V1.decodeAddressFromImage legacyCarrier (length legacyCarrier / 4)
    = V1.Resolved legacyPayload /\
  decodeAddressFromImage legacyCarrier
    = Ret (mkFrame false 0%Z (Z.of_nat (length legacyPayload)) legacyPayload).
Proof.
  assert (Hv1 : V1.decodeAddressFromImage legacyCarrier (length legacyCarrier / 4)
                = V1.Resolved legacyPayload) by (vm_compute; reflexivity).
  assert (Hfull : 48 + length legacyPayload * 8 <= length legacyCarrier / 4 * 3)
    by (vm_compute; lia).
  split; [exact Hv1|].
  apply (proj1 (v2_decodes_v1_images legacyCarrier legacyPayload Hv1 Hfull)).
  intros [_ [_ H]]. vm_compute in H. now apply H.
Defined.
(** * Positional numerals *)

Section Numerals.

Local Open Scope Z_scope.

Variable base : Z.
Hypothesis base_ge_2 : 2 <= base.

Lemma digitsValue_from (ds : list Z) (acc : Z) :
  fold_left (fun a d => a * base + d) ds acc
  = acc * base ^ Z.of_nat (length ds) + digitsValue base ds.
Proof.
  unfold digitsValue. revert acc. induction ds as [|d ds IH]; intros acc.
  - cbn. lia.
  - cbn [fold_left length]. rewrite IH, (IH (0 * base + d)).
    rewrite Nat2Z.inj_succ, Z.pow_succ_r by lia. ring.
Qed.

Lemma digitsValue_cons d ds :
  digitsValue base (d :: ds) = d * base ^ Z.of_nat (length ds) + digitsValue base ds.
Proof.
  unfold digitsValue at 1. cbn [fold_left]. rewrite digitsValue_from. ring.
Qed.

Lemma digitsValue_app ds1 ds2 :
  digitsValue base (ds1 ++ ds2)
  = digitsValue base ds1 * base ^ Z.of_nat (length ds2) + digitsValue base ds2.
Proof.
  unfold digitsValue at 1. rewrite fold_left_app. fold (digitsValue base ds1).
  apply digitsValue_from.
Qed.

Lemma digitsValue_snoc ds d :
  digitsValue base (ds ++ [d]) = digitsValue base ds * base + d.
Proof.
  rewrite digitsValue_app. cbn [length]. change (Z.of_nat 1) with 1.
  rewrite Z.pow_1_r. unfold digitsValue at 2. cbn. ring.
Qed.

Lemma digitsValue_bound ds :
  Forall (digit_ok base) ds -> 0 <= digitsValue base ds < base ^ Z.of_nat (length ds).
Proof.
  induction 1 as [|d ds Hd _ IH].
  - cbn. lia.
  - rewrite digitsValue_cons. cbn [length]. rewrite Nat2Z.inj_succ, Z.pow_succ_r by lia.
    unfold digit_ok in Hd.
    assert (0 < base ^ Z.of_nat (length ds)) by (apply Z.pow_pos_nonneg; lia).
    nia.
Qed.

Lemma digitsValue_zeros n ds :
  digitsValue base (replicate n 0 ++ ds) = digitsValue base ds.
Proof.
  induction n as [|n IH]; [reflexivity|].
  cbn [replicate app]. rewrite digitsValue_cons, IH. lia.
Qed.

Lemma digitsValue_pos ds :
  Forall (digit_ok base) ds -> no_leading_zero ds -> ds <> [] -> 0 < digitsValue base ds.
Proof.
  intros Hds Hlead Hne. destruct ds as [|d ds]; [congruence|].
  inversion Hds as [|? ? Hd Hds']; subst.
  rewrite digitsValue_cons.
  pose proof (digitsValue_bound ds Hds').
  assert (0 < base ^ Z.of_nat (length ds)) by (apply Z.pow_pos_nonneg; lia).
  assert (d <> 0) by (intros ->; now apply Hlead).
  unfold digit_ok in Hd. nia.
Qed.

Lemma no_leading_zero_prefix ds d :
  no_leading_zero (ds ++ [d]) -> ds <> [] -> no_leading_zero ds.
Proof.
  destruct ds as [|d0 ds]; [congruence|]. intros H _. exact H.
Qed.

Lemma quot_halves n : 0 <= n -> Z.quot n base <= n / 2.
Proof.
  intros Hn. rewrite Z.quot_div_nonneg by lia.
  apply Z.div_le_lower_bound; [lia|].
  assert (base * (n / base) <= n) by (apply Z.mul_div_le; lia).
  assert (0 <= n / base) by (apply Z.div_pos; lia).
  nia.
Qed.

Lemma quot_fuel n fuel :
  0 <= n < 2 ^ Z.of_nat (S fuel) -> 0 <= Z.quot n base < 2 ^ Z.of_nat fuel.
Proof.
  intros Hn. pose proof (quot_halves n ltac:(lia)) as Hq.
  rewrite Nat2Z.inj_succ, Z.pow_succ_r in Hn by lia.
  split; [rewrite Z.quot_div_nonneg by lia; apply Z.div_pos; lia|].
  assert (n / 2 < 2 ^ Z.of_nat fuel) by (apply Z.div_lt_upper_bound; lia).
  lia.
Qed.

(** The division loop applied to the value of a digit sequence gives the
    sequence back. *)
Lemma digitsOf_value ds : forall fuel acc,
  Forall (digit_ok base) ds -> no_leading_zero ds ->
  digitsValue base ds < 2 ^ Z.of_nat fuel ->
  DIBAN.digitsOf fuel base (digitsValue base ds) acc = ds ++ acc.
Proof.
  induction ds as [|d ds IH] using rev_ind; intros fuel acc Hds Hlead Hfuel.
  - destruct fuel; reflexivity.
  - apply Forall_app in Hds as [Hds Hd]. inversion Hd as [|? ? Hd' _]; subst.
    unfold digit_ok in Hd'.
    pose proof (digitsValue_bound ds Hds) as Hb.
    assert (Hpos : 0 < digitsValue base (ds ++ [d])).
    { apply digitsValue_pos; [apply Forall_app; split; trivial|exact Hlead|].
      now destruct ds. }
    rewrite digitsValue_snoc in *.
    destruct fuel as [|fuel]; [cbn in Hfuel; lia|].
    cbn [DIBAN.digitsOf]. destruct (Z.ltb_spec 0 (digitsValue base ds * base + d)); [|lia].
    assert (Eq : Z.quot (digitsValue base ds * base + d) base = digitsValue base ds).
    { rewrite Z.quot_div_nonneg by lia. rewrite Z.div_add_l by lia.
      rewrite Z.div_small by lia. lia. }
    assert (Er : Z.rem (digitsValue base ds * base + d) base = d).
    { rewrite Z.rem_mod_nonneg by lia. rewrite Z.add_comm, Z.mod_add by lia.
      apply Z.mod_small. lia. }
    pose proof (quot_fuel (digitsValue base ds * base + d) fuel ltac:(lia)) as Hq.
    rewrite Eq in Hq.
    rewrite Eq, Er. rewrite <- app_assoc. cbn [app].
    destruct ds as [|d0 ds'].
    + destruct fuel; reflexivity.
    + apply IH; [exact Hds|exact Hlead|lia].
Qed.

(** The division loop produces the digits of its argument. *)
Lemma digitsOf_spec fuel : forall n acc,
  0 <= n < 2 ^ Z.of_nat fuel ->
  exists ds,
    DIBAN.digitsOf fuel base n acc = ds ++ acc /\
    Forall (digit_ok base) ds /\ no_leading_zero ds /\
    digitsValue base ds = n /\ (ds = [] <-> n = 0).
Proof.
  induction fuel as [|fuel IH]; intros n acc Hn.
  - exists []. cbn in Hn. assert (n = 0) by lia. subst.
    repeat split; trivial; try constructor; discriminate.
  - cbn [DIBAN.digitsOf]. destruct (Z.ltb_spec 0 n) as [Hpos|Hzero].
    + destruct (IH (Z.quot n base) (Z.rem n base :: acc) (quot_fuel n fuel Hn))
        as (ds & E & Hds & Hlead & Hval & Hnil).
      assert (Hr : 0 <= Z.rem n base < base).
      { rewrite Z.rem_mod_nonneg by lia. apply Z.mod_pos_bound. lia. }
      exists (ds ++ [Z.rem n base]). rewrite E, <- app_assoc. split; [reflexivity|].
      split; [apply Forall_app; split; [exact Hds|now constructor]|].
      split; [|split].
      * destruct ds as [|d0 ds']; [|exact Hlead].
        cbn. intros [= E0].
        assert (Z.quot n base = 0) by (now apply Hnil).
        pose proof (Z.quot_rem' n base). lia.
      * rewrite digitsValue_snoc, Hval.
        pose proof (Z.quot_rem' n base). lia.
      * split; [now destruct ds|lia].
    + exists []. assert (n = 0) by lia. subst.
      repeat split; trivial; try constructor; discriminate.
Qed.

(** Two digit sequences without leading zero that write the same number
    are equal. *)
Lemma digitsValue_inj ds1 ds2 :
  Forall (digit_ok base) ds1 -> no_leading_zero ds1 ->
  Forall (digit_ok base) ds2 -> no_leading_zero ds2 ->
  digitsValue base ds1 = digitsValue base ds2 -> ds1 = ds2.
Proof.
  intros H1 L1 H2 L2 E.
  pose proof (digitsValue_bound ds1 H1) as B1.
  set (fuel := S (Z.to_nat (Z.log2 (digitsValue base ds1)))).
  assert (Hf : digitsValue base ds1 < 2 ^ Z.of_nat fuel).
  { unfold fuel. rewrite Nat2Z.inj_succ, Z2Nat.id by apply Z.log2_nonneg.
    destruct (Z.eq_dec (digitsValue base ds1) 0) as [->|Hne]; [reflexivity|].
    apply Z.log2_spec. lia. }
  pose proof (digitsOf_value ds1 fuel [] H1 L1 Hf) as E1.
  pose proof (digitsOf_value ds2 fuel [] H2 L2 ltac:(lia)) as E2.
  rewrite E, E2 in E1. rewrite !app_nil_r in E1. congruence.
Qed.

Lemma log2_fuel n : 0 <= n -> n < 2 ^ Z.of_nat (S (Z.to_nat (Z.log2 n))).
Proof.
  intros Hn. rewrite Nat2Z.inj_succ, Z2Nat.id by apply Z.log2_nonneg.
  destruct (Z.eq_dec n 0) as [->|Hne]; [reflexivity|].
  apply Z.log2_spec. lia.
Qed.

End Numerals.

(** * Alphabets *)

Section Alphabets.

Local Open Scope Z_scope.

Variable alphabet : list ascii.
Variable base : Z.
Hypothesis alphabet_nodup : NoDup alphabet.
Hypothesis alphabet_length : Z.of_nat (length alphabet) = base.
Hypothesis base_ge_2 : 2 <= base.

Lemma indexOfFrom_spec (l : list ascii) (c : ascii) (i : Z) :
  0 <= i ->
  (DIBAN.indexOfFrom i l c = -1 /\ c ∉ l) \/
  (exists k, DIBAN.indexOfFrom i l c = i + Z.of_nat k /\ l !! k = Some c /\
             forall j, (j < k)%nat -> l !! j <> Some c).
Proof.
  revert i. induction l as [|a l IH]; intros i Hi.
  - left. split; [reflexivity|]. apply not_elem_of_nil.
  - cbn [DIBAN.indexOfFrom]. destruct (Ascii.eqb_spec a c) as [->|Hne].
    + right. exists 0%nat. split; [cbn; lia|]. split; [reflexivity|]. intros j Hj. lia.
    + destruct (IH (i + 1) ltac:(lia)) as [[E Hnot] | (k & E & Hk & Hfirst)].
      * left. split; [exact E|]. rewrite not_elem_of_cons. now split; [congruence|].
      * right. exists (S k). split; [rewrite E; lia|]. split; [exact Hk|].
        intros [|j] Hj; cbn; [congruence|]. apply Hfirst. lia.
Qed.

Lemma indexOf_range (c : ascii) :
  DIBAN.indexOf alphabet c = -1 \/ 0 <= DIBAN.indexOf alphabet c < base.
Proof.
  unfold DIBAN.indexOf.
  destruct (indexOfFrom_spec alphabet c 0 ltac:(lia)) as [[E _] | (k & E & Hk & _)];
    [now left|right].
  apply lookup_lt_Some in Hk. lia.
Qed.

Lemma indexOf_elem (c : ascii) :
  c ∈ alphabet ->
  0 <= DIBAN.indexOf alphabet c < base /\
  alphaChar alphabet (DIBAN.indexOf alphabet c) = c.
Proof.
  intros Hc. unfold DIBAN.indexOf.
  destruct (indexOfFrom_spec alphabet c 0 ltac:(lia)) as [[_ Hnot] | (k & E & Hk & _)];
    [contradiction|].
  rewrite E. pose proof (lookup_lt_Some _ _ _ Hk). split; [lia|].
  unfold alphaChar. rewrite Z.add_0_l, Nat2Z.id, Hk. reflexivity.
Qed.

Lemma indexOf_not_elem (c : ascii) : c ∉ alphabet -> DIBAN.indexOf alphabet c = -1.
Proof.
  intros Hc. unfold DIBAN.indexOf.
  destruct (indexOfFrom_spec alphabet c 0 ltac:(lia)) as [[E _] | (k & _ & Hk & _)];
    [exact E|].
  exfalso. apply Hc. eapply list_elem_of_lookup_2. exact Hk.
Qed.

Lemma alphaChar_elem (d : Z) : digit_ok base d -> alphaChar alphabet d ∈ alphabet.
Proof.
  intros Hd. unfold digit_ok in Hd. unfold alphaChar.
  destruct (lookup_lt_is_Some_2 alphabet (Z.to_nat d) ltac:(lia)) as [c Hc].
  rewrite Hc. cbn. eapply list_elem_of_lookup_2. exact Hc.
Qed.

Lemma indexOf_alphaChar (d : Z) :
  digit_ok base d -> DIBAN.indexOf alphabet (alphaChar alphabet d) = d.
Proof.
  intros Hd. unfold digit_ok in Hd. unfold alphaChar, DIBAN.indexOf.
  destruct (lookup_lt_is_Some_2 alphabet (Z.to_nat d) ltac:(lia)) as [c Hc].
  rewrite Hc. cbn [default from_option id].
  destruct (indexOfFrom_spec alphabet c 0 ltac:(lia)) as [[_ Hnot] | (k & E & Hk & _)].
  - exfalso. apply Hnot. eapply list_elem_of_lookup_2. exact Hc.
  - rewrite E. pose proof (NoDup_lookup _ _ _ _ alphabet_nodup Hk Hc). lia.
Qed.

Lemma charAt_digit (d : Z) :
  digit_ok base d -> DIBAN.charAt alphabet d = [alphaChar alphabet d].
Proof.
  intros Hd. unfold digit_ok in Hd. unfold DIBAN.charAt, alphaChar.
  destruct (lookup_lt_is_Some_2 alphabet (Z.to_nat d) ltac:(lia)) as [c Hc].
  now rewrite Hc.
Qed.

(** Parsing a string over the alphabet accumulates its digits. *)
Lemma parseDigits_valid e (s : list ascii) : forall num,
  Forall (fun c => c ∈ alphabet) s ->
  DIBAN.parseDigits alphabet base e s num
  = DIBAN.Ok (fold_left (fun a d => a * base + d) (map (DIBAN.indexOf alphabet) s) num).
Proof.
  induction s as [|c s IH]; intros num Hs; [reflexivity|].
  apply Forall_cons in Hs as [Hc Hs'].
  cbn [DIBAN.parseDigits map fold_left].
  destruct (indexOf_elem c Hc) as [Hr _].
  destruct (Z.ltb_spec (DIBAN.indexOf alphabet c) 0); [lia|].
  now apply IH.
Qed.

Lemma parseDigits_invalid e (s : list ascii) : forall num,
  ~ Forall (fun c => c ∈ alphabet) s ->
  DIBAN.parseDigits alphabet base e s num = DIBAN.Err e.
Proof.
  induction s as [|c s IH]; intros num Hs; [exfalso; apply Hs; constructor|].
  cbn [DIBAN.parseDigits].
  destruct (decide (c ∈ alphabet)) as [Hc|Hc].
  - destruct (indexOf_elem c Hc) as [Hr _].
    destruct (Z.ltb_spec (DIBAN.indexOf alphabet c) 0); [lia|].
    apply IH. intros Hs'. apply Hs. now constructor.
  - rewrite (indexOf_not_elem c Hc). reflexivity.
Qed.

Lemma indexOf_digits_ok (s : list ascii) :
  Forall (fun c => c ∈ alphabet) s ->
  Forall (digit_ok base) (map (DIBAN.indexOf alphabet) s) /\
  map (alphaChar alphabet) (map (DIBAN.indexOf alphabet) s) = s.
Proof.
  induction 1 as [|c s Hc _ [IH1 IH2]]; [split; [constructor|reflexivity]|].
  destruct (indexOf_elem c Hc) as [Hr Ec]. cbn [map]. split.
  - constructor; [exact Hr|exact IH1].
  - now rewrite Ec, IH2.
Qed.

(** The source's division loop writes the digits of [num] in front of
    [out]. *)
Lemma digitLoop_digits fuel : forall num acc out,
  0 <= num < 2 ^ Z.of_nat fuel ->
  DIBAN.digitLoop fuel alphabet base num (map (alphaChar alphabet) acc ++ out)
  = DIBAN.Ok (map (alphaChar alphabet) (DIBAN.digitsOf fuel base num acc) ++ out).
Proof.
  induction fuel as [|fuel IH]; intros num acc out Hn.
  - cbn in Hn. assert (E0 : num = 0) by lia. rewrite E0. reflexivity.
  - cbn [DIBAN.digitLoop DIBAN.digitsOf].
    destruct (Z.ltb_spec 0 num) as [Hpos|Hzero]; [|reflexivity].
    assert (Hr : digit_ok base (Z.rem num base)).
    { unfold digit_ok. rewrite Z.rem_mod_nonneg by lia. apply Z.mod_pos_bound. lia. }
    rewrite (charAt_digit _ Hr).
    change ([alphaChar alphabet (Z.rem num base)] ++ map (alphaChar alphabet) acc ++ out)
      with (map (alphaChar alphabet) (Z.rem num base :: acc) ++ out).
    apply IH. apply quot_fuel; trivial.
Qed.

End Alphabets.

(** * Hexadecimal strings and bytes *)

Section HexFacts.

Local Open Scope Z_scope.

Lemma Z_range_forallb (n : nat) (f : Z -> bool) :
  forallb f (map Z.of_nat (seq 0 n)) = true ->
  forall z, 0 <= z < Z.of_nat n -> f z = true.
Proof.
  intros H z Hz. rewrite forallb_forall in H. apply H.
  apply in_map_iff. exists (Z.to_nat z). split; [lia|]. apply in_seq. lia.
Qed.

Lemma hexDigitValue_digitChar d :
  digit_ok 16 d -> DIBAN.hexDigitValue (DIBAN.digitChar d) = Some d.
Proof.
  intros Hd.
  apply (Z_range_forallb 16
           (fun d => bool_decide (DIBAN.hexDigitValue (DIBAN.digitChar d) = Some d)))
    in Hd; [|vm_compute; reflexivity].
  now apply bool_decide_eq_true in Hd.
Qed.

(** A byte prints as its two hexadecimal digits. *)
Lemma byte_toString16 b :
  byte_ok b ->
  DIBAN.padStart 2 "0" (DIBAN.toStringRadix 16 b)
  = [DIBAN.digitChar (b / 16); DIBAN.digitChar (b mod 16)].
Proof.
  intros Hb.
  apply (Z_range_forallb 256
           (fun b => bool_decide
                       (DIBAN.padStart 2 "0" (DIBAN.toStringRadix 16 b)
                        = [DIBAN.digitChar (b / 16); DIBAN.digitChar (b mod 16)])))
    in Hb; [|vm_compute; reflexivity].
  now apply bool_decide_eq_true in Hb.
Qed.

(** Two hexadecimal digits parse as the byte they write. *)
Lemma parseInt16_digits z :
  0 <= z < 256 ->
  DIBAN.storeUint8 (DIBAN.parseInt16 [DIBAN.digitChar (z / 16); DIBAN.digitChar (z mod 16)])
  = z.
Proof.
  intros Hz.
  apply (Z_range_forallb 256
           (fun z => DIBAN.storeUint8
                       (DIBAN.parseInt16 [DIBAN.digitChar (z / 16); DIBAN.digitChar (z mod 16)])
                     =? z)) in Hz; [|vm_compute; reflexivity].
  now apply Z.eqb_eq in Hz.
Qed.

Lemma parseInt16_pair d1 d2 :
  digit_ok 16 d1 -> digit_ok 16 d2 ->
  DIBAN.storeUint8 (DIBAN.parseInt16 [DIBAN.digitChar d1; DIBAN.digitChar d2]) = 16 * d1 + d2.
Proof.
  unfold digit_ok. intros H1 H2.
  pose proof (parseInt16_digits (16 * d1 + d2) ltac:(lia)) as E.
  replace ((16 * d1 + d2) / 16) with d1 in E by (Z.div_mod_to_equations; lia).
  replace ((16 * d1 + d2) mod 16) with d2 in E by (Z.div_mod_to_equations; lia).
  exact E.
Qed.

Lemma parseHexFrom_bytes bytes : forall num,
  Forall byte_ok bytes ->
  DIBAN.parseHexFrom (DIBAN.bytesToHex bytes) num
  = DIBAN.Ok (fold_left (fun a b => a * 256 + b) bytes num).
Proof.
  unfold DIBAN.bytesToHex.
  induction bytes as [|b bytes IH]; intros num Hb; [reflexivity|].
  apply Forall_cons in Hb as [Hb Hbs]. cbn [map concat fold_left].
  rewrite (byte_toString16 b Hb). cbn [app DIBAN.parseHexFrom].
  unfold byte_ok in Hb.
  rewrite !hexDigitValue_digitChar
    by (unfold digit_ok; Z.div_mod_to_equations; lia).
  rewrite IH by exact Hbs. do 2 f_equal. Z.div_mod_to_equations. lia.
Qed.

Lemma bytesToHex_nil_iff bytes :
  Forall byte_ok bytes -> (DIBAN.bytesToHex bytes = [] <-> bytes = []).
Proof.
  intros Hb. split; [|intros ->; reflexivity].
  destruct bytes as [|b bytes]; [reflexivity|].
  apply Forall_cons in Hb as [Hb _].
  unfold DIBAN.bytesToHex. cbn [map concat]. rewrite (byte_toString16 b Hb).
  discriminate.
Qed.

(** [BigInt("0x" + bytesToHex(bytes))] is the big-endian value of the
    bytes, and a [SyntaxError] for no bytes. *)
Lemma bigIntOfHex_bytes bytes :
  Forall byte_ok bytes ->
  DIBAN.bigIntOfHex (DIBAN.bytesToHex bytes)
  = match bytes with
    | [] => DIBAN.Err DIBAN.SyntaxError
    | _ => DIBAN.Ok (digitsValue 256 bytes)
    end.
Proof.
  intros Hb. destruct bytes as [|b bytes]; [reflexivity|].
  unfold DIBAN.bigIntOfHex.
  pose proof (parseHexFrom_bytes (b :: bytes) 0 Hb) as E.
  apply Forall_cons in Hb as [Hb _].
  unfold DIBAN.bytesToHex in *. cbn [map concat] in *.
  rewrite (byte_toString16 b Hb) in *. cbn [app] in *.
  rewrite hexDigitValue_digitChar
    by (unfold byte_ok, digit_ok in *; Z.div_mod_to_equations; lia).
  exact E.
Qed.

(** Pairs of hexadecimal digits are bytes with the same value. *)
Lemma hexPairs_digits (k : nat) : forall ds,
  length ds = (2 * k)%nat -> Forall (digit_ok 16) ds ->
  length (DIBAN.hexPairs (map DIBAN.digitChar ds)) = k /\
  Forall byte_ok (DIBAN.hexPairs (map DIBAN.digitChar ds)) /\
  digitsValue 256 (DIBAN.hexPairs (map DIBAN.digitChar ds)) = digitsValue 16 ds /\
  head (DIBAN.hexPairs (map DIBAN.digitChar ds))
  = match ds with
    | d1 :: d2 :: _ => Some (16 * d1 + d2)
    | _ => None
    end.
Proof.
  induction k as [|k IH]; intros ds Hlen Hds.
  - destruct ds; [|discriminate Hlen]. repeat split; constructor.
  - destruct ds as [|d1 [|d2 ds]]; try (cbn in Hlen; lia).
    apply Forall_cons in Hds as [H1 Hds]. apply Forall_cons in Hds as [H2 Hds].
    destruct (IH ds ltac:(cbn in Hlen; lia) Hds) as (Il & Ib & Iv & _).
    cbn [map DIBAN.hexPairs]. rewrite (parseInt16_pair d1 d2 H1 H2).
    split; [cbn [length]; now rewrite Il|].
    split; [constructor; [unfold byte_ok, digit_ok in *; lia|exact Ib]|].
    split; [|reflexivity].
    rewrite (digitsValue_cons 256), (digitsValue_cons 16 d1), (digitsValue_cons 16 d2).
    rewrite Iv, Il. cbn [length].
    replace (Z.of_nat (S (length ds))) with (Z.of_nat (length ds) + 1) by lia.
    replace (length ds) with (2 * k)%nat by (cbn in Hlen; lia).
    rewrite Z.pow_add_r, Z.pow_1_r by lia.
    replace (Z.of_nat (2 * k)) with (2 * Z.of_nat k) by lia.
    rewrite (Z.pow_mul_r 16 2) by lia. change (16 ^ 2) with 256. ring.
Qed.

End HexFacts.

(** * Base58 *)

Section Base58Facts.

Local Open Scope Z_scope.

Lemma toStringRadix_pos radix n :
  2 <= radix -> 0 < n ->
  exists ds,
    DIBAN.toStringRadix radix n = map DIBAN.digitChar ds /\
    Forall (digit_ok radix) ds /\ no_leading_zero ds /\
    digitsValue radix ds = n /\ ds <> [].
Proof.
  intros Hr Hn. unfold DIBAN.toStringRadix.
  destruct (Z.eqb_spec n 0); [lia|]. destruct (Z.ltb_spec n 0); [lia|].
  rewrite Z.abs_eq by lia.
  destruct (digitsOf_spec radix Hr (S (Z.to_nat (Z.log2 n))) n [] ltac:(split; [lia|apply log2_fuel; lia]))
    as (ds & E & Hds & Hlead & Hval & Hnil).
  exists ds. rewrite E, app_nil_r. repeat split; trivial.
  intros E0. apply Hnil in E0. lia.
Qed.

(** [hexToBytes] of the padded hexadecimal form of a number: its
    big-endian bytes without leading zero byte, and one zero byte for 0. *)
Lemma hexToBytes_toString n :
  0 <= n ->
  let bytes := DIBAN.hexToBytes (DIBAN.evenPad (DIBAN.toStringRadix 16 n)) in
  Forall byte_ok bytes /\ digitsValue 256 bytes = n /\
  (n = 0 -> bytes = [0]) /\ (0 < n -> no_leading_zero bytes /\ bytes <> []).
Proof.
  intros Hn bytes.
  destruct (Z.eq_dec n 0) as [->|Hne].
  { subst bytes. vm_compute. repeat split; try lia; try discriminate.
    repeat constructor; discriminate. }
  destruct (toStringRadix_pos 16 n ltac:(lia) ltac:(lia)) as (ds & E & Hds & Hlead & Hval & Hnil).
  assert (Hpad : exists ds' k,
            DIBAN.evenPad (DIBAN.toStringRadix 16 n) = map DIBAN.digitChar ds' /\
            length ds' = (2 * k)%nat /\ Forall (digit_ok 16) ds' /\
            digitsValue 16 ds' = n /\
            (exists d1 d2 rest, ds' = d1 :: d2 :: rest /\ 16 * d1 + d2 <> 0)).
  { unfold DIBAN.evenPad. rewrite E, length_map.
    pose proof (Nat.div_mod_eq (length ds) 2) as Hdm.
    pose proof (Nat.mod_upper_bound (length ds) 2 ltac:(lia)) as Hmb.
    destruct (Nat.eqb_spec (length ds mod 2) 0) as [Heven|Hodd].
    - exists ds, (length ds / 2)%nat. split; [reflexivity|]. split; [lia|].
      split; [exact Hds|]. split; [exact Hval|].
      destruct ds as [|d1 [|d2 rest]]; [congruence|cbn in Heven; discriminate|].
      exists d1, d2, rest. split; [reflexivity|].
      apply Forall_cons in Hds as [H1 Hds]. apply Forall_cons in Hds as [H2 _].
      assert (d1 <> 0) by (intros ->; now apply Hlead).
      unfold digit_ok in *. lia.
    - exists (0 :: ds), (S (length ds / 2)). split; [reflexivity|].
      split; [cbn [length]; lia|].
      split; [constructor; [unfold digit_ok; lia|exact Hds]|].
      split; [rewrite (digitsValue_cons 16), Hval; lia|].
      destruct ds as [|d2 rest]; [congruence|].
      exists 0, d2, rest. split; [reflexivity|].
      assert (d2 <> 0) by (intros ->; now apply Hlead). lia. }
  destruct Hpad as (ds' & k & Epad & Hlen & Hds' & Hval' & d1 & d2 & rest & Eds & Hhead).
  destruct (hexPairs_digits k ds' Hlen Hds') as (Hl & Hb & Hv & Hh).
  assert (Ebytes : bytes = DIBAN.hexPairs (map DIBAN.digitChar ds')).
  { subst bytes. unfold DIBAN.hexToBytes. rewrite Epad, length_map, Hlen.
    apply take_ge. rewrite Hl.
    replace (2 * k)%nat with (k * 2)%nat by lia. rewrite Nat.div_mul by lia. lia. }
  rewrite Ebytes. split; [exact Hb|]. split; [rewrite Hv; exact Hval'|].
  split; [lia|]. intros _.
  assert (Hh' : head (DIBAN.hexPairs (map DIBAN.digitChar ds')) = Some (16 * d1 + d2))
    by (rewrite Hh, Eds; reflexivity).
  split.
  - unfold no_leading_zero. rewrite Hh'. congruence.
  - intros E0. rewrite E0 in Hh'. discriminate Hh'.
Qed.

Lemma leadingOnes_split s :
  s = replicate (DIBAN.leadingOnes s) "1"%char ++ drop (DIBAN.leadingOnes s) s /\
  head (drop (DIBAN.leadingOnes s) s) <> Some "1"%char.
Proof.
  induction s as [|c s [IH1 IH2]]; [split; [reflexivity|discriminate]|].
  cbn [DIBAN.leadingOnes]. destruct (Ascii.eqb_spec c "1") as [->|Hne].
  - cbn [replicate app drop]. split; [now rewrite <- IH1|exact IH2].
  - cbn. split; [reflexivity|congruence].
Qed.

Lemma leadingOnes_app z s :
  head s <> Some "1"%char ->
  DIBAN.leadingOnes (replicate z "1"%char ++ s) = z.
Proof.
  intros Hs. induction z as [|z IH].
  - destruct s as [|c s]; [reflexivity|]. cbn.
    destruct (Ascii.eqb_spec c "1") as [->|_]; [now contradiction Hs|reflexivity].
  - cbn. now rewrite IH.
Qed.

Lemma leadingZeros_split bytes :
  bytes = replicate (DIBAN.leadingZeros bytes) 0 ++ drop (DIBAN.leadingZeros bytes) bytes /\
  no_leading_zero (drop (DIBAN.leadingZeros bytes) bytes).
Proof.
  unfold no_leading_zero.
  induction bytes as [|b bytes [IH1 IH2]]; [split; [reflexivity|discriminate]|].
  cbn [DIBAN.leadingZeros]. destruct (Z.eqb_spec b 0) as [->|Hne].
  - cbn [replicate app drop]. split; [now rewrite <- IH1|exact IH2].
  - cbn. split; [reflexivity|congruence].
Qed.

Lemma leadingZeros_app z bytes :
  no_leading_zero bytes -> DIBAN.leadingZeros (replicate z 0 ++ bytes) = z.
Proof.
  unfold no_leading_zero. intros Hs. induction z as [|z IH].
  - destruct bytes as [|b bytes]; [reflexivity|]. cbn.
    destruct (Z.eqb_spec b 0) as [->|_]; [now contradiction Hs|reflexivity].
  - cbn. now rewrite IH.
Qed.

Lemma BASE58_nodup : NoDup DIBAN.BASE58.
Proof. apply (bool_decide_unpack _). vm_compute. exact I. Qed.

Lemma BASE58_length : Z.of_nat (length DIBAN.BASE58) = 58.
Proof. reflexivity. Qed.

Lemma BASE58_one : alphaChar DIBAN.BASE58 0 = "1"%char.
Proof. reflexivity. Qed.

End Base58Facts.

Section Base58RoundTrip.

Local Open Scope Z_scope.

Lemma base58ToBytes_valid s :
  Forall (fun c => c ∈ DIBAN.BASE58) s ->
  DIBAN.base58ToBytes s
  = DIBAN.Ok (replicate (DIBAN.leadingOnes s) 0
              ++ DIBAN.hexToBytes
                   (DIBAN.evenPad
                      (DIBAN.toStringRadix 16
                         (digitsValue 58 (map (DIBAN.indexOf DIBAN.BASE58) s))))).
Proof.
  intros Hs. unfold DIBAN.base58ToBytes.
  rewrite (parseDigits_valid DIBAN.BASE58 58 BASE58_length) by exact Hs.
  reflexivity.
Qed.

Lemma base58ToBytes_invalid s :
  ~ Forall (fun c => c ∈ DIBAN.BASE58) s ->
  DIBAN.base58ToBytes s = DIBAN.Err DIBAN.InvalidBase58Character.
Proof.
  intros Hs. unfold DIBAN.base58ToBytes.
  now rewrite (parseDigits_invalid DIBAN.BASE58 58 BASE58_length) by exact Hs.
Qed.

Lemma indexOf_ones z :
  map (DIBAN.indexOf DIBAN.BASE58) (replicate z "1"%char) = replicate z 0.
Proof.
  induction z as [|z IH]; [reflexivity|]. cbn [replicate map]. now rewrite IH.
Qed.

Lemma leadingZeros_all z : DIBAN.leadingZeros (replicate z 0 ++ [0]) = S z.
Proof. induction z as [|z IH]; [reflexivity|]. cbn. now rewrite IH. Qed.

(** The digits of a Base58 string behind its leading ['1']s. *)
Lemma base58_digits s :
  Forall (fun c => c ∈ DIBAN.BASE58) s ->
  let rest := drop (DIBAN.leadingOnes s) s in
  let ds := map (DIBAN.indexOf DIBAN.BASE58) rest in
  Forall (digit_ok 58) ds /\ no_leading_zero ds /\
  map (alphaChar DIBAN.BASE58) ds = rest /\
  digitsValue 58 (map (DIBAN.indexOf DIBAN.BASE58) s) = digitsValue 58 ds.
Proof.
  intros Hs rest ds.
  destruct (leadingOnes_split s) as [Es Hhead]. fold rest in Es, Hhead.
  assert (Hrest : Forall (fun c => c ∈ DIBAN.BASE58) rest) by now apply Forall_drop.
  destruct (indexOf_digits_ok DIBAN.BASE58 58 BASE58_length rest Hrest) as [Hds Emap].
  fold ds in Hds, Emap.
  split; [exact Hds|]. split; [|split; [exact Emap|]].
  - unfold no_leading_zero. destruct rest as [|c rest']; [discriminate|].
    subst ds. cbn [map head]. intros [= E0].
    apply Forall_cons in Hrest as [Hc _].
    destruct (indexOf_elem DIBAN.BASE58 58 BASE58_length c Hc) as [_ Ec].
    rewrite E0 in Ec. apply Hhead. cbn. now rewrite <- Ec.
  - rewrite Es at 1. rewrite map_app.
    rewrite indexOf_ones. apply digitsValue_zeros.
Qed.

Lemma bytesToBase58_spec bytes :
  Forall byte_ok bytes -> bytes <> [] ->
  exists ds,
    Forall (digit_ok 58) ds /\ no_leading_zero ds /\
    digitsValue 58 ds = digitsValue 256 bytes /\
    DIBAN.bytesToBase58 bytes
    = DIBAN.Ok (replicate (DIBAN.leadingZeros bytes) "1"%char
                ++ map (alphaChar DIBAN.BASE58) ds).
Proof.
  intros Hb Hne. unfold DIBAN.bytesToBase58.
  rewrite bigIntOfHex_bytes by exact Hb.
  destruct bytes as [|b0 bytes0] eqn:Eb; [congruence|]. rewrite <- Eb in *.
  set (n := digitsValue 256 bytes).
  assert (Hn : 0 <= n) by (apply (digitsValue_bound 256 ltac:(lia)); exact Hb).
  pose proof (log2_fuel n Hn) as Hfuel.
  destruct (digitsOf_spec 58 ltac:(lia) _ n [] (conj Hn Hfuel))
    as (ds & E & Hds & Hlead & Hval & Hnil).
  rewrite app_nil_r in E.
  pose proof (digitLoop_digits DIBAN.BASE58 58 BASE58_length ltac:(lia)
                _ n [] [] (conj Hn Hfuel)) as EL.
  cbn [map app] in EL. rewrite EL, E, app_nil_r.
  exists ds. split; [exact Hds|]. split; [exact Hlead|]. split; [exact Hval|].
  destruct (replicate (DIBAN.leadingZeros bytes) "1"%char ++ map (alphaChar DIBAN.BASE58) ds)
    eqn:Eout; [|reflexivity].
  exfalso. apply app_eq_nil in Eout as [Ez Ed].
  assert (Hz : DIBAN.leadingZeros bytes = 0%nat) by (now destruct (DIBAN.leadingZeros bytes)).
  assert (Hd : ds = []) by (now destruct ds).
  destruct (leadingZeros_split bytes) as [_ Hnl]. rewrite Hz, drop_0 in Hnl.
  pose proof (digitsValue_pos 256 ltac:(lia) bytes Hb Hnl Hne).
  apply Hnil in Hd. fold n in H. lia.
Qed.

Lemma alphaChar_one_inv d :
  digit_ok 58 d -> alphaChar DIBAN.BASE58 d = "1"%char -> d = 0.
Proof.
  intros Hd E.
  rewrite <- (indexOf_alphaChar DIBAN.BASE58 58 BASE58_nodup BASE58_length ltac:(lia) d Hd).
  now rewrite E.
Qed.

(** String, bytes, string. *)
Lemma base58_string_bytes_string s :
  Forall (fun c => c ∈ DIBAN.BASE58) s ->
  exists bytes,
    DIBAN.base58ToBytes s = DIBAN.Ok bytes /\ Forall byte_ok bytes /\ bytes <> [] /\
    DIBAN.bytesToBase58 bytes
    = DIBAN.Ok (if (DIBAN.leadingOnes s =? length s)%nat then s ++ ["1"%char] else s).
Proof.
  intros Hs.
  destruct (base58_digits s Hs) as (Hds & Hlead & Emap & Eval).
  destruct (leadingOnes_split s) as [Es _].
  set (z := DIBAN.leadingOnes s) in *. set (rest := drop z s) in *.
  set (ds := map (DIBAN.indexOf DIBAN.BASE58) rest) in *.
  set (n := digitsValue 58 ds) in *.
  assert (Hn : 0 <= n) by (apply (digitsValue_bound 58 ltac:(lia)); exact Hds).
  destruct (hexToBytes_toString n Hn) as (HRb & HRv & HR0 & HRpos).
  set (R := DIBAN.hexToBytes (DIBAN.evenPad (DIBAN.toStringRadix 16 n))) in *.
  assert (HRne : R <> []).
  { destruct (Z.eq_dec n 0) as [E0|Hne]; [rewrite (HR0 E0); discriminate|].
    apply HRpos. lia. }
  exists (replicate z 0 ++ R).
  split; [rewrite base58ToBytes_valid by exact Hs; fold z; now rewrite Eval|].
  assert (Hbytes : Forall byte_ok (replicate z 0 ++ R)).
  { apply Forall_app. split; [|exact HRb]. apply Forall_replicate. unfold byte_ok. lia. }
  split; [exact Hbytes|].
  split; [intros E0; apply app_eq_nil in E0 as [_ E0]; contradiction|].
  destruct (bytesToBase58_spec (replicate z 0 ++ R) Hbytes) as (ds' & Hds' & Hlead' & Hval' & E).
  { intros E0. apply app_eq_nil in E0 as [_ E0]. contradiction. }
  rewrite (digitsValue_zeros 256), HRv in Hval'.
  assert (Eds : ds' = ds) by (apply (digitsValue_inj 58 ltac:(lia)); trivial).
  rewrite Eds, Emap in E. rewrite E. f_equal.
  assert (Hlen : length s = (z + length rest)%nat).
  { rewrite Es at 1. now rewrite length_app, length_replicate. }
  destruct (Nat.eqb_spec z (length s)) as [Hall|Hsome].
  - assert (Erest : rest = []) by (destruct rest; [reflexivity|cbn in Hlen; lia]).
    assert (E0 : n = 0) by (unfold n, ds; rewrite Erest; reflexivity).
    rewrite (HR0 E0), Erest, app_nil_r.
    rewrite leadingZeros_all, Es at 1. rewrite Erest, app_nil_r.
    apply replicate_S_end.
  - assert (Hrne : rest <> []) by (intros E0; rewrite E0 in Hlen; cbn in Hlen; lia).
    assert (Hpos : 0 < n).
    { apply (digitsValue_pos 58 ltac:(lia)); trivial. unfold ds.
      destruct rest; [congruence|discriminate]. }
    rewrite leadingZeros_app by (apply HRpos; exact Hpos).
    now rewrite <- Es.
Qed.

(** Bytes, string, bytes. *)
Lemma base58_bytes_string_bytes bytes :
  Forall byte_ok bytes -> bytes <> [] ->
  exists s,
    DIBAN.bytesToBase58 bytes = DIBAN.Ok s /\
    Forall (fun c => c ∈ DIBAN.BASE58) s /\ s <> [] /\
    DIBAN.base58ToBytes s
    = DIBAN.Ok (if (DIBAN.leadingZeros bytes =? length bytes)%nat
                then bytes ++ [0] else bytes).
Proof.
  intros Hb Hne.
  destruct (bytesToBase58_spec bytes Hb Hne) as (ds & Hds & Hlead & Hval & E).
  destruct (leadingZeros_split bytes) as [Eb Hnl].
  set (z := DIBAN.leadingZeros bytes) in *. set (rest := drop z bytes) in *.
  set (chars := map (alphaChar DIBAN.BASE58) ds) in *.
  assert (Hrest : Forall byte_ok rest) by now apply Forall_drop.
  assert (Hchars : Forall (fun c => c ∈ DIBAN.BASE58) chars).
  { unfold chars. apply Forall_map. eapply Forall_impl; [exact Hds|].
    intros d Hd. apply (alphaChar_elem DIBAN.BASE58 58 BASE58_length ltac:(lia)). exact Hd. }
  assert (Hvalid : Forall (fun c => c ∈ DIBAN.BASE58) (replicate z "1"%char ++ chars)).
  { apply Forall_app. split; [|exact Hchars]. apply Forall_replicate.
    apply (alphaChar_elem DIBAN.BASE58 58 BASE58_length ltac:(lia) 0).
    unfold digit_ok. lia. }
  assert (Hhead : head chars <> Some "1"%char).
  { unfold chars. destruct ds as [|d ds']; [discriminate|]. cbn [map head].
    apply Forall_cons in Hds as [Hd _]. intros [= E1].
    apply alphaChar_one_inv in E1; [|exact Hd]. subst d. now apply Hlead. }
  assert (Hlen : length bytes = (z + length rest)%nat).
  { rewrite Eb at 1. now rewrite length_app, length_replicate. }
  assert (Eidx : map (DIBAN.indexOf DIBAN.BASE58) (replicate z "1"%char ++ chars)
                 = replicate z 0 ++ ds).
  { rewrite map_app. f_equal.
    - apply indexOf_ones.
    - unfold chars. rewrite map_map. rewrite <- (map_id ds) at 2.
      apply map_ext_Forall. eapply Forall_impl; [exact Hds|].
      intros d Hd. apply (indexOf_alphaChar DIBAN.BASE58 58 BASE58_nodup BASE58_length ltac:(lia) d Hd). }
  exists (replicate z "1"%char ++ chars).
  split; [exact E|]. split; [exact Hvalid|].
  split.
  { intros E0. apply app_eq_nil in E0 as [Ez Ec].
    assert (z = 0%nat) by (now destruct z).
    assert (ds = []) by (unfold chars in Ec; now destruct ds).
    assert (rest <> []).
    { intros Er. rewrite Er in Hlen. cbn [length] in Hlen.
      apply Hne, length_zero_iff_nil. lia. }
    pose proof (digitsValue_pos 256 ltac:(lia) rest Hrest Hnl ltac:(assumption)) as Hp.
    rewrite Eb, (digitsValue_zeros 256) in Hval. subst ds. cbn in Hval. lia. }
  rewrite base58ToBytes_valid by exact Hvalid.
  rewrite leadingOnes_app by exact Hhead.
  rewrite Eidx, (digitsValue_zeros 58), Hval. f_equal.
  set (n := digitsValue 256 bytes).
  assert (Hn : 0 <= n) by (apply (digitsValue_bound 256 ltac:(lia)); exact Hb).
  destruct (hexToBytes_toString n Hn) as (HRb & HRv & HR0 & HRpos).
  set (R := DIBAN.hexToBytes (DIBAN.evenPad (DIBAN.toStringRadix 16 n))) in *.
  assert (Evn : n = digitsValue 256 rest).
  { unfold n. rewrite Eb at 1. apply (digitsValue_zeros 256). }
  destruct (Nat.eqb_spec z (length bytes)) as [Hall|Hsome].
  - assert (Erest : rest = []) by (destruct rest; [reflexivity|cbn in Hlen; lia]).
    assert (E0 : n = 0) by (rewrite Evn, Erest; reflexivity).
    rewrite (HR0 E0). f_equal. rewrite Erest, app_nil_r in Eb. symmetry. exact Eb.
  - assert (Hrne : rest <> []) by (intros E0; rewrite E0 in Hlen; cbn in Hlen; lia).
    assert (Hpos : 0 < n).
    { rewrite Evn. apply (digitsValue_pos 256 ltac:(lia)); trivial. }
    destruct (HRpos Hpos) as [HRlead _].
    assert (ER : R = rest).
    { apply (digitsValue_inj 256 ltac:(lia)); trivial. now rewrite HRv. }
    rewrite ER. now rewrite <- Eb.
Qed.

End Base58RoundTrip.

(** * The steganography modules' Base58 helpers *)

Section StegCodecFacts.

Local Open Scope Z_scope.

Lemma evenPad_even hex : (length (DIBAN.evenPad hex) mod 2 = 0)%nat.
Proof.
  unfold DIBAN.evenPad.
  destruct (Nat.eqb_spec (length hex mod 2) 0) as [He|Ho]; [exact He|].
  cbn [length].
  pose proof (Nat.div_mod_eq (length hex) 2).
  pose proof (Nat.mod_upper_bound (length hex) 2 ltac:(lia)).
  pose proof (Nat.div_mod_eq (S (length hex)) 2).
  pose proof (Nat.mod_upper_bound (S (length hex)) 2 ltac:(lia)). lia.
Qed.

Lemma evenPad_nonempty hex : hex <> [] -> DIBAN.evenPad hex <> [].
Proof.
  unfold DIBAN.evenPad. intros H. now destruct (_ =? _)%nat.
Qed.

Lemma toStringRadix_nonempty radix n :
  2 <= radix -> 0 <= n -> DIBAN.toStringRadix radix n <> [].
Proof.
  intros Hr Hn. destruct (Z.eq_dec n 0) as [->|Hne]; [discriminate|].
  destruct (toStringRadix_pos radix n Hr ltac:(lia)) as (ds & E & _ & _ & _ & Hnil).
  rewrite E. now destruct ds.
Qed.

(** On a non-empty string of even length the two [hexToBytes] agree. *)
Lemma steg_hexToBytes_even hex :
  hex <> [] -> (length hex mod 2 = 0)%nat ->
  StegCodec.hexToBytes hex = DIBAN.hexToBytes hex.
Proof.
  intros Hne Heven. unfold StegCodec.hexToBytes, DIBAN.hexToBytes.
  destruct hex as [|c hex]; [congruence|].
  cbv zeta. now rewrite Heven.
Qed.

Lemma parseDigits_nonneg alphabet base e s n :
  Z.of_nat (length alphabet) = base -> 2 <= base ->
  DIBAN.parseDigits alphabet base e s 0 = DIBAN.Ok n -> 0 <= n.
Proof.
  intros Hlen Hb E.
  destruct (decide (Forall (fun c => c ∈ alphabet) s)) as [Hs|Hs].
  - rewrite (parseDigits_valid alphabet base Hlen) in E by exact Hs.
    injection E as <-.
    destruct (indexOf_digits_ok alphabet base Hlen s Hs) as [Hds _].
    apply (digitsValue_bound base Hb _ Hds).
  - rewrite (parseDigits_invalid alphabet base Hlen) in E by exact Hs. discriminate E.
Qed.

Lemma arraySet_fresh (z : nat) (bytes : list Z) :
  Forall byte_ok bytes ->
  arraySet (replicate (z + length bytes) 0) bytes z = replicate z 0 ++ bytes.
Proof.
  intros Hb. unfold arraySet.
  rewrite take_replicate, Nat.min_l by lia.
  rewrite map_toUint8_bytes by exact Hb.
  rewrite drop_replicate, Nat.sub_diag. cbn [replicate]. now rewrite app_nil_r.
Qed.

Lemma base58ToBytesSteg_local s :
  s <> [] -> StegCodec.base58ToBytesSteg false s = DIBAN.base58ToBytes s.
Proof.
  intros Hne. unfold StegCodec.base58ToBytesSteg, DIBAN.base58ToBytes.
  destruct s as [|c s']; [congruence|]. cbv beta iota. clear Hne.
  generalize (c :: s'). intros s.
  change StegCodec.BASE58_LOCAL with DIBAN.BASE58.
  destruct (DIBAN.parseDigits DIBAN.BASE58 58 DIBAN.InvalidBase58Character s 0)
    as [n| |] eqn:Ep; try reflexivity.
  pose proof (parseDigits_nonneg _ _ _ _ _ BASE58_length ltac:(lia) Ep) as Hn.
  cbv zeta.
  rewrite steg_hexToBytes_even
    by (try apply evenPad_even; apply evenPad_nonempty, toStringRadix_nonempty; lia).
  destruct (hexToBytes_toString n Hn) as (HRb & _ & HR0 & HRpos).
  destruct (DIBAN.hexToBytes (DIBAN.evenPad (DIBAN.toStringRadix 16 n))) as [|b R] eqn:ER.
  - exfalso. destruct (Z.eq_dec n 0) as [E0|Hne]; [now specialize (HR0 E0)|].
    now apply HRpos; [lia|].
  - now rewrite arraySet_fresh.
Qed.

Lemma bytesToBase58Local_eq bytes :
  StegCodec.bytesToBase58Local bytes = DIBAN.bytesToBase58 bytes.
Proof. reflexivity. Qed.

End StegCodecFacts.

(** * Base36 *)

Section Base36Facts.

Local Open Scope Z_scope.

Lemma BASE36_nodup : NoDup DIBAN.BASE36.
Proof. apply (bool_decide_unpack _). vm_compute. exact I. Qed.

Lemma BASE36_length : Z.of_nat (length DIBAN.BASE36) = 36.
Proof. reflexivity. Qed.

Lemma digitsValue_all_zero base ds :
  2 <= base -> Forall (digit_ok base) ds -> digitsValue base ds = 0 ->
  ds = replicate (length ds) 0.
Proof.
  intros Hb. induction 1 as [|d ds Hd Hds IH]; intros Hv; [reflexivity|].
  rewrite digitsValue_cons in Hv.
  pose proof (digitsValue_bound base Hb ds Hds) as Hbd.
  assert (0 < base ^ Z.of_nat (length ds)) by (apply Z.pow_pos_nonneg; lia).
  unfold digit_ok in Hd.
  assert (d = 0) by nia. subst d.
  cbn [length replicate]. f_equal. apply IH. lia.
Qed.

(** Left-padding with zero bytes up to [byteLen], as [base36ToBytes]
    does. *)
Lemma bytesToBase36_spec bytes :
  Forall byte_ok bytes -> bytes <> [] ->
  exists ds,
    Forall (digit_ok 36) ds /\ ds <> [] /\
    digitsValue 36 ds = digitsValue 256 bytes /\
    (0 < digitsValue 256 bytes -> no_leading_zero ds) /\
    (digitsValue 256 bytes = 0 -> ds = [0]) /\
    DIBAN.bytesToBase36 bytes = DIBAN.Ok (map (alphaChar DIBAN.BASE36) ds).
Proof.
  intros Hb Hne. unfold DIBAN.bytesToBase36.
  rewrite bigIntOfHex_bytes by exact Hb.
  destruct bytes as [|b0 bytes0] eqn:Eb; [congruence|]. rewrite <- Eb in *.
  set (n := digitsValue 256 bytes).
  assert (Hn : 0 <= n) by (apply (digitsValue_bound 256 ltac:(lia)); exact Hb).
  destruct (Z.eqb_spec n 0) as [E0|Hpos].
  - exists [0]. split; [repeat constructor; unfold digit_ok; lia|].
    split; [discriminate|]. split; [now rewrite E0|]. split; [lia|].
    split; reflexivity.
  - pose proof (log2_fuel n Hn) as Hfuel.
    destruct (digitsOf_spec 36 ltac:(lia) _ n [] (conj Hn Hfuel))
      as (ds & E & Hds & Hlead & Hval & Hnil).
    rewrite app_nil_r in E.
    pose proof (digitLoop_digits DIBAN.BASE36 36 BASE36_length ltac:(lia)
                  _ n [] [] (conj Hn Hfuel)) as EL.
    cbn [map app] in EL. rewrite EL, E, app_nil_r.
    exists ds. split; [exact Hds|].
    split; [intros E0; apply Hnil in E0; lia|].
    split; [exact Hval|]. split; [trivial|]. split; [lia|reflexivity].
Qed.

Lemma base36ToBytes_valid s byteLen :
  Forall (fun c => c ∈ DIBAN.BASE36) s ->
  DIBAN.base36ToBytes s byteLen
  = let bytes :=
      DIBAN.hexToBytes
        (DIBAN.evenPad
           (DIBAN.toStringRadix 16 (digitsValue 36 (map (DIBAN.indexOf DIBAN.BASE36) s)))) in
    DIBAN.Ok (if (length bytes <? byteLen)%nat
              then replicate (byteLen - length bytes) 0 ++ bytes
              else bytes).
Proof.
  intros Hs. unfold DIBAN.base36ToBytes.
  rewrite (parseDigits_valid DIBAN.BASE36 36 BASE36_length) by exact Hs.
  reflexivity.
Qed.

Lemma indexOf36_digits ds :
  Forall (digit_ok 36) ds ->
  map (DIBAN.indexOf DIBAN.BASE36) (map (alphaChar DIBAN.BASE36) ds) = ds.
Proof.
  intros Hds. rewrite map_map. rewrite <- (map_id ds) at 2.
  apply map_ext_Forall. eapply Forall_impl; [exact Hds|].
  intros d Hd. apply (indexOf_alphaChar DIBAN.BASE36 36 BASE36_nodup BASE36_length ltac:(lia) d Hd).
Qed.

Lemma indexOf36_zeros p :
  map (DIBAN.indexOf DIBAN.BASE36) (replicate p "0"%char) = replicate p 0.
Proof.
  induction p as [|p IH]; [reflexivity|]. cbn [replicate map]. now rewrite IH.
Qed.

Lemma base36_chars_valid p ds :
  Forall (digit_ok 36) ds ->
  Forall (fun c => c ∈ DIBAN.BASE36)
    (replicate p "0"%char ++ map (alphaChar DIBAN.BASE36) ds).
Proof.
  intros Hds. apply Forall_app. split.
  - apply Forall_replicate.
    apply (alphaChar_elem DIBAN.BASE36 36 BASE36_length ltac:(lia) 0). unfold digit_ok. lia.
  - apply Forall_map. eapply Forall_impl; [exact Hds|].
    intros d Hd. now apply (alphaChar_elem DIBAN.BASE36 36 BASE36_length ltac:(lia)).
Qed.

(** Bytes, Base36 with any zero padding in front, bytes padded to
    [byteLen]: the bytes come back with zero bytes in front up to
    [byteLen]. *)
Lemma base36_roundtrip_pad bytes s36 p byteLen :
  Forall byte_ok bytes -> bytes <> [] ->
  DIBAN.bytesToBase36 bytes = DIBAN.Ok s36 ->
  (length bytes <= byteLen)%nat ->
  DIBAN.base36ToBytes (replicate p "0"%char ++ s36) byteLen
  = DIBAN.Ok (replicate (byteLen - length bytes) 0 ++ bytes).
Proof.
  intros Hb Hne E36 HL.
  destruct (bytesToBase36_spec bytes Hb Hne) as (ds & Hds & Hdne & Hval & Hlead & Hzero & E).
  rewrite E in E36. injection E36 as <-.
  rewrite base36ToBytes_valid by (now apply base36_chars_valid).
  rewrite map_app, indexOf36_zeros, indexOf36_digits, (digitsValue_zeros 36), Hval
    by exact Hds.
  cbv zeta.
  set (n := digitsValue 256 bytes) in *.
  assert (Hn : 0 <= n) by (apply (digitsValue_bound 256 ltac:(lia)); exact Hb).
  destruct (hexToBytes_toString n Hn) as (HRb & HRv & HR0 & HRpos).
  set (R := DIBAN.hexToBytes (DIBAN.evenPad (DIBAN.toStringRadix 16 n))) in *.
  destruct (leadingZeros_split bytes) as [Eb Hnl].
  set (z := DIBAN.leadingZeros bytes) in *. set (rest := drop z bytes) in *.
  assert (Hrest : Forall byte_ok rest) by now apply Forall_drop.
  assert (Hlen : length bytes = (z + length rest)%nat).
  { rewrite Eb at 1. now rewrite length_app, length_replicate. }
  assert (Evn : n = digitsValue 256 rest).
  { unfold n. rewrite Eb at 1. apply (digitsValue_zeros 256). }
  assert (Hblen : (1 <= length bytes)%nat).
  { destruct (length bytes) eqn:El; [|lia]. apply length_zero_iff_nil in El. contradiction. }
  f_equal.
  destruct (Z.eq_dec n 0) as [E0|Hpos].
  - rewrite (HR0 E0). cbn [length].
    assert (Eall : bytes = replicate (length bytes) 0)
      by (apply (digitsValue_all_zero 256); trivial; lia).
    destruct (Nat.ltb_spec 1 byteLen) as [Hlt|Hge].
    + rewrite Eall at 2. rewrite <- replicate_add.
      rewrite <- (replicate_S_end (byteLen - 1) 0). f_equal. lia.
    + assert (length bytes = 1%nat) by lia.
      replace (byteLen - length bytes)%nat with 0%nat by lia.
      rewrite Eall, H. reflexivity.
  - assert (Hrne : rest <> []).
    { intros Er. rewrite Er in Evn. cbn in Evn. lia. }
    destruct (HRpos ltac:(lia)) as [HRlead _].
    assert (ER : R = rest).
    { apply (digitsValue_inj 256 ltac:(lia)); trivial. now rewrite HRv. }
    rewrite ER.
    destruct (Nat.ltb_spec (length rest) byteLen) as [Hlt|Hge].
    + rewrite Eb at 2. rewrite app_assoc, <- replicate_add. do 2 f_equal. lia.
    + assert (z = 0%nat) by lia.
      replace (byteLen - length bytes)%nat with 0%nat by lia.
      rewrite Eb at 1. rewrite H. reflexivity.
Qed.

End Base36Facts.

(** * The mod-97 checksum *)

Ltac iban_literal :=
  cbv [DIBAN.str String.list_ascii_of_string];
  repeat (apply List.Forall_cons; [vm_compute; discriminate|]);
  apply List.Forall_nil.

Section Mod97Facts.

Local Open Scope Z_scope.

Lemma convertLoop_acc s : forall acc,
  DIBAN.convertLoop s acc = acc ++ DIBAN.convertLoop s [].
Proof.
  induction s as [|c s IH]; intros acc; [cbn; now rewrite app_nil_r|].
  cbn [DIBAN.convertLoop]. rewrite IH, (IH ([] ++ _)). cbn [app].
  now rewrite app_assoc.
Qed.

Lemma convertLoop_app s1 s2 :
  DIBAN.convertLoop (s1 ++ s2) [] = DIBAN.convertLoop s1 [] ++ DIBAN.convertLoop s2 [].
Proof.
  induction s1 as [|c s1 IH]; [reflexivity|].
  cbn [app DIBAN.convertLoop].
  generalize (if DIBAN.isDigit c then [c]
              else DIBAN.toStringRadix 10 (DIBAN.charCode c - 55)) as first.
  intros first. rewrite convertLoop_acc, IH, (convertLoop_acc s1 first).
  now rewrite app_assoc.
Qed.

Lemma charCode_range c : 0 <= DIBAN.charCode c < 256.
Proof.
  unfold DIBAN.charCode. pose proof (N_ascii_bounded c). lia.
Qed.

Lemma isDigit_digitChar d : digit_ok 10 d -> DIBAN.isDigit (DIBAN.digitChar d) = true.
Proof.
  intros Hd.
  apply (Z_range_forallb 10 (fun d => DIBAN.isDigit (DIBAN.digitChar d))) in Hd;
    [exact Hd|vm_compute; reflexivity].
Qed.

Lemma digitChar_value d : digit_ok 10 d -> DIBAN.charCode (DIBAN.digitChar d) - 48 = d.
Proof.
  intros Hd.
  apply (Z_range_forallb 10 (fun d => DIBAN.charCode (DIBAN.digitChar d) - 48 =? d)) in Hd;
    [now apply Z.eqb_eq|vm_compute; reflexivity].
Qed.

Lemma isDigit_iban c : DIBAN.isDigit c = true -> iban_char c.
Proof.
  unfold DIBAN.isDigit, iban_char. intros H. apply andb_prop in H as [H _].
  now apply Z.leb_le.
Qed.

(** An IBAN character converts to decimal digits. *)
Lemma convert_char_digits c :
  iban_char c ->
  Forall (fun d => DIBAN.isDigit d = true)
    (if DIBAN.isDigit c then [c] else DIBAN.toStringRadix 10 (DIBAN.charCode c - 55)).
Proof.
  intros Hc. destruct (DIBAN.isDigit c) eqn:Ed; [repeat constructor; exact Ed|].
  assert (H58 : 58 <= DIBAN.charCode c).
  { unfold iban_char in Hc. unfold DIBAN.isDigit in Ed.
    destruct (Z.leb_spec 48 (DIBAN.charCode c)), (Z.leb_spec (DIBAN.charCode c) 57);
      try discriminate Ed; lia. }
  destruct (toStringRadix_pos 10 (DIBAN.charCode c - 55) ltac:(lia) ltac:(lia))
    as (ds & E & Hds & _).
  rewrite E. apply Forall_map. eapply Forall_impl; [exact Hds|].
  intros d Hd. now apply isDigit_digitChar.
Qed.

Lemma convertLoop_digits s :
  Forall iban_char s -> Forall (fun d => DIBAN.isDigit d = true) (DIBAN.convertLoop s []).
Proof.
  induction 1 as [|c s Hc _ IH]; [constructor|].
  change (c :: s) with ([c] ++ s). rewrite convertLoop_app. apply Forall_app. split; [|exact IH].
  cbn [DIBAN.convertLoop app]. now apply convert_char_digits.
Qed.

(** On decimal digits the second loop is the number modulo 97. *)
Lemma remainderLoop_digits cs : forall r,
  Forall (fun d => DIBAN.isDigit d = true) cs -> 0 <= r < 97 ->
  DIBAN.remainderLoop cs r
  = DIBAN.Ok ((r * 10 ^ Z.of_nat (length cs) + decimalValue cs) mod 97).
Proof.
  unfold decimalValue.
  induction cs as [|d cs IH]; intros r Hcs Hr.
  - cbn. rewrite Z.mul_1_r, Z.add_0_r, Z.mod_small by lia. reflexivity.
  - apply Forall_cons in Hcs as [Hd Hcs].
    cbn [DIBAN.remainderLoop]. unfold DIBAN.bigIntOfChar. rewrite Hd.
    assert (Hv : 0 <= DIBAN.charCode d - 48 < 10).
    { unfold DIBAN.isDigit in Hd. apply andb_prop in Hd as [H1 H2].
      apply Z.leb_le in H1, H2. lia. }
    rewrite Z.rem_mod_nonneg by lia.
    rewrite IH by (trivial; apply Z.mod_pos_bound; lia).
    f_equal. cbn [map length]. rewrite (digitsValue_cons 10).
    rewrite length_map, Nat2Z.inj_succ, Z.pow_succ_r by lia.
    set (P := 10 ^ Z.of_nat (length cs)).
    set (V := digitsValue 10 _).
    rewrite Z.add_mod, Z.mul_mod_idemp_l, <- Z.add_mod by lia.
    f_equal. ring.
Qed.

Lemma ibanMod97_value s :
  Forall iban_char s ->
  DIBAN.ibanMod97 s = DIBAN.Ok (decimalValue (DIBAN.convertLoop s []) mod 97).
Proof.
  intros Hs. unfold DIBAN.ibanMod97.
  rewrite remainderLoop_digits by (try apply convertLoop_digits; trivial; lia).
  now rewrite Z.mul_0_l, Z.add_0_l.
Qed.

Lemma decimalValue_app a b :
  decimalValue (a ++ b) = decimalValue a * 10 ^ Z.of_nat (length b) + decimalValue b.
Proof.
  unfold decimalValue. rewrite map_app, digitsValue_app, length_map. reflexivity.
Qed.

(** A number below 100 prints, zero-padded, as its two decimal digits. *)
Lemma two_digits cc :
  0 <= cc < 100 ->
  (if cc <? 10 then "0"%char :: DIBAN.toStringRadix 10 cc else DIBAN.toStringRadix 10 cc)
  = [DIBAN.digitChar (cc / 10); DIBAN.digitChar (cc mod 10)].
Proof.
  intros Hc.
  apply (Z_range_forallb 100
           (fun cc => bool_decide
              ((if cc <? 10 then "0"%char :: DIBAN.toStringRadix 10 cc
                else DIBAN.toStringRadix 10 cc)
               = [DIBAN.digitChar (cc / 10); DIBAN.digitChar (cc mod 10)]))) in Hc;
    [|vm_compute; reflexivity].
  now apply bool_decide_eq_true in Hc.
Qed.

(** The check digits: with [DO00] moved behind the body the remainder is
    [m]; with [98 - m] in place of [00] it is 1. *)
Lemma check_digits body m :
  Forall iban_char body ->
  DIBAN.ibanMod97 (body ++ DIBAN.str "DO00") = DIBAN.Ok m ->
  (0 <= m < 97) /\
  (DIBAN.ibanMod97
     (body ++ DIBAN.str "DO"
           ++ [DIBAN.digitChar ((98 - m) / 10); DIBAN.digitChar ((98 - m) mod 10)])
   = DIBAN.Ok 1).
Proof.
  intros Hbody E.
  assert (HDO : Forall iban_char (DIBAN.str "DO")) by iban_literal.
  assert (H00 : Forall iban_char (DIBAN.str "00")) by iban_literal.
  rewrite ibanMod97_value in E.
  2:{ apply Forall_app. split; [exact Hbody|].
      change (DIBAN.str "DO00") with (DIBAN.str "DO" ++ DIBAN.str "00").
      apply Forall_app. now split. }
  injection E as E.
  change ["D"%char; "O"%char; "0"%char; "0"%char]
    with (DIBAN.str "DO" ++ DIBAN.str "00") in E.
  rewrite app_assoc, convertLoop_app, decimalValue_app in E.
  change (decimalValue (DIBAN.convertLoop (DIBAN.str "00") [])) with 0 in E.
  change (Z.of_nat (length (DIBAN.convertLoop (DIBAN.str "00") []))) with 2 in E.
  set (X := decimalValue (DIBAN.convertLoop (body ++ DIBAN.str "DO") [])) in *.
  assert (Hm : 0 <= m < 97) by (rewrite <- E; apply Z.mod_pos_bound; lia).
  split; [exact Hm|].
  set (cc := 98 - m).
  assert (Hcc : 0 <= cc < 100) by (unfold cc; lia).
  assert (Hd1 : digit_ok 10 (cc / 10)) by (unfold digit_ok; Z.div_mod_to_equations; lia).
  assert (Hd2 : digit_ok 10 (cc mod 10)) by (unfold digit_ok; Z.div_mod_to_equations; lia).
  rewrite ibanMod97_value.
  2:{ apply Forall_app. split; [exact Hbody|]. apply Forall_app. split; [exact HDO|].
      apply List.Forall_cons; [now apply isDigit_iban, isDigit_digitChar|].
      apply List.Forall_cons; [now apply isDigit_iban, isDigit_digitChar|].
      apply List.Forall_nil. }
  f_equal. rewrite app_assoc, convertLoop_app, decimalValue_app. fold X.
  assert (Ecc : DIBAN.convertLoop [DIBAN.digitChar (cc / 10); DIBAN.digitChar (cc mod 10)] []
                = [DIBAN.digitChar (cc / 10); DIBAN.digitChar (cc mod 10)]).
  { cbn [DIBAN.convertLoop app]. now rewrite !isDigit_digitChar. }
  rewrite Ecc. cbn [length]. unfold decimalValue at 1. cbn [map].
  rewrite !digitChar_value by trivial.
  unfold digitsValue. cbn [fold_left].
  change (Z.of_nat 2) with 2. change (10 ^ 2) with 100 in *.
  replace ((0 * 10 + cc / 10) * 10 + cc mod 10) with cc by (Z.div_mod_to_equations; lia).
  unfold cc. rewrite Z.add_0_r in E.
  replace (X * 100 + (98 - m)) with ((X * 100 - m) + 1 * 97 + 1) by ring.
  rewrite <- E.
  rewrite Z.add_mod, Z.mod_add by lia.
  rewrite Zminus_mod_idemp_r, Z.sub_diag. reflexivity.
Qed.

End Mod97Facts.

(** * D-IBAN encoding, verification and decoding *)

Section DibanFacts.

Local Open Scope Z_scope.

Lemma Ok_inj {A : Type} (a b : A) : DIBAN.Ok a = DIBAN.Ok b -> a = b.
Proof. intros H. now injection H. Qed.

Lemma digitsValue_lower base ds :
  2 <= base -> Forall (digit_ok base) ds -> no_leading_zero ds -> ds <> [] ->
  base ^ (Z.of_nat (length ds) - 1) <= digitsValue base ds.
Proof.
  intros Hb Hds Hlead Hne. destruct ds as [|d ds]; [congruence|].
  apply Forall_cons in Hds as [Hd Hds].
  rewrite digitsValue_cons. cbn [length].
  replace (Z.of_nat (S (length ds)) - 1) with (Z.of_nat (length ds)) by lia.
  pose proof (digitsValue_bound base Hb ds Hds).
  assert (0 < base ^ Z.of_nat (length ds)) by (apply Z.pow_pos_nonneg; lia).
  assert (d <> 0) by (intros ->; now apply Hlead).
  unfold digit_ok in Hd. nia.
Qed.

(** The Base36 form of a byte sequence has at most 39 characters exactly
    when its value is below [36^39]. *)
Lemma bytesToBase36_length bytes s36 :
  Forall byte_ok bytes -> bytes <> [] ->
  DIBAN.bytesToBase36 bytes = DIBAN.Ok s36 ->
  Forall (fun c => c ∈ DIBAN.BASE36) s36 /\ s36 <> [] /\
  ((length s36 <= 39)%nat <-> digitsValue 256 bytes < 36 ^ 39).
Proof.
  intros Hb Hne E.
  destruct (bytesToBase36_spec bytes Hb Hne) as (ds & Hds & Hdne & Hval & Hlead & Hzero & E').
  rewrite E' in E. injection E as <-.
  split; [apply (base36_chars_valid 0 ds Hds)|].
  split; [now destruct ds|].
  rewrite length_map. rewrite <- Hval.
  pose proof (digitsValue_bound 36 ltac:(lia) ds Hds) as Hbd.
  split.
  - intros Hlen.
    assert (36 ^ Z.of_nat (length ds) <= 36 ^ 39) by (apply Z.pow_le_mono_r; lia).
    lia.
  - intros Hsmall.
    destruct (Z.eq_dec (digitsValue 256 bytes) 0) as [E0|Hpos].
    + rewrite (Hzero E0). cbn. lia.
    + pose proof (digitsValue_lower 36 ds ltac:(lia) Hds (Hlead ltac:(lia)) Hdne) as Hlow.
      destruct (Nat.le_gt_cases (length ds) 39) as [Hle|Hgt]; [exact Hle|].
      assert (36 ^ 39 <= 36 ^ (Z.of_nat (length ds) - 1)) by (apply Z.pow_le_mono_r; lia).
      lia.
Qed.

Lemma detectAddressType_code a :
  DIBAN.code (DIBAN.detectAddressType a) = DIBAN.str "00" \/
  DIBAN.code (DIBAN.detectAddressType a) = DIBAN.str "01" \/
  DIBAN.code (DIBAN.detectAddressType a) = DIBAN.str "02".
Proof.
  unfold DIBAN.detectAddressType. cbv zeta.
  destruct (DIBAN.startsWith _ _); [auto|].
  destruct (_ || _); [auto|].
  destruct (DIBAN.startsWith _ _); auto.
Qed.

Lemma utf8_char_bytes n :
  0 <= n < 256 ->
  Forall byte_ok
    (if n <? 128 then [n] else [Z.lor 192 (Z.shiftr n 6); Z.lor 128 (Z.land n 63)]).
Proof.
  intros Hn.
  apply (Z_range_forallb 256
           (fun n => forallb (fun b => (0 <=? b) && (b <? 256))
                       (if n <? 128 then [n]
                        else [Z.lor 192 (Z.shiftr n 6); Z.lor 128 (Z.land n 63)])))
    in Hn; [|vm_compute; reflexivity].
  rewrite forallb_forall in Hn. apply Forall_forall. intros b Hb.
  apply list_elem_of_In, Hn, andb_prop in Hb as [H1 H2].
  apply Z.leb_le in H1. apply Z.ltb_lt in H2. unfold byte_ok. lia.
Qed.

Lemma utf8Encode_bytes s : Forall byte_ok (DIBAN.utf8Encode s).
Proof.
  unfold DIBAN.utf8Encode. induction s as [|c s IH]; [constructor|].
  cbn [map concat]. apply Forall_app. split; [|exact IH].
  apply utf8_char_bytes, charCode_range.
Qed.

Lemma base58ToBytes_ok_inv s payload :
  DIBAN.base58ToBytes s = DIBAN.Ok payload ->
  Forall (fun c => c ∈ DIBAN.BASE58) s /\ Forall byte_ok payload /\ payload <> [].
Proof.
  intros E.
  destruct (decide (Forall (fun c => c ∈ DIBAN.BASE58) s)) as [Hs|Hs].
  - destruct (base58_string_bytes_string s Hs) as (bytes & Eb & Hb & Hne & _).
    rewrite Eb in E. injection E as <-. auto.
  - rewrite base58ToBytes_invalid in E by exact Hs. discriminate E.
Qed.

Lemma encodePayload_ok ty addr payload :
  DIBAN.encodePayload ty addr = DIBAN.Ok payload ->
  Forall byte_ok payload /\ payload <> [] /\
  (DIBAN.code ty = DIBAN.str "02" -> length payload = 25%nat).
Proof.
  unfold DIBAN.encodePayload, DIBAN.strEq. intros E.
  destruct (bool_decide_reflect (DIBAN.code ty = DIBAN.str "02")) as [E02|N02].
  - pose proof (utf8Encode_bytes addr) as Hu. cbv zeta in E.
    assert (H25 : Forall byte_ok payload /\ length payload = 25%nat).
    { destruct (Nat.ltb_spec (length (DIBAN.utf8Encode addr)) 25) as [Hlt|Hge].
      - apply Ok_inj in E. rewrite <- E. unfold arraySet.
        rewrite take_replicate, Nat.min_l by lia.
        rewrite map_toUint8_bytes by exact Hu.
        rewrite drop_replicate.
        split.
        + apply Forall_app. split; [apply Forall_replicate; unfold byte_ok; lia|].
          apply Forall_app. split; [exact Hu|]. apply Forall_replicate. unfold byte_ok. lia.
        + rewrite !length_app, !length_replicate. lia.
      - destruct (Nat.ltb_spec 25 (length (DIBAN.utf8Encode addr))) as [Hgt|Hle];
          apply Ok_inj in E; rewrite <- E.
        + split; [now apply Forall_take|]. rewrite length_take. lia.
        + split; [exact Hu|lia]. }
    destruct H25 as [Hb Hl]. split; [exact Hb|]. split; [|trivial].
    intros E0. rewrite E0 in Hl. discriminate Hl.
  - destruct (base58ToBytes_ok_inv addr payload E) as (_ & Hb & Hne).
    split; [exact Hb|]. split; [exact Hne|]. intros E02. contradiction.
Qed.

Lemma removeWhiteSpace_joinGroups s : forall k,
  Forall (fun c => DIBAN.isWhiteSpace c = false) s ->
  DIBAN.removeWhiteSpace (DIBAN.joinGroups k s) = s.
Proof.
  unfold DIBAN.removeWhiteSpace.
  induction s as [|c s IH]; intros k Hs; [reflexivity|].
  apply Forall_cons in Hs as [Hc Hs]. cbn [DIBAN.joinGroups].
  destruct (k =? 4)%nat.
  - rewrite filter_cons. change (DIBAN.isWhiteSpace " ") with true. cbn [negb].
    rewrite decide_False by (intros H; exact H).
    rewrite filter_cons, Hc. cbn [negb]. rewrite decide_True by exact I.
    f_equal. now apply IH.
  - rewrite filter_cons, Hc. cbn [negb]. rewrite decide_True by exact I.
    f_equal. now apply IH.
Qed.

End DibanFacts.

Section DibanRoundTrip.

Local Open Scope Z_scope.

Lemma base36_char_props c :
  c ∈ DIBAN.BASE36 ->
  DIBAN.isAlnum c = true /\ DIBAN.isWhiteSpace c = false /\ iban_char c.
Proof.
  intros Hc.
  assert (Hall : forallb (fun c => DIBAN.isAlnum c && negb (DIBAN.isWhiteSpace c)
                                   && (48 <=? DIBAN.charCode c))
                   DIBAN.BASE36 = true) by (vm_compute; reflexivity).
  rewrite forallb_forall in Hall. apply list_elem_of_In, Hall in Hc.
  apply andb_prop in Hc as [Hc H3]. apply andb_prop in Hc as [H1 H2].
  split; [exact H1|]. split; [now destruct (DIBAN.isWhiteSpace c)|].
  now apply Z.leb_le.
Qed.

Lemma digit_char_props c :
  DIBAN.isDigit c = true ->
  DIBAN.isAlnum c = true /\ DIBAN.isWhiteSpace c = false /\ iban_char c.
Proof.
  intros Hd. split; [unfold DIBAN.isAlnum; now rewrite Hd|].
  split; [|now apply isDigit_iban].
  unfold DIBAN.isDigit in Hd. apply andb_prop in Hd as [H1 H2].
  apply Z.leb_le in H1, H2. unfold DIBAN.isWhiteSpace.
  destruct (Z.leb_spec 9 (DIBAN.charCode c)), (Z.leb_spec (DIBAN.charCode c) 13),
    (Z.eqb_spec (DIBAN.charCode c) 32), (Z.eqb_spec (DIBAN.charCode c) 160);
    try reflexivity; lia.
Qed.

Lemma type_code_digits a :
  length (DIBAN.code (DIBAN.detectAddressType a)) = 2%nat /\
  Forall (fun c => DIBAN.isDigit c = true) (DIBAN.code (DIBAN.detectAddressType a)).
Proof.
  destruct (detectAddressType_code a) as [-> | [-> | ->]];
    (split; [reflexivity|repeat constructor]).
Qed.

Lemma padStart_base36 s36 :
  Forall (fun c => c ∈ DIBAN.BASE36) s36 ->
  Forall (fun c => c ∈ DIBAN.BASE36) (DIBAN.padStart 39 "0" s36).
Proof.
  intros Hs. unfold DIBAN.padStart. apply Forall_app. split; [|exact Hs].
  apply Forall_replicate.
  apply (alphaChar_elem DIBAN.BASE36 36 BASE36_length ltac:(lia) 0). unfold digit_ok. lia.
Qed.

Lemma padStart_length n c s :
  length (DIBAN.padStart n c s) = Nat.max n (length s).
Proof. unfold DIBAN.padStart. rewrite length_app, length_replicate. lia. Qed.

(** The unformatted D-IBAN that [encodeDIBAN] builds: [DO], two check
    digits, the type code and the padded Base36 payload; moved around, it
    has remainder 1. *)
Lemma encodeDIBAN_final addr payload :
  let ty := DIBAN.detectAddressType addr in
  DIBAN.encodePayload ty addr = DIBAN.Ok payload ->
  exists s36 cc,
    DIBAN.bytesToBase36 payload = DIBAN.Ok s36 /\
    length cc = 2%nat /\ Forall (fun c => DIBAN.isDigit c = true) cc /\
    DIBAN.encodeDIBAN addr
    = DIBAN.Ok (DIBAN.joinGroups 0
                  (DIBAN.str "DO" ++ cc ++ DIBAN.code ty ++ DIBAN.padStart 39 "0" s36),
                ty) /\
    DIBAN.ibanMod97 ((DIBAN.code ty ++ DIBAN.padStart 39 "0" s36) ++ DIBAN.str "DO" ++ cc)
    = DIBAN.Ok 1.
Proof.
  intros ty Hp.
  destruct (encodePayload_ok ty addr payload Hp) as (Hb & Hne & _).
  destruct (bytesToBase36_spec payload Hb Hne) as (ds & Hds & _ & _ & _ & _ & E36).
  set (s36 := map (alphaChar DIBAN.BASE36) ds) in *.
  assert (Hs36 : Forall (fun c => c ∈ DIBAN.BASE36) s36) by apply (base36_chars_valid 0 ds Hds).
  destruct (type_code_digits addr) as [Htl Htd]. fold ty in Htl, Htd.
  set (p36 := DIBAN.padStart 39 "0" s36).
  assert (Hbody : Forall iban_char (DIBAN.code ty ++ p36)).
  { apply Forall_app. split.
    - eapply Forall_impl; [exact Htd|]. intros c Hc. now apply digit_char_props.
    - eapply Forall_impl; [apply padStart_base36; exact Hs36|].
      intros c Hc. now apply base36_char_props. }
  assert (Erearr : drop 4 (DIBAN.str "DO00" ++ DIBAN.code ty ++ p36)
                   ++ take 4 (DIBAN.str "DO00" ++ DIBAN.code ty ++ p36)
                   = (DIBAN.code ty ++ p36) ++ DIBAN.str "DO00").
  { rewrite drop_app_length' by reflexivity. now rewrite take_app_length' by reflexivity. }
  destruct (DIBAN.ibanMod97 ((DIBAN.code ty ++ p36) ++ DIBAN.str "DO00")) as [m| |] eqn:Em.
  2,3: rewrite ibanMod97_value in Em
         by (apply Forall_app; split; [exact Hbody|iban_literal]); discriminate Em.
  destruct (check_digits _ m Hbody Em) as [Hm E1].
  exists s36, [DIBAN.digitChar ((98 - m) / 10); DIBAN.digitChar ((98 - m) mod 10)].
  split; [exact E36|]. split; [reflexivity|].
  split.
  { repeat constructor; apply isDigit_digitChar; unfold digit_ok;
      Z.div_mod_to_equations; lia. }
  split; [|exact E1].
  unfold DIBAN.encodeDIBAN. cbv zeta. fold ty. rewrite Hp. cbn [DIBAN.bindR].
  rewrite E36. cbn [DIBAN.bindR]. fold p36.
  rewrite Erearr, Em. cbn [DIBAN.bindR].
  rewrite (two_digits (98 - m)) by lia. reflexivity.
Qed.

Lemma final_no_space cc tyc p36 :
  Forall (fun c => DIBAN.isDigit c = true) cc ->
  Forall (fun c => DIBAN.isDigit c = true) tyc ->
  Forall (fun c => c ∈ DIBAN.BASE36) p36 ->
  Forall (fun c => DIBAN.isWhiteSpace c = false) (DIBAN.str "DO" ++ cc ++ tyc ++ p36).
Proof.
  intros Hcc Hty Hp.
  apply Forall_app. split; [repeat constructor|].
  apply Forall_app. split.
  { eapply Forall_impl; [exact Hcc|]. intros c Hc. now apply digit_char_props. }
  apply Forall_app. split.
  { eapply Forall_impl; [exact Hty|]. intros c Hc. now apply digit_char_props. }
  eapply Forall_impl; [exact Hp|]. intros c Hc. now apply base36_char_props.
Qed.

Lemma forallb_Forall_true {A : Type} (f : A -> bool) (l : list A) :
  Forall (fun x => f x = true) l -> forallb f l = true.
Proof.
  induction 1 as [|x l Hx _ IH]; [reflexivity|]. cbn. now rewrite Hx, IH.
Qed.

(** [verifyDIBAN] on the formatted form of such a string: true exactly
    when the payload part has 39 characters. *)
Lemma verifyDIBAN_final cc tyc p36 :
  length cc = 2%nat -> Forall (fun c => DIBAN.isDigit c = true) cc ->
  length tyc = 2%nat -> Forall (fun c => DIBAN.isDigit c = true) tyc ->
  Forall (fun c => c ∈ DIBAN.BASE36) p36 ->
  DIBAN.ibanMod97 ((tyc ++ p36) ++ DIBAN.str "DO" ++ cc) = DIBAN.Ok 1 ->
  DIBAN.removeWhiteSpace (DIBAN.joinGroups 0 (DIBAN.str "DO" ++ cc ++ tyc ++ p36))
  = DIBAN.str "DO" ++ cc ++ tyc ++ p36 /\
  DIBAN.verifyDIBAN (DIBAN.joinGroups 0 (DIBAN.str "DO" ++ cc ++ tyc ++ p36))
  = DIBAN.Ok (length p36 =? 39)%nat.
Proof.
  intros Hcl Hcc Htl Hty Hp E1.
  pose proof (removeWhiteSpace_joinGroups _ 0%nat (final_no_space cc tyc p36 Hcc Hty Hp))
    as Eclean.
  split; [exact Eclean|].
  unfold DIBAN.verifyDIBAN. cbv zeta. rewrite Eclean.
  set (final := DIBAN.str "DO" ++ cc ++ tyc ++ p36).
  assert (Hlen : length final = (6 + length p36)%nat).
  { unfold final. rewrite !length_app, Hcl, Htl. reflexivity. }
  assert (E2 : take 2 final = DIBAN.str "DO") by (unfold final; now rewrite take_app_length').
  assert (E4 : take 4 (drop 2 final) = cc ++ tyc).
  { unfold final. rewrite drop_app_length' by reflexivity.
    rewrite app_assoc. apply take_app_length'. rewrite length_app. lia. }
  assert (E6 : drop 6 final = p36).
  { unfold final. rewrite !app_assoc. apply drop_app_length'. rewrite !length_app, Hcl, Htl.
    reflexivity. }
  assert (Et4 : take 4 final = DIBAN.str "DO" ++ cc).
  { unfold final. rewrite app_assoc. apply take_app_length'. rewrite length_app, Hcl.
    reflexivity. }
  assert (Ed4 : drop 4 final = tyc ++ p36).
  { unfold final. rewrite app_assoc. apply drop_app_length'. rewrite length_app, Hcl.
    reflexivity. }
  unfold DIBAN.matchesDIBAN. rewrite Hlen, E2, E4, E6.
  change (DIBAN.startsWith (map DIBAN.toLowerChar (DIBAN.str "DO")) (DIBAN.str "do")) with true.
  rewrite (forallb_Forall_true DIBAN.isDigit (cc ++ tyc))
    by (apply Forall_app; now split).
  rewrite (forallb_Forall_true DIBAN.isAlnum p36)
    by (eapply Forall_impl; [exact Hp|]; intros c Hc; now apply base36_char_props).
  rewrite !andb_true_r.
  destruct (Nat.eqb_spec (6 + length p36) 45) as [H45|H45]; cbn [negb].
  - rewrite Ed4, Et4, E1. cbn [DIBAN.bindR].
    destruct (Nat.eqb_spec (length p36) 39); [reflexivity|lia].
  - destruct (Nat.eqb_spec (length p36) 39); [lia|reflexivity].
Qed.

Lemma leadingZeros_zeros k bytes :
  DIBAN.leadingZeros (replicate k 0 ++ bytes) = (k + DIBAN.leadingZeros bytes)%nat.
Proof. induction k as [|k IH]; [reflexivity|]. cbn. now rewrite IH. Qed.

(** Zero bytes in front become ['1']s in front. *)
Lemma bytesToBase58_zeros k bytes s :
  Forall byte_ok bytes -> bytes <> [] ->
  DIBAN.bytesToBase58 bytes = DIBAN.Ok s ->
  DIBAN.bytesToBase58 (replicate k 0 ++ bytes) = DIBAN.Ok (replicate k "1"%char ++ s).
Proof.
  intros Hb Hne E.
  destruct (bytesToBase58_spec bytes Hb Hne) as (ds & Hds & Hlead & Hval & E').
  rewrite E' in E. apply Ok_inj in E. rewrite <- E.
  assert (Hb' : Forall byte_ok (replicate k 0 ++ bytes)).
  { apply Forall_app. split; [apply Forall_replicate; unfold byte_ok; lia|exact Hb]. }
  destruct (bytesToBase58_spec (replicate k 0 ++ bytes) Hb') as (ds' & Hds' & Hlead' & Hval' & E'').
  { intros E0. apply app_eq_nil in E0 as [_ E0]. contradiction. }
  rewrite (digitsValue_zeros 256) in Hval'.
  assert (Eds : ds' = ds) by (apply (digitsValue_inj 58 ltac:(lia)); trivial; congruence).
  rewrite E'', Eds, leadingZeros_zeros, replicate_add, <- app_assoc. reflexivity.
Qed.

Lemma pow_256_25 : 256 ^ 25 < 36 ^ 39.
Proof. vm_compute. reflexivity. Qed.

Lemma payload_25_fits payload :
  Forall byte_ok payload -> (length payload <= 25)%nat ->
  digitsValue 256 payload < 36 ^ 39.
Proof.
  intros Hb Hl. pose proof (digitsValue_bound 256 ltac:(lia) payload Hb) as Hbd.
  assert (256 ^ Z.of_nat (length payload) <= 256 ^ 25) by (apply Z.pow_le_mono_r; lia).
  pose proof pow_256_25. lia.
Qed.

End DibanRoundTrip.

Section DibanOutcomes.

Local Open Scope Z_scope.

Lemma remainderLoop_app ds rest : forall r,
  Forall (fun d => DIBAN.isDigit d = true) ds -> 0 <= r < 97 ->
  exists r', 0 <= r' < 97 /\
    DIBAN.remainderLoop (ds ++ rest) r = DIBAN.remainderLoop rest r'.
Proof.
  induction ds as [|d ds IH]; intros r Hds Hr; [now exists r|].
  apply Forall_cons in Hds as [Hd Hds].
  cbn [app DIBAN.remainderLoop]. unfold DIBAN.bigIntOfChar. rewrite Hd.
  assert (Hv : 0 <= DIBAN.charCode d - 48 < 10).
  { unfold DIBAN.isDigit in Hd. apply andb_prop in Hd as [H1 H2].
    apply Z.leb_le in H1, H2. lia. }
  rewrite Z.rem_mod_nonneg by lia.
  apply IH; [exact Hds|]. apply Z.mod_pos_bound. lia.
Qed.

(** A character below ['0'] makes the second loop meet a minus sign. *)
Lemma convert_bad_char c :
  ~ iban_char c ->
  exists rest,
    (if DIBAN.isDigit c then [c] else DIBAN.toStringRadix 10 (DIBAN.charCode c - 55))
    = "-"%char :: rest.
Proof.
  unfold iban_char. intros Hc.
  assert (Ed : DIBAN.isDigit c = false).
  { unfold DIBAN.isDigit. destruct (Z.leb_spec 48 (DIBAN.charCode c)); [lia|reflexivity]. }
  rewrite Ed. unfold DIBAN.toStringRadix.
  destruct (Z.eqb_spec (DIBAN.charCode c - 55) 0); [lia|].
  destruct (Z.ltb_spec (DIBAN.charCode c - 55) 0); [|lia].
  eexists. reflexivity.
Qed.

Lemma remainderLoop_bad s : forall r,
  ~ Forall iban_char s -> 0 <= r < 97 ->
  DIBAN.remainderLoop (DIBAN.convertLoop s []) r = DIBAN.Err DIBAN.SyntaxError.
Proof.
  induction s as [|c s IH]; intros r Hs Hr; [exfalso; apply Hs; constructor|].
  change (c :: s) with ([c] ++ s). rewrite convertLoop_app.
  cbn [DIBAN.convertLoop app].
  destruct (decide (iban_char c)) as [Hc|Hc].
  - destruct (remainderLoop_app _ (DIBAN.convertLoop s []) r (convert_char_digits c Hc) Hr)
      as (r' & Hr' & E).
    rewrite E. apply IH; [|exact Hr']. intros Hs'. apply Hs. now constructor.
  - destruct (convert_bad_char c Hc) as (rest & E). rewrite E. reflexivity.
Qed.

Lemma ibanMod97_bad s :
  ~ Forall iban_char s -> DIBAN.ibanMod97 s = DIBAN.Err DIBAN.SyntaxError.
Proof.
  intros Hs. unfold DIBAN.ibanMod97. apply remainderLoop_bad; [exact Hs|lia].
Qed.

End DibanOutcomes.

(** * The codecs: round trips and outcomes *)

(** X18.  Base58, string to bytes to string ([diban.js]).  A string with a
    character outside the Base58 alphabet makes [base58ToBytes] throw
    "Invalid Base58 character".  For every other string [base58ToBytes]
    returns bytes from which [bytesToBase58] gives the string back,
    unless the string consists of ['1']s only (the empty string
    included): then one more ['1'] comes back, because the value zero
    is itself turned into a zero byte. *)
Theorem base58_string_roundtrip (s : list ascii) :
  (Forall (fun c => c ∈ DIBAN.BASE58) s ->
   exists bytes,
     DIBAN.base58ToBytes s = DIBAN.Ok bytes /\ Forall byte_ok bytes /\
     DIBAN.bytesToBase58 bytes
     = DIBAN.Ok (if (DIBAN.leadingOnes s =? length s)%nat then s ++ ["1"%char] else s)) /\
  (~ Forall (fun c => c ∈ DIBAN.BASE58) s ->
   DIBAN.base58ToBytes s = DIBAN.Err DIBAN.InvalidBase58Character).
Proof.
  split.
  - intros Hs. destruct (base58_string_bytes_string s Hs) as (bytes & E & Hb & _ & E').
    now exists bytes.
  - apply base58ToBytes_invalid.
Qed.

Lemma base58_string_roundtrip_witness :
  exists bytes,
    DIBAN.base58ToBytes (DIBAN.str "DTqAFgNNUgiPEfFmc4HZUkqJ4sz5vADd1n") = DIBAN.Ok bytes /\
    DIBAN.bytesToBase58 bytes = DIBAN.Ok (DIBAN.str "DTqAFgNNUgiPEfFmc4HZUkqJ4sz5vADd1n").
Proof.
  destruct (proj1 (base58_string_roundtrip (DIBAN.str "DTqAFgNNUgiPEfFmc4HZUkqJ4sz5vADd1n")))
    as (bytes & E & _ & E').
  { apply (bool_decide_unpack _). vm_compute. exact I. }
  exists bytes. split; [exact E|]. rewrite E'. reflexivity.
Defined.

(** X19.  Base58, bytes to string to bytes ([diban.js]).  [bytesToBase58]
    of no bytes throws a [SyntaxError] (from [BigInt("0x")]).  For a
    non-empty byte array it returns a non-empty string over the Base58
    alphabet (so the final [out || "1"] never applies), and
    [base58ToBytes] of that string gives the bytes back, unless all
    bytes are zero: then one more zero byte comes back. *)
Theorem base58_bytes_roundtrip (bytes : list Z) :
  Forall byte_ok bytes ->
  (bytes = [] -> DIBAN.bytesToBase58 bytes = DIBAN.Err DIBAN.SyntaxError) /\
  (bytes <> [] ->
   exists s,
     DIBAN.bytesToBase58 bytes = DIBAN.Ok s /\
     Forall (fun c => c ∈ DIBAN.BASE58) s /\ s <> [] /\
     DIBAN.base58ToBytes s
     = DIBAN.Ok (if (DIBAN.leadingZeros bytes =? length bytes)%nat
                 then bytes ++ [0%Z] else bytes)).
Proof.
  intros Hb. split.
  - intros ->. reflexivity.
  - intros Hne. now apply base58_bytes_string_bytes.
Qed.

Lemma base58_bytes_roundtrip_witness :
  exists s,
    DIBAN.bytesToBase58 [0; 0; 7; 200]%Z = DIBAN.Ok s /\
    DIBAN.base58ToBytes s = DIBAN.Ok [0; 0; 7; 200]%Z.
Proof.
  destruct (base58_bytes_roundtrip [0; 0; 7; 200]%Z) as [_ H]; [forall_literal|].
  destruct H as (s & E & _ & _ & E'); [discriminate|].
  exists s. split; [exact E|]. rewrite E'. reflexivity.
Defined.

(** X20.  The steganography modules' Base58 helpers do not depend on
    whether [diban.js] is loaded, except on empty input.  For a non-empty
    string [base58ToBytesSteg] returns (or throws) the same with the
    local copy as with [diban.js]'s [base58ToBytes]; on the empty string
    the local copy returns no bytes and [diban.js] one zero byte.  For
    non-empty bytes [bytesToBase58Steg] agrees as well; on no bytes
    version 2.0's local copy returns the empty string while [diban.js]
    (and version 1.0's local copy) throws a [SyntaxError]. *)
Theorem steg_base58_helpers (s : list ascii) (bytes : list Z) :
  (s <> [] ->
   StegCodec.base58ToBytesSteg false s = StegCodec.base58ToBytesSteg true s) /\
  StegCodec.base58ToBytesSteg false [] = DIBAN.Ok [] /\
  StegCodec.base58ToBytesSteg true [] = DIBAN.Ok [0%Z] /\
  (bytes <> [] ->
   StegCodec.bytesToBase58Steg false bytes = StegCodec.bytesToBase58Steg true bytes) /\
  StegCodec.bytesToBase58Steg false [] = DIBAN.Ok [] /\
  StegCodec.bytesToBase58Steg true [] = DIBAN.Err DIBAN.SyntaxError /\
  StegCodec.bytesToBase58Steg_v1 false bytes = StegCodec.bytesToBase58Steg_v1 true bytes.
Proof.
  split; [intros Hs; now apply base58ToBytesSteg_local|].
  split; [reflexivity|]. split; [reflexivity|].
  split.
  { intros Hb. unfold StegCodec.bytesToBase58Steg.
    destruct bytes; [congruence|]. apply bytesToBase58Local_eq. }
  split; [reflexivity|]. split; [reflexivity|].
  apply bytesToBase58Local_eq.
Qed.

Lemma steg_base58_helpers_witness :
  StegCodec.base58ToBytesSteg false (DIBAN.str "1A")
  = StegCodec.base58ToBytesSteg true (DIBAN.str "1A").
Proof.
  apply (steg_base58_helpers (DIBAN.str "1A") []). discriminate.
Defined.

(** X21.  Base36 round trip with padding ([diban.js]).  For a non-empty
    byte array [bytesToBase36] returns a non-empty string over the Base36
    alphabet, and [base36ToBytes] of that string, left-padded with ['0']
    to any width (as [padStart(39, "0")] does), with a [byteLen] at
    least the array's length, returns the bytes with zero bytes in front
    up to [byteLen]: exactly the bytes when [byteLen] is their number. *)
Theorem base36_roundtrip (bytes : list Z) (width byteLen : nat) :
  Forall byte_ok bytes -> bytes <> [] -> length bytes <= byteLen ->
  exists s36,
    DIBAN.bytesToBase36 bytes = DIBAN.Ok s36 /\
    Forall (fun c => c ∈ DIBAN.BASE36) s36 /\ s36 <> [] /\
    DIBAN.base36ToBytes (DIBAN.padStart width "0" s36) byteLen
    = DIBAN.Ok (replicate (byteLen - length bytes) 0%Z ++ bytes).
Proof.
  intros Hb Hne HL.
  destruct (bytesToBase36_spec bytes Hb Hne) as (ds & Hds & Hdne & _ & _ & _ & E).
  exists (map (alphaChar DIBAN.BASE36) ds).
  split; [exact E|]. split; [apply (base36_chars_valid 0 ds Hds)|].
  split; [now destruct ds|].
  unfold DIBAN.padStart. now apply base36_roundtrip_pad.
Qed.

Lemma base36_roundtrip_witness :
  exists s36,
    DIBAN.bytesToBase36 [0; 1; 255]%Z = DIBAN.Ok s36 /\
    DIBAN.base36ToBytes (DIBAN.padStart 39 "0" s36) 3 = DIBAN.Ok [0; 1; 255]%Z.
Proof.
  destruct (base36_roundtrip [0; 1; 255]%Z 39 3) as (s36 & E & _ & _ & E');
    [forall_literal|discriminate|cbn; lia|].
  exists s36. split; [exact E|]. rewrite E'. reflexivity.
Defined.

(** X22.  [ibanMod97] either returns the decimal number it builds (digits
    kept, any other character replaced by the decimal form of its code
    minus 55) modulo 97, a value in [0, 96], or throws a [SyntaxError]:
    it throws exactly when the string holds a character below ['0']
    (a space, a hyphen, ...), whose code minus 55 prints with a minus
    sign that [BigInt] rejects. *)
Theorem ibanMod97_outcome (s : list ascii) :
  (Forall (fun c => (48 <= DIBAN.charCode c)%Z) s ->
   DIBAN.ibanMod97 s = DIBAN.Ok (decimalValue (DIBAN.convertLoop s []) mod 97)%Z /\
   (0 <= decimalValue (DIBAN.convertLoop s []) mod 97 < 97)%Z) /\
  (~ Forall (fun c => (48 <= DIBAN.charCode c)%Z) s ->
   DIBAN.ibanMod97 s = DIBAN.Err DIBAN.SyntaxError).
Proof.
  split.
  - intros Hs. split; [now apply ibanMod97_value|]. apply Z.mod_pos_bound. lia.
  - apply ibanMod97_bad.
Qed.

Lemma ibanMod97_outcome_witness :
  DIBAN.ibanMod97 (DIBAN.str "3214282912345698765432161182") = DIBAN.Ok 1%Z /\
  DIBAN.ibanMod97 (DIBAN.str "DO 00") = DIBAN.Err DIBAN.SyntaxError.
Proof.
  split.
  - destruct (proj1 (ibanMod97_outcome (DIBAN.str "3214282912345698765432161182")))
      as [E _]; [iban_literal|].
    rewrite E. reflexivity.
  - apply (proj2 (ibanMod97_outcome (DIBAN.str "DO 00"))).
    intros H. apply Forall_forall with (x := " "%char) in H; [vm_compute in H; now apply H|].
    apply (bool_decide_unpack _). vm_compute. exact I.
Defined.

(** X23.  The check digits of ISO 13616 as [encodeDIBAN] computes them:
    for a body of characters from ['0'] up, if [ibanMod97] of the body
    followed by [DO00] is [m], then [m] is in [0, 96] and [ibanMod97] of
    the body followed by [DO] and the two decimal digits of [98 - m] is
    1. *)
Theorem iban_check_digits (body : list ascii) (m : Z) :
  Forall (fun c => (48 <= DIBAN.charCode c)%Z) body ->
  DIBAN.ibanMod97 (body ++ DIBAN.str "DO00") = DIBAN.Ok m ->
  (0 <= m < 97)%Z /\
  DIBAN.ibanMod97
    (body ++ DIBAN.str "DO"
       ++ [DIBAN.digitChar ((98 - m) / 10); DIBAN.digitChar ((98 - m) mod 10)])
  = DIBAN.Ok 1%Z.
Proof. exact (check_digits body m). Qed.

Lemma iban_check_digits_witness :
  DIBAN.ibanMod97 (DIBAN.str "00ABC" ++ DIBAN.str "DO00") = DIBAN.Ok 51%Z /\
  DIBAN.ibanMod97 (DIBAN.str "00ABC" ++ DIBAN.str "DO" ++ DIBAN.str "47") = DIBAN.Ok 1%Z.
Proof.
  assert (E : DIBAN.ibanMod97 (DIBAN.str "00ABC" ++ DIBAN.str "DO00") = DIBAN.Ok 51%Z)
    by (vm_compute; reflexivity).
  split; [exact E|].
  apply (iban_check_digits (DIBAN.str "00ABC") 51%Z); [iban_literal|exact E].
Defined.

Section DibanTheorems.

Local Open Scope Z_scope.

Lemma encodePayload_outcome ty addr :
  (exists payload, DIBAN.encodePayload ty addr = DIBAN.Ok payload) \/
  DIBAN.encodePayload ty addr = DIBAN.Err DIBAN.InvalidBase58Character.
Proof.
  unfold DIBAN.encodePayload. cbv zeta.
  destruct (DIBAN.strEq _ _).
  - left. destruct (_ <? _)%nat; [eexists; reflexivity|].
    destruct (_ <? _)%nat; eexists; reflexivity.
  - destruct (decide (Forall (fun c => c ∈ DIBAN.BASE58) addr)) as [Hs|Hs].
    + left. destruct (base58_string_bytes_string addr Hs) as (bytes & E & _). now exists bytes.
    + right. now apply base58ToBytes_invalid.
Qed.

Lemma final_parts cc tyc p36 :
  length cc = 2%nat -> length tyc = 2%nat ->
  take 2 (drop 4 (DIBAN.str "DO" ++ cc ++ tyc ++ p36)) = tyc /\
  drop 6 (DIBAN.str "DO" ++ cc ++ tyc ++ p36) = p36.
Proof.
  intros Hcl Htl. split.
  - rewrite (app_assoc (DIBAN.str "DO")).
    rewrite drop_app_length' by (rewrite length_app, Hcl; reflexivity).
    now apply take_app_length'.
  - rewrite !app_assoc. apply drop_app_length'. rewrite !length_app, Hcl, Htl. reflexivity.
Qed.

(** Encoding, then verification. *)
Lemma encode_then_verify addr payload :
  let ty := DIBAN.detectAddressType addr in
  DIBAN.encodePayload ty addr = DIBAN.Ok payload ->
  exists s36 cc,
    DIBAN.bytesToBase36 payload = DIBAN.Ok s36 /\
    length cc = 2%nat /\
    let final := DIBAN.str "DO" ++ cc ++ DIBAN.code ty ++ DIBAN.padStart 39 "0" s36 in
    DIBAN.encodeDIBAN addr = DIBAN.Ok (DIBAN.joinGroups 0 final, ty) /\
    DIBAN.removeWhiteSpace (DIBAN.joinGroups 0 final) = final /\
    DIBAN.verifyDIBAN (DIBAN.joinGroups 0 final)
    = DIBAN.Ok (digitsValue 256 payload <? 36 ^ 39).
Proof.
  intros ty Hp.
  destruct (encodePayload_ok ty addr payload Hp) as (Hb & Hne & _).
  destruct (encodeDIBAN_final addr payload Hp) as (s36 & cc & E36 & Hcl & Hcc & Eenc & E1).
  fold ty in Eenc, E1.
  destruct (bytesToBase36_length payload s36 Hb Hne E36) as (Hs36 & _ & Hiff).
  destruct (type_code_digits addr) as [Htl Htd]. fold ty in Htl, Htd.
  destruct (verifyDIBAN_final cc (DIBAN.code ty) (DIBAN.padStart 39 "0" s36)
              Hcl Hcc Htl Htd (padStart_base36 s36 Hs36) E1) as [Eclean Ever].
  exists s36, cc. split; [exact E36|]. split; [exact Hcl|]. cbv zeta.
  split; [exact Eenc|]. split; [exact Eclean|].
  rewrite Ever, padStart_length. f_equal.
  destruct (Z.ltb_spec (digitsValue 256 payload) (36 ^ 39)) as [Hlt|Hge];
    destruct (Nat.eqb_spec (Nat.max 39 (length s36)) 39) as [He|Hn]; try reflexivity.
  - apply Hiff in Hlt. lia.
  - assert (length s36 <= 39)%nat by lia. apply Hiff in H. lia.
Qed.

End DibanTheorems.

(** X24.  What [encodeDIBAN] returns always has valid check digits, and
    passes [verifyDIBAN] exactly when the payload fits 39 Base36
    characters.  If the payload cannot be computed, [encodeDIBAN] throws
    "Invalid Base58 character" (the only failure).  Otherwise it returns
    a D-IBAN with the detected type, and [verifyDIBAN] of that D-IBAN is
    [true] when the payload's big-endian value is below [36^39], which
    holds for every payload of at most 25 bytes (in particular for every
    Bech32 address), and [false] otherwise. *)
Theorem encodeDIBAN_verifies (addr : list ascii) :
  let ty := DIBAN.detectAddressType addr in
  match DIBAN.encodePayload ty addr with
  | DIBAN.Ok payload =>
      exists diban,
        DIBAN.encodeDIBAN addr = DIBAN.Ok (diban, ty) /\
        DIBAN.verifyDIBAN diban = DIBAN.Ok (digitsValue 256 payload <? 36 ^ 39)%Z /\
        (length payload <= 25 -> DIBAN.verifyDIBAN diban = DIBAN.Ok true) /\
        (DIBAN.code ty = DIBAN.str "02" -> length payload = 25)
  | DIBAN.Err e =>
      e = DIBAN.InvalidBase58Character /\ DIBAN.encodeDIBAN addr = DIBAN.Err e
  | DIBAN.OutOfFuel => False
  end.
Proof.
  intros ty.
  destruct (DIBAN.encodePayload ty addr) as [payload|e|] eqn:Hp.
  - destruct (encode_then_verify addr payload Hp) as (s36 & cc & _ & _ & Eenc & _ & Ever).
    destruct (encodePayload_ok ty addr payload Hp) as (Hb & _ & H02).
    eexists. split; [exact Eenc|]. split; [exact Ever|]. split; [|exact H02].
    intros H25. rewrite Ever. f_equal. apply Z.ltb_lt. now apply payload_25_fits.
  - destruct (encodePayload_outcome ty addr) as [(p & E)|E]; rewrite E in Hp;
      [discriminate Hp|].
    injection Hp as <-. split; [reflexivity|].
    unfold DIBAN.encodeDIBAN. cbv zeta. fold ty. now rewrite E.
  - destruct (encodePayload_outcome ty addr) as [(p & E)|E]; rewrite E in Hp;
      discriminate Hp.
Qed.

Lemma encodeDIBAN_verifies_witness :
  exists diban ty,
    DIBAN.encodeDIBAN (DIBAN.str "DTqAFgNNUgiPEfFmc4HZUkqJ4sz5vADd1n") = DIBAN.Ok (diban, ty) /\
    DIBAN.verifyDIBAN diban = DIBAN.Ok true.
Proof.
  pose proof (encodeDIBAN_verifies (DIBAN.str "DTqAFgNNUgiPEfFmc4HZUkqJ4sz5vADd1n")) as H.
  cbv zeta in H.
  destruct (DIBAN.encodePayload _ _) as [payload|e|] eqn:Hp; [|discriminate Hp..].
  destruct H as (diban & E & _ & Hv & _).
  exists diban, (DIBAN.detectAddressType (DIBAN.str "DTqAFgNNUgiPEfFmc4HZUkqJ4sz5vADd1n")).
  split; [exact E|]. apply Hv.
  assert (El : length payload = 25).
  { vm_compute in Hp. injection Hp as <-. reflexivity. }
  rewrite El. lia.
Defined.

(** X25.  D-IBAN round trip for Base58 addresses.  If the address is not
    detected as Bech32, [base58ToBytes] turns it into at most 25 bytes
    and it does not consist of ['1']s only, then [encodeDIBAN] returns a
    D-IBAN that [verifyDIBAN] accepts and from which [decodeDIBAN]
    returns the address with the type code [encodeDIBAN] reported; the
    address comes back with one ['1'] in front for every byte short of
    25, so it is exactly the original when the payload has 25 bytes. *)
Theorem diban_roundtrip (addr : list ascii) (payload : list Z) :
  let ty := DIBAN.detectAddressType addr in
  DIBAN.code ty <> DIBAN.str "02" ->
  DIBAN.base58ToBytes addr = DIBAN.Ok payload ->
  length payload <= 25 ->
  DIBAN.leadingOnes addr <> length addr ->
  exists diban,
    DIBAN.encodeDIBAN addr = DIBAN.Ok (diban, ty) /\
    DIBAN.verifyDIBAN diban = DIBAN.Ok true /\
    DIBAN.decodeDIBAN diban
    = DIBAN.Ok (DIBAN.Base58Address
                  (replicate (25 - length payload) "1"%char ++ addr)
                  (DIBAN.code ty)
                  (fst (DIBAN.ADDRESS_TYPES (DIBAN.code ty)))
                  (snd (DIBAN.ADDRESS_TYPES (DIBAN.code ty)))).
Proof.
  intros ty N02 E58 H25 Hones.
  assert (Hse : DIBAN.strEq (DIBAN.code ty) (DIBAN.str "02") = false).
  { unfold DIBAN.strEq. now apply bool_decide_eq_false. }
  assert (Hp : DIBAN.encodePayload ty addr = DIBAN.Ok payload).
  { unfold DIBAN.encodePayload. now rewrite Hse. }
  destruct (encodePayload_ok ty addr payload Hp) as (Hb & Hne & _).
  destruct (encode_then_verify addr payload Hp)
    as (s36 & cc & E36 & Hcl & Eenc & Eclean & Ever).
  fold ty in Eenc, Eclean, Ever. cbv zeta in Eenc, Eclean, Ever.
  destruct (type_code_digits addr) as [Htl _]. fold ty in Htl.
  set (final := DIBAN.str "DO" ++ cc ++ DIBAN.code ty ++ DIBAN.padStart 39 "0" s36) in *.
  assert (Ev : DIBAN.verifyDIBAN (DIBAN.joinGroups 0 final) = DIBAN.Ok true).
  { rewrite Ever. f_equal. apply Z.ltb_lt. now apply payload_25_fits. }
  exists (DIBAN.joinGroups 0 final).
  split; [exact Eenc|]. split; [exact Ev|].
  unfold DIBAN.decodeDIBAN. rewrite Ev. cbn [DIBAN.bindR negb]. cbv zeta.
  rewrite Eclean.
  destruct (final_parts cc (DIBAN.code ty) (DIBAN.padStart 39 "0" s36) Hcl Htl) as [Et Ep].
  fold final in Et, Ep. rewrite Et, Ep, Hse.
  unfold DIBAN.padStart at 1.
  rewrite (base36_roundtrip_pad payload s36 _ 25 Hb Hne E36 H25). cbn [DIBAN.bindR].
  destruct (base58ToBytes_ok_inv addr payload E58) as (Hs & _ & _).
  destruct (base58_string_bytes_string addr Hs) as (bytes & Eb & _ & _ & Eback).
  rewrite E58 in Eb. apply Ok_inj in Eb. subst bytes.
  destruct (Nat.eqb_spec (DIBAN.leadingOnes addr) (length addr)) as [Hall|_];
    [contradiction|].
  rewrite (bytesToBase58_zeros _ payload addr Hb Hne Eback). reflexivity.
Qed.

Lemma diban_roundtrip_witness :
  exists diban ty,
    DIBAN.encodeDIBAN (DIBAN.str "DTqAFgNNUgiPEfFmc4HZUkqJ4sz5vADd1n") = DIBAN.Ok (diban, ty) /\
    DIBAN.decodeDIBAN diban
    = DIBAN.Ok (DIBAN.Base58Address (DIBAN.str "DTqAFgNNUgiPEfFmc4HZUkqJ4sz5vADd1n")
                  (DIBAN.str "00") (DIBAN.str "P2PKH") (DIBAN.str "Pay-to-Public-Key-Hash")).
Proof.
  destruct (DIBAN.base58ToBytes (DIBAN.str "DTqAFgNNUgiPEfFmc4HZUkqJ4sz5vADd1n"))
    as [payload| |] eqn:E58; [|vm_compute in E58; discriminate E58..].
  assert (El : length payload = 25).
  { vm_compute in E58. injection E58 as <-. reflexivity. }
  destruct (diban_roundtrip (DIBAN.str "DTqAFgNNUgiPEfFmc4HZUkqJ4sz5vADd1n") payload)
    as (diban & Eenc & _ & Edec);
    [vm_compute; discriminate|exact E58|lia|vm_compute; lia|].
  exists diban, (DIBAN.detectAddressType (DIBAN.str "DTqAFgNNUgiPEfFmc4HZUkqJ4sz5vADd1n")).
  split; [exact Eenc|]. rewrite Edec, El. reflexivity.
Defined.

Section DibanDecodeOutcomes.

Local Open Scope Z_scope.

Lemma ascii_forallb (f : ascii -> bool) :
  forallb f (map ascii_of_nat (seq 0 256)) = true -> forall c, f c = true.
Proof.
  intros H c. rewrite forallb_forall in H. apply H.
  apply in_map_iff. exists (nat_of_ascii c). split; [apply ascii_nat_embedding|].
  apply in_seq. pose proof (nat_ascii_bounded c). lia.
Qed.

Lemma lower_do_iban c :
  DIBAN.toLowerChar c = "d"%char \/ DIBAN.toLowerChar c = "o"%char -> iban_char c.
Proof.
  intros H.
  pose proof (ascii_forallb
    (fun c => implb (Ascii.eqb (DIBAN.toLowerChar c) "d" || Ascii.eqb (DIBAN.toLowerChar c) "o")
                    (48 <=? DIBAN.charCode c)) ltac:(vm_compute; reflexivity) c) as Hc.
  cbv beta in Hc. unfold iban_char. apply Z.leb_le.
  destruct H as [E|E]; rewrite E in Hc; exact Hc.
Qed.

Lemma isAlnum_iban c : DIBAN.isAlnum c = true -> iban_char c.
Proof.
  intros H.
  pose proof (ascii_forallb
    (fun c => implb (DIBAN.isAlnum c) (48 <=? DIBAN.charCode c))
    ltac:(vm_compute; reflexivity) c) as Hc.
  cbv beta in Hc. rewrite H in Hc. unfold iban_char. now apply Z.leb_le.
Qed.

Lemma Forall_forallb_true {A : Type} (f : A -> bool) (l : list A) :
  forallb f l = true -> Forall (fun x => f x = true) l.
Proof.
  intros H. rewrite forallb_forall in H. apply Forall_forall.
  intros x Hx. apply H. now apply list_elem_of_In.
Qed.

(** A string that passes the pattern of [verifyDIBAN] holds only
    characters that [ibanMod97] accepts. *)
Lemma matchesDIBAN_iban clean :
  DIBAN.matchesDIBAN clean = true -> Forall iban_char clean.
Proof.
  unfold DIBAN.matchesDIBAN. intros H.
  apply andb_prop in H as [H Hal]. apply andb_prop in H as [H Hdi].
  apply andb_prop in H as [Hlen Hdo]. apply Nat.eqb_eq in Hlen.
  rewrite <- (take_drop 2 clean). apply Forall_app. split.
  - destruct clean as [|c1 [|c2 rest]]; try discriminate Hlen.
    cbn [take map DIBAN.startsWith DIBAN.str String.list_ascii_of_string] in Hdo |- *.
    cbv [DIBAN.str String.list_ascii_of_string] in Hdo. cbn [DIBAN.startsWith] in Hdo.
    apply andb_prop in Hdo as [H1 H2]. apply andb_prop in H2 as [H2 _].
    apply Ascii.eqb_eq in H1, H2.
    repeat constructor; apply lower_do_iban; [left|right]; congruence.
  - rewrite <- (take_drop 4 (drop 2 clean)). apply Forall_app. split.
    + apply Forall_forallb_true in Hdi. eapply Forall_impl; [exact Hdi|].
      intros c Hc. now apply isDigit_iban.
    + rewrite drop_drop. change (2 + 4)%nat with 6%nat.
      apply Forall_forallb_true in Hal. eapply Forall_impl; [exact Hal|].
      intros c Hc. now apply isAlnum_iban.
Qed.

(** [verifyDIBAN] always returns a boolean. *)
Lemma verifyDIBAN_total d : exists b, DIBAN.verifyDIBAN d = DIBAN.Ok b.
Proof.
  unfold DIBAN.verifyDIBAN. cbv zeta.
  destruct (DIBAN.matchesDIBAN (DIBAN.removeWhiteSpace d)) eqn:Em; cbn [negb];
    [|now exists false].
  apply matchesDIBAN_iban in Em.
  rewrite ibanMod97_value
    by (apply Forall_app; split; [now apply Forall_drop|now apply Forall_take]).
  cbn [DIBAN.bindR]. eexists. reflexivity.
Qed.

Lemma base36ToBytes_bytes s byteLen bytes :
  DIBAN.base36ToBytes s byteLen = DIBAN.Ok bytes -> Forall byte_ok bytes /\ bytes <> [].
Proof.
  intros E.
  destruct (decide (Forall (fun c => c ∈ DIBAN.BASE36) s)) as [Hs|Hs].
  - rewrite base36ToBytes_valid in E by exact Hs. cbv zeta in E. apply Ok_inj in E.
    destruct (indexOf_digits_ok DIBAN.BASE36 36 BASE36_length s Hs) as [Hds _].
    pose proof (digitsValue_bound 36 ltac:(lia) _ Hds) as Hn.
    destruct (hexToBytes_toString _ (proj1 Hn)) as (HRb & _ & HR0 & HRpos).
    set (n := digitsValue 36 (map (DIBAN.indexOf DIBAN.BASE36) s)) in *.
    set (R := DIBAN.hexToBytes (DIBAN.evenPad (DIBAN.toStringRadix 16 n))) in *.
    assert (HRne : R <> []).
    { destruct (Z.eq_dec n 0) as [E0|Hne]; [rewrite (HR0 E0); discriminate|].
      apply HRpos. lia. }
    rewrite <- E. destruct (_ <? _)%nat.
    + split.
      * apply Forall_app. split; [apply Forall_replicate; unfold byte_ok; lia|exact HRb].
      * intros E0. apply app_eq_nil in E0 as [_ E0]. contradiction.
    + now split.
  - unfold DIBAN.base36ToBytes in E.
    rewrite (parseDigits_invalid DIBAN.BASE36 36 BASE36_length) in E by exact Hs.
    discriminate E.
Qed.

Lemma base36ToBytes_outcome s byteLen :
  if decide (Forall (fun c => c ∈ DIBAN.BASE36) s)
  then exists bytes, DIBAN.base36ToBytes s byteLen = DIBAN.Ok bytes
  else DIBAN.base36ToBytes s byteLen = DIBAN.Err DIBAN.InvalidBase36Character.
Proof.
  destruct (decide _) as [Hs|Hs].
  - rewrite base36ToBytes_valid by exact Hs. cbv zeta. eexists. reflexivity.
  - unfold DIBAN.base36ToBytes.
    now rewrite (parseDigits_invalid DIBAN.BASE36 36 BASE36_length) by exact Hs.
Qed.

End DibanDecodeOutcomes.

(** X26.  Outcomes of [verifyDIBAN] and [decodeDIBAN].  [verifyDIBAN]
    never throws: it returns a boolean for every string.  [decodeDIBAN]
    throws "Invalid DIBAN checksum" exactly when [verifyDIBAN] returns
    [false].  When [verifyDIBAN] returns [true], [decodeDIBAN] returns a
    result if the 39 payload characters are digits and capital letters,
    and throws "Invalid Base36 character" otherwise: the pattern of
    [verifyDIBAN] is case-insensitive, the Base36 alphabet is not. *)
Theorem diban_decode_outcomes (d : list ascii) :
  (exists b, DIBAN.verifyDIBAN d = DIBAN.Ok b) /\
  (DIBAN.verifyDIBAN d = DIBAN.Ok false <->
   DIBAN.decodeDIBAN d = DIBAN.Err DIBAN.InvalidDIBANChecksum) /\
  (DIBAN.verifyDIBAN d = DIBAN.Ok true ->
   if decide (Forall (fun c => c ∈ DIBAN.BASE36) (drop 6 (DIBAN.removeWhiteSpace d)))
   then exists r, DIBAN.decodeDIBAN d = DIBAN.Ok r
   else DIBAN.decodeDIBAN d = DIBAN.Err DIBAN.InvalidBase36Character).
Proof.
  assert (Htrue : DIBAN.verifyDIBAN d = DIBAN.Ok true ->
    if decide (Forall (fun c => c ∈ DIBAN.BASE36) (drop 6 (DIBAN.removeWhiteSpace d)))
    then exists r, DIBAN.decodeDIBAN d = DIBAN.Ok r
    else DIBAN.decodeDIBAN d = DIBAN.Err DIBAN.InvalidBase36Character).
  { intros Ev. unfold DIBAN.decodeDIBAN. rewrite Ev. cbn [DIBAN.bindR negb]. cbv zeta.
    pose proof (base36ToBytes_outcome (drop 6 (DIBAN.removeWhiteSpace d)) 25) as H36.
    destruct (decide _) as [Hs|Hs].
    - destruct H36 as (bytes & E36). rewrite E36. cbn [DIBAN.bindR].
      destruct (DIBAN.strEq _ _); [eexists; reflexivity|].
      destruct (base36ToBytes_bytes _ _ _ E36) as [Hb Hne].
      destruct (bytesToBase58_spec bytes Hb Hne) as (ds & _ & _ & _ & E58).
      rewrite E58. cbn [DIBAN.bindR]. eexists. reflexivity.
    - now rewrite H36. }
  split; [apply verifyDIBAN_total|]. split; [|exact Htrue].
  destruct (verifyDIBAN_total d) as ([|] & Ev).
  - split; [rewrite Ev; discriminate|]. intros Ed. specialize (Htrue Ev).
    destruct (decide _); [destruct Htrue as (r & Er)|]; rewrite Ed in *; discriminate.
  - split; [|trivial]. intros _. unfold DIBAN.decodeDIBAN. now rewrite Ev.
Qed.

Lemma diban_decode_outcomes_witness :
  DIBAN.verifyDIBAN (DIBAN.str "DO36 0000 0000 0000 0000 0000 0000 0000 0000 0000 0000 a")
  = DIBAN.Ok true /\
  DIBAN.decodeDIBAN (DIBAN.str "DO36 0000 0000 0000 0000 0000 0000 0000 0000 0000 0000 a")
  = DIBAN.Err DIBAN.InvalidBase36Character.
Proof.
  assert (Ev : DIBAN.verifyDIBAN
                 (DIBAN.str "DO36 0000 0000 0000 0000 0000 0000 0000 0000 0000 0000 a")
               = DIBAN.Ok true) by (vm_compute; reflexivity).
  split; [exact Ev|].
  pose proof (proj2 (proj2 (diban_decode_outcomes
    (DIBAN.str "DO36 0000 0000 0000 0000 0000 0000 0000 0000 0000 0000 a"))) Ev) as H.
  destruct (decide _) as [Hs|Hs]; [|exact H].
  exfalso. apply Forall_forall with (x := "a"%char) in Hs.
  - revert Hs. apply (bool_decide_unpack _). vm_compute. exact I.
  - apply (bool_decide_unpack _). vm_compute. exact I.
Defined.

(** * A private key through the image *)

Section PrivateKeyRoundTrip.

Lemma trimStart_clean t :
  Forall (fun c => DIBAN.isWhiteSpace c = false) t -> DIBAN.trimStart t = t.
Proof.
  intros Ht. destruct t as [|c t]; [reflexivity|].
  apply Forall_cons in Ht as [Hc _]. cbn. now rewrite Hc.
Qed.

Lemma trim_clean t :
  Forall (fun c => DIBAN.isWhiteSpace c = false) t -> DIBAN.trim t = t.
Proof.
  intros Ht. unfold DIBAN.trim.
  rewrite (trimStart_clean t Ht).
  rewrite trimStart_clean by (now apply Forall_rev).
  apply rev_involutive.
Qed.

Lemma base58_char_no_space c : c ∈ DIBAN.BASE58 -> DIBAN.isWhiteSpace c = false.
Proof.
  intros Hc.
  assert (Hall : forallb (fun c => negb (DIBAN.isWhiteSpace c)) DIBAN.BASE58 = true)
    by (vm_compute; reflexivity).
  rewrite forallb_forall in Hall. apply list_elem_of_In, Hall in Hc.
  now destruct (DIBAN.isWhiteSpace c).
Qed.

Lemma isBase58String_valid s :
  s <> [] -> Forall (fun c => c ∈ DIBAN.BASE58) s -> StegCodec.isBase58String s = true.
Proof.
  intros Hne Hs. unfold StegCodec.isBase58String.
  destruct s as [|c s']; [congruence|].
  apply forallb_Forall_true. eapply Forall_impl; [exact Hs|].
  intros x Hx. now apply bool_decide_eq_true.
Qed.

(** The bytes of a Base58 string that is not all ['1']s are at most as
    many as its characters. *)
Lemma base58ToBytes_length s bytes :
  Forall (fun c => c ∈ DIBAN.BASE58) s -> DIBAN.leadingOnes s <> length s ->
  DIBAN.base58ToBytes s = DIBAN.Ok bytes ->
  1 <= length bytes <= length s.
Proof.
  intros Hs Hones E.
  rewrite base58ToBytes_valid in E by exact Hs. apply Ok_inj in E.
  destruct (base58_digits s Hs) as (Hds & Hlead & Emap & Eval).
  destruct (leadingOnes_split s) as [Es _].
  set (z := DIBAN.leadingOnes s) in *. set (rest := drop z s) in *.
  set (ds := map (DIBAN.indexOf DIBAN.BASE58) rest) in *.
  rewrite Eval in E. set (n := digitsValue 58 ds) in *.
  assert (Hlen : length s = z + length rest).
  { rewrite Es at 1. now rewrite length_app, length_replicate. }
  assert (Hdne : ds <> []).
  { unfold ds. destruct rest; [cbn in Hlen; lia|discriminate]. }
  assert (Hpos : (0 < n)%Z) by (apply (digitsValue_pos 58); trivial; lia).
  destruct (hexToBytes_toString n ltac:(lia)) as (HRb & HRv & _ & HRpos).
  destruct (HRpos Hpos) as [HRlead HRne].
  set (R := DIBAN.hexToBytes (DIBAN.evenPad (DIBAN.toStringRadix 16 n))) in *.
  pose proof (digitsValue_lower 256 R ltac:(lia) HRb HRlead HRne) as Hlow.
  pose proof (digitsValue_bound 58 ltac:(lia) ds Hds) as Hup. fold n in Hup.
  assert (Hle : length R <= length ds).
  { destruct (Nat.le_gt_cases (length R) (length ds)) as [H|H]; [exact H|].
    assert (H1 : (58 ^ Z.of_nat (length ds) <= 256 ^ Z.of_nat (length ds))%Z)
      by (apply Z.pow_le_mono_l; lia).
    assert (H2 : (256 ^ Z.of_nat (length ds) <= 256 ^ (Z.of_nat (length R) - 1))%Z)
      by (apply Z.pow_le_mono_r; lia).
    lia. }
  rewrite <- E, length_app, length_replicate.
  assert (length ds = length rest) by (unfold ds; apply length_map).
  assert (1 <= length R) by (destruct R; [congruence|cbn; lia]).
  lia.
Qed.

Lemma pixelsNeeded_mono a b : a <= b -> pixelsNeeded a <= pixelsNeeded b.
Proof.
  intros H. unfold pixelsNeeded, ceil_div. apply Nat.Div0.div_le_mono. lia.
Qed.

(** Frame assembly, embedding and frame parsing, for a payload of 1 to
    2000 bytes in an image with room. *)
Lemma modern_frame_roundtrip px t p :
  Forall byte_ok p -> 1 <= length p <= 2000 -> t = 0%Z \/ t = 1%Z ->
  pixelsNeeded (length p) * 4 <= length px ->
  snd (encodeAddressInImage px t p) = Ret tt /\
  decodeAddressFromImage (fst (encodeAddressInImage px t p))
  = Ret (mkFrame true t (Z.of_nat (length p)) p).
Proof.
  intros Hp Hlen Ht Hcap. set (len := Z.of_nat (length p)).
  assert (Htb : byte_ok t) by (unfold byte_ok; destruct Ht; lia).
  assert (Hl : (0 <= len < 65536)%Z) by (unfold len; lia).
  pose proof (buildFrame_spec t p Htb Hp ltac:(lia)) as Eframe. fold len in Eframe.
  destruct (be16_split len Hl) as (Hhi & Hlo & Hval).
  assert (Hhdr : Forall byte_ok [t; len / 256; len mod 256]%Z).
  { repeat (apply List.Forall_cons; [assumption|]). apply List.Forall_nil. }
  assert (Hframe : Forall byte_ok (buildFrame t p)).
  { rewrite Eframe. apply Forall_app. split; [apply magic_bytes_ok|].
    apply Forall_app. split; [exact Hhdr|exact Hp]. }
  assert (Eenc : encodeAddressInImage px t p = encodeLSB px (buildFrame t p)).
  { unfold encodeAddressInImage. cbv zeta. rewrite pixelsNeeded_frame.
    destruct (Nat.ltb_spec (length px) (4 * pixelsNeeded (length p))); [lia|reflexivity]. }
  assert (Hcap' : ceil_div (length (buildFrame t p) * 8) 3 * 4 <= length px)
    by (rewrite pixelsNeeded_frame; exact Hcap).
  rewrite Eenc.
  split; [apply encodeLSB_returns; now right|].
  set (px' := fst (encodeLSB px (buildFrame t p))).
  destruct (encoded_remaining px (buildFrame t p) Hframe Hcap') as (tail & Hrem).
  fold px' in Hrem. rewrite Eframe, !bytesBits_app, <- !app_assoc in Hrem.
  destruct (read_prefix _ _ _ (newReader_ok px') magic_bytes_ok Hrem)
    as (r4 & E4 & Hok4 & Hrem4).
  change (length MAGIC_MARKER) with 4 in E4.
  destruct (read_prefix _ _ _ Hok4 Hhdr Hrem4) as (r7 & E3 & Hok7 & Hrem7).
  change (length [t; len / 256; len mod 256]%Z) with 3 in E3.
  destruct (decode_peek px' r4 r7 _ _ _ E4 E3) as (_ & _ & _ & Edec).
  rewrite Hval in Edec.
  assert (Ec : (((t =? 0) || (t =? 1)) && (1 <=? len) && (len <=? 2000))%Z = true).
  { rewrite !andb_true_iff, orb_true_iff, !Z.eqb_eq, !Z.leb_le. unfold len. lia. }
  rewrite Ec in Edec.
  unfold len in Edec at 1. rewrite Nat2Z.id in Edec.
  destruct (read_prefix _ _ _ Hok7 Hp Hrem7) as (r' & E & _).
  rewrite E in Edec. exact Edec.
Qed.

(** What the module makes of a WIF-shaped input. *)
Lemma inputBytes_private_key dibanLoaded input bytes :
  let key := DIBAN.trim input in
  51 <= length key <= 52 -> Forall (fun c => c ∈ DIBAN.BASE58) key ->
  DIBAN.base58ToBytes key = DIBAN.Ok bytes ->
  StegCodec.inputBytes dibanLoaded input = DIBAN.Ok (1%Z, bytes).
Proof.
  intros key Hlen Hs E.
  assert (Hne : key <> []) by (intros E0; rewrite E0 in Hlen; cbn in Hlen; lia).
  assert (Eb : StegCodec.base58ToBytesSteg dibanLoaded key = DIBAN.Ok bytes).
  { destruct dibanLoaded; [exact E|]. now rewrite base58ToBytesSteg_local. }
  assert (Hclean : DIBAN.trim key = key).
  { apply trim_clean. eapply Forall_impl; [exact Hs|].
    intros c Hc. now apply base58_char_no_space. }
  assert (Edet : StegCodec.detectDataType dibanLoaded input
                 = StegCodec.mkDataInfo StegCodec.PrivateKeyData key
                     (DIBAN.mkAddressType (DIBAN.str "WIF") (DIBAN.str "WIF")
                        (DIBAN.str "WIF (Base58)"))).
  { unfold StegCodec.detectDataType, StegCodec.detectPrivateKeyType. cbv zeta.
    fold key. rewrite Hclean.
    destruct (Nat.leb_spec 51 (length key)); [|lia].
    destruct (Nat.leb_spec (length key) 52); [|lia]. cbn [andb].
    rewrite isBase58String_valid by trivial. now rewrite Eb. }
  unfold StegCodec.inputBytes. cbv zeta. rewrite Edet.
  cbn [StegCodec.kind StegCodec.data]. now rewrite Eb.
Qed.

End PrivateKeyRoundTrip.

(** X27.  A WIF private key through the image (steganography module,
    version 2.0, with or without [diban.js] loaded).  Let the input,
    trimmed, be 51 or 52 Base58 characters, not all ['1'], and let the
    image have at least 158 pixels.  Then [encodeAddressInImage] takes
    the input as a private key, embeds its Base58 bytes with type byte
    1 and returns normally, and [decodeAddressFromImage] on the result
    parses a new-format frame with type byte 1 whose bytes
    [bytesToBase58Steg] turns back into the trimmed input. *)
Theorem private_key_image_roundtrip (dibanLoaded : bool) (px : list Z)
    (input : list ascii) :
  let key := DIBAN.trim input in
  51 <= length key <= 52 -> Forall (fun c => c ∈ DIBAN.BASE58) key ->
  DIBAN.leadingOnes key <> length key ->
  158 * 4 <= length px ->
  exists bytes px' f,
    StegCodec.inputBytes dibanLoaded input = DIBAN.Ok (1%Z, bytes) /\
    StegCodec.encodeAddressInImage dibanLoaded px input = DIBAN.Ok (px', Ret tt) /\
    decodeAddressFromImage px' = Ret f /\
    isNewFormat f = true /\ dataTypeByte f = 1%Z /\ dataBytes f = bytes /\
    StegCodec.decodeFrame dibanLoaded f = StegCodec.PrivateKey (DIBAN.Ok key).
Proof.
  intros key Hlen Hs Hones Hpx.
  destruct (base58_string_bytes_string key Hs) as (bytes & E58 & Hb & Hne & Eback).
  destruct (Nat.eqb_spec (DIBAN.leadingOnes key) (length key)) as [Hall|_];
    [contradiction|].
  pose proof (base58ToBytes_length key bytes Hs Hones E58) as Hbl.
  pose proof (inputBytes_private_key dibanLoaded input bytes Hlen Hs E58) as Ein.
  assert (Hcap : pixelsNeeded (length bytes) * 4 <= length px).
  { pose proof (pixelsNeeded_mono (length bytes) 52 ltac:(lia)) as Hm.
    change (pixelsNeeded 52) with 158 in Hm. lia. }
  destruct (modern_frame_roundtrip px 1%Z bytes Hb ltac:(lia) ltac:(now right) Hcap)
    as [Eret Edec].
  exists bytes, (fst (encodeAddressInImage px 1%Z bytes)),
    (mkFrame true 1%Z (Z.of_nat (length bytes)) bytes).
  split; [exact Ein|]. split.
  { unfold StegCodec.encodeAddressInImage. rewrite Ein. cbn [DIBAN.bindR].
    f_equal. rewrite <- Eret. now destruct (encodeAddressInImage px 1%Z bytes). }
  split; [exact Edec|]. split; [reflexivity|]. split; [reflexivity|].
  split; [reflexivity|].
  unfold StegCodec.decodeFrame. cbn [isNewFormat dataTypeByte dataBytes andb].
  change (1 =? 1)%Z with true. cbv iota. f_equal.
  unfold StegCodec.bytesToBase58Steg.
  destruct dibanLoaded; [exact Eback|].
  destruct bytes as [|b bytes']; [congruence|]. exact Eback.
Qed.

Lemma private_key_image_roundtrip_witness :
  exists px',
    StegCodec.encodeAddressInImage false (replicate (158 * 4) 255%Z)
      (DIBAN.str " QNcdLVw8fHkixm6NNyN6nVwxKek4u7qrioRbQmjxac5TVoTtZuot ")
    = DIBAN.Ok (px', Ret tt) /\
    exists f,
      decodeAddressFromImage px' = Ret f /\
      StegCodec.decodeFrame false f
      = StegCodec.PrivateKey
          (DIBAN.Ok (DIBAN.str "QNcdLVw8fHkixm6NNyN6nVwxKek4u7qrioRbQmjxac5TVoTtZuot")).
Proof.
  destruct (private_key_image_roundtrip false (replicate (158 * 4) 255%Z)
              (DIBAN.str " QNcdLVw8fHkixm6NNyN6nVwxKek4u7qrioRbQmjxac5TVoTtZuot "))
    as (bytes & px' & f & _ & Eenc & Edec & _ & _ & _ & Ekey).
  - vm_compute. lia.
  - apply (bool_decide_unpack _). vm_compute. exact I.
  - vm_compute. lia.
  - rewrite length_replicate. lia.
  - exists px'. split; [exact Eenc|]. exists f. split; [exact Edec|]. exact Ekey.
Defined.

(** * The codec step of [decodeAddressFromImage] *)

Section DecodeCodecFacts.

Lemma bytesToBase58Steg_returns (dibanLoaded : bool) (bytes : list Z) :
  Forall byte_ok bytes -> bytes <> [] ->
  exists s, StegCodec.bytesToBase58Steg dibanLoaded bytes = DIBAN.Ok s.
Proof.
  intros Hb Hne.
  destruct (bytesToBase58_spec bytes Hb Hne) as (ds & _ & _ & _ & E).
  unfold StegCodec.bytesToBase58Steg.
  destruct dibanLoaded; [eauto|].
  destruct bytes as [|b bytes']; [congruence|].
  rewrite bytesToBase58Local_eq. eauto.
Qed.

(** The address statements resolve on every non-empty payload: with a
    "doge1" text, or with the Base58 string of the bytes. *)
Lemma decodeAddress_resolves (dibanLoaded : bool) (bytes : list Z) :
  Forall byte_ok bytes -> bytes <> [] ->
  exists d, V2.decodeAddress dibanLoaded bytes = V2.Resolved d.
Proof.
  intros Hb Hne. unfold V2.decodeAddress. cbv zeta.
  destruct (V2.startsWith _ _).
  - destruct (V2.toString8 _); eauto.
  - destruct (bytesToBase58Steg_returns dibanLoaded bytes Hb Hne) as (s & ->). eauto.
Qed.

(** They never throw an error of the steganography module. *)
Lemma decodeAddress_codec_error (dibanLoaded : bool) (bytes : list Z) (e : Error) :
  V2.decodeAddress dibanLoaded bytes <> V2.Rejected (V2.Steg e).
Proof.
  unfold V2.decodeAddress. cbv zeta.
  destruct (V2.startsWith _ _).
  - destruct (V2.toString8 _); discriminate.
  - destruct (StegCodec.bytesToBase58Steg _ _); discriminate.
Qed.

(** No bytes: the text is empty, so the bytes go to
    [bytesToBase58Steg]; [diban.js]'s [bytesToBase58] then calls
    [BigInt("0x")], a [SyntaxError], and the local copy returns the empty
    string. *)
Lemma decodeAddress_empty (dibanLoaded : bool) :
  V2.decodeAddress dibanLoaded []
  = if dibanLoaded then V2.Rejected (V2.Codec DIBAN.SyntaxError)
    else V2.Resolved (V2.DecodedAddress [] (StegCodec.detectAddressType [])).
Proof. destruct dibanLoaded; reflexivity. Qed.

Lemma decode_legacy_frame (dibanLoaded : bool) (px : list Z) (len : Z) (payload : list Z) :
  decodeAddressFromImage px = Ret (mkFrame false 0%Z len payload) ->
  V2.decodeAddressFromImage dibanLoaded px = V2.decodeAddress dibanLoaded payload.
Proof.
  intros E. unfold V2.decodeAddressFromImage. rewrite E. reflexivity.
Qed.

End DecodeCodecFacts.

(** ** C10: the legacy length is not validated *)

(** C10 (as amended).  In the legacy branch the length [(b0 << 8) | b1]
    is used as it is, whatever its value in [0, 65535].  When the buffer
    does not hold that many bytes after magic and length, the decode is
    rejected with "Not enough data".  When it does, the payload of that
    length is read and handed to the address statements, whose outcome
    is the outcome of the decode; for a length of at least 1 the decode
    resolves.  A length of 0 reads an empty payload: the decode is then
    rejected with the [SyntaxError] of [BigInt("0x")] when [diban.js] is
    loaded, and resolves with the empty address when it is not.  The
    only error of the steganography module the decode can end with is
    "Not enough data", never "Invalid data length". *)
Theorem legacy_length_unvalidated (dibanLoaded : bool) (px : list Z)
    (r4 r7 : PixelBitReader) (b0 b1 b2 : Z) :
  readBytes (newReader px) 4 = Ret (MAGIC_MARKER, r4) ->
  readBytes r4 3 = Ret ([b0; b1; b2], r7) ->
  ~ ((b0 = 0 \/ b0 = 1) /\ 1 <= 256 * b1 + b2 <= 2000)%Z ->
  let len := (256 * b0 + b1)%Z in
  (0 <= len <= 65535)%Z /\
  (length px / 4 * 3 < 48 + Z.to_nat len * 8 ->
     V2.decodeAddressFromImage dibanLoaded px = V2.Rejected (V2.Steg NotEnoughData)) /\
  (48 + Z.to_nat len * 8 <= length px / 4 * 3 ->
     exists payload,
       length payload = Z.to_nat len /\ Forall byte_ok payload /\
       decodeAddressFromImage px = Ret (mkFrame false 0%Z len payload) /\
       V2.decodeAddressFromImage dibanLoaded px = V2.decodeAddress dibanLoaded payload /\
       ((1 <= len)%Z ->
        exists d, V2.decodeAddressFromImage dibanLoaded px = V2.Resolved d)) /\
  (len = 0%Z ->
     V2.decodeAddressFromImage dibanLoaded px
     = if dibanLoaded then V2.Rejected (V2.Codec DIBAN.SyntaxError)
       else V2.Resolved (V2.DecodedAddress [] (StegCodec.detectAddressType []))) /\
  (forall e, V2.decodeAddressFromImage dibanLoaded px = V2.Rejected (V2.Steg e) ->
     e = NotEnoughData).
Proof.
  intros E4 E3 Hleg len.
  destruct (legacy_frame_outcomes px r4 r7 b0 b1 b2 E4 E3 Hleg)
    as (Hrange & Hfit & Hshort & Hzero & _).
  fold len in Hrange, Hfit, Hshort, Hzero.
  assert (Hthrow : length px / 4 * 3 < 48 + Z.to_nat len * 8 ->
     V2.decodeAddressFromImage dibanLoaded px = V2.Rejected (V2.Steg NotEnoughData)).
  { intros Hroom. unfold V2.decodeAddressFromImage. now rewrite (Hshort Hroom). }
  split; [exact Hrange|]. split; [exact Hthrow|]. split; [|split].
  - intros Hroom. destruct (Hfit Hroom) as (payload & Hl & Hb & E).
    exists payload. split; [exact Hl|]. split; [exact Hb|]. split; [exact E|].
    pose proof (decode_legacy_frame dibanLoaded px len payload E) as Ed.
    split; [exact Ed|].
    intros Hpos. rewrite Ed. apply decodeAddress_resolves; [exact Hb|].
    intros ->. cbn [length] in Hl. lia.
  - intros E0.
    rewrite (decode_legacy_frame dibanLoaded px 0%Z []) by (apply Hzero; exact E0).
    apply decodeAddress_empty.
  - intros e Ee.
    destruct (Nat.le_gt_cases (48 + Z.to_nat len * 8) (length px / 4 * 3)) as [H|H].
    + destruct (Hfit H) as (payload & _ & _ & E).
      rewrite (decode_legacy_frame dibanLoaded px len payload E) in Ee.
      now apply decodeAddress_codec_error in Ee.
    + rewrite (Hthrow H) in Ee. now injection Ee.
Qed.

Lemma legacy_length_unvalidated_witness :
  (let r4 := readerAfter (readBytes (newReader emptyLegacyCarrier) 4) (newReader []) in
   let r7 := readerAfter (readBytes r4 3) (newReader []) in
   readBytes (newReader emptyLegacyCarrier) 4 = Ret (MAGIC_MARKER, r4) /\
   readBytes r4 3 = Ret ([0; 0; 0]%Z, r7) /\
   ~ ((0 = 0 \/ 0 = 1) /\ 1 <= 256 * 0 + 0 <= 2000)%Z /\
   V2.decodeAddressFromImage true emptyLegacyCarrier
   = V2.Rejected (V2.Codec DIBAN.SyntaxError)) /\
  (let r4 := readerAfter (readBytes (newReader truncatedLegacyCarrier) 4) (newReader []) in
   let r7 := readerAfter (readBytes r4 3) (newReader []) in
   readBytes (newReader truncatedLegacyCarrier) 4 = Ret (MAGIC_MARKER, r4) /\
   readBytes r4 3 = Ret ([255; 255; 0]%Z, r7) /\
   ~ ((255 = 0 \/ 255 = 1) /\ 1 <= 256 * 255 + 0 <= 2000)%Z /\
   V2.decodeAddressFromImage true truncatedLegacyCarrier
   = V2.Rejected (V2.Steg NotEnoughData)).
Proof.
  split; intros r4 r7.
  - assert (E4 : readBytes (newReader emptyLegacyCarrier) 4 = Ret (MAGIC_MARKER, r4))
      by (vm_compute; reflexivity).
    assert (E3 : readBytes r4 3 = Ret ([0; 0; 0]%Z, r7)) by (vm_compute; reflexivity).
    assert (Hleg : ~ ((0 = 0 \/ 0 = 1) /\ 1 <= 256 * 0 + 0 <= 2000)%Z) by lia.
    split; [exact E4|]. split; [exact E3|]. split; [exact Hleg|].
    destruct (legacy_length_unvalidated true emptyLegacyCarrier r4 r7 0%Z 0%Z 0%Z
                E4 E3 Hleg) as (_ & _ & _ & Hzero & _).
    apply Hzero. reflexivity.
  - assert (E4 : readBytes (newReader truncatedLegacyCarrier) 4 = Ret (MAGIC_MARKER, r4))
      by (vm_compute; reflexivity).
    assert (E3 : readBytes r4 3 = Ret ([255; 255; 0]%Z, r7)) by (vm_compute; reflexivity).
    assert (Hleg : ~ ((255 = 0 \/ 255 = 1) /\ 1 <= 256 * 255 + 0 <= 2000)%Z) by lia.
    split; [exact E4|]. split; [exact E3|]. split; [exact Hleg|].
    destruct (legacy_length_unvalidated true truncatedLegacyCarrier r4 r7 255%Z 255%Z 0%Z
                E4 E3 Hleg) as (_ & Hshort & _).
    apply Hshort.
    assert (Hl : length truncatedLegacyCarrier / 4 * 3 = 57) by (vm_compute; reflexivity).
    rewrite Hl. lia.
Defined.

(** C10 as stated fails: the carrier below holds the legacy frame
    [MAGIC | 00 00], frame parsing classifies it as legacy with length 0
    and reads the empty payload, and with [diban.js] loaded the decode
    does not succeed: it is rejected with the [SyntaxError] that
    [bytesToBase58] raises on no bytes. *)
Lemma legacy_zero_length_counterexample :
  decodeAddressFromImage emptyLegacyCarrier = Ret (mkFrame false 0%Z 0%Z []) /\
  V2.decodeAddressFromImage true emptyLegacyCarrier
  = V2.Rejected (V2.Codec DIBAN.SyntaxError) /\
  forall d, V2.decodeAddressFromImage true emptyLegacyCarrier <> V2.Resolved d.
Proof.
  assert (E : V2.decodeAddressFromImage true emptyLegacyCarrier
              = V2.Rejected (V2.Codec DIBAN.SyntaxError)) by (vm_compute; reflexivity).
  split; [vm_compute; reflexivity|]. split; [exact E|].
  intros d. rewrite E. discriminate.
Qed.
